(** * stk_mesh bucket repository: a shallow embedding of
      [stk_mesh/baseImpl/BucketRepository.cpp] and the properties of its
      storage engine.

    Conventions.  An [unsigned] is a 32-bit word kept as a [Z] with its
    wrap-around written out ([wrap_unsigned]); a [size_t] is a 64-bit word
    ([wrap_size_t]); pointers are 8 bytes (LP64).  Sizes, capacities and slot
    ordinals index arrays and are kept as [nat]: every operation below that
    could take them out of [0, 2^32) runs into an out-of-range array access
    first, which the model reports as [Undefined].  A [Bucket *] is an address
    into a heap of bucket objects, an [Entity *] is an address as well. *)

From stdpp Require Import gmap list strings sorting.
From Stdlib Require Import ZArith Lia.

Set Default Proof Using "Type".

(** ** Machine words *)

Module Platform.

Definition UINT_MAX : Z := 4294967295.

Definition wrap_unsigned (z : Z) : Z := (z mod 4294967296)%Z.

Definition wrap_size_t (z : Z) : Z := (z mod 18446744073709551616)%Z.

Definition sizeof_Entity_ptr : Z := 8.

End Platform.

Import Platform.

(** ** Errors

    The exceptions thrown by the translation unit, [BadAlloc] for the
    [std::bad_alloc] of a [std::vector] that cannot allocate while the
    repository is being changed, and [Undefined] for executions that leave
    the C++ abstract machine (dangling bucket pointer, out-of-range slot,
    null entity dereference). *)

Inductive Error : Type :=
  | MallocFailed                         (* std::runtime_error, local_malloc *)
  | BadAlloc                             (* std::bad_alloc, std::vector *)
  | IncompatibleDimensions (method field : string) (p_old p_new : Z)
                                         (* std::runtime_error, dimension *)
  | LogicError (method : string)         (* std::logic_error( method ) *)
  | TooManyBuckets (method : string)     (* "insanely large number of buckets" *)
  | BadEntityRank (method : string)      (* assert_entity_rank *)
  | Undefined.

(** ** Field restrictions and [dimension] *)

(** Modelled from the spec: [EntityKey] is declared outside the shown sources;
    the spec calls it a (kind, category) pair, ordered by kind first. *)
Record EntityKey : Type := MkEntityKey { ek_rank : Z; ek_id : Z }.

Definition entity_key_less (a b : EntityKey) : bool :=
  (ek_rank a <? ek_rank b)%Z
  || ((ek_rank a =? ek_rank b)%Z && (ek_id a <? ek_id b)%Z).

Definition entity_key_eqb (a b : EntityKey) : bool :=
  (ek_rank a =? ek_rank b)%Z && (ek_id a =? ek_id b)%Z.

(** [FieldBase::Restriction]: the key of the (kind, part) it binds and the
    stride array. *)
Record Restriction : Type := MkRestriction {
  r_key : EntityKey;
  r_stride : list Z
}.

Definition r_ordinal (r : Restriction) : Z := ek_id (r_key r).

(** What the translation unit reads of a [FieldBase]. *)
Record FieldBase : Type := MkField {
  f_name : string;
  f_rank : nat;                       (* field.rank() *)
  f_stride_of : Z;                    (* field.data_traits().stride_of *)
  f_restrictions : list Restriction   (* field.restrictions(), sorted by key *)
}.

(** [FieldRestrictionLess] *)
Definition FieldRestrictionLess (lhs : Restriction) (rhs : EntityKey) : bool :=
  entity_key_less (r_key lhs) rhs.

(** [std::lower_bound( ibeg , iend , key , FieldRestrictionLess() )]: the
    remaining range from the first restriction that is not less than [key].
    The scan agrees with the binary search on every range that is partitioned
    by the predicate, which is all the standard defines it for. *)
Fixpoint restriction_lower_bound (range : list Restriction) (key : EntityKey)
  : list Restriction :=
  match range with
  | [] => []
  | r :: rest =>
      if FieldRestrictionLess r key then restriction_lower_bound rest key
      else range
  end.

(** [Compare< MaximumFieldDimension >::not_equal] on two stride arrays. *)
Definition stride_not_equal (a b : list Z) : bool :=
  negb (bool_decide (a = b)).

(** The loop of [dimension].  [dim = None] stands for the pointer to
    [empty_field_restriction()], which the loop recognises by address. *)
Fixpoint dimension_loop (field : FieldBase) (etype : Z) (part_ord : list Z)
    (ibeg : list Restriction) (dim : option Restriction) (method : string)
  : Error + option Restriction :=
  match part_ord with
  | [] => inr dim
  | p :: part_rest =>
      match ibeg with
      | [] => inr dim
      | _ :: _ =>
          let key := MkEntityKey etype p in
          let ibeg' := restriction_lower_bound ibeg key in
          match ibeg' with
          | r :: _ =>
              if entity_key_eqb (r_key r) key then
                let d := match dim with None => r | Some d => d end in
                if stride_not_equal (r_stride r) (r_stride d) then
                  inl (IncompatibleDimensions method (f_name field)
                         (r_ordinal r) (r_ordinal d))
                else dimension_loop field etype part_rest ibeg' (Some d) method
              else dimension_loop field etype part_rest ibeg' dim method
          | [] => dimension_loop field etype part_rest ibeg' dim method
          end
      end
  end.

Definition dimension (field : FieldBase) (etype : Z) (part_ord : list Z)
    (method : string) : Error + option Restriction :=
  dimension_loop field etype part_ord (f_restrictions field) None method.

(** [dim.stride[i]] of the restriction [dimension] returned; the empty
    restriction is value-initialised, so all its strides are zero. *)
Definition dim_stride (dim : option Restriction) (i : nat) : Z :=
  match dim with
  | None => 0%Z
  | Some r => nth i (r_stride r) 0%Z
  end.

(** ** Field layout *)

Definition BYTE_ALIGN : Z := 16.

(** [inline unsigned align( size_t nb )] *)
Definition align (nb : Z) : Z :=
  let gap := wrap_unsigned (nb mod BYTE_ALIGN) in
  let nb' := if (gap =? 0)%Z then nb
             else wrap_size_t (nb + wrap_unsigned (BYTE_ALIGN - gap)) in
  wrap_unsigned nb'.

(** [impl::BucketImpl::DataMap].  [m_stride] is a pointer: [None] is [NULL],
    [Some dim] points at the stride array of [dim]. *)
Record DataMap : Type := MkDataMap {
  m_base : Z;
  m_size : Z;
  m_stride : option (option Restriction)
}.

(** The loop of [declare_bucket] that fills a new family's field map. *)
Fixpoint field_map_loop (etype : Z) (part_ord : list Z) (capacity : Z)
    (method : string) (field_set : list FieldBase) (value_offset : Z)
  : Error + list DataMap :=
  match field_set with
  | [] => inr [MkDataMap value_offset 0 None]
  | field :: rest =>
      match dimension field etype part_ord method with
      | inl e => inl e
      | inr dim =>
          let value_size :=
            if (dim_stride dim 0 =? 0)%Z then 0%Z
            else wrap_unsigned
                   (f_stride_of field *
                    match f_rank field with
                    | O => 1
                    | S r => dim_stride dim r
                    end) in
          let entry := MkDataMap value_offset value_size (Some dim) in
          let value_offset' :=
            wrap_unsigned
              (value_offset + align (wrap_unsigned (value_size * capacity))) in
          match field_map_loop etype part_ord capacity method rest
                  value_offset' with
          | inl e => inl e
          | inr fm => inr (entry :: fm)
          end
      end
  end.

Definition new_field_map (etype : Z) (part_ord : list Z) (capacity : Z)
    (method : string) (field_set : list FieldBase) : Error + list DataMap :=
  field_map_loop etype part_ord capacity method field_set
    (align (wrap_size_t (sizeof_Entity_ptr * capacity))).

(** ** Bucket keys

    Key layout, as the source documents it:
    [{ part_count + 1 , { part_ordinals } , family_count }], so that
    [family_count = key[ key[0] ]]. *)

Definition key_family_index (key : list Z) : nat := Z.to_nat (hd 0%Z key).

Definition key_family_count (key : list Z) : Z :=
  nth (key_family_index key) key 0%Z.

Definition set_family_count (key : list Z) (c : Z) : list Z :=
  <[key_family_index key := c]> key.

(** The search key [declare_bucket] builds in its temporary buffer. *)
Definition search_key (part_ord : list Z) (count : Z) : list Z :=
  (Z.of_nat (length part_ord) + 1)%Z :: part_ord ++ [count].

(** Modelled from the spec: [bucket_key_less] is declared outside the shown
    sources; the spec orders keys lexicographically. *)
Fixpoint bucket_key_less (lhs rhs : list Z) : bool :=
  match lhs, rhs with
  | [], [] => false
  | [], _ :: _ => true
  | _ :: _, [] => false
  | x :: lhs', y :: rhs' =>
      if (x <? y)%Z then true
      else if (y <? x)%Z then false
      else bucket_key_less lhs' rhs'
  end.

(** Modelled from the spec: [bucket_part_equal] is declared outside the shown
    sources; two keys are of one family when they agree on everything but the
    trailing family counter, that is on the entries before [key[ key[0] ]]. *)
Definition bucket_part_equal (lhs rhs : list Z) : bool :=
  bool_decide (take (key_family_index lhs) lhs = take (key_family_index lhs) rhs).

(** Modelled from the spec: [lower_bound( bucket_set , key )] is declared
    outside the shown sources; it is the binary search for the first bucket
    whose key is not less than [key] ([destroy_bucket] expects to find the
    bucket itself there).  The model takes the keys of the buckets in list
    order and returns the offset of the iterator. *)
Fixpoint lower_bound (keys : list (list Z)) (key : list Z) : nat :=
  match keys with
  | [] => 0
  | k :: rest => if bucket_key_less k key then S (lower_bound rest key) else 0
  end.

(** ** Buckets, entities and the repository *)

(** Field data of one slot, as opaque bytes. *)
Abbreviation SlotData := (list Z) (only parsing).

(** What the repository reads and writes of a [Bucket] through its
    [BucketImpl].  Modelled from the spec: the class is declared outside the
    shown sources; the first bucket of a family stores the pointer to the
    current last bucket ([b_family]), every bucket stores a pointer to the
    first ([b_first]); both are null until set. *)
Record Bucket : Type := MkBucket {
  b_entity_rank : nat;
  b_key : list Z;
  b_capacity : nat;
  b_size : nat;
  b_field_map : list DataMap;
  b_entities : list (option nat);      (* Entity * per slot *)
  b_field_data : list SlotData;        (* field columns, by slot *)
  b_first : option nat;
  b_family : option nat
}.

Definition with_size (n : nat) (b : Bucket) : Bucket :=
  MkBucket (b_entity_rank b) (b_key b) (b_capacity b) n (b_field_map b)
    (b_entities b) (b_field_data b) (b_first b) (b_family b).

Definition with_entities (es : list (option nat)) (b : Bucket) : Bucket :=
  MkBucket (b_entity_rank b) (b_key b) (b_capacity b) (b_size b)
    (b_field_map b) es (b_field_data b) (b_first b) (b_family b).

Definition with_field_data (ds : list SlotData) (b : Bucket) : Bucket :=
  MkBucket (b_entity_rank b) (b_key b) (b_capacity b) (b_size b)
    (b_field_map b) (b_entities b) ds (b_first b) (b_family b).

Definition with_first (f : option nat) (b : Bucket) : Bucket :=
  MkBucket (b_entity_rank b) (b_key b) (b_capacity b) (b_size b)
    (b_field_map b) (b_entities b) (b_field_data b) f (b_family b).

Definition with_family (l : option nat) (b : Bucket) : Bucket :=
  MkBucket (b_entity_rank b) (b_key b) (b_capacity b) (b_size b)
    (b_field_map b) (b_entities b) (b_field_data b) (b_first b) l.

(** The calls the repository makes on its collaborators, in program order. *)
Inductive Event : Type :=
  | EvAllocate (k : nat)
  | EvFree (k : nat)
  | EvCopyFields (k_dst i_dst k_src i_src : nat)
  | EvReplaceEntity (k i : nat) (e : option nat)
  | EvChangeEntityBucket (k e i : nat)
  | EvDecrementSize (k : nat)
  | EvPropagateRelocation (e : nat).

(** The repository with the part of the program state it works on.
    - [m_fields]: [m_mesh.mesh_meta_data().get_fields()];
    - [m_buckets]: per entity rank, the key-ordered bucket pointers;
    - [heap]: the allocated [Bucket] objects by address;
    - [entities]: the back-reference (bucket, ordinal) of every entity, kept
      by [m_entity_repo];
    - [next_address]: where [std::malloc] places the next bucket;
    - [malloc_supply]: the outcomes of the coming allocations, by
      [std::malloc] ([false]: returns [NULL]) or by a [std::vector]
      ([false]: throws); past its end every allocation succeeds;
    - [trace]: the events so far. *)
Record Repo : Type := MkRepo {
  m_fields : list FieldBase;
  m_bucket_capacity : nat;
  m_buckets : list (list nat);
  heap : gmap nat Bucket;
  entities : gmap nat (nat * nat);
  next_address : nat;
  malloc_supply : list bool;
  trace : list Event
}.

Definition with_buckets (bs : list (list nat)) (st : Repo) : Repo :=
  MkRepo (m_fields st) (m_bucket_capacity st) bs (heap st) (entities st)
    (next_address st) (malloc_supply st) (trace st).

Definition with_heap (h : gmap nat Bucket) (st : Repo) : Repo :=
  MkRepo (m_fields st) (m_bucket_capacity st) (m_buckets st) h (entities st)
    (next_address st) (malloc_supply st) (trace st).

Definition with_entity_repo (es : gmap nat (nat * nat)) (st : Repo) : Repo :=
  MkRepo (m_fields st) (m_bucket_capacity st) (m_buckets st) (heap st) es
    (next_address st) (malloc_supply st) (trace st).

Definition with_next_address (n : nat) (st : Repo) : Repo :=
  MkRepo (m_fields st) (m_bucket_capacity st) (m_buckets st) (heap st)
    (entities st) n (malloc_supply st) (trace st).

Definition with_malloc_supply (s : list bool) (st : Repo) : Repo :=
  MkRepo (m_fields st) (m_bucket_capacity st) (m_buckets st) (heap st)
    (entities st) (next_address st) s (trace st).

Definition with_trace (t : list Event) (st : Repo) : Repo :=
  MkRepo (m_fields st) (m_bucket_capacity st) (m_buckets st) (heap st)
    (entities st) (next_address st) (malloc_supply st) t.

(** ** The state-and-exception monad

    A computation runs on a repository and ends with a value or an [Error];
    the repository it leaves behind is kept in both cases, as a C++ exception
    leaves the objects as they were when it was thrown. *)

Definition M (A : Type) : Type := Repo → (Error + A) * Repo.

Definition throw {A} (e : Error) : M A := λ st, (inl e, st).

#[global] Instance M_ret : MRet M := λ A a st, (inr a, st).

#[global] Instance M_bind : MBind M := λ A B f c st,
  match c st with
  | (inr a, st') => f a st'
  | (inl e, st') => (inl e, st')
  end.

Definition gets {A} (f : Repo → A) : M A := λ st, (inr (f st), st).

Definition modify (f : Repo → Repo) : M unit := λ st, (inr tt, f st).

Definition lift {A} (r : Error + A) : M A :=
  match r with inl e => throw e | inr a => mret a end.

(** Dereference of something that has to be there. *)
Definition deref {A} (o : option A) : M A :=
  match o with Some a => mret a | None => throw Undefined end.

Definition log (e : Event) : M unit :=
  modify (λ st, with_trace (trace st ++ [e]) st).

Definition get_bucket (k : nat) : M Bucket :=
  h ← gets heap; deref (h !! k).

Definition put_bucket (k : nat) (b : Bucket) : M unit :=
  modify (λ st, with_heap (<[k := b]> (heap st)) st).

(** [local_malloc]: throws when [std::malloc] returns [NULL]. *)
Definition local_malloc : M unit := λ st,
  match malloc_supply st with
  | [] => (inr tt, st)
  | ok :: rest =>
      (if ok : bool then inr tt else inl MallocFailed, with_malloc_supply rest st)
  end.

(** An allocation made by a [std::vector]: [bucket_set.insert( ik , bucket )]
    when the list has to grow, [std::vector<Entity*> entities( count )].  It
    throws [std::bad_alloc] when the allocator has no memory; its outcomes
    are drawn from the same supply as those of [std::malloc]. *)
Definition vector_allocate : M unit := λ st,
  match malloc_supply st with
  | [] => (inr tt, st)
  | ok :: rest =>
      (if ok : bool then inr tt else inl BadAlloc, with_malloc_supply rest st)
  end.

(** Modelled from the spec: [MetaData::assert_entity_rank] is declared outside
    the shown sources; the repository holds one bucket list per rank. *)
Definition assert_entity_rank (method : string) (rank : nat) : M unit :=
  bs ← gets m_buckets;
  if decide (rank < length bs) then mret tt else throw (BadEntityRank method).

(** [m_buckets[ rank ]], read and written through the reference the
    operations hold. *)
Definition get_bucket_set (rank : nat) : M (list nat) :=
  bs ← gets m_buckets; deref (bs !! rank).

Definition put_bucket_set (rank : nat) (l : list nat) : M unit :=
  modify (λ st, with_buckets (<[rank := l]> (m_buckets st)) st).

(** The keys the binary search compares: [bucket->key()] of every element. *)
Definition bucket_keys (bucket_set : list nat) : M (list (list Z)) :=
  h ← gets heap; deref (mapM (λ k, b_key <$> h !! k) bucket_set).

(** *** [BucketImpl] primitives

    Modelled from the spec: [BucketImpl] is declared outside the shown
    sources.  [replace_entity] is the spec's [setSlotHandle], [replace_fields]
    its [copySlot]; an ordinal past the arrays is undefined behaviour. *)

Definition replace_entity (k i : nat) (e : option nat) : M unit :=
  b ← get_bucket k;
  if decide (i < length (b_entities b)) then
    put_bucket k (with_entities (<[i := e]> (b_entities b)) b);;
    log (EvReplaceEntity k i e)
  else throw Undefined.

(** [BucketRepository::copy_fields( k_dst , i_dst , k_src , i_src )] *)
Definition copy_fields (k_dst i_dst k_src i_src : nat) : M unit :=
  src ← get_bucket k_src;
  d ← deref (b_field_data src !! i_src);
  dst ← get_bucket k_dst;
  if decide (i_dst < length (b_field_data dst)) then
    put_bucket k_dst (with_field_data (<[i_dst := d]> (b_field_data dst)) dst);;
    log (EvCopyFields k_dst i_dst k_src i_src)
  else throw Undefined.

(** [--m_size] on an [unsigned]. *)
Definition decrement_size (k : nat) : M unit :=
  b ← get_bucket k;
  put_bucket k (with_size (match b_size b with
                           | O => Z.to_nat UINT_MAX
                           | S n => n
                           end) b);;
  log (EvDecrementSize k).

Definition first_bucket_in_family (k : nat) : M nat :=
  b ← get_bucket k; deref (b_first b).

Definition get_bucket_family_pointer (first : nat) : M nat :=
  b ← get_bucket first; deref (b_family b).

Definition last_bucket_in_family (k : nat) : M nat :=
  first ← first_bucket_in_family k; get_bucket_family_pointer first.

Definition set_first_bucket_in_family (k first : nat) : M unit :=
  b ← get_bucket k; put_bucket k (with_first (Some first) b).

Definition set_last_bucket_in_family (first last : nat) : M unit :=
  b ← get_bucket first; put_bucket first (with_family (Some last) b).

(** Modelled from the spec: [EntityRepository::change_entity_bucket] is
    declared outside the shown sources; it updates the back-reference of the
    entity to (bucket, ordinal). *)
Definition change_entity_bucket (k e i : nat) : M unit :=
  modify (λ st, with_entity_repo (<[e := (k, i)]> (entities st)) st);;
  log (EvChangeEntityBucket k e i).

(** [internal_propagate_relocation]: the relocation hook.  It walks the
    relations of the entity and hands each to [set_field_relations], which
    writes relation field data outside the repository; the model records the
    call. *)
Definition internal_propagate_relocation (e : nat) : M unit :=
  log (EvPropagateRelocation e).

(** ** [destroy_bucket] *)

(** [destroy_bucket( Bucket * )]: destructor and [std::free]. *)
Definition destroy_bucket_raw (bucket : nat) : M unit :=
  modify (λ st, with_heap (delete bucket (heap st)) st);;
  log (EvFree bucket).

Definition destroy_bucket_method : string :=
  "stk::mesh::impl::BucketRepository::destroy_bucket".

(** [destroy_bucket( const unsigned & entity_rank , Bucket * )] *)
Definition destroy_bucket (entity_rank bucket_to_be_deleted : nat) : M unit :=
  let method := destroy_bucket_method in
  assert_entity_rank method entity_rank;;
  bucket_set ← get_bucket_set entity_rank;
  first ← first_bucket_in_family bucket_to_be_deleted;
  b ← get_bucket bucket_to_be_deleted;
  not_last ← (if negb (b_size b =? 0) then mret true
              else last ← get_bucket_family_pointer first;
                   mret (negb (bucket_to_be_deleted =? last)));
  if not_last : bool then throw (LogicError method)
  else
    keys ← bucket_keys bucket_set;
    let ik := lower_bound keys (b_key b) in
    if ik =? length bucket_set then throw (LogicError method)
    else if negb (bool_decide (bucket_set !! ik = Some bucket_to_be_deleted))
    then throw (LogicError method)
    else
      let bucket_set' := delete ik bucket_set in
      put_bucket_set entity_rank bucket_set';;
      (if negb (first =? bucket_to_be_deleted) then
         match ik with
         | O => throw (LogicError method)
         | S ik' =>
             prev ← deref (bucket_set' !! ik');
             set_last_bucket_in_family first prev;;
             last' ← get_bucket_family_pointer first;
             lb ← get_bucket last';
             if b_size lb =? 0 then throw (LogicError method) else mret tt
         end
       else mret tt);;
      destroy_bucket_raw bucket_to_be_deleted.

(** ** [declare_bucket] *)

Definition declare_bucket_method : string :=
  "stk::mesh::impl::BucketRepository::declare_bucket".

(** The tail of [declare_bucket]: allocate the bucket, construct it, link it
    into its family and insert it at [ik]; the insertion comes last and can
    throw after the family pointers were written.  Modelled from the spec:
    the [Bucket] constructor is declared outside the shown sources; a new
    bucket is empty, with null slots. *)
Definition allocate_bucket (arg_entity_rank : nat) (key : list Z)
    (field_map : list DataMap) (last_bucket : option nat)
    (bucket_set : list nat) (ik : nat) : M nat :=
  local_malloc;;
  bucket ← gets next_address;
  modify (with_next_address (S bucket));;
  cap ← gets m_bucket_capacity;
  put_bucket bucket
    (MkBucket arg_entity_rank key cap 0 field_map (replicate cap None)
       (replicate cap []) None None);;
  log (EvAllocate bucket);;
  first_bucket ← match last_bucket with
                 | Some last => first_bucket_in_family last
                 | None => mret bucket
                 end;
  set_first_bucket_in_family bucket first_bucket;;
  set_last_bucket_in_family first_bucket bucket;;
  (* bucket_set.insert( ik , bucket ) *)
  vector_allocate;;
  put_bucket_set arg_entity_rank
    (take ik bucket_set ++ bucket :: drop ik bucket_set);;
  mret bucket.

(** [declare_bucket].  The search key is assembled in [key_tmp_buffer] (in
    [key_tmp_vector] when it has more than [KEY_TMP_BUFFER_SIZE] words)
    before the bucket list is searched; the model has the key as a list. *)
Definition declare_bucket (arg_entity_rank : nat) (part_ord : list Z)
    (field_set : list FieldBase) : M nat :=
  let method := declare_bucket_method in
  let max := UINT_MAX in
  assert_entity_rank method arg_entity_rank;;
  bucket_set ← get_bucket_set arg_entity_rank;
  (* key_size = 2 + part_count has to fit an unsigned for the key buffer *)
  if decide (Z.of_nat (length part_ord) + 2 ≤ UINT_MAX)%Z then
    let key := search_key part_ord max in
    keys ← bucket_keys bucket_set;
    let ik := lower_bound keys key in
    let last_bucket : option nat :=
      match ik with
      | O => None
      | S ik' =>
          match bucket_set !! ik', keys !! ik' with
          | Some p, Some k => if bucket_part_equal k key then Some p else None
          | _, _ => None
          end
      end in
    match last_bucket with
    | None =>
        let key := set_family_count key 0 in
        cap ← gets m_bucket_capacity;
        local_malloc;;
        field_map ← lift (new_field_map (Z.of_nat arg_entity_rank) part_ord
                            (Z.of_nat cap) method field_set);
        allocate_bucket arg_entity_rank key field_map None bucket_set ik
    | Some last =>
        lb ← get_bucket last;
        if b_size lb =? 0 then throw (LogicError method)
        else
          let field_map := b_field_map lb in
          let last_count := nth (key_family_index key) (b_key lb) 0%Z in
          let cap := b_capacity lb in
          if b_size lb <? cap then mret last
          else if (last_count <? max)%Z then
            let key := set_family_count key (1 + last_count) in
            allocate_bucket arg_entity_rank key field_map (Some last)
              bucket_set ik
          else throw (TooManyBuckets method)
    end
  else throw Undefined.

(** ** [remove_entity] *)

Definition remove_entity (k i : nat) : M unit :=
  kb ← get_bucket k;
  let entity_rank := b_entity_rank kb in
  last ← last_bucket_in_family k;
  lb ← get_bucket last;
  (if negb (last =? k) || negb (b_size kb =? i + 1) then
     match b_size lb with
     | O => throw Undefined              (* slot [0u - 1] of last *)
     | S n =>
         oe ← deref (b_entities lb !! n);
         entity ← deref oe;              (* Entity & entity: slot n of last *)
         copy_fields k i last n;;
         replace_entity k i (Some entity);;
         change_entity_bucket k entity i;;
         internal_propagate_relocation entity
     end
   else mret tt);;
  decrement_size last;;
  lb' ← get_bucket last;
  replace_entity last (b_size lb') None;;
  if b_size lb' =? 0 then destroy_bucket entity_rank last else mret tt.

(** ** [internal_sort_bucket_entities] *)

Section Sort.

(** [EntityLess], the order the caller sorts entities by. *)
Variable EntityLess : nat → nat → bool.

(** [std::sort( entities.begin() , entities.end() , EntityLess() )].  Under a
    strict total order the sorted sequence of distinct entities is unique, so
    any sorting algorithm stands for it. *)
Fixpoint sort_insert (e : nat) (sorted : list nat) : list nat :=
  match sorted with
  | [] => [e]
  | e' :: rest =>
      if EntityLess e' e then e' :: sort_insert e rest else e :: sorted
  end.

Definition sort_entities (es : list nat) : list nat :=
  foldr sort_insert [] es.

(** The entity pointers of buckets [ik] in [bk, ek), slots [0, size), in
    storage order.  [EntityLess] dereferences them. *)
Fixpoint collect_entities (family : list nat) : M (list nat) :=
  match family with
  | [] => mret []
  | k :: rest =>
      b ← get_bucket k;
      es ← deref (mapM (λ oe, oe) (take (b_size b) (b_entities b)));
      if decide (b_size b ≤ length (b_entities b)) then
        es' ← collect_entities rest; mret (es ++ es')
      else throw Undefined
  end.

(** [count += buckets[ik]->size()] over the buckets [ik] in [bk, ek). *)
Fixpoint count_entities (family : list nat) : M nat :=
  match family with
  | [] => mret 0
  | k :: rest =>
      b ← get_bucket k; count ← count_entities rest; mret (b_size b + count)
  end.

(** The body of the slot loop, for slot [i] of bucket [b] with [*j = target];
    [vacant] is [(ik_vacant, ie_vacant)]. *)
Definition sort_slot (b i target : nat) (vacant : nat * nat)
    (change_this_family : bool) : M ((nat * nat) * bool) :=
  bb ← get_bucket b;
  current ← deref (b_entities bb !! i);
  '(vacant', change') ←
    (if bool_decide (current = Some target)
     then mret (vacant, change_this_family)
     else
       match current with
       | Some c =>
           (* Move current entity to the vacant spot *)
           copy_fields vacant.1 vacant.2 b i;;
           change_entity_bucket vacant.1 c vacant.2;;
           replace_entity vacant.1 vacant.2 (Some c)
       | None => mret tt
       end;;
       (* Set the vacant spot to where the required entity is now. *)
       es ← gets entities;
       loc ← deref (es !! target);
       replace_entity loc.1 loc.2 None;;
       (* Move required entity to the required spot *)
       copy_fields b i loc.1 loc.2;;
       change_entity_bucket b target i;;
       replace_entity b i (Some target);;
       mret (loc, true));
  (if change' : bool then internal_propagate_relocation target else mret tt);;
  mret (vacant', change').

Fixpoint sort_bucket_slots (b : nat) (slots : list nat) (j : list nat)
    (vacant : nat * nat) (change : bool)
  : M (list nat * (nat * nat) * bool) :=
  match slots with
  | [] => mret (j, vacant, change)
  | i :: slots' =>
      match j with
      | [] => throw Undefined
      | target :: j' =>
          '(vacant', change') ← sort_slot b i target vacant change;
          sort_bucket_slots b slots' j' vacant' change'
      end
  end.

Fixpoint sort_family_buckets (family : list nat) (j : list nat)
    (vacant : nat * nat) (change : bool) : M ((nat * nat) * bool) :=
  match family with
  | [] => mret (vacant, change)
  | k :: rest =>
      b ← get_bucket k;
      '(j', vacant', change') ←
        sort_bucket_slots k (seq 0 (b_size b)) j vacant change;
      sort_family_buckets rest j' vacant' change'
  end.

(** Offset of [ik_vacant] in [buckets] from [ek] on. *)
Fixpoint find_bucket (ik_vacant : nat) (buckets : list nat) : option nat :=
  match buckets with
  | [] => None
  | k :: rest =>
      if k =? ik_vacant then Some 0 else S <$> find_bucket ik_vacant rest
  end.

(** One turn of the family loop: sorts the family that starts at offset [bk]
    and returns [ek], the offset of the next family. *)
Definition sort_family (entity_rank bk : nat) : M nat :=
  buckets ← get_bucket_set entity_rank;
  first ← deref (buckets !! bk);
  ik_vacant ← last_bucket_in_family first;
  vb ← get_bucket ik_vacant;
  let ie_vacant := b_size vb in
  '(b_scratch, ik_vacant, ie_vacant) ←
    (if b_capacity vb <=? ie_vacant then
       (* Have to create a bucket just for the scratch space... *)
       fb ← get_bucket first;
       let bucket_key := b_key fb in
       let part_count := Z.to_nat (wrap_unsigned (hd 0%Z bucket_key - 1)) in
       let part_ord := take part_count (drop 1 bucket_key) in
       fields ← gets m_fields;
       b_scratch ← declare_bucket entity_rank part_ord fields;
       mret (Some b_scratch, b_scratch, 0)
     else mret (None, ik_vacant, ie_vacant));
  replace_entity ik_vacant ie_vacant None;;
  (* Determine offset to the end bucket in this family: *)
  buckets ← get_bucket_set entity_rank;
  d ← deref (find_bucket ik_vacant (drop bk buckets));
  let ek := bk + d + 1 in
  let family := take (ek - bk) (drop bk buckets) in
  (* std::vector<Entity*> entities( count ) *)
  count_entities family;;
  vector_allocate;;
  es ← collect_entities family;
  let sorted := sort_entities es in
  sort_family_buckets family sorted (ik_vacant, ie_vacant) false;;
  match b_scratch with
  | Some s =>
      (* Created a last bucket, now have to destroy it. *)
      destroy_bucket entity_rank s;; mret (ek - 1)
  | None => mret ek
  end.

(** The family loop [for ( ; bk < buckets.size() ; bk = ek )].  A turn that
    ends behind the family it started at moves [bk] forward and leaves the
    length of the list as it was, so that [buckets.size()] turns are enough;
    [fuel] counts them.  When the turns are used up the loop has stopped
    moving forward, and the model gives up with [Undefined]. *)
Fixpoint sort_families (fuel entity_rank bk : nat) : M unit :=
  buckets ← get_bucket_set entity_rank;
  if bk <? length buckets then
    match fuel with
    | O => throw Undefined
    | S fuel' =>
        ek ← sort_family entity_rank bk; sort_families fuel' entity_rank ek
    end
  else mret tt.

Fixpoint sort_ranks (ranks : list nat) : M unit :=
  match ranks with
  | [] => mret tt
  | entity_rank :: rest =>
      buckets ← get_bucket_set entity_rank;
      sort_families (length buckets) entity_rank 0;;
      sort_ranks rest
  end.

Definition internal_sort_bucket_entities : M unit :=
  bs ← gets m_buckets; sort_ranks (seq 0 (length bs)).

End Sort.


(** * Specifications *)

(** ** Field-layout resolution, as the spec words it *)

(** A restriction matches a family when it binds one of the family's
    (kind, category-ordinal) pairs. *)
Definition restriction_matches (etype : Z) (part_ord : list Z)
    (r : Restriction) : bool :=
  existsb (λ p, entity_key_eqb (r_key r) (MkEntityKey etype p)) part_ord.

Definition matching_restrictions (field : FieldBase) (etype : Z)
    (part_ord : list Z) : list Restriction :=
  filter (λ r, restriction_matches etype part_ord r) (f_restrictions field).

(** Compare every matching restriction with the reference [d]. *)
Fixpoint check_strides (method : string) (field : FieldBase) (d : Restriction)
    (ms : list Restriction) : Error + option Restriction :=
  match ms with
  | [] => inr (Some d)
  | r :: ms' =>
      if stride_not_equal (r_stride r) (r_stride d) then
        inl (IncompatibleDimensions method (f_name field)
               (r_ordinal r) (r_ordinal d))
      else check_strides method field d ms'
  end.

Definition resolve_dimension (method : string) (field : FieldBase)
    (dim : option Restriction) (ms : list Restriction)
  : Error + option Restriction :=
  match dim, ms with
  | None, [] => inr None
  | None, r :: _ => check_strides method field r ms
  | Some d, _ => check_strides method field d ms
  end.

Definition restrictions_sorted (rs : list Restriction) : Prop :=
  StronglySorted (λ a b, entity_key_less (r_key a) (r_key b) = true) rs.

Definition part_ordinals_sorted (part_ord : list Z) : Prop :=
  StronglySorted Z.lt part_ord.

(** The layout example of the spec: fields of per-slot sizes 4, 0 and 12
    bytes in a family of part 1, capacity 8. *)
Definition example_fields : list FieldBase :=
  [ MkField "f4" 0 4 [MkRestriction (MkEntityKey 0 1) [1; 0; 0; 0; 0; 0; 0]%Z];
    MkField "f0" 0 8 [];
    MkField "f12" 1 4 [MkRestriction (MkEntityKey 0 1) [3; 0; 0; 0; 0; 0; 0]%Z] ].

(** The schema-conflict scenario of the spec: parts 1 and 2 restrict field
    [F] to dimension 3, part 3 restricts it to dimension 4. *)
Definition conflict_field : FieldBase :=
  MkField "F" 1 8
    [ MkRestriction (MkEntityKey 0 1) [3; 0; 0; 0; 0; 0; 0]%Z;
      MkRestriction (MkEntityKey 0 2) [3; 0; 0; 0; 0; 0; 0]%Z;
      MkRestriction (MkEntityKey 0 3) [4; 0; 0; 0; 0; 0; 0]%Z ].

(** ** Keys *)

(** The part ordinals of a key, as [internal_sort_bucket_entities] reads
    them back: [part_count = key[0] - 1], [part_ord = key + 1]. *)
Definition key_part_ord (key : list Z) : list Z :=
  take (Z.to_nat (hd 0%Z key) - 1) (drop 1 key).

(** A key has the documented layout and fits the key buffer. *)
Definition wf_key (key : list Z) : Prop :=
  key = search_key (key_part_ord key) (key_family_count key)
  ∧ (Z.of_nat (length (key_part_ord key)) + 2 ≤ UINT_MAX)%Z.

(** The front of a key of parts [P]: the length word and the ordinals. *)
Definition key_front (P : list Z) : list Z :=
  (Z.of_nat (length P) + 1)%Z :: P.

(** ** The repository invariant *)

(** The part of a bucket that fixes the shape of the repository: everything
    but the slot contents. *)
Record Skel : Type := MkSkel {
  s_rank : nat;
  s_key : list Z;
  s_capacity : nat;
  s_size : nat;
  s_first : option nat;
  s_family : option nat
}.

Definition skel (b : Bucket) : Skel :=
  MkSkel (b_entity_rank b) (b_key b) (b_capacity b) (b_size b)
    (b_first b) (b_family b).

Definition key_at (sk : gmap nat Skel) (k : nat) : list Z :=
  from_option s_key [] (sk !! k).

Definition keys_sorted (sk : gmap nat Skel) (l : list nat) : Prop :=
  StronglySorted (λ a b, bucket_key_less (key_at sk a) (key_at sk b) = true) l.

(** The buckets of list [l] whose key has the part ordinals [P], in list
    order: a family. *)
Definition family (sk : gmap nat Skel) (P : list Z) (l : list nat)
  : list nat :=
  filter (λ k, key_part_ord (key_at sk k) = P) l.

(** Bucket [k] of list [l]: its family pointers lead to the first and the
    last bucket of its family in [l], and it is full and not empty unless it
    is that last bucket. *)
Definition family_ok (cap : nat) (sk : gmap nat Skel) (l : list nat)
    (k : nat) : Prop :=
  ∃ s f sf lst,
    sk !! k = Some s
    ∧ s_first s = Some f ∧ sk !! f = Some sf ∧ s_family sf = Some lst
    ∧ head (family sk (key_part_ord (s_key s)) l) = Some f
    ∧ last (family sk (key_part_ord (s_key s)) l) = Some lst
    ∧ (k ≠ lst → s_size s = cap ∧ s_size s ≠ 0).

Definition bucket_ok (cap rank : nat) (sk : gmap nat Skel) (k : nat) : Prop :=
  ∃ s, sk !! k = Some s
       ∧ s_rank s = rank ∧ wf_key (s_key s)
       ∧ s_capacity s = cap ∧ s_size s ≤ cap.

Definition rank_ok (cap : nat) (sk : gmap nat Skel) (rank : nat)
    (l : list nat) : Prop :=
  keys_sorted sk l
  ∧ ∀ k, k ∈ l → bucket_ok cap rank sk k ∧ family_ok cap sk l k.

Definition structure_ok (cap : nat) (bs : list (list nat))
    (sk : gmap nat Skel) : Prop :=
  ∀ rank l, bs !! rank = Some l → rank_ok cap sk rank l.

(** Slots [0, size) of a listed bucket hold entities whose back-reference is
    that very slot; the slots from [size] on are null. *)
Definition bucket_slots_ok (es : gmap nat (nat * nat)) (k : nat)
    (b : Bucket) : Prop :=
  length (b_entities b) = b_capacity b
  ∧ length (b_field_data b) = b_capacity b
  ∧ (∀ i, i < b_size b →
       ∃ e, b_entities b !! i = Some (Some e) ∧ es !! e = Some (k, i))
  ∧ (∀ i, b_size b ≤ i → i < b_capacity b → b_entities b !! i = Some None).

Definition slots_ok (st : Repo) : Prop :=
  ∀ rank l k b,
    m_buckets st !! rank = Some l → k ∈ l → heap st !! k = Some b →
    bucket_slots_ok (entities st) k b.

(** The invariant of the repository between and inside its operations. *)
Definition repo_ok (st : Repo) : Prop :=
  structure_ok (m_bucket_capacity st) (m_buckets st) (skel <$> heap st)
  ∧ slots_ok st
  ∧ ∀ k, is_Some (heap st !! k) → k < next_address st.

(** No listed bucket is empty: the state in which the caller has placed an
    entity into every bucket [declare_bucket] gave it. *)
Definition settled (st : Repo) : Prop :=
  ∀ rank l k b,
    m_buckets st !! rank = Some l → k ∈ l → heap st !! k = Some b →
    b_size b ≠ 0.

(** No family has used up its sequence counter. *)
Definition below_max (st : Repo) : Prop :=
  ∀ rank l k b,
    m_buckets st !! rank = Some l → k ∈ l → heap st !! k = Some b →
    (key_family_count (b_key b) < UINT_MAX)%Z.

(** *** The invariants of the spec *)

(** The last bucket of the family of [k], through the family pointers. *)
Definition last_of (h : gmap nat Bucket) (k : nat) : option nat :=
  b ← h !! k; f ← b_first b; fb ← h !! f; b_family fb.

(** Packing: every listed bucket except the last of its family is full. *)
Definition packing (st : Repo) : Prop :=
  ∀ rank l k b,
    m_buckets st !! rank = Some l → k ∈ l → heap st !! k = Some b →
    last_of (heap st) k ≠ Some k → b_size b = b_capacity b.

(** At most one bucket of a family is partially filled. *)
Definition one_partial_bucket (st : Repo) : Prop :=
  ∀ rank l k1 k2 b1 b2,
    m_buckets st !! rank = Some l → k1 ∈ l → k2 ∈ l →
    heap st !! k1 = Some b1 → heap st !! k2 = Some b2 →
    bucket_part_equal (b_key b1) (b_key b2) = true →
    b_size b1 < b_capacity b1 → b_size b2 < b_capacity b2 → k1 = k2.

(** Ordering: every bucket list is strictly increasing in the key order. *)
Definition ordering (st : Repo) : Prop :=
  ∀ rank l,
    m_buckets st !! rank = Some l →
    ∃ keys,
      mapM (λ k, b_key <$> heap st !! k) l = Some keys
      ∧ StronglySorted (λ a b, bucket_key_less a b = true) keys.

(** Packing, in both readings of the spec. *)
Definition packed (st : Repo) : Prop :=
  packing st ∧ one_partial_bucket st.

Definition counters_below_max (sk : gmap nat Skel) (l : list nat) : Prop :=
  ∀ k, k ∈ l → (key_family_count (key_at sk k) < UINT_MAX)%Z.

(** ** What the operations leave behind *)

Definition malloc_succeeds (st : Repo) : bool :=
  match malloc_supply st with
  | false :: _ => false
  | _ => true
  end.

Definition after_malloc (st : Repo) : Repo :=
  with_malloc_supply (tail (malloc_supply st)) st.

(** The bucket the [Bucket] constructor leaves at its address. *)
Definition new_bucket (rank : nat) (key : list Z) (cap : nat)
    (fm : list DataMap) (first fam : option nat) : Bucket :=
  MkBucket rank key cap 0 fm (replicate cap None) (replicate cap []) first fam.

(** The repository after a bucket was constructed at [next_address st] and
    the heap was updated to [h']; the bucket is in no list yet. *)
Definition bucket_built (h' : gmap nat Bucket) (st : Repo) : Repo :=
  with_heap h'
    (with_trace (trace st ++ [EvAllocate (next_address st)])
       (with_next_address (S (next_address st)) st)).

(** The repository after a bucket was allocated at [next_address st] and the
    list of [rank] and the heap were updated to [l'] and [h']. *)
Definition with_new_bucket (rank : nat) (l' : list nat)
    (h' : gmap nat Bucket) (st : Repo) : Repo :=
  with_buckets (<[rank := l']> (m_buckets st)) (bucket_built h' st).

(** The heap after [declare_bucket] constructed a bucket behind the last
    bucket [pb] of a family and made the first bucket [f] point to it. *)
Definition extended_heap (rank f : nat) (pb fb : Bucket) (st : Repo)
  : gmap nat Bucket :=
  let n := next_address st in
  <[f := with_family (Some n) fb]>
    (<[n := new_bucket rank
              (search_key (key_part_ord (b_key pb))
                 (1 + key_family_count (b_key pb)))
              (m_bucket_capacity st) (b_field_map pb) (Some f) None]>
       (heap st)).

(** [declare_bucket] appended a bucket to the family whose last bucket is
    [p]; [f] is the first bucket of that family. *)
Definition family_extended (rank : nat) (l : list nat) (ik : nat)
    (p f : nat) (pb fb : Bucket) (st : Repo) : Repo :=
  let n := next_address st in
  with_new_bucket rank (take ik l ++ n :: drop ik l)
    (extended_heap rank f pb fb st) st.

(** [declare_bucket] failed when it inserted the bucket it had appended to a
    family: the bucket is constructed and the first bucket of the family
    points to it, but it is in no list. *)
Definition family_linked (rank f : nat) (pb fb : Bucket) (st : Repo) : Repo :=
  bucket_built (extended_heap rank f pb fb st) st.

(** The heap after [declare_bucket] constructed the first bucket of the
    family of parts [P]. *)
Definition created_heap (rank : nat) (P : list Z) (fm : list DataMap)
    (st : Repo) : gmap nat Bucket :=
  let n := next_address st in
  <[n := new_bucket rank (search_key P 0) (m_bucket_capacity st) fm
           (Some n) (Some n)]> (heap st).

(** [declare_bucket] created the first bucket of the family of parts [P]. *)
Definition family_created (rank : nat) (l : list nat) (ik : nat)
    (P : list Z) (fm : list DataMap) (st : Repo) : Repo :=
  let n := next_address st in
  with_new_bucket rank (take ik l ++ n :: drop ik l)
    (created_heap rank P fm st) st.

(** [declare_bucket] failed when it inserted the first bucket of a new
    family: the bucket is constructed, but in no list. *)
Definition family_unlisted (rank : nat) (P : list Z) (fm : list DataMap)
    (st : Repo) : Repo :=
  bucket_built (created_heap rank P fm st) st.

(** A family is half updated: its first bucket, which is listed, names as
    the last bucket of the family a bucket that is in no list. *)
Definition half_updated (st : Repo) : Prop :=
  ∃ rank l f fb n,
    m_buckets st !! rank = Some l ∧ f ∈ l
    ∧ heap st !! f = Some fb ∧ b_first fb = Some f ∧ b_family fb = Some n
    ∧ is_Some (heap st !! n)
    ∧ ∀ rank' l', m_buckets st !! rank' = Some l' → n ∉ l'.

(** [st'] is what a failing insertion of [declare_bucket] leaves of a
    repository that had the invariant, for a family whose last bucket was
    full. *)
Definition insert_failed (st' : Repo) : Prop :=
  ∃ st rank l p f pb fb,
    repo_ok st ∧ m_buckets st !! rank = Some l ∧ p ∈ l
    ∧ heap st !! p = Some pb ∧ b_first pb = Some f
    ∧ heap st !! f = Some fb ∧ b_family fb = Some p
    ∧ b_size pb = b_capacity pb
    ∧ st' = family_linked rank f pb fb st.

(** [st'] has every bucket list, every bucket and every back-reference of
    [st], unchanged. *)
Definition kept (st st' : Repo) : Prop :=
  m_fields st' = m_fields st
  ∧ m_bucket_capacity st' = m_bucket_capacity st
  ∧ m_buckets st' = m_buckets st
  ∧ entities st' = entities st
  ∧ heap st ⊆ heap st'.

(** The offset [declare_bucket] finds for the family of parts [P]. *)
Definition family_end (st : Repo) (l : list nat) (P : list Z) : nat :=
  lower_bound (key_at (skel <$> heap st) <$> l) (search_key P UINT_MAX).

(** The repository after [destroy_bucket] erased [d] from the list of
    [rank], which is now [l'], and freed it; [h'] is the heap it leaves. *)
Definition bucket_destroyed (rank : nat) (l' : list nat)
    (h' : gmap nat Bucket) (d : nat) (st : Repo) : Repo :=
  with_trace (trace st ++ [EvFree d])
    (with_heap h' (with_buckets (<[rank := l']> (m_buckets st)) st)).

(** ** [remove_entity] *)

(** Slot [i] of a bucket after the data and the handle of entity [e] were
    moved into it. *)
Definition moved_bucket (i e : nat) (d : list Z) (b : Bucket) : Bucket :=
  with_entities (<[i := Some e]> (b_entities b))
    (with_field_data (<[i := d]> (b_field_data b)) b).

(** A bucket after its size fell to [n] and slot [n] was nulled. *)
Definition shrunk_bucket (n : nat) (b : Bucket) : Bucket :=
  with_entities (<[n := None]> (b_entities b)) (with_size n b).

Definition move_events (k i last n e : nat) : list Event :=
  [EvCopyFields k i last n; EvReplaceEntity k i (Some e);
   EvChangeEntityBucket k e i; EvPropagateRelocation e].

Definition shrink_events (last n : nat) : list Event :=
  [EvDecrementSize last; EvReplaceEntity last n None].

(** The repository after [remove_entity] filled slot [(k, i)] with the
    entity [e] and the data [d] of slot [(last, n)] and dropped that slot. *)
Definition slot_filled (k i last n e : nat) (d : list Z) (kb lb : Bucket)
    (st : Repo) : Repo :=
  with_trace (trace st ++ move_events k i last n e ++ shrink_events last n)
    (with_entity_repo (<[e := (k, i)]> (entities st))
       (with_heap
          (if decide (k = last)
           then <[k := shrunk_bucket n (moved_bucket i e d kb)]> (heap st)
           else <[last := shrunk_bucket n lb]>
                  (<[k := moved_bucket i e d kb]> (heap st)))
          st)).

(** The repository after [remove_entity] dropped the last live slot of the
    family, which was the slot to remove. *)
Definition last_slot_dropped (last n : nat) (lb : Bucket) (st : Repo) : Repo :=
  with_trace (trace st ++ shrink_events last n)
    (with_heap (<[last := shrunk_bucket n lb]> (heap st)) st).

(** The live objects of the family of parts [P] in list [l]. *)
Definition live_objects (st : Repo) (P : list Z) (l : list nat) : nat :=
  sum_list ((λ k, from_option b_size 0 (heap st !! k))
              <$> family (skel <$> heap st) P l).

(** Bucket [b'] at address [k] is bucket [b] with other slot contents, and
    possibly smaller if [k] is [lst]. *)
Definition same_links (lst k : nat) (b b' : Bucket) : Prop :=
  b_entity_rank b' = b_entity_rank b ∧ b_key b' = b_key b
  ∧ b_capacity b' = b_capacity b ∧ b_first b' = b_first b
  ∧ b_family b' = b_family b
  ∧ (k ≠ lst → b_size b' = b_size b)
  ∧ b_size b' ≤ b_size b.

(** ** The slots, for [internal_sort_bucket_entities] *)

(** The handle and the field data of slot [p = (bucket, ordinal)]. *)
Definition ent (st : Repo) (p : nat * nat) : option (option nat) :=
  b ← heap st !! p.1; b_entities b !! p.2.

Definition dat (st : Repo) (p : nat * nat) : option (list Z) :=
  b ← heap st !! p.1; b_field_data b !! p.2.

(** [st'] has the buckets of [st], with other slot contents. *)
Definition same_shape (st st' : Repo) : Prop :=
  m_fields st' = m_fields st
  ∧ m_bucket_capacity st' = m_bucket_capacity st
  ∧ m_buckets st' = m_buckets st
  ∧ next_address st' = next_address st
  ∧ malloc_supply st' = malloc_supply st
  ∧ ∀ k, option_Forall2
           (λ b b', skel b' = skel b ∧ b_field_map b' = b_field_map b
                    ∧ length (b_entities b') = length (b_entities b)
                    ∧ length (b_field_data b') = length (b_field_data b))
           (heap st !! k) (heap st' !! k).

Definition size_at (st : Repo) (k : nat) : nat :=
  from_option b_size 0 (heap st !! k).

(** The live slots of buckets [fam], in storage order. *)
Definition slot_positions (k n : nat) : list (nat * nat) :=
  (λ i, (k, i)) <$> seq 0 n.

Definition family_positions (st : Repo) (fam : list nat) : list (nat * nat) :=
  fam ≫= λ k, slot_positions k (size_at st k).

(** The handles in the live slots of bucket [k], and of buckets [fam] read
    in storage order. *)
Definition live_entities (st : Repo) (k : nat) : list (option nat) :=
  from_option (λ b, take (b_size b) (b_entities b)) [] (heap st !! k).

Definition storage (st : Repo) (fam : list nat) : list (option nat) :=
  fam ≫= live_entities st.

(** The invariant of the slot loop.  [st0] is the repository when the loop
    starts, [slots] are the live slots of the family in storage order,
    [v0] is the vacant slot the loop starts with, [targets] is the sorted
    sequence; [done] slots are settled, [todo] slots are still to come, and
    [v] is the vacant slot now. *)
Record sort_inv (st0 st : Repo) (slots : list (nat * nat)) (v0 : nat * nat)
    (targets : list nat) (done todo : list (nat * nat))
    (tdone ttodo : list nat) (v : nat * nat) : Prop := MkSortInv {
  inv_shape : same_shape st0 st;
  inv_slots : slots = done ++ todo;
  inv_targets : targets = tdone ++ ttodo;
  inv_length : length todo = length ttodo;
  inv_slots_nodup : NoDup (v0 :: slots);
  inv_targets_nodup : NoDup targets;
  inv_done :
    Forall2 (λ p t, ent st p = Some (Some t) ∧ entities st !! t = Some p)
      done tdone;
  inv_vacant : ent st v = Some None ∧ (v ∈ todo ∨ v = v0);
  inv_occupied :
    ∀ q, q ∈ todo ∨ q = v0 → q ≠ v →
         ∃ e, ent st q = Some (Some e) ∧ entities st !! e = Some q
              ∧ e ∈ ttodo;
  inv_located :
    ∀ t, t ∈ ttodo →
         ∃ q, (q ∈ todo ∨ q = v0) ∧ q ≠ v ∧ entities st !! t = Some q
              ∧ ent st q = Some (Some t);
  inv_frame_slots : ∀ q, q ∉ v0 :: slots → ent st q = ent st0 q;
  inv_frame_entities :
    ∀ e, e ∉ targets → entities st !! e = entities st0 !! e;
  inv_data : ∀ q, q ∈ v0 :: slots → is_Some (dat st q)
}.

(** The events of one turn of the slot loop at slot [(b, i)] that found
    [current] where [target] belongs; [v] is the vacant slot and [loc] is
    where [target] was. *)
Definition slot_events (b i target : nat) (v : nat * nat)
    (current : option nat) (loc : nat * nat) : list Event :=
  match current with
  | Some c =>
      [EvCopyFields v.1 v.2 b i; EvChangeEntityBucket v.1 c v.2;
       EvReplaceEntity v.1 v.2 (Some c)]
  | None => []
  end
  ++ [EvReplaceEntity loc.1 loc.2 None; EvCopyFields b i loc.1 loc.2;
      EvChangeEntityBucket b target i; EvReplaceEntity b i (Some target);
      EvPropagateRelocation target].

(** Offset [bk] of list [l] is where a family starts: no family has buckets
    on both sides of it. *)
Definition boundary (sk : gmap nat Skel) (l : list nat) (bk : nat) : Prop :=
  ∀ k k', k ∈ take bk l → k' ∈ drop bk l →
          key_part_ord (key_at sk k) ≠ key_part_ord (key_at sk k').

(** What [internal_sort_bucket_entities] keeps of a repository: the
    invariant, the bucket lists, and every bucket up to the contents of its
    slots. *)
Definition sort_frame (st st' : Repo) : Prop :=
  repo_ok st'
  ∧ m_buckets st' = m_buckets st
  ∧ skel <$> heap st' = skel <$> heap st
  ∧ m_bucket_capacity st' = m_bucket_capacity st
  ∧ ∃ n, malloc_supply st' = drop n (malloc_supply st).

(** The field data of entity [e], read through its back-reference. *)
Definition data_of (st : Repo) (e : nat) : option (list Z) :=
  p ← entities st !! e; dat st p.

(** Every entity in a live slot of a listed bucket of [st] has in [st'] the
    field data it had in [st]. *)
Definition data_kept (st st' : Repo) : Prop :=
  ∀ rank l k e,
    m_buckets st !! rank = Some l → k ∈ l → Some e ∈ live_entities st k →
    data_of st' e = data_of st e.

(** The entities in the live slots of the listed buckets in [K]. *)
Definition lives_in (st : Repo) (K : nat → Prop) (e : nat) : Prop :=
  ∃ rank l k,
    m_buckets st !! rank = Some l ∧ k ∈ l ∧ K k
    ∧ Some e ∈ live_entities st k.

(** The entity an event is about. *)
Definition event_entity (ev : Event) : option nat :=
  match ev with
  | EvChangeEntityBucket _ e _ | EvPropagateRelocation e
  | EvReplaceEntity _ _ (Some e) => Some e
  | _ => None
  end.

(** The events of [T] are about entities in [E] only. *)
Definition trace_within (T : list Event) (E : nat → Prop) : Prop :=
  ∀ ev e, ev ∈ T → event_entity ev = Some e → E e.

(** The events that move an entity or its data. *)
Definition moves_entity (ev : Event) : bool :=
  match ev with
  | EvCopyFields _ _ _ _ | EvChangeEntityBucket _ _ _
  | EvPropagateRelocation _ | EvReplaceEntity _ _ (Some _) => true
  | _ => false
  end.

(** From [st] to [st'] no entity was moved. *)
Definition no_moves (st st' : Repo) : Prop :=
  heap st' = heap st ∧ entities st' = entities st
  ∧ ∃ T, trace st' = trace st ++ T ∧ Forall (λ ev, moves_entity ev = false) T.

(** How often the hook was called for [e]. *)
Definition is_hook_for (e : nat) (ev : Event) : bool :=
  match ev with
  | EvPropagateRelocation e' => e' =? e
  | _ => false
  end.

Definition hook_calls (e : nat) (T : list Event) : nat :=
  length (filter (λ ev, is_hook_for e ev = true) T).

(** In [T] the hook is called at most once for an entity, and after every
    update of a back-reference the hook is called for that entity: once,
    after the last update. *)
Definition hooks_settle (T : list Event) : Prop :=
  (∀ e, hook_calls e T ≤ 1)
  ∧ ∀ i k e j,
      T !! i = Some (EvChangeEntityBucket k e j) →
      ∃ m, i < m ∧ T !! m = Some (EvPropagateRelocation e).

(** From [st] to [st'] the events [T] were appended. *)
Definition hooks_in (st st' : Repo) (E : nat → Prop) : Prop :=
  ∃ T, trace st' = trace st ++ T ∧ hooks_settle T ∧ trace_within T E.

(** What the slot loop keeps of the field data and of the hook calls, next
    to [sort_inv]: every target has the data it had, the data outside the
    family is as it was, and of the events so far the hooks of the entities
    that are placed have been called, once, while the entities whose
    back-reference was updated and whose hook is still to come are targets
    of the turns to come, which call the hook since [chg] is set. *)
Record move_inv (st0 st : Repo) (slots : list (nat * nat)) (v0 : nat * nat)
    (targets tdone ttodo : list nat) (chg : bool) : Prop := MkMoveInv {
  mv_data : ∀ t, t ∈ targets → data_of st t = data_of st0 t;
  mv_frame_data : ∀ q, q ∉ v0 :: slots → dat st q = dat st0 q;
  mv_trace :
    ∃ T, trace st = trace st0 ++ T
         ∧ (∀ e, e ∉ tdone → hook_calls e T = 0)
         ∧ (∀ e, hook_calls e T ≤ 1)
         ∧ (∀ i k e j,
              T !! i = Some (EvChangeEntityBucket k e j) →
              (e ∈ ttodo ∧ chg = true)
              ∨ ∃ m, i < m ∧ T !! m = Some (EvPropagateRelocation e))
         ∧ trace_within T (λ e, e ∈ targets)
}.

(** What one turn of the family loop does to the family [fam] it sorts. *)
Definition family_sorted (EntityLess : nat → nat → bool) (st st' : Repo)
    (fam : list nat) : Prop :=
  sort_frame st st'
  ∧ (∃ es, storage st fam = Some <$> es
           ∧ storage st' fam = Some <$> sort_entities EntityLess es)
  ∧ (∀ k, k ∉ fam → live_entities st' k = live_entities st k)
  ∧ (∀ es, storage st fam = Some <$> es →
           sort_entities EntityLess es = es → no_moves st st')
  ∧ data_kept st st'
  ∧ hooks_in st st' (λ e, Some e ∈ storage st fam).

(** Every allocation to come succeeds. *)
Definition supply_ok (st : Repo) : Prop :=
  Forall (λ b, b = true) (malloc_supply st).

(** The family of bucket [k] in list [l]. *)
Definition family_of (st : Repo) (l : list nat) (k : nat) : list nat :=
  family (skel <$> heap st)
    (key_part_ord (key_at (skel <$> heap st) k)) l.

(** The families of the buckets in [K] read sorted already. *)
Definition already_sorted (EntityLess : nat → nat → bool) (st : Repo)
    (K : nat → Prop) : Prop :=
  ∀ rank l k, m_buckets st !! rank = Some l → k ∈ l → K k →
    ∃ es, storage st (family_of st l k) = Some <$> es
          ∧ sort_entities EntityLess es = es.

(** From [st] to [st'] the families of the buckets in [K] were sorted and
    nothing else was changed. *)
Definition sorted_in (EntityLess : nat → nat → bool) (st st' : Repo)
    (K : nat → Prop) : Prop :=
  sort_frame st st'
  ∧ (∀ k, ¬ K k → live_entities st' k = live_entities st k)
  ∧ (∀ rank l k, m_buckets st !! rank = Some l → k ∈ l → K k →
       ∃ es, storage st (family_of st l k) = Some <$> es
             ∧ storage st' (family_of st l k)
               = Some <$> sort_entities EntityLess es)
  ∧ (already_sorted EntityLess st K → no_moves st st')
  ∧ data_kept st st'
  ∧ hooks_in st st' (lives_in st K).

(** How [internal_sort_bucket_entities] fails: in a repository that has the
    invariant, or, when the insertion of a scratch bucket threw, with the
    family of that bucket half updated. *)
Definition sort_failed (e : Error) (st st' : Repo) : Prop :=
  (repo_ok st' ∨ (e = BadAlloc ∧ insert_failed st'))
  ∧ (m_bucket_capacity st = 0 ∨ ¬ supply_ok st).

(** [K] holds whole families only. *)
Definition family_closed (st : Repo) (K : nat → Prop) : Prop :=
  ∀ rank l k k', m_buckets st !! rank = Some l → k ∈ l → K k →
                 k' ∈ family_of st l k → K k'.

(** ** The relocation hook *)

(** After the back-reference of [e] was updated, the hook is called for [e]
    before another slot operation copies data or updates a back-reference. *)
Fixpoint hook_before_move (e : nat) (T : list Event) : bool :=
  match T with
  | [] => false
  | EvPropagateRelocation e' :: T' =>
      if e' =? e then true else hook_before_move e T'
  | EvChangeEntityBucket _ _ _ :: _ => false
  | EvCopyFields _ _ _ _ :: _ => false
  | _ :: T' => hook_before_move e T'
  end.

Fixpoint hooks_prompt (T : list Event) : bool :=
  match T with
  | [] => true
  | EvChangeEntityBucket _ e _ :: T' => hook_before_move e T' && hooks_prompt T'
  | _ :: T' => hooks_prompt T'
  end.

(** The events an operation appended to the trace. *)
Definition new_events (st st' : Repo) : list Event :=
  drop (length (trace st)) (trace st').

(** ** Example repositories *)

Definition example_bucket (key : list Z) (cap size : nat)
    (es : list (option nat)) (first fam : option nat) : Bucket :=
  MkBucket 0 key cap size [MkDataMap 16 0 None] es (replicate cap []) first
    fam.

(** The scenario of the spec: capacity 2 and three entities of part 1, in
    two buckets, the first full, the second with one entity. *)
Definition example_repo : Repo :=
  MkRepo [] 2 [[0; 1]]
    (<[0 := example_bucket [2; 1; 0]%Z 2 2 [Some 12; Some 10] (Some 0)
              (Some 1)]>
       (<[1 := example_bucket [2; 1; 1]%Z 2 1 [Some 11; None] (Some 0)
                 None]> ∅))
    (<[12 := (0, 0)]> (<[10 := (0, 1)]> (<[11 := (1, 0)]> ∅)))
    2 [] [].

(** A repository without buckets, of bucket capacity [cap]. *)
Definition empty_repo (cap : nat) : Repo := MkRepo [] cap [[]] ∅ ∅ 0 [] [].

(** A family of capacity 1 whose last bucket has the greatest counter. *)
Definition full_counter_repo : Repo :=
  MkRepo [] 1 [[0; 1]]
    (<[0 := example_bucket [2; 1; 4294967294]%Z 1 1 [Some 10] (Some 0)
              (Some 1)]>
       (<[1 := example_bucket [2; 1; 4294967295]%Z 1 1 [Some 11] (Some 0)
                 None]> ∅))
    (<[10 := (0, 0)]> (<[11 := (1, 0)]> ∅))
    2 [] [].

(** [example_repo] with a second family, of part 2, whose only bucket is
    full; the second allocation to come fails. *)
Definition two_family_repo : Repo :=
  MkRepo [] 2 [[0; 1; 2]]
    (<[0 := example_bucket [2; 1; 0]%Z 2 2 [Some 12; Some 10] (Some 0)
              (Some 1)]>
       (<[1 := example_bucket [2; 1; 1]%Z 2 1 [Some 11; None] (Some 0)
                 None]>
          (<[2 := example_bucket [2; 2; 0]%Z 2 2 [Some 20; Some 21] (Some 2)
                    (Some 2)]> ∅)))
    (<[12 := (0, 0)]>
       (<[10 := (0, 1)]>
          (<[11 := (1, 0)]> (<[20 := (2, 0)]> (<[21 := (2, 1)]> ∅)))))
    3 [true; false] [].

(** [two_family_repo], with an allocator that does not fail, after
    [declare_bucket] appended a bucket to the family of part 2, which was
    full: the last bucket of that family is empty. *)
Definition empty_last_repo : Repo :=
  (declare_bucket 0 [2%Z] [] (with_malloc_supply [] two_family_repo)).2.

(** A family of capacity 2 whose last bucket has the greatest counter and
    a free slot. *)
Definition near_full_counter_repo : Repo :=
  MkRepo [] 2 [[0; 1]]
    (<[0 := example_bucket [2; 1; 4294967294]%Z 2 2 [Some 10; Some 11]
              (Some 0) (Some 1)]>
       (<[1 := example_bucket [2; 1; 4294967295]%Z 2 1 [Some 12; None]
                 (Some 0) None]> ∅))
    (<[10 := (0, 0)]> (<[11 := (0, 1)]> (<[12 := (1, 0)]> ∅)))
    2 [] [].

(** [full_counter_repo] with its two entities in the other order. *)
Definition unsorted_counter_repo : Repo :=
  MkRepo [] 1 [[0; 1]]
    (<[0 := example_bucket [2; 1; 4294967294]%Z 1 1 [Some 11] (Some 0)
              (Some 1)]>
       (<[1 := example_bucket [2; 1; 4294967295]%Z 1 1 [Some 10] (Some 0)
                 None]> ∅))
    (<[11 := (0, 0)]> (<[10 := (1, 0)]> ∅))
    2 [] [].

(** The family of the example after its third entity was removed and
    before the caller has used the bucket that is left empty: the last
    bucket is empty. *)
Definition appended_repo : Repo :=
  MkRepo [] 2 [[0; 1]]
    (<[0 := example_bucket [2; 1; 0]%Z 2 2 [Some 12; Some 10] (Some 0)
              (Some 1)]>
       (<[1 := example_bucket [2; 1; 1]%Z 2 0 [None; None] (Some 0)
                 None]> ∅))
    (<[12 := (0, 0)]> (<[10 := (0, 1)]> ∅))
    2 [] [].

(** [example_repo] with a field of one byte per entity: the slot of entity
    [e] holds the byte [e]. *)
Definition tagged_field : FieldBase :=
  MkField "tag" 0 1 [MkRestriction (MkEntityKey 0 1) [1; 0; 0; 0; 0; 0; 0]%Z].

Definition tagged_bucket (key : list Z) (size : nat)
    (es : list (option nat)) (ds : list (list Z)) (first fam : option nat)
  : Bucket :=
  MkBucket 0 key 2 size
    [MkDataMap 16 1
       (Some (Some (MkRestriction (MkEntityKey 0 1) [1; 0; 0; 0; 0; 0; 0]%Z)));
     MkDataMap 32 0 None]
    es ds first fam.

Definition tagged_repo : Repo :=
  MkRepo [tagged_field] 2 [[0; 1]]
    (<[0 := tagged_bucket [2; 1; 0]%Z 2 [Some 12; Some 10] [[12]; [10]]%Z
              (Some 0) (Some 1)]>
       (<[1 := tagged_bucket [2; 1; 1]%Z 1 [Some 11; None] [[11]; [0]]%Z
                 (Some 0) None]> ∅))
    (<[12 := (0, 0)]> (<[10 := (0, 1)]> (<[11 := (1, 0)]> ∅)))
    2 [] [].

(** The order the caller sorts by is a strict total order. *)
Definition strict_total_order (R : nat → nat → bool) : Prop :=
  (∀ a, R a a = false)
  ∧ (∀ a b c, R a b = true → R b c = true → R a c = true)
  ∧ (∀ a b, a ≠ b → R a b = true ∨ R b a = true).


(** * Field-layout resolution *)

Section Dimension.

Lemma filter_none {A} (P : A → Prop) `{∀ x, Decision (P x)} (l : list A) :
  Forall (λ x, ¬ P x) l → filter P l = [].
Proof.
  induction 1 as [|x l Hx _ IH]; [done|]. by rewrite filter_cons_False.
Qed.

Lemma filter_iff_in {A} (P1 P2 : A → Prop) `{∀ x, Decision (P1 x)}
    `{∀ x, Decision (P2 x)} (l : list A) :
  (∀ x, x ∈ l → P1 x ↔ P2 x) → filter P1 l = filter P2 l.
Proof.
  induction l as [|x l IH]; intros Hl; [done|].
  rewrite !filter_cons.
  rewrite IH by (intros y Hy; apply Hl; by right).
  destruct (decide (P1 x)) as [H1|H1], (decide (P2 x)) as [H2|H2]; try done;
    exfalso; apply (Hl x (list_elem_of_here _ _)) in H1 || apply H1, (Hl x (list_elem_of_here _ _)); done.
Qed.

Lemma entity_key_less_spec a b :
  entity_key_less a b = true ↔
  (ek_rank a < ek_rank b ∨ (ek_rank a = ek_rank b ∧ ek_id a < ek_id b))%Z.
Proof.
  unfold entity_key_less.
  rewrite orb_true_iff, andb_true_iff, Z.ltb_lt, Z.eqb_eq, Z.ltb_lt. tauto.
Qed.

Lemma entity_key_eqb_spec a b : entity_key_eqb a b = true ↔ a = b.
Proof.
  unfold entity_key_eqb. rewrite andb_true_iff, !Z.eqb_eq.
  destruct a, b; simpl; split; [intros [-> ->]; done | intros [= -> ->]; done].
Qed.

Lemma entity_key_eqb_false a b : entity_key_eqb a b = false ↔ a ≠ b.
Proof.
  rewrite <- entity_key_eqb_spec. destruct (entity_key_eqb a b); naive_solver.
Qed.

Lemma restriction_matches_spec etype part_ord r :
  restriction_matches etype part_ord r = true ↔
  ∃ p, p ∈ part_ord ∧ r_key r = MkEntityKey etype p.
Proof.
  unfold restriction_matches. rewrite existsb_exists.
  setoid_rewrite entity_key_eqb_spec. setoid_rewrite list_elem_of_In. done.
Qed.

Lemma dimension_loop_no_range field etype part_ord dim method :
  dimension_loop field etype part_ord [] dim method = inr dim.
Proof. by destruct part_ord. Qed.

Lemma resolve_dimension_nil method field dim :
  resolve_dimension method field dim [] = inr dim.
Proof. by destruct dim. Qed.

(** [restriction_lower_bound] splits a sorted range: what it skips is less
    than the key, what it returns starts at a restriction that is not. *)
Lemma restriction_lower_bound_split range key :
  ∃ skipped,
    range = skipped ++ restriction_lower_bound range key ∧
    Forall (λ r, entity_key_less (r_key r) key = true) skipped ∧
    match restriction_lower_bound range key with
    | [] => True
    | r :: _ => entity_key_less (r_key r) key = false
    end.
Proof.
  induction range as [|r range IH]; simpl.
  - by exists [].
  - unfold FieldRestrictionLess.
    destruct (entity_key_less (r_key r) key) eqn:Hlt.
    + destruct IH as (sk & Heq & Hall & Hhd).
      exists (r :: sk). split; [simpl; congruence|]. split; [by constructor|done].
    + exists []. by rewrite Hlt.
Qed.

Lemma restrictions_sorted_app_r l1 l2 :
  restrictions_sorted (l1 ++ l2) → restrictions_sorted l2.
Proof.
  unfold restrictions_sorted. induction l1; simpl; [done|].
  intros H. apply StronglySorted_inv in H as [H _]. auto.
Qed.

(** The loop of [dimension] computes the spec's resolution on the matching
    restrictions that are left in the range. *)
Lemma dimension_loop_spec field etype method part_ord :
  part_ordinals_sorted part_ord →
  ∀ ibeg dim,
    restrictions_sorted ibeg →
    dimension_loop field etype part_ord ibeg dim method =
    resolve_dimension method field dim
      (filter (λ r, restriction_matches etype part_ord r) ibeg).
Proof.
  induction 1 as [|p rest Hsorted IH Hp]; intros ibeg dim Hib.
  - simpl. rewrite filter_none.
    + by rewrite resolve_dimension_nil.
    + apply Forall_forall. intros r _ Hm. exact Hm.
  - destruct ibeg as [|r0 tl].
    { simpl. rewrite filter_nil. by rewrite resolve_dimension_nil. }
    cbn [dimension_loop].
    set (key := MkEntityKey etype p).
    destruct (restriction_lower_bound_split (r0 :: tl) key)
      as (sk & Heq & Hsk & Hhd).
    set (ibeg' := restriction_lower_bound (r0 :: tl) key) in *.
    assert (Hsorted' : restrictions_sorted ibeg').
    { rewrite Heq in Hib. by apply restrictions_sorted_app_r in Hib. }
    (* skipped restrictions match nothing *)
    assert (Hfilter : filter (λ r, restriction_matches etype (p :: rest) r) (r0 :: tl)
                    = filter (λ r, restriction_matches etype (p :: rest) r) ibeg').
    { rewrite Heq at 1. rewrite filter_app.
      rewrite (filter_none _ sk); [done|].
      eapply Forall_impl; [exact Hsk|]. intros r Hr Hm.
      apply Is_true_true, restriction_matches_spec in Hm as (q & Hq & Hkey).
      apply entity_key_less_spec in Hr. rewrite Hkey in Hr. simpl in Hr.
      apply elem_of_cons in Hq as [->|Hq]; [lia|].
      rewrite Forall_forall in Hp. specialize (Hp _ Hq). lia. }
    rewrite Hfilter. clear Hfilter.
    (* matching against the later ordinals only *)
    assert (Hrest : ∀ r, entity_key_less (r_key r) key = false →
                         r_key r ≠ key →
                         restriction_matches etype (p :: rest) r
                         = restriction_matches etype rest r).
    { intros r _ Hne. unfold restriction_matches. cbn [existsb].
      apply entity_key_eqb_false in Hne. unfold key in Hne. by rewrite Hne. }
    assert (Hnone : ∀ r, (entity_key_less (r_key r) key = true ∨ r_key r = key) →
                         restriction_matches etype rest r = false).
    { intros r Hr. apply not_true_is_false. intros Hm.
      apply restriction_matches_spec in Hm as (q & Hq & Hkey).
      rewrite Forall_forall in Hp. specialize (Hp _ Hq).
      destruct Hr as [Hr|Hr].
      - apply entity_key_less_spec in Hr. rewrite Hkey in Hr. simpl in Hr. lia.
      - rewrite Hkey in Hr. inversion Hr. lia. }
    destruct ibeg' as [|r tl'] eqn:Hibeg'.
    { rewrite dimension_loop_no_range, filter_nil.
      by rewrite resolve_dimension_nil. }
    assert (Htl : ∀ r', r' ∈ tl' → entity_key_less (r_key r) (r_key r') = true).
    { intros r' Hr'. unfold restrictions_sorted in Hsorted'.
      apply StronglySorted_inv in Hsorted' as [_ Hall].
      rewrite Forall_forall in Hall. by apply Hall. }
    assert (Htl_p : filter (λ r, restriction_matches etype (p :: rest) r) tl'
                  = filter (λ r, restriction_matches etype rest r) tl').
    { apply filter_iff_in. intros r' Hr'.
      rewrite Hrest; [done| |].
      - specialize (Htl _ Hr'). apply not_true_is_false. intros Hlt.
        apply entity_key_less_spec in Htl, Hlt.
        destruct (entity_key_less (r_key r) key) eqn:E; [done|].
        assert (¬ (ek_rank (r_key r) < ek_rank key
                   ∨ ek_rank (r_key r) = ek_rank key ∧ ek_id (r_key r) < ek_id key))%Z
          by (rewrite <- entity_key_less_spec; congruence).
        lia.
      - intros Heqk. specialize (Htl _ Hr'). rewrite Heqk in Htl.
        assert (¬ (ek_rank (r_key r) < ek_rank key
                   ∨ ek_rank (r_key r) = ek_rank key ∧ ek_id (r_key r) < ek_id key))%Z
          by (rewrite <- entity_key_less_spec; congruence).
        apply entity_key_less_spec in Htl. lia. }
    destruct (entity_key_eqb (r_key r) key) eqn:Heqb.
    + apply entity_key_eqb_spec in Heqb.
      rewrite filter_cons_True.
      2:{ apply Is_true_true, restriction_matches_spec. exists p.
          split; [by left|done]. }
      rewrite Htl_p.
      assert (Hr_rest : filter (λ r, restriction_matches etype rest r) (r :: tl')
                      = filter (λ r, restriction_matches etype rest r) tl').
      { rewrite filter_cons_False; [done|].
        rewrite (Hnone r); [intros []|by right]. }
      destruct (stride_not_equal (r_stride r)
                  (r_stride match dim with Some d => d | None => r end)) eqn:Hne.
      * destruct dim as [d|]; simpl; rewrite Hne; [done|].
        unfold stride_not_equal in Hne. by rewrite bool_decide_eq_true_2 in Hne.
      * rewrite IH by done. rewrite Hr_rest.
        destruct dim as [d|]; simpl; by rewrite Hne.
    + apply entity_key_eqb_false in Heqb.
      rewrite IH by done.
      f_equal. rewrite !filter_cons, Htl_p, (Hrest r Hhd Heqb). done.
Qed.

End Dimension.

Lemma check_strides_cases method field d ms :
  (Forall (λ r, r_stride r = r_stride d) ms ∧
   check_strides method field d ms = inr (Some d))
  ∨ (∃ r, r ∈ ms ∧ r_stride r ≠ r_stride d ∧
       check_strides method field d ms =
       inl (IncompatibleDimensions method (f_name field)
              (r_ordinal r) (r_ordinal d))).
Proof.
  induction ms as [|r ms IH]; simpl.
  - left. by split.
  - unfold stride_not_equal. destruct (decide (r_stride r = r_stride d)) as [He|Hne].
    + rewrite bool_decide_eq_true_2 by done. simpl.
      destruct IH as [[Hall Hok]|(r' & Hin & Hne & Herr)].
      * left. split; [by constructor|done].
      * right. exists r'. split; [by right|done].
    + rewrite bool_decide_eq_false_2 by done. simpl.
      right. exists r. split; [by left|done].
Qed.

Lemma matching_restriction_ordinal field etype part_ord r :
  r ∈ matching_restrictions field etype part_ord →
  r ∈ f_restrictions field ∧ r_ordinal r ∈ part_ord ∧ ek_rank (r_key r) = etype.
Proof.
  unfold matching_restrictions. rewrite list_elem_of_filter.
  intros [Hm Hin]. split; [done|].
  apply Is_true_true, restriction_matches_spec in Hm as (p & Hp & Hkey).
  unfold r_ordinal. rewrite Hkey. simpl. done.
Qed.

(** C5 (schema-conflict detection).  For a field whose restrictions are kept
    sorted by key and a family whose part ordinals are sorted and
    duplicate-free: if two restrictions that match the family disagree on
    their stride, [dimension] throws the error that names the field and two
    matching categories whose strides differ; if all matching restrictions
    agree, [dimension] returns the first of them (the empty restriction when
    none matches).  In particular the family of parts 1, 2 and 3, where parts
    1 and 2 restrict [F] to dimension 3 and part 3 to dimension 4, fails
    naming [F]. *)
Theorem dimension_detects_schema_conflict field etype part_ord method :
  restrictions_sorted (f_restrictions field) →
  part_ordinals_sorted part_ord →
  let ms := matching_restrictions field etype part_ord in
  ((∃ r1 r2, r1 ∈ ms ∧ r2 ∈ ms ∧ r_stride r1 ≠ r_stride r2) →
   ∃ r_old r_new,
     r_old ∈ ms ∧ r_new ∈ ms ∧ r_stride r_old ≠ r_stride r_new ∧
     r_ordinal r_old ∈ part_ord ∧ r_ordinal r_new ∈ part_ord ∧
     dimension field etype part_ord method =
     inl (IncompatibleDimensions method (f_name field)
            (r_ordinal r_old) (r_ordinal r_new)))
  ∧ ((∀ r1 r2, r1 ∈ ms → r2 ∈ ms → r_stride r1 = r_stride r2) →
     dimension field etype part_ord method = inr (head ms))
  ∧ dimension conflict_field 0 [1; 2; 3]%Z method =
    inl (IncompatibleDimensions method "F" 3 1).
Proof.
  intros Hrs Hps ms.
  assert (Hdim : dimension field etype part_ord method
                 = resolve_dimension method field None ms).
  { unfold dimension. by rewrite dimension_loop_spec. }
  split; [|split; [|reflexivity]].
  - intros (r1 & r2 & H1 & H2 & Hne).
    rewrite Hdim. destruct ms as [|d ms'] eqn:Hms.
    { by apply elem_of_nil in H1. }
    simpl. destruct (check_strides_cases method field d (d :: ms'))
      as [[Hall Hok]|(r & Hin & Hned & Herr)].
    + rewrite Forall_forall in Hall.
      rewrite (Hall _ H1), (Hall _ H2) in Hne. done.
    + exists r, d. rewrite <- Hms in *.
      assert (Hd : d ∈ ms) by (rewrite Hms; by left).
      destruct (matching_restriction_ordinal _ _ _ _ Hin) as (_ & ? & _).
      destruct (matching_restriction_ordinal _ _ _ _ Hd) as (_ & ? & _).
      rewrite Hms in Herr. done.
  - intros Hagree. rewrite Hdim. destruct ms as [|d ms'] eqn:Hms; [done|].
    simpl. destruct (check_strides_cases method field d (d :: ms'))
      as [[Hall Hok]|(r & Hin & Hned & Herr)]; [done|].
    exfalso. apply Hned. apply Hagree; [done|by left].
Qed.

(** The theorem at the scenario of the spec. *)
Lemma dimension_detects_schema_conflict_witness :
  restrictions_sorted (f_restrictions conflict_field) ∧
  part_ordinals_sorted [1; 2; 3]%Z ∧
  ∃ r_old r_new,
    r_stride r_old ≠ r_stride r_new ∧
    dimension conflict_field 0 [1; 2; 3]%Z "resolve" =
    inl (IncompatibleDimensions "resolve" (f_name conflict_field)
           (r_ordinal r_old) (r_ordinal r_new)).
Proof.
  assert (H1 : restrictions_sorted (f_restrictions conflict_field))
    by (repeat constructor).
  assert (H2 : part_ordinals_sorted [1; 2; 3]%Z) by (repeat constructor).
  split; [exact H1|]. split; [exact H2|].
  destruct (dimension_detects_schema_conflict conflict_field 0 [1; 2; 3]%Z
              "resolve" H1 H2) as (Hconflict & _ & _).
  destruct Hconflict as (r_old & r_new & _ & _ & Hne & _ & _ & Herr).
  - exists (MkRestriction (MkEntityKey 0 1) [3; 0; 0; 0; 0; 0; 0]%Z),
           (MkRestriction (MkEntityKey 0 3) [4; 0; 0; 0; 0; 0; 0]%Z).
    split; [|split]; [| |done].
    + unfold matching_restrictions. apply list_elem_of_filter.
      split; [done|]. simpl. set_solver.
    + unfold matching_restrictions. apply list_elem_of_filter.
      split; [done|]. simpl. set_solver.
  - exists r_old, r_new. split; [exact Hne|exact Herr].
Defined.

(** ** Offsets *)

Lemma wrap_unsigned_mod16 z : (wrap_unsigned z mod 16 = z mod 16)%Z.
Proof.
  unfold wrap_unsigned. apply Z.mod_mod_divide. by exists 268435456%Z.
Qed.

Lemma wrap_size_t_mod16 z : (wrap_size_t z mod 16 = z mod 16)%Z.
Proof.
  unfold wrap_size_t. apply Z.mod_mod_divide.
  by exists 1152921504606846976%Z.
Qed.

Lemma align_aligned nb : (align nb mod 16 = 0)%Z.
Proof.
  unfold align, BYTE_ALIGN.
  assert (Hgap : wrap_unsigned (nb mod 16) = (nb mod 16)%Z).
  { unfold wrap_unsigned. apply Z.mod_small.
    pose proof (Z.mod_pos_bound nb 16). lia. }
  rewrite Hgap, wrap_unsigned_mod16.
  destruct (Z.eqb_spec (nb mod 16) 0) as [H0|Hn0]; [done|].
  assert (Hpad : wrap_unsigned (16 - nb mod 16) = (16 - nb mod 16)%Z).
  { unfold wrap_unsigned. apply Z.mod_small.
    pose proof (Z.mod_pos_bound nb 16). lia. }
  rewrite Hpad, wrap_size_t_mod16.
  replace (nb + (16 - nb mod 16))%Z with (nb - nb mod 16 + 1 * 16)%Z by lia.
  rewrite Z.mod_add by lia.
  rewrite Zminus_mod, Z.mod_mod, Z.sub_diag by lia. done.
Qed.

(** A field that no restriction binds to the family resolves to the empty
    restriction; no order on the restrictions is needed for that. *)
Lemma dimension_loop_no_match field etype method part_ord :
  ∀ ibeg dim,
    Forall (λ r, restriction_matches etype part_ord r = false) ibeg →
    dimension_loop field etype part_ord ibeg dim method = inr dim.
Proof.
  induction part_ord as [|p rest IH]; intros ibeg dim Hno; [done|].
  destruct ibeg as [|r0 tl]; [done|].
  cbn [dimension_loop].
  destruct (restriction_lower_bound_split (r0 :: tl) (MkEntityKey etype p))
    as (sk & Heq & _ & _).
  set (ibeg' := restriction_lower_bound (r0 :: tl) (MkEntityKey etype p)) in *.
  assert (Hno' : Forall (λ r, restriction_matches etype (p :: rest) r = false) ibeg').
  { rewrite Heq in Hno. by apply Forall_app in Hno as [_ ?]. }
  assert (Hrest : Forall (λ r, restriction_matches etype rest r = false) ibeg').
  { eapply Forall_impl; [exact Hno'|]. intros r Hr.
    unfold restriction_matches in *. simpl in Hr.
    by apply orb_false_iff in Hr as [_ ?]. }
  destruct ibeg' as [|r tl']; [by rewrite dimension_loop_no_range|].
  apply Forall_cons in Hno' as [Hr _].
  unfold restriction_matches in Hr. cbn [existsb] in Hr.
  apply orb_false_iff in Hr as [Hr _]. rewrite Hr. by apply IH.
Qed.

Lemma dimension_no_match field etype part_ord method :
  matching_restrictions field etype part_ord = [] →
  dimension field etype part_ord method = inr None.
Proof.
  intros Hnone. apply dimension_loop_no_match.
  apply Forall_forall. intros r Hr. apply not_true_is_false. intros Hm.
  assert (r ∈ matching_restrictions field etype part_ord) as Hin.
  { apply list_elem_of_filter. split; [by apply Is_true_true|done]. }
  rewrite Hnone in Hin. by apply elem_of_nil in Hin.
Qed.

(** What the field-map loop returns, from any starting offset. *)
Lemma field_map_loop_spec etype part_ord capacity method field_set :
  ∀ value_offset fm,
    field_map_loop etype part_ord capacity method field_set value_offset
    = inr fm →
    length fm = S (length field_set)
    ∧ m_base <$> fm !! 0 = Some value_offset
    ∧ (∀ i a b, fm !! i = Some a → fm !! S i = Some b →
         m_base b =
         wrap_unsigned
           (m_base a + align (wrap_unsigned (m_size a * capacity))))
    ∧ ((value_offset mod 16 = 0)%Z →
       ∀ a, a ∈ fm → (m_base a mod 16 = 0)%Z)
    ∧ (∀ i field a, field_set !! i = Some field → fm !! i = Some a →
         matching_restrictions field etype part_ord = [] → m_size a = 0%Z).
Proof.
  induction field_set as [|field rest IH]; intros off fm Hfm; simpl in Hfm.
  - injection Hfm as <-. split; [done|]. split; [done|].
    split; [by intros [|i] a b Ha Hb|]. split.
    + intros Hoff a Ha. apply list_elem_of_singleton in Ha as ->. done.
    + by intros i f a Hf.
  - destruct (dimension field etype part_ord method) as [e|dim] eqn:Hdim; [done|].
    match type of Hfm with
    | context [field_map_loop _ _ _ _ rest ?o] => set (off' := o) in *
    end.
    destruct (field_map_loop etype part_ord capacity method rest off')
      as [e|fm'] eqn:Hrest; [done|].
    injection Hfm as <-.
    destruct (IH _ _ Hrest) as (Hlen & Hhd & Hstep & Hal & Hzero).
    split; [simpl; lia|]. split; [done|]. split; [|split].
    + intros [|i] a b Ha Hb.
      * simpl in Ha, Hb. injection Ha as <-. simpl.
        destruct fm' as [|c fm'']; [done|]. simpl in Hb, Hhd.
        injection Hb as <-. by injection Hhd as ->.
      * simpl in Ha, Hb. by eapply Hstep.
    + intros Hoff a Ha. apply elem_of_cons in Ha as [->|Ha]; [done|].
      apply Hal; [|done]. unfold off'.
      rewrite wrap_unsigned_mod16, Z.add_mod, Hoff, align_aligned by lia. done.
    + intros [|i] f a Hf Ha Hnone.
      * simpl in Hf, Ha. injection Hf as <-. injection Ha as <-. simpl.
        rewrite (dimension_no_match _ _ _ _ Hnone) in Hdim.
        injection Hdim as <-. done.
      * simpl in Hf, Ha. by eapply Hzero.
Qed.

(** C6 (field layout offsets), as the code has it.  Offsets are assigned in
    field-registration order; the first field's base is the size of the
    handle-pointer array of [capacity] entries rounded up to 16 bytes; each
    next base is the previous base plus the previous field's whole column,
    slot size times capacity, rounded up to 16 bytes (in 32-bit arithmetic);
    every base is 16-byte aligned; a field with no matching restriction gets
    slot size zero, so that its base is also the base of the field after it.
    For per-slot sizes 4, 0 and 12 and capacity 8 the bases are 64, 96 and 96,
    and the block of columns ends at 192. *)
Theorem field_map_offsets etype part_ord capacity method field_set fm :
  new_field_map etype part_ord capacity method field_set = inr fm →
  length fm = S (length field_set)
  ∧ m_base <$> fm !! 0 =
    Some (align (wrap_size_t (sizeof_Entity_ptr * capacity)))
  ∧ (∀ i a b, fm !! i = Some a → fm !! S i = Some b →
       m_base b =
       wrap_unsigned (m_base a + align (wrap_unsigned (m_size a * capacity))))
  ∧ (∀ a, a ∈ fm → (m_base a mod 16 = 0)%Z)
  ∧ (∀ i field a, field_set !! i = Some field → fm !! i = Some a →
       matching_restrictions field etype part_ord = [] → m_size a = 0%Z)
  ∧ (∃ fm8, new_field_map 0 [1%Z] 8 method example_fields = inr fm8
            ∧ m_size <$> fm8 = [4; 0; 12; 0]%Z
            ∧ m_base <$> fm8 = [64; 96; 96; 192]%Z).
Proof.
  intros Hfm. unfold new_field_map in Hfm.
  destruct (field_map_loop_spec _ _ _ _ _ _ _ Hfm)
    as (Hlen & Hhd & Hstep & Hal & Hzero).
  repeat split; try done.
  - apply Hal, align_aligned.
  - eexists. split; [reflexivity|]. split; reflexivity.
Qed.

(** The theorem at the layout example of the spec. *)
Lemma field_map_offsets_witness :
  ∃ fm, new_field_map 0 [1%Z] 8 "declare_bucket" example_fields = inr fm
        ∧ length fm = 4
        ∧ ∀ a, a ∈ fm → (m_base a mod 16 = 0)%Z.
Proof.
  eexists. split; [reflexivity|].
  destruct (field_map_offsets 0 [1%Z] 8 "declare_bucket" example_fields _
              eq_refl) as (Hlen & _ & _ & Hal & _).
  split; [exact Hlen|exact Hal].
Defined.

(** C6, as the claim states it, fails on the layout example of the spec:
    the zero-size field shares its base with the field after it, so the
    offsets are not strictly increasing, and the second base is the first
    plus the rounded column of 8 slots, not plus the rounded slot size. *)
Lemma field_map_offsets_not_strictly_increasing :
  ∃ f1 f2 f3 f_end,
    new_field_map 0 [1%Z] 8 "declare_bucket" example_fields
    = inr [f1; f2; f3; f_end]
    ∧ (m_size f1, m_size f2, m_size f3) = (4, 0, 12)%Z
    ∧ ¬ (m_base f2 < m_base f3)%Z
    ∧ m_base f2 ≠ (m_base f1 + align (m_size f1))%Z.
Proof.
  eexists _, _, _, _. split; [vm_compute; reflexivity|].
  cbn [m_size m_base]. split; [reflexivity|]. split; [lia|].
  vm_compute. discriminate.
Qed.


(** * The key order *)

Section Keys.

Implicit Types a b : list Z.

Lemma bucket_key_less_irrefl a : bucket_key_less a a = false.
Proof.
  induction a as [|x a IH]; [done|]. simpl.
  by rewrite Z.ltb_irrefl.
Qed.

Lemma bucket_key_less_trans a b (c : list Z) :
  bucket_key_less a b = true → bucket_key_less b c = true →
  bucket_key_less a c = true.
Proof.
  revert b c. induction a as [|x a IH]; intros [|y b] [|z c]; simpl; try done.
  destruct (Z.ltb_spec x y), (Z.ltb_spec y x), (Z.ltb_spec y z),
    (Z.ltb_spec z y), (Z.ltb_spec x z), (Z.ltb_spec z x);
    try done; try lia.
  apply IH.
Qed.

Lemma bucket_key_less_total a b :
  a ≠ b → bucket_key_less a b = true ∨ bucket_key_less b a = true.
Proof.
  revert b. induction a as [|x a IH]; intros [|y b] Hne; simpl; try done;
    [by left|by right|].
  destruct (Z.ltb_spec x y), (Z.ltb_spec y x); try lia; auto.
  assert (x = y) as -> by lia. apply IH. congruence.
Qed.

Lemma bucket_key_less_asym a b :
  bucket_key_less a b = true → bucket_key_less b a = false.
Proof.
  intros Hab. destruct (bucket_key_less b a) eqn:Hba; [|done].
  pose proof (bucket_key_less_trans _ _ _ Hab Hba) as Haa.
  by rewrite bucket_key_less_irrefl in Haa.
Qed.

Lemma bucket_key_less_le_trans a b (c : list Z) :
  bucket_key_less a b = true → bucket_key_less c b = false →
  bucket_key_less a c = true.
Proof.
  intros Hab Hcb. destruct (decide (b = c)) as [<-|Hne]; [done|].
  destruct (bucket_key_less_total _ _ Hne) as [Hbc|Hcb']; [|congruence].
  by eapply bucket_key_less_trans.
Qed.

Lemma bucket_key_le_less_trans a b (c : list Z) :
  bucket_key_less b a = false → bucket_key_less b c = true →
  bucket_key_less a c = true.
Proof.
  intros Hba Hbc. destruct (decide (a = b)) as [->|Hne]; [done|].
  destruct (bucket_key_less_total _ _ Hne) as [Hab|Hba']; [|congruence].
  by eapply bucket_key_less_trans.
Qed.

Lemma bucket_key_le_antisym a b :
  bucket_key_less a b = false → bucket_key_less b a = false → a = b.
Proof.
  intros Hab Hba. destruct (decide (a = b)) as [|Hne]; [done|].
  destruct (bucket_key_less_total _ _ Hne); congruence.
Qed.

(** Keys that agree on a common front are ordered by what follows it. *)
Lemma bucket_key_less_app l a b :
  bucket_key_less (l ++ a) (l ++ b) = bucket_key_less a b.
Proof.
  induction l as [|x l IH]; [done|]. simpl. by rewrite Z.ltb_irrefl.
Qed.

(** Two different fronts of one length decide the order by themselves. *)
Lemma bucket_key_less_front l1 l2 a b :
  length l1 = length l2 → l1 ≠ l2 →
  bucket_key_less (l1 ++ a) (l2 ++ b) = bucket_key_less l1 l2.
Proof.
  revert l2. induction l1 as [|x l1 IH]; intros [|y l2] Hlen Hne;
    simpl in *; try done.
  destruct (Z.ltb_spec x y), (Z.ltb_spec y x); try done.
  assert (x = y) as -> by lia. apply IH; [lia|congruence].
Qed.

(** *** Keys of the documented layout *)

Lemma search_key_index P c :
  key_family_index (search_key P c) = S (length P).
Proof. unfold key_family_index, search_key. simpl. lia. Qed.

Lemma search_key_count P c : key_family_count (search_key P c) = c.
Proof.
  unfold key_family_count. rewrite search_key_index.
  unfold search_key. simpl. rewrite app_nth2 by lia.
  by rewrite Nat.sub_diag.
Qed.

Lemma search_key_count_at P c c' :
  nth (key_family_index (search_key P c)) (search_key P c') 0%Z = c'.
Proof.
  rewrite search_key_index. unfold search_key. simpl.
  rewrite app_nth2 by lia. by rewrite Nat.sub_diag.
Qed.

Lemma search_key_set_count P c c' :
  set_family_count (search_key P c) c' = search_key P c'.
Proof.
  unfold set_family_count. rewrite search_key_index.
  unfold search_key. simpl. f_equal.
  rewrite insert_app_r_alt by lia. by rewrite Nat.sub_diag.
Qed.

Lemma search_key_part_ord P c : key_part_ord (search_key P c) = P.
Proof.
  unfold key_part_ord, search_key. cbn [hd drop].
  replace (Z.to_nat (Z.of_nat (length P) + 1) - 1) with (length P) by lia.
  by rewrite drop_0, take_app_length.
Qed.

Lemma search_key_wf P c :
  (Z.of_nat (length P) + 2 ≤ UINT_MAX)%Z → wf_key (search_key P c).
Proof.
  intros Hlen. unfold wf_key.
  by rewrite search_key_part_ord, search_key_count.
Qed.

Lemma wf_key_search a :
  wf_key a → a = search_key (key_part_ord a) (key_family_count a).
Proof. by intros [? _]. Qed.

Lemma search_key_inj P c P' c' :
  search_key P c = search_key P' c' → P = P' ∧ c = c'.
Proof.
  intros Heq. split.
  - by rewrite <- (search_key_part_ord P c), Heq, search_key_part_ord.
  - by rewrite <- (search_key_count P c), Heq, search_key_count.
Qed.

Lemma search_key_front P c : search_key P c = key_front P ++ [c].
Proof. done. Qed.

Lemma key_front_less_decides P P' c c' :
  P ≠ P' →
  bucket_key_less (search_key P c) (search_key P' c')
  = bucket_key_less (key_front P) (key_front P').
Proof.
  intros Hne. rewrite !search_key_front.
  destruct (decide (length P = length P')) as [Hlen|Hlen].
  - apply bucket_key_less_front; [simpl; lia|].
    unfold key_front. congruence.
  - unfold key_front. simpl.
    destruct (Z.ltb_spec (Z.of_nat (length P) + 1) (Z.of_nat (length P') + 1)),
      (Z.ltb_spec (Z.of_nat (length P') + 1) (Z.of_nat (length P) + 1));
      try done; lia.
Qed.

Lemma search_key_less_same P c c' :
  bucket_key_less (search_key P c) (search_key P c') = (c <? c')%Z.
Proof.
  rewrite !search_key_front, bucket_key_less_app. simpl.
  destruct (Z.ltb_spec c c'), (Z.ltb_spec c' c); try done; lia.
Qed.

Lemma bucket_part_equal_search P c P' c' :
  bucket_part_equal (search_key P c) (search_key P' c') = true ↔ P = P'.
Proof.
  unfold bucket_part_equal. rewrite bool_decide_eq_true, search_key_index.
  rewrite !search_key_front.
  rewrite take_app_length' by (simpl; done).
  split.
  - intros Heq.
    destruct (decide (length P = length P')) as [Hlen|Hlen].
    + rewrite take_app_length' in Heq by (simpl; lia).
      unfold key_front in Heq. congruence.
    + unfold key_front in Heq. simpl in Heq. injection Heq as Heq _. lia.
  - intros <-. by rewrite take_app_length' by (simpl; done).
Qed.

Lemma bucket_part_equal_wf a b :
  wf_key a → wf_key b →
  bucket_part_equal a b = true ↔ key_part_ord a = key_part_ord b.
Proof.
  intros Ha Hb. rewrite (wf_key_search a Ha), (wf_key_search b Hb) at 1.
  apply bucket_part_equal_search.
Qed.

(** Between two keys of one family there are only keys of that family. *)
Lemma family_convex a b (c : list Z) :
  wf_key a → wf_key b → wf_key c →
  key_part_ord a = key_part_ord c →
  bucket_key_less b a = false → bucket_key_less c b = false →
  key_part_ord b = key_part_ord a.
Proof.
  intros Ha Hb Hc Hac Hba Hcb.
  destruct (decide (key_part_ord b = key_part_ord a)) as [|Hne]; [done|].
  exfalso.
  rewrite (wf_key_search a Ha), (wf_key_search b Hb) in Hba.
  rewrite (wf_key_search c Hc), (wf_key_search b Hb), <- Hac in Hcb.
  rewrite key_front_less_decides in Hba by done.
  rewrite key_front_less_decides in Hcb by congruence.
  destruct (bucket_key_less_total (key_front (key_part_ord a))
              (key_front (key_part_ord b))); [|congruence..].
  unfold key_front. congruence.
Qed.

Lemma wf_key_inv a : wf_key a → ∃ P c, a = search_key P c.
Proof. intros [Ha _]. eauto. Qed.

(** A key of another family compares with every key of a family alike. *)
Lemma other_family_less a b c :
  wf_key a → wf_key b →
  key_part_ord a ≠ key_part_ord b →
  bucket_key_less a b
  = bucket_key_less a (search_key (key_part_ord b) c).
Proof.
  intros (Pa & ca & ->)%wf_key_inv (Pb & cb & ->)%wf_key_inv.
  rewrite !search_key_part_ord. intros Hne.
  by rewrite !key_front_less_decides.
Qed.

Lemma other_family_greater a b c :
  wf_key a → wf_key b →
  key_part_ord a ≠ key_part_ord b →
  bucket_key_less b a
  = bucket_key_less (search_key (key_part_ord b) c) a.
Proof.
  intros (Pa & ca & ->)%wf_key_inv (Pb & cb & ->)%wf_key_inv.
  rewrite !search_key_part_ord. intros Hne.
  by rewrite !key_front_less_decides.
Qed.

End Keys.


(** * Running the operations *)

(** Resolve a heap lookup in a state built by the operations. *)
Ltac lookup_solve :=
  cbn;
  repeat first [ rewrite lookup_insert_eq
               | rewrite lookup_insert_ne by (done || congruence) ];
  first [ eassumption | reflexivity ].

Ltac unfold_monad :=
  unfold mbind, M_bind, gets, modify, put_bucket, put_bucket_set, log, mret,
    M_ret, throw, deref.

Section Run.

Lemma run_bind {A B} (c : M A) (k : A → M B) st :
  (c ≫= k) st =
  match c st with
  | (inr a, st') => k a st'
  | (inl e, st') => (inl e, st')
  end.
Proof. done. Qed.

Lemma run_bind_ok {A B} (c : M A) (k : A → M B) st a st' :
  c st = (inr a, st') → (c ≫= k) st = k a st'.
Proof. intros H. by rewrite run_bind, H. Qed.

Lemma run_bind_err {A B} (c : M A) (k : A → M B) st e st' :
  c st = (inl e, st') → (c ≫= k) st = (inl e, st').
Proof. intros H. by rewrite run_bind, H. Qed.

Lemma run_ret {A} (a : A) st : (mret a : M A) st = (inr a, st).
Proof. done. Qed.

Lemma run_throw {A} e st : @throw A e st = (inl e, st).
Proof. done. Qed.

Lemma run_gets {A} (f : Repo → A) st : gets f st = (inr (f st), st).
Proof. done. Qed.

Lemma run_modify f st : modify f st = (inr tt, f st).
Proof. done. Qed.

Lemma run_deref {A} (o : option A) a st :
  o = Some a → deref o st = (inr a, st).
Proof. by intros ->. Qed.

Lemma run_log e st : log e st = (inr tt, with_trace (trace st ++ [e]) st).
Proof. done. Qed.

Lemma run_get_bucket st k b :
  heap st !! k = Some b → get_bucket k st = (inr b, st).
Proof. intros H. unfold get_bucket. by rewrite run_bind, run_gets, H. Qed.

Lemma run_get_bucket_none st k :
  heap st !! k = None → get_bucket k st = (inl Undefined, st).
Proof. intros H. unfold get_bucket. by rewrite run_bind, run_gets, H. Qed.

Lemma run_put_bucket st k b :
  put_bucket k b st = (inr tt, with_heap (<[k := b]> (heap st)) st).
Proof. done. Qed.

Lemma run_get_bucket_set st rank l :
  m_buckets st !! rank = Some l → get_bucket_set rank st = (inr l, st).
Proof. intros H. unfold get_bucket_set. by rewrite run_bind, run_gets, H. Qed.

Lemma run_put_bucket_set st rank l :
  put_bucket_set rank l st
  = (inr tt, with_buckets (<[rank := l]> (m_buckets st)) st).
Proof. done. Qed.

Lemma run_assert_entity_rank st method rank :
  rank < length (m_buckets st) →
  assert_entity_rank method rank st = (inr tt, st).
Proof.
  intros H. unfold assert_entity_rank. rewrite run_bind, run_gets.
  by rewrite decide_True.
Qed.

Lemma run_replace_entity st k i e b :
  heap st !! k = Some b → i < length (b_entities b) →
  replace_entity k i e st
  = (inr tt,
     with_trace (trace st ++ [EvReplaceEntity k i e])
       (with_heap (<[k := with_entities (<[i := e]> (b_entities b)) b]> (heap st)) st)).
Proof.
  intros Hk Hi. unfold replace_entity.
  rewrite (run_bind_ok _ _ _ _ _ (run_get_bucket _ _ _ Hk)).
  by rewrite decide_True.
Qed.

Lemma run_copy_fields st k_dst i_dst k_src i_src src dst d :
  heap st !! k_src = Some src → b_field_data src !! i_src = Some d →
  heap st !! k_dst = Some dst → i_dst < length (b_field_data dst) →
  copy_fields k_dst i_dst k_src i_src st
  = (inr tt,
     with_trace (trace st ++ [EvCopyFields k_dst i_dst k_src i_src])
       (with_heap
          (<[k_dst := with_field_data (<[i_dst := d]> (b_field_data dst)) dst]>
             (heap st)) st)).
Proof.
  intros Hs Hd Hk Hi. unfold copy_fields.
  rewrite (run_bind_ok _ _ _ _ _ (run_get_bucket _ _ _ Hs)).
  rewrite (run_bind_ok _ _ _ _ _ (run_deref _ _ _ Hd)).
  rewrite (run_bind_ok _ _ _ _ _ (run_get_bucket _ _ _ Hk)).
  by rewrite decide_True.
Qed.

Lemma run_change_entity_bucket st k e i :
  change_entity_bucket k e i st
  = (inr tt,
     with_trace (trace st ++ [EvChangeEntityBucket k e i])
       (with_entity_repo (<[e := (k, i)]> (entities st)) st)).
Proof. done. Qed.

Lemma run_propagate st e :
  internal_propagate_relocation e st
  = (inr tt, with_trace (trace st ++ [EvPropagateRelocation e]) st).
Proof. done. Qed.

Lemma run_first_bucket_in_family st k b f :
  heap st !! k = Some b → b_first b = Some f →
  first_bucket_in_family k st = (inr f, st).
Proof.
  intros Hk Hf. unfold first_bucket_in_family.
  rewrite (run_bind_ok _ _ _ _ _ (run_get_bucket _ _ _ Hk)). by rewrite Hf.
Qed.

Lemma run_get_bucket_family_pointer st f fb l :
  heap st !! f = Some fb → b_family fb = Some l →
  get_bucket_family_pointer f st = (inr l, st).
Proof.
  intros Hk Hf. unfold get_bucket_family_pointer.
  rewrite (run_bind_ok _ _ _ _ _ (run_get_bucket _ _ _ Hk)). by rewrite Hf.
Qed.

Lemma run_last_bucket_in_family st k l :
  last_of (heap st) k = Some l →
  last_bucket_in_family k st = (inr l, st).
Proof.
  unfold last_of. intros H.
  destruct (heap st !! k) as [b|] eqn:Hk; [|done]. simpl in H.
  destruct (b_first b) as [f|] eqn:Hf; [|done]. simpl in H.
  destruct (heap st !! f) as [fb|] eqn:Hfb; [|done]. simpl in H.
  unfold last_bucket_in_family.
  rewrite (run_bind_ok _ _ _ _ _ (run_first_bucket_in_family _ _ _ _ Hk Hf)).
  by eapply run_get_bucket_family_pointer.
Qed.

Lemma run_bucket_keys st l :
  (∀ k, k ∈ l → is_Some (heap st !! k)) →
  bucket_keys l st = (inr (key_at (skel <$> heap st) <$> l), st).
Proof.
  intros Hl. unfold bucket_keys. rewrite run_bind, run_gets.
  assert (mapM (λ k, b_key <$> heap st !! k) l
          = Some (key_at (skel <$> heap st) <$> l)) as ->; [|done].
  apply mapM_Some. apply Forall2_fmap_r, Forall_Forall2_diag, Forall_forall.
  intros k [b Hb]%Hl. unfold key_at, compose. by rewrite lookup_fmap, Hb.
Qed.

Lemma run_bind_assoc {A B C} (c : M A) (f : A → M B) (g : B → M C) st :
  ((c ≫= f) ≫= g) st = (c ≫= λ a, f a ≫= g) st.
Proof. rewrite !run_bind. by destruct (c st) as [[e|a] st']. Qed.

Lemma run_bind_ret {A B} (a : A) (k : A → M B) st :
  (mret a ≫= k) st = k a st.
Proof. done. Qed.

End Run.

(** Reassociate the statements and run the pure ones. *)
Ltac mnorm :=
  repeat first [ rewrite run_bind_assoc
               | rewrite run_bind_ret
               | progress cbn [deref lift] ].

(** Run the next statement with the run lemma [lem]. *)
Ltac mrun lem :=
  mnorm;
  erewrite run_bind_ok;
  [| eapply lem; first [ lookup_solve | by cbn | idtac ] ].

(** * The shape of a bucket list *)

Section Structure.

Implicit Types sk : gmap nat Skel.
Implicit Types l : list nat.

Lemma lower_bound_le keys key : lower_bound keys key ≤ length keys.
Proof.
  induction keys as [|k keys IH]; simpl; [lia|].
  destruct (bucket_key_less k key); simpl; lia.
Qed.

(** The search splits a sorted list into the buckets below the key and the
    buckets from the key on. *)
Lemma lower_bound_split sk l key :
  keys_sorted sk l →
  ∃ l1 l2,
    l = l1 ++ l2
    ∧ length l1 = lower_bound (key_at sk <$> l) key
    ∧ Forall (λ k, bucket_key_less (key_at sk k) key = true) l1
    ∧ Forall (λ k, bucket_key_less (key_at sk k) key = false) l2.
Proof.
  induction 1 as [|k l Hs IH Hk]; simpl.
  - by exists [], [].
  - destruct (bucket_key_less (key_at sk k) key) eqn:Hlt.
    + destruct IH as (l1 & l2 & -> & Hlen & H1 & H2).
      exists (k :: l1), l2. simpl. repeat split; auto.
    + exists [], (k :: l). repeat split; auto.
      constructor; [done|].
      eapply Forall_impl; [exact Hk|]. simpl. intros k' Hkk'.
      destruct (bucket_key_less (key_at sk k') key) eqn:Hlt'; [|done].
      by rewrite (bucket_key_less_trans _ _ _ Hkk' Hlt') in Hlt.
Qed.

Lemma keys_sorted_ext sk sk' l :
  (∀ k, k ∈ l → key_at sk' k = key_at sk k) →
  keys_sorted sk l → keys_sorted sk' l.
Proof.
  intros Hext. unfold keys_sorted. induction 1 as [|k l Hs IH Hk].
  - constructor.
  - constructor.
    + apply IH. intros k' Hk'. apply Hext. by right.
    + rewrite Forall_forall in Hk |- *. intros k' Hk'.
      rewrite !Hext; [by apply Hk|by right|by left].
Qed.

Lemma keys_sorted_NoDup sk l : keys_sorted sk l → NoDup l.
Proof.
  induction 1 as [|k l Hs IH Hk]; constructor; [|done].
  intros Hin. rewrite Forall_forall in Hk. specialize (Hk _ Hin).
  by rewrite bucket_key_less_irrefl in Hk.
Qed.

(** In a sorted list the keys tell the buckets apart. *)
Lemma keys_sorted_inj sk l k1 k2 :
  keys_sorted sk l → k1 ∈ l → k2 ∈ l →
  key_at sk k1 = key_at sk k2 → k1 = k2.
Proof.
  induction 1 as [|k l Hs IH Hk]; intros H1 H2 Heq.
  - by apply elem_of_nil in H1.
  - rewrite Forall_forall in Hk.
    apply elem_of_cons in H1 as [->|H1], H2 as [->|H2]; auto.
    + specialize (Hk _ H2). by rewrite Heq, bucket_key_less_irrefl in Hk.
    + specialize (Hk _ H1). by rewrite Heq, bucket_key_less_irrefl in Hk.
Qed.

Lemma family_ext sk sk' P l :
  (∀ k, k ∈ l → key_at sk' k = key_at sk k) →
  family sk' P l = family sk P l.
Proof.
  intros Hext. unfold family. apply filter_iff_in.
  intros k Hk. by rewrite Hext.
Qed.

Lemma family_app sk P l1 l2 :
  family sk P (l1 ++ l2) = family sk P l1 ++ family sk P l2.
Proof. apply filter_app. Qed.

Lemma family_cons_in sk P k l :
  key_part_ord (key_at sk k) = P → family sk P (k :: l) = k :: family sk P l.
Proof. intros H. unfold family. by rewrite filter_cons_True. Qed.

Lemma family_cons_out sk P k l :
  key_part_ord (key_at sk k) ≠ P → family sk P (k :: l) = family sk P l.
Proof. intros H. unfold family. by rewrite filter_cons_False. Qed.

Lemma elem_of_family sk P l k :
  k ∈ family sk P l ↔ key_part_ord (key_at sk k) = P ∧ k ∈ l.
Proof. unfold family. by rewrite list_elem_of_filter. Qed.

Lemma family_nil sk P l :
  (∀ k, k ∈ l → key_part_ord (key_at sk k) ≠ P) → family sk P l = [].
Proof.
  intros H. unfold family. apply filter_none, Forall_forall. auto.
Qed.

End Structure.

Section Search.

Implicit Types sk : gmap nat Skel.
Implicit Types l : list nat.

Lemma rank_ok_key_at cap sk rank l k :
  rank_ok cap sk rank l → k ∈ l →
  ∃ s, sk !! k = Some s ∧ key_at sk k = s_key s ∧ wf_key (s_key s).
Proof.
  intros [_ Hok] Hk. destruct (Hok _ Hk) as [(s & Hs & _ & Hwf & _) _].
  exists s. unfold key_at. by rewrite Hs.
Qed.

Lemma rank_ok_wf_key cap sk rank l k :
  rank_ok cap sk rank l → k ∈ l → wf_key (key_at sk k).
Proof.
  intros Hok Hk. destruct (rank_ok_key_at _ _ _ _ _ Hok Hk) as (s & _ & -> & ?).
  done.
Qed.

(** A key of family [P] below the counter limit is below the search key. *)
Lemma family_key_below_search a P :
  wf_key a → key_part_ord a = P → (key_family_count a < UINT_MAX)%Z →
  bucket_key_less a (search_key P UINT_MAX) = true.
Proof.
  intros Ha <- Hc. rewrite (wf_key_search a Ha) at 1.
  rewrite search_key_less_same. by apply Z.ltb_lt.
Qed.

(** The buckets from the search position on are of other families. *)
Lemma family_beyond_search cap sk rank l P l2 :
  rank_ok cap sk rank l → counters_below_max sk l →
  (∀ k, k ∈ l2 → k ∈ l) →
  Forall (λ k, bucket_key_less (key_at sk k) (search_key P UINT_MAX) = false) l2 →
  family sk P l2 = [].
Proof.
  intros Hok Hbelow Hsub H2. apply family_nil. intros k Hk HP.
  rewrite Forall_forall in H2. specialize (H2 _ Hk).
  rewrite family_key_below_search in H2; [done| |done|].
  - eapply rank_ok_wf_key; eauto.
  - apply Hbelow; auto.
Qed.

(** [ik[-1]], tested with [bucket_part_equal], is the last bucket of the
    family the search key belongs to. *)
Lemma found_last_bucket cap sk rank l P :
  rank_ok cap sk rank l → counters_below_max sk l →
  (Z.of_nat (length P) + 2 ≤ UINT_MAX)%Z →
  match lower_bound (key_at sk <$> l) (search_key P UINT_MAX) with
  | O => None
  | S ik' =>
      match l !! ik', (key_at sk <$> l) !! ik' with
      | Some p, Some k =>
          if bucket_part_equal k (search_key P UINT_MAX) then Some p else None
      | _, _ => None
      end
  end = last (family sk P l).
Proof.
  intros Hok Hbelow HP.
  destruct (lower_bound_split sk l (search_key P UINT_MAX) (proj1 Hok))
    as (l1 & l2 & Hl & Hlen & H1 & H2).
  rewrite <- Hlen. subst l.
  rewrite family_app.
  rewrite (family_beyond_search cap sk rank (l1 ++ l2) P l2), app_nil_r;
    [|done|done|set_solver|done].
  destruct l1 as [|q l1 _] using rev_ind; [done|].
  rewrite length_app. simpl. rewrite Nat.add_1_r.
  rewrite list_lookup_fmap.
  replace ((l1 ++ [q]) ++ l2) with (l1 ++ q :: l2) in * by (by rewrite <- app_assoc).
  rewrite list_lookup_middle by done. simpl.
  assert (Hq : q ∈ l1 ++ q :: l2) by set_solver.
  pose proof (rank_ok_wf_key _ _ _ _ _ Hok Hq) as Hwfq.
  pose proof (search_key_wf P UINT_MAX HP) as HwfK.
  rewrite family_app.
  destruct (bucket_part_equal (key_at sk q) (search_key P UINT_MAX)) eqn:Heq.
  - apply bucket_part_equal_wf in Heq; [|done..].
    rewrite search_key_part_ord in Heq.
    rewrite (family_cons_in _ _ _ _ Heq).
    change (family sk P []) with (@nil nat). by rewrite last_snoc.
  - assert (Hne : key_part_ord (key_at sk q) ≠ P).
    { intros HP'. rewrite <- (search_key_part_ord P UINT_MAX) in HP'.
      apply bucket_part_equal_wf in HP'; [|done..]. congruence. }
    rewrite (family_cons_out _ _ _ _ Hne).
    change (family sk P []) with (@nil nat). rewrite app_nil_r.
    rewrite family_nil; [done|].
    intros k Hk HkP. apply Hne.
    assert (Hkl : k ∈ l1 ++ q :: l2) by set_solver.
    pose proof (rank_ok_wf_key _ _ _ _ _ Hok Hkl) as Hwfk.
    rewrite <- HkP.
    apply (family_convex (key_at sk k) (key_at sk q) (search_key P UINT_MAX));
      try done.
    + by rewrite search_key_part_ord.
    + apply bucket_key_less_asym.
      destruct Hok as [Hs _]. unfold keys_sorted in Hs.
      assert (Hqin : q ∈ q :: l2) by set_solver.
      exact (StronglySorted_app_1_elem_of _ l1 (q :: l2) k q Hs Hk Hqin).
    + apply bucket_key_less_asym.
      rewrite Forall_forall in H1. apply H1. set_solver.
Qed.

End Search.

Section Extend.

Lemma elem_of_inserted {A} (l : list A) i n k :
  k ∈ take i l ++ n :: drop i l ↔ k = n ∨ k ∈ l.
Proof.
  rewrite <- (take_drop i l) at 3. rewrite !elem_of_app, elem_of_cons. tauto.
Qed.

Implicit Types sk : gmap nat Skel.
Implicit Types l : list nat.

Lemma key_at_ext sk sk' k : sk' !! k = sk !! k → key_at sk' k = key_at sk k.
Proof. unfold key_at. by intros ->. Qed.

Lemma head_family_elem sk P l f :
  head (family sk P l) = Some f → f ∈ l ∧ key_part_ord (key_at sk f) = P.
Proof.
  intros H. apply head_Some_elem_of, elem_of_family in H. tauto.
Qed.

Lemma last_family_elem sk P l p :
  last (family sk P l) = Some p → p ∈ l ∧ key_part_ord (key_at sk p) = P.
Proof.
  intros H. apply last_Some_elem_of, elem_of_family in H. tauto.
Qed.

(** The invariant of a list reads the skeleton at the buckets of the list
    only. *)
Lemma rank_ok_frame cap sk sk' rank l :
  (∀ k, k ∈ l → sk' !! k = sk !! k) →
  rank_ok cap sk rank l → rank_ok cap sk' rank l.
Proof.
  intros Hext [Hs Hok].
  assert (Hkeys : ∀ k, k ∈ l → key_at sk' k = key_at sk k).
  { intros k Hk. by apply key_at_ext, Hext. }
  split; [by eapply keys_sorted_ext|].
  intros k Hk. destruct (Hok k Hk) as [Hb Hf]. split.
  - destruct Hb as (s & Hsk & ?). exists s. by rewrite Hext.
  - destruct Hf as (s & f & sf & lst & Hsk & Hfirst & Hsf & Hfam & Hhd & Hlst & Hpack).
    exists s, f, sf, lst.
    rewrite (family_ext sk sk') by done.
    destruct (head_family_elem _ _ _ _ Hhd) as [Hfl _].
    rewrite !Hext by done. done.
Qed.

Lemma keys_sorted_family sk P l :
  keys_sorted sk l → keys_sorted sk (family sk P l).
Proof.
  unfold keys_sorted, family. induction 1 as [|k l Hs IH Hk]; [constructor|].
  rewrite filter_cons. destruct (decide _); [|done].
  constructor; [done|].
  rewrite Forall_forall in Hk |- *. intros k' Hk'.
  apply Hk. apply list_elem_of_filter in Hk'. tauto.
Qed.

(** The last bucket of a family has the greatest key of the family. *)
Lemma family_last_greatest sk P l p k :
  keys_sorted sk l → last (family sk P l) = Some p →
  k ∈ l → key_part_ord (key_at sk k) = P →
  k = p ∨ bucket_key_less (key_at sk k) (key_at sk p) = true.
Proof.
  intros Hs Hlast Hk HP.
  assert (Hkf : k ∈ family sk P l) by (by apply elem_of_family).
  apply (keys_sorted_family sk P) in Hs.
  apply last_Some in Hlast as [l' Hl']. rewrite Hl' in Hs, Hkf.
  apply elem_of_app in Hkf as [Hkf|Hkf].
  - right. unfold keys_sorted in Hs.
    assert (Hp : p ∈ [p]) by set_solver.
    exact (StronglySorted_app_1_elem_of _ l' [p] k p Hs Hkf Hp).
  - left. set_solver.
Qed.

(** The first bucket of a family has the least key of the family. *)
Lemma family_first_least sk P l f k :
  keys_sorted sk l → head (family sk P l) = Some f →
  k ∈ l → key_part_ord (key_at sk k) = P →
  k = f ∨ bucket_key_less (key_at sk f) (key_at sk k) = true.
Proof.
  intros Hs Hhd Hk HP.
  assert (Hkf : k ∈ family sk P l) by (by apply elem_of_family).
  apply (keys_sorted_family sk P) in Hs.
  destruct (family sk P l) as [|f' l'] eqn:Hfam; [done|].
  simpl in Hhd. injection Hhd as ->.
  apply elem_of_cons in Hkf as [->|Hkf]; [by left|right].
  apply StronglySorted_inv in Hs as [_ Hall].
  rewrite Forall_forall in Hall. by apply Hall.
Qed.

End Extend.


(** * Inserting and erasing buckets *)

Section Insert.

Implicit Types sk : gmap nat Skel.
Implicit Types l : list nat.

Lemma rank_ok_lookup cap sk rank l k :
  rank_ok cap sk rank l → k ∈ l → is_Some (sk !! k).
Proof.
  intros Hok Hk. destruct (rank_ok_key_at _ _ _ _ _ Hok Hk) as (s & -> & _).
  eauto.
Qed.

(** The key of a new bucket of family [P] fits between the two halves of the
    search. *)
Lemma insert_sorted cap sk sk' rank l l1 l2 P c n :
  rank_ok cap sk rank l → l = l1 ++ l2 →
  (∀ k, k ∈ l → key_at sk' k = key_at sk k) →
  key_at sk' n = search_key P c →
  (Z.of_nat (length P) + 2 ≤ UINT_MAX)%Z →
  Forall (λ k, bucket_key_less (key_at sk k) (search_key P UINT_MAX) = true) l1 →
  Forall (λ k, bucket_key_less (key_at sk k) (search_key P UINT_MAX) = false) l2 →
  family sk P l2 = [] →
  (∀ k, k ∈ l1 → key_part_ord (key_at sk k) = P →
        bucket_key_less (key_at sk k) (search_key P c) = true) →
  keys_sorted sk' (l1 ++ n :: l2).
Proof.
  intros Hok -> Hext Hn HP H1 H2 Hfam2 Hfam1.
  pose proof (proj1 Hok) as Hs.
  apply (keys_sorted_ext sk sk') in Hs; [|done].
  unfold keys_sorted in *.
  apply StronglySorted_app in Hs as (Hcross & Hs1 & Hs2).
  rewrite Forall_forall in H1, H2.
  assert (HwfK : ∀ c', wf_key (search_key P c')) by (intros; by apply search_key_wf).
  assert (Hbelow : ∀ k, k ∈ l1 →
            bucket_key_less (key_at sk k) (search_key P c) = true).
  { intros k Hk.
    destruct (decide (key_part_ord (key_at sk k) = P)) as [HkP|HkP]; [auto|].
    assert (Hwf : wf_key (key_at sk k))
      by (eapply rank_ok_wf_key; [done|set_solver]).
    rewrite (other_family_less _ (search_key P c) UINT_MAX) by
      (try done; by rewrite search_key_part_ord).
    rewrite search_key_part_ord. by apply H1. }
  assert (Habove : ∀ k, k ∈ l2 →
            bucket_key_less (search_key P c) (key_at sk k) = true).
  { intros k Hk.
    assert (HkP : key_part_ord (key_at sk k) ≠ P).
    { intros HkP. assert (k ∈ family sk P l2) as Hin by (by apply elem_of_family).
      rewrite Hfam2 in Hin. by apply elem_of_nil in Hin. }
    assert (Hwf : wf_key (key_at sk k))
      by (eapply rank_ok_wf_key; [done|set_solver]).
    rewrite (other_family_greater _ (search_key P c) UINT_MAX) by
      (try done; by rewrite search_key_part_ord).
    rewrite search_key_part_ord.
    destruct (bucket_key_less_total (search_key P UINT_MAX) (key_at sk k))
      as [|Hlt]; [|done|].
    - intros Heq. apply HkP. by rewrite <- Heq, search_key_part_ord.
    - by rewrite (H2 _ Hk) in Hlt. }
  apply StronglySorted_app. split; [|split; [done|]].
  - intros x1 x2 Hx1 Hx2. apply elem_of_cons in Hx2 as [->|Hx2]; [|auto].
    rewrite Hn, Hext by set_solver. auto.
  - constructor; [done|]. apply Forall_forall. intros k Hk.
    rewrite Hn, Hext by set_solver. auto.
Qed.

(** Appending a bucket to an existing family. *)
Lemma rank_ok_extend cap sk rank l P p sp f sf sf' n :
  rank_ok cap sk rank l → counters_below_max sk l →
  last (family sk P l) = Some p → sk !! p = Some sp →
  s_size sp = cap → s_size sp ≠ 0 →
  s_first sp = Some f → sk !! f = Some sf →
  sk !! n = None →
  s_rank sf' = s_rank sf → s_key sf' = s_key sf →
  s_capacity sf' = s_capacity sf → s_size sf' = s_size sf →
  s_first sf' = s_first sf → s_family sf' = Some n →
  rank_ok cap
    (<[f := sf']>
       (<[n := MkSkel rank (search_key P (1 + key_family_count (s_key sp)))
                cap 0 (Some f) None]> sk))
    rank
    (take (lower_bound (key_at sk <$> l) (search_key P UINT_MAX)) l
     ++ n :: drop (lower_bound (key_at sk <$> l) (search_key P UINT_MAX)) l).
Proof.
  intros Hok Hbelow Hlast Hsp Hfull Hne0 Hfirst Hsf Hn Hr Hk Hc Hsz Hfi Hfa.
  set (nk := search_key P (1 + key_family_count (s_key sp))).
  set (sn := MkSkel rank nk cap 0 (Some f) None).
  set (sk' := <[f := sf']> (<[n := sn]> sk)).
  destruct (last_family_elem _ _ _ _ Hlast) as [Hpl HpP].
  assert (Hkp : key_at sk p = s_key sp) by (unfold key_at; by rewrite Hsp).
  pose proof (rank_ok_wf_key _ _ _ _ _ Hok Hpl) as Hwfp. rewrite Hkp in Hwfp, HpP.
  assert (HP : (Z.of_nat (length P) + 2 ≤ UINT_MAX)%Z).
  { destruct Hwfp as [_ Hb]. by rewrite HpP in Hb. }
  (* the first bucket of the family *)
  destruct (proj2 Hok p Hpl) as [_ Hfp].
  destruct Hfp as (s0 & f0 & sf0 & lst0 & Hs0 & Hf0 & Hsf0 & Hfam0 & Hhd & Hlst0 & _).
  rewrite Hsp in Hs0. injection Hs0 as <-.
  rewrite Hfirst in Hf0. injection Hf0 as <-.
  rewrite Hsf in Hsf0. injection Hsf0 as <-.
  rewrite HpP in Hhd, Hlst0.
  destruct (head_family_elem _ _ _ _ Hhd) as [Hfl HfP].
  assert (Hnl : n ∉ l).
  { intros Hin. destruct (rank_ok_lookup _ _ _ _ _ Hok Hin) as [? Hx]. congruence. }
  assert (Hfn : f ≠ n) by (intros ->; done).
  assert (Hlook : ∀ k, k ∈ l → k ≠ f → sk' !! k = sk !! k).
  { intros k Hkl Hkf. unfold sk'.
    rewrite lookup_insert_ne by done. rewrite lookup_insert_ne; [done|].
    intros ->. done. }
  assert (Hlookf : sk' !! f = Some sf') by (unfold sk'; by rewrite lookup_insert_eq).
  assert (Hlookn : sk' !! n = Some sn).
  { unfold sk'. rewrite lookup_insert_ne by done. by rewrite lookup_insert_eq. }
  assert (Hext : ∀ k, k ∈ l → key_at sk' k = key_at sk k).
  { intros k Hkl. destruct (decide (k = f)) as [->|Hkf].
    - unfold key_at. rewrite Hlookf, Hsf. simpl. by rewrite Hk.
    - apply key_at_ext. auto. }
  assert (Hkn : key_at sk' n = nk) by (unfold key_at; by rewrite Hlookn).
  destruct (lower_bound_split sk l (search_key P UINT_MAX) (proj1 Hok))
    as (l1 & l2 & Hl & Hlen & H1 & H2).
  rewrite <- Hlen.
  assert (Htake : take (length l1) l = l1) by (subst l; by rewrite take_app_length).
  assert (Hdrop : drop (length l1) l = l2) by (subst l; by rewrite drop_app_length).
  rewrite Htake, Hdrop.
  assert (Hfam2 : family sk P l2 = []).
  { eapply family_beyond_search; [exact Hok|done| |done]. subst l. set_solver. }
  assert (Hcp : (key_family_count (s_key sp) < UINT_MAX)%Z).
  { rewrite <- Hkp. by apply Hbelow. }
  assert (Hpnk : bucket_key_less (s_key sp) nk = true).
  { rewrite (wf_key_search _ Hwfp), HpP. unfold nk.
    rewrite search_key_less_same. apply Z.ltb_lt. lia. }
  split.
  - (* sorted *)
    eapply (insert_sorted cap sk sk' rank l l1 l2 P); try done.
    intros k Hkl1 HkP.
    destruct (family_last_greatest sk P l p k (proj1 Hok) Hlast) as [->|Hlt];
      [subst l; set_solver|done| |].
    + by rewrite Hkp.
    + rewrite Hkp in Hlt. by eapply bucket_key_less_trans.
  - (* the buckets *)
    assert (Hfam_P : family sk' P (l1 ++ n :: l2) = family sk P l ++ [n]).
    { rewrite family_app, family_cons_in by (by rewrite Hkn; apply search_key_part_ord).
      rewrite !(family_ext sk sk') by (intros; apply Hext; subst l; set_solver).
      rewrite Hfam2. subst l. by rewrite family_app, Hfam2, app_nil_r. }
    assert (Hfam_Q : ∀ Q, Q ≠ P → family sk' Q (l1 ++ n :: l2) = family sk Q l).
    { intros Q HQ. rewrite family_app, family_cons_out.
      2:{ rewrite Hkn. unfold nk. by rewrite search_key_part_ord. }
      rewrite !(family_ext sk sk') by (intros; apply Hext; subst l; set_solver).
      subst l. by rewrite family_app. }
    intros k Hkin.
    assert (Hcases : k = n ∨ k ∈ l) by (subst l; set_solver).
    destruct Hcases as [->|Hkl].
    + (* the new bucket *)
      split.
      * exists sn. split; [done|]. split; [done|].
        split; [by apply search_key_wf|]. split; [done|simpl; lia].
      * exists sn, f, sf', n. simpl. unfold nk.
        rewrite search_key_part_ord, Hfam_P.
        repeat split; try done.
        -- destruct (family sk P l); [done|done].
        -- by rewrite last_snoc.
    + destruct (proj2 Hok k Hkl) as [Hbk Hfk].
      destruct Hbk as (s & Hs & Hrank & Hwf & Hcap & Hsize).
      destruct Hfk as (s1 & f1 & sf1 & lst1 & Hs1 & Hf1 & Hsf1 & Hfam1 & Hhd1 & Hlst1 & Hpack1).
      rewrite Hs in Hs1. injection Hs1 as <-.
      assert (Hks : key_at sk k = s_key s) by (unfold key_at; by rewrite Hs).
      destruct (decide (key_part_ord (s_key s) = P)) as [HsP|HsP].
      * (* a bucket of the extended family *)
        rewrite HsP in Hhd1, Hlst1.
        rewrite Hhd in Hhd1. injection Hhd1 as <-.
        rewrite Hlast in Hlst1. injection Hlst1 as <-.
        assert (Hs' : ∃ s', sk' !! k = Some s' ∧ s_rank s' = s_rank s
                       ∧ s_key s' = s_key s ∧ s_capacity s' = s_capacity s
                       ∧ s_size s' = s_size s ∧ s_first s' = s_first s).
        { destruct (decide (k = f)) as [->|Hkf].
          - exists sf'. rewrite Hsf in Hs. injection Hs as <-. done.
          - exists s. rewrite Hlook by done. done. }
        destruct Hs' as (s' & Hs' & Er & Ek & Ec & Es & Ef).
        split.
        -- exists s'. rewrite Er, Ek, Ec, Es. done.
        -- exists s', f, sf', n. rewrite Ek, HsP, Hfam_P, Ef, Es.
           repeat split; try done.
           ++ destruct (family sk P l); [done|done].
           ++ by rewrite last_snoc.
           ++ destruct (decide (k = p)) as [->|Hkp'].
              ** rewrite Hsp in Hs. by injection Hs as <-.
              ** by apply Hpack1.
           ++ destruct (decide (k = p)) as [->|Hkp'].
              ** rewrite Hsp in Hs. by injection Hs as <-.
              ** by apply Hpack1.
      * (* a bucket of another family *)
        destruct (head_family_elem _ _ _ _ Hhd1) as [Hf1l Hf1P].
        assert (Hf1f : f1 ≠ f) by (intros ->; congruence).
        assert (Hkf : k ≠ f) by (intros ->; rewrite Hks in HfP; congruence).
        split.
        -- exists s. rewrite Hlook by done. done.
        -- exists s, f1, sf1, lst1.
           rewrite !Hlook by done. rewrite Hfam_Q by done. done.
Qed.

(** Creating the first bucket of a family. *)
Lemma rank_ok_create cap sk rank l P n :
  rank_ok cap sk rank l →
  family sk P l = [] →
  (Z.of_nat (length P) + 2 ≤ UINT_MAX)%Z →
  sk !! n = None →
  rank_ok cap
    (<[n := MkSkel rank (search_key P 0) cap 0 (Some n) (Some n)]> sk)
    rank
    (take (lower_bound (key_at sk <$> l) (search_key P UINT_MAX)) l
     ++ n :: drop (lower_bound (key_at sk <$> l) (search_key P UINT_MAX)) l).
Proof.
  intros Hok Hfam HP Hn.
  set (sn := MkSkel rank (search_key P 0) cap 0 (Some n) (Some n)).
  set (sk' := <[n := sn]> sk).
  assert (Hnl : n ∉ l).
  { intros Hin. destruct (rank_ok_lookup _ _ _ _ _ Hok Hin) as [? Hx]. congruence. }
  assert (Hlook : ∀ k, k ∈ l → sk' !! k = sk !! k).
  { intros k Hkl. unfold sk'. rewrite lookup_insert_ne; [done|]. by intros ->. }
  assert (Hlookn : sk' !! n = Some sn) by (unfold sk'; by rewrite lookup_insert_eq).
  assert (Hext : ∀ k, k ∈ l → key_at sk' k = key_at sk k).
  { intros k Hkl. apply key_at_ext. auto. }
  assert (Hkn : key_at sk' n = search_key P 0) by (unfold key_at; by rewrite Hlookn).
  destruct (lower_bound_split sk l (search_key P UINT_MAX) (proj1 Hok))
    as (l1 & l2 & Hl & Hlen & H1 & H2).
  rewrite <- Hlen.
  assert (Htake : take (length l1) l = l1) by (subst l; by rewrite take_app_length).
  assert (Hdrop : drop (length l1) l = l2) by (subst l; by rewrite drop_app_length).
  rewrite Htake, Hdrop.
  assert (Hnone : ∀ k, k ∈ l → key_part_ord (key_at sk k) ≠ P).
  { intros k Hk HkP. assert (k ∈ family sk P l) as Hin by (by apply elem_of_family).
    rewrite Hfam in Hin. by apply elem_of_nil in Hin. }
  split.
  - eapply (insert_sorted cap sk sk' rank l l1 l2 P); try done.
    + apply family_nil. intros k Hk. apply Hnone. subst l. set_solver.
    + intros k Hk HkP. exfalso. apply (Hnone k); [subst l; set_solver|done].
  - assert (Hfam_P : family sk' P (l1 ++ n :: l2) = [n]).
    { rewrite family_app, family_cons_in by (by rewrite Hkn; apply search_key_part_ord).
      rewrite !(family_ext sk sk') by (intros; apply Hext; subst l; set_solver).
      rewrite !family_nil; [done|..]; intros k Hk; apply Hnone; subst l; set_solver. }
    assert (Hfam_Q : ∀ Q, Q ≠ P → family sk' Q (l1 ++ n :: l2) = family sk Q l).
    { intros Q HQ. rewrite family_app, family_cons_out.
      2:{ rewrite Hkn. by rewrite search_key_part_ord. }
      rewrite !(family_ext sk sk') by (intros; apply Hext; subst l; set_solver).
      subst l. by rewrite family_app. }
    intros k Hkin.
    assert (Hcases : k = n ∨ k ∈ l) by (subst l; set_solver).
    destruct Hcases as [->|Hkl].
    + split.
      * exists sn. split; [done|]. split; [done|].
        split; [by apply search_key_wf|]. split; [done|simpl; lia].
      * exists sn, n, sn, n. simpl. rewrite search_key_part_ord, Hfam_P. done.
    + destruct (proj2 Hok k Hkl) as [Hbk Hfk].
      destruct Hbk as (s & Hs & Hrank & Hwf & Hcap & Hsize).
      destruct Hfk as (s1 & f1 & sf1 & lst1 & Hs1 & Hf1 & Hsf1 & Hfam1 & Hhd1 & Hlst1 & Hpack1).
      rewrite Hs in Hs1. injection Hs1 as <-.
      assert (Hks : key_at sk k = s_key s) by (unfold key_at; by rewrite Hs).
      destruct (head_family_elem _ _ _ _ Hhd1) as [Hf1l Hf1P].
      split.
      * exists s. rewrite Hlook by done. done.
      * exists s, f1, sf1, lst1.
        rewrite !Hlook by done. rewrite Hfam_Q; [done|].
        rewrite <- Hks. by apply Hnone.
Qed.

End Insert.

Section Erase.

Implicit Types sk : gmap nat Skel.
Implicit Types l : list nat.

Lemma last_middle_NoDup {A} (l1 l2 : list A) x :
  NoDup (l1 ++ x :: l2) → last (l1 ++ x :: l2) = Some x → l2 = [].
Proof.
  intros Hnd Hlast. destruct l2 as [|y l2 _] using rev_ind; [done|].
  exfalso.
  replace (l1 ++ x :: l2 ++ [y]) with ((l1 ++ x :: l2) ++ [y]) in Hlast
    by (by rewrite <- app_assoc).
  rewrite last_snoc in Hlast. injection Hlast as ->.
  apply NoDup_app in Hnd as (_ & _ & Hnd).
  apply NoDup_cons in Hnd as [Hnin _]. set_solver.
Qed.

Lemma head_middle_NoDup {A} (l1 l2 : list A) x :
  NoDup (l1 ++ x :: l2) → head (l1 ++ x :: l2) = Some x → l1 = [].
Proof.
  intros Hnd Hhd. destruct l1 as [|y l1]; [done|].
  simpl in Hhd. injection Hhd as ->.
  apply NoDup_cons in Hnd as [Hnin _]. set_solver.
Qed.

Lemma NoDup_family sk P l : NoDup l → NoDup (family sk P l).
Proof. apply NoDup_filter. Qed.

(** The search for the key of a listed bucket finds the bucket. *)
Lemma erase_position cap sk rank l d :
  rank_ok cap sk rank l → d ∈ l →
  ∃ l1 l2,
    l = l1 ++ d :: l2
    ∧ lower_bound (key_at sk <$> l) (key_at sk d) = length l1.
Proof.
  intros Hok Hd.
  destruct (lower_bound_split sk l (key_at sk d) (proj1 Hok))
    as (l1 & l2 & Hl & Hlen & H1 & H2).
  rewrite Forall_forall in H1, H2.
  assert (Hd2 : d ∈ l2).
  { subst l. apply elem_of_app in Hd as [Hd|Hd]; [|done].
    specialize (H1 _ Hd). by rewrite bucket_key_less_irrefl in H1. }
  destruct l2 as [|x l2]; [by apply elem_of_nil in Hd2|].
  apply elem_of_cons in Hd2 as [->|Hd2].
  - exists l1, l2. by rewrite <- Hlen.
  - exfalso. pose proof (proj1 Hok) as Hs. unfold keys_sorted in Hs. subst l.
    apply StronglySorted_app_1_r, StronglySorted_inv in Hs as [_ Hall].
    rewrite Forall_forall in Hall. specialize (Hall _ Hd2).
    rewrite (H2 x) in Hall; [done|by left].
Qed.

(** Erasing the only bucket of a family. *)
Lemma rank_ok_erase_family cap sk rank l l1 l2 d sd :
  rank_ok cap sk rank l → l = l1 ++ d :: l2 →
  sk !! d = Some sd → s_first sd = Some d → s_family sd = Some d →
  rank_ok cap (delete d sk) rank (l1 ++ l2).
Proof.
  intros Hok Hl Hsd Hfirst Hfamily.
  pose proof (keys_sorted_NoDup _ _ (proj1 Hok)) as Hnd.
  assert (Hdl : d ∈ l) by (subst l; set_solver).
  assert (Hdl' : d ∉ l1 ++ l2).
  { subst l. apply NoDup_app in Hnd as (? & Hd1 & Hd2).
    apply NoDup_cons in Hd2 as [? _]. set_solver. }
  destruct (proj2 Hok d Hdl) as [_ Hfd].
  destruct Hfd as (s & f & sf & lst & Hs & Hf & Hsf & Hfam & Hhd & Hlst & _).
  rewrite Hsd in Hs. injection Hs as <-.
  rewrite Hfirst in Hf. injection Hf as <-.
  rewrite Hsd in Hsf. injection Hsf as <-.
  rewrite Hfamily in Hfam. injection Hfam as <-.
  set (P := key_part_ord (s_key sd)) in *.
  assert (HdP : key_part_ord (key_at sk d) = P) by (unfold key_at; by rewrite Hsd).
  (* the family of [d] is [d] alone *)
  assert (Hfam1 : family sk P l1 = [] ∧ family sk P l2 = []).
  { subst l. rewrite family_app, family_cons_in in Hhd, Hlst by done.
    pose proof (NoDup_family sk P _ Hnd) as Hndf.
    rewrite family_app, family_cons_in in Hndf by done.
    split.
    - by eapply head_middle_NoDup.
    - by eapply last_middle_NoDup. }
  destruct Hfam1 as [Hf1 Hf2].
  set (sk' := delete d sk).
  assert (Hlook : ∀ k, k ∈ l1 ++ l2 → sk' !! k = sk !! k).
  { intros k Hk. unfold sk'. rewrite lookup_delete_ne; [done|]. by intros ->. }
  assert (Hsub : ∀ k, k ∈ l1 ++ l2 → k ∈ l) by (subst l; set_solver).
  assert (Hext : ∀ k, k ∈ l1 ++ l2 → key_at sk' k = key_at sk k).
  { intros k Hk. by apply key_at_ext, Hlook. }
  assert (Hfam_Q : ∀ Q, Q ≠ P → family sk' Q (l1 ++ l2) = family sk Q l).
  { intros Q HQ. rewrite (family_ext sk sk') by done. subst l.
    rewrite !family_app, family_cons_out; [done|]. by rewrite HdP. }
  split.
  - apply (keys_sorted_ext sk); [done|].
    pose proof (proj1 Hok) as Hs. unfold keys_sorted in *. subst l.
    apply StronglySorted_app in Hs as (Hcross & Hs1 & Hs2).
    apply StronglySorted_inv in Hs2 as [Hs2 _].
    apply StronglySorted_app. split; [|done].
    intros x1 x2 H1 H2. apply Hcross; [done|by right].
  - intros k Hk. destruct (proj2 Hok k (Hsub _ Hk)) as [Hbk Hfk].
    destruct Hbk as (s & Hs & Hrest).
    destruct Hfk as (s1 & f1 & sf1 & lst1 & Hs1 & Hfi1 & Hsf1 & Hfam1 & Hhd1 & Hlst1 & Hpack1).
    rewrite Hs in Hs1. injection Hs1 as <-.
    assert (HkP : key_part_ord (s_key s) ≠ P).
    { intros HkP. assert (k ∈ family sk P (l1 ++ l2)) as Hin.
      { apply elem_of_family. split; [|done]. unfold key_at. by rewrite Hs. }
      rewrite family_app, Hf1, Hf2 in Hin. by apply elem_of_nil in Hin. }
    destruct (head_family_elem _ _ _ _ Hhd1) as [Hf1l Hf1P].
    assert (Hf1d : f1 ≠ d) by (intros ->; congruence).
    assert (Hf1l' : f1 ∈ l1 ++ l2) by (subst l; set_solver).
    split.
    + exists s. by rewrite Hlook.
    + exists s, f1, sf1, lst1. rewrite !Hlook by done.
      by rewrite Hfam_Q.
Qed.

(** Erasing the last bucket of a family that has more buckets: the bucket
    before it in the list becomes the last of the family. *)
Lemma rank_ok_erase_last cap sk rank l l1 l2 d sd f sf :
  rank_ok cap sk rank l → l = l1 ++ d :: l2 →
  sk !! d = Some sd → s_first sd = Some f → sk !! f = Some sf →
  s_family sf = Some d → f ≠ d →
  ∃ l1' prev sprev,
    l1 = l1' ++ [prev] ∧ sk !! prev = Some sprev ∧ s_size sprev ≠ 0
    ∧ ∀ sf',
        s_rank sf' = s_rank sf → s_key sf' = s_key sf →
        s_capacity sf' = s_capacity sf → s_size sf' = s_size sf →
        s_first sf' = s_first sf → s_family sf' = Some prev →
        rank_ok cap (delete d (<[f := sf']> sk)) rank (l1 ++ l2).
Proof.
  intros Hok Hl Hsd Hfirst Hsf Hfamily Hfd.
  pose proof (keys_sorted_NoDup _ _ (proj1 Hok)) as Hnd.
  assert (Hdl : d ∈ l) by (subst l; set_solver).
  assert (Hdl' : d ∉ l1 ++ l2).
  { subst l. apply NoDup_app in Hnd as (? & Hd1 & Hd2).
    apply NoDup_cons in Hd2 as [? _]. set_solver. }
  destruct (proj2 Hok d Hdl) as [_ Hfamd].
  destruct Hfamd as (s & f0 & sf0 & lst & Hs & Hf & Hsf0 & Hfam & Hhd & Hlst & _).
  rewrite Hsd in Hs. injection Hs as <-.
  rewrite Hfirst in Hf. injection Hf as <-.
  rewrite Hsf in Hsf0. injection Hsf0 as <-.
  rewrite Hfamily in Hfam. injection Hfam as <-.
  set (P := key_part_ord (s_key sd)) in *.
  assert (Hkd : key_at sk d = s_key sd) by (unfold key_at; by rewrite Hsd).
  assert (HdP : key_part_ord (key_at sk d) = P) by (by rewrite Hkd).
  destruct (head_family_elem _ _ _ _ Hhd) as [Hfl HfP].
  (* nothing of the family comes after [d] *)
  assert (Hf2 : family sk P l2 = []).
  { subst l. rewrite family_app, family_cons_in in Hlst by done.
    pose proof (NoDup_family sk P _ Hnd) as Hndf.
    rewrite family_app, family_cons_in in Hndf by done.
    by eapply last_middle_NoDup. }
  (* the first bucket of the family comes before [d] *)
  assert (Hf1 : f ∈ l1).
  { subst l. apply elem_of_app in Hfl as [?|Hfl]; [done|].
    apply elem_of_cons in Hfl as [?|Hfl]; [done|].
    assert (f ∈ family sk P l2) as Hin by (by apply elem_of_family).
    rewrite Hf2 in Hin. by apply elem_of_nil in Hin. }
  destruct l1 as [|prev l1' _] using rev_ind; [by apply elem_of_nil in Hf1|].
  assert (Hprevl : prev ∈ l) by (subst l; set_solver).
  destruct (proj2 Hok prev Hprevl) as [Hbprev Hfprev].
  destruct Hbprev as (sprev & Hsprev & Hrprev & Hwfprev & Hcprev & Hszprev).
  assert (Hkprev : key_at sk prev = s_key sprev) by (unfold key_at; by rewrite Hsprev).
  (* [prev] lies between the first bucket and [d] *)
  pose proof (proj1 Hok) as Hs. unfold keys_sorted in Hs.
  assert (Hprev_d : bucket_key_less (key_at sk prev) (key_at sk d) = true).
  { subst l. assert (Hin1 : prev ∈ l1' ++ [prev]) by set_solver.
    assert (Hin2 : d ∈ d :: l2) by set_solver.
    exact (StronglySorted_app_1_elem_of _ _ _ _ _ Hs Hin1 Hin2). }
  assert (Hf_prev : bucket_key_less (key_at sk prev) (key_at sk f) = false).
  { apply elem_of_app in Hf1 as [Hf1|Hf1].
    - apply bucket_key_less_asym. subst l.
      apply StronglySorted_app_1_l, StronglySorted_app in Hs as (Hcross & _).
      apply Hcross; [done|set_solver].
    - apply list_elem_of_singleton in Hf1 as ->. apply bucket_key_less_irrefl. }
  assert (HprevP : key_part_ord (key_at sk prev) = P).
  { rewrite <- HfP.
    apply (family_convex (key_at sk f) (key_at sk prev) (key_at sk d)).
    - by eapply rank_ok_wf_key.
    - by eapply rank_ok_wf_key.
    - by eapply rank_ok_wf_key.
    - by rewrite HfP, HdP.
    - done.
    - by apply bucket_key_less_asym. }
  assert (Hprevd : prev ≠ d).
  { intros ->. by rewrite bucket_key_less_irrefl in Hprev_d. }
  destruct Hfprev as (s1 & f1 & sf1 & lst1 & Hs1 & Hfi1 & Hsf1 & Hfam1 & Hhd1 & Hlst1 & Hpack1).
  rewrite Hsprev in Hs1. injection Hs1 as <-.
  rewrite <- Hkprev, HprevP in Hlst1. rewrite Hlst in Hlst1. injection Hlst1 as <-.
  destruct (Hpack1 Hprevd) as [Hfull Hne0].
  exists l1', prev, sprev. split; [done|]. split; [done|]. split; [done|].
  intros sf' Er Ek Ec Es Efi Efa.
  set (sk' := delete d (<[f := sf']> sk)).
  assert (Hlook : ∀ k, k ∈ (l1' ++ [prev]) ++ l2 → k ≠ f → sk' !! k = sk !! k).
  { intros k Hk Hkf. unfold sk'. rewrite lookup_delete_ne by (by intros ->).
    by rewrite lookup_insert_ne. }
  assert (Hlookf : sk' !! f = Some sf').
  { unfold sk'. rewrite lookup_delete_ne by done. by rewrite lookup_insert_eq. }
  assert (Hsub : ∀ k, k ∈ (l1' ++ [prev]) ++ l2 → k ∈ l) by (subst l; set_solver).
  assert (Hext : ∀ k, k ∈ (l1' ++ [prev]) ++ l2 → key_at sk' k = key_at sk k).
  { intros k Hk. destruct (decide (k = f)) as [->|Hkf].
    - unfold key_at. rewrite Hlookf, Hsf. simpl. by rewrite Ek.
    - by apply key_at_ext, Hlook. }
  assert (Hfam_all : ∀ Q, family sk' Q ((l1' ++ [prev]) ++ l2)
                         = family sk Q (l1' ++ [prev]) ++ family sk Q l2).
  { intros Q. rewrite (family_ext sk sk') by done. by rewrite family_app. }
  assert (Hfam_P : family sk P l = family sk P (l1' ++ [prev]) ++ [d]).
  { subst l. by rewrite family_app, family_cons_in, Hf2 by done. }
  assert (Hfam_Q : ∀ Q, Q ≠ P → family sk' Q ((l1' ++ [prev]) ++ l2) = family sk Q l).
  { intros Q HQ. rewrite Hfam_all. subst l.
    rewrite !family_app, (family_cons_out _ _ d); [done|]. by rewrite HdP. }
  assert (Hfam_P1 : family sk P (l1' ++ [prev]) = family sk P l1' ++ [prev]).
  { by rewrite family_app, family_cons_in. }
  split.
  - apply (keys_sorted_ext sk); [done|]. unfold keys_sorted. subst l.
    apply StronglySorted_app in Hs as (Hcross & Hs1 & Hs2).
    apply StronglySorted_inv in Hs2 as [Hs2 _].
    apply StronglySorted_app. split; [|done].
    intros x1 x2 H1 H2. apply Hcross; [done|by right].
  - intros k Hk. destruct (proj2 Hok k (Hsub _ Hk)) as [Hbk Hfk].
    destruct Hbk as (s & Hsk & Hrk & Hwfk & Hck & Hszk).
    destruct Hfk as (s2 & f2 & sf2 & lst2 & Hs2 & Hfi2 & Hsf2 & Hfam2 & Hhd2 & Hlst2 & Hpack2).
    rewrite Hsk in Hs2. injection Hs2 as <-.
    assert (Hks : key_at sk k = s_key s) by (unfold key_at; by rewrite Hsk).
    assert (Hkd' : k ≠ d) by (intros ->; done).
    assert (Hs' : ∃ s', sk' !! k = Some s' ∧ s_rank s' = s_rank s
                   ∧ s_key s' = s_key s ∧ s_capacity s' = s_capacity s
                   ∧ s_size s' = s_size s ∧ s_first s' = s_first s).
    { destruct (decide (k = f)) as [->|Hkf].
      - exists sf'. rewrite Hsf in Hsk. injection Hsk as <-. done.
      - exists s. rewrite Hlook by done. done. }
    destruct Hs' as (s' & Hs' & Er' & Ek' & Ec' & Es' & Ef').
    split; [exists s'; by rewrite Er', Ek', Ec', Es'|].
    destruct (decide (key_part_ord (s_key s) = P)) as [HsP|HsP].
    + rewrite HsP in Hhd2, Hlst2.
      rewrite Hhd in Hhd2. injection Hhd2 as <-.
      rewrite Hlst in Hlst2. injection Hlst2 as <-.
      exists s', f, sf', prev. rewrite Ek', HsP, Ef', Es', Hfam_all, Hf2, app_nil_r.
      repeat split; try done.
      * rewrite Hfam_P in Hhd. rewrite Hfam_P1 in Hhd |- *.
        destruct (family sk P l1'); done.
      * by rewrite Hfam_P1, last_snoc.
      * by apply Hpack2.
      * by apply Hpack2.
    + destruct (head_family_elem _ _ _ _ Hhd2) as [Hf2l Hf2P].
      assert (Hf2f : f2 ≠ f) by (intros ->; congruence).
      assert (Hkf : k ≠ f) by (intros ->; rewrite Hks in HfP; congruence).
      assert (Hf2d : f2 ≠ d) by (intros ->; congruence).
      assert (Hf2l' : f2 ∈ (l1' ++ [prev]) ++ l2) by (subst l; set_solver).
      exists s', f2, sf2, lst2.
      rewrite Hlook in Hs' by done. rewrite Hsk in Hs'. injection Hs' as <-.
      rewrite !Hlook by done. rewrite Hfam_Q by done. done.
Qed.

End Erase.


(** * [declare_bucket] and [destroy_bucket] on a repository *)

Section DeclareRun.

Lemma run_local_malloc st :
  local_malloc st
  = (if malloc_succeeds st then inr tt else inl MallocFailed, after_malloc st).
Proof.
  unfold local_malloc, malloc_succeeds, after_malloc.
  destruct st as [? ? ? ? ? ? supply ?]. simpl.
  destruct supply as [|[] ?]; done.
Qed.

Lemma run_vector_allocate st :
  vector_allocate st
  = (if malloc_succeeds st then inr tt else inl BadAlloc, after_malloc st).
Proof.
  unfold vector_allocate, malloc_succeeds, after_malloc.
  destruct st as [? ? ? ? ? ? supply ?]. simpl.
  destruct supply as [|[] ?]; done.
Qed.

Lemma skel_lookup (h : gmap nat Bucket) k b :
  h !! k = Some b → (skel <$> h) !! k = Some (skel b).
Proof. intros H. by rewrite lookup_fmap, H. Qed.

Lemma skel_lookup_inv (h : gmap nat Bucket) k s :
  (skel <$> h) !! k = Some s → ∃ b, h !! k = Some b ∧ skel b = s.
Proof.
  rewrite lookup_fmap. destruct (h !! k) as [b|]; [|done].
  intros [= <-]. eauto.
Qed.

Lemma repo_ok_rank st rank l :
  repo_ok st → m_buckets st !! rank = Some l →
  rank_ok (m_bucket_capacity st) (skel <$> heap st) rank l.
Proof. intros (Hs & _) Hl. by apply Hs. Qed.

Lemma repo_ok_bucket st rank l k :
  repo_ok st → m_buckets st !! rank = Some l → k ∈ l →
  ∃ b, heap st !! k = Some b
       ∧ b_entity_rank b = rank ∧ wf_key (b_key b)
       ∧ b_capacity b = m_bucket_capacity st
       ∧ b_size b ≤ m_bucket_capacity st
       ∧ bucket_slots_ok (entities st) k b.
Proof.
  intros Hok Hl Hk.
  destruct (proj2 (repo_ok_rank _ _ _ Hok Hl) k Hk) as [Hb _].
  destruct Hb as (s & Hs & Hr & Hwf & Hc & Hsz).
  apply skel_lookup_inv in Hs as (b & Hb & <-).
  exists b. split_and!; try done.
  destruct Hok as (_ & Hslots & _); by eapply Hslots.
Qed.

Lemma rank_lt_length st rank l :
  m_buckets st !! rank = Some l → rank < length (m_buckets st).
Proof. apply lookup_lt_Some. Qed.

Lemma below_max_counters st rank l :
  below_max st → m_buckets st !! rank = Some l →
  (∀ k, k ∈ l → is_Some (heap st !! k)) →
  counters_below_max (skel <$> heap st) l.
Proof.
  intros Hbelow Hl Hin k Hk. destruct (Hin k Hk) as [b Hb].
  unfold key_at. rewrite (skel_lookup _ _ _ Hb). simpl. by eapply Hbelow.
Qed.

(** The first steps of [declare_bucket], up to the test on [last_bucket]. *)
Lemma declare_bucket_search st rank P field_set l :
  repo_ok st → below_max st →
  m_buckets st !! rank = Some l →
  (Z.of_nat (length P) + 2 ≤ UINT_MAX)%Z →
  declare_bucket rank P field_set st =
  match last (family (skel <$> heap st) P l) with
  | None =>
      (cap ← gets m_bucket_capacity;
       local_malloc;;
       field_map ← lift (new_field_map (Z.of_nat rank) P (Z.of_nat cap)
                           declare_bucket_method field_set);
       allocate_bucket rank (search_key P 0) field_map None l
         (family_end st l P)) st
  | Some last =>
      (lb ← get_bucket last;
       if b_size lb =? 0 then throw (LogicError declare_bucket_method)
       else if b_size lb <? b_capacity lb then mret last
       else if (nth (S (length P)) (b_key lb) 0%Z <? UINT_MAX)%Z then
         allocate_bucket rank
           (search_key P (1 + nth (S (length P)) (b_key lb) 0%Z))
           (b_field_map lb) (Some last) l (family_end st l P)
       else throw (TooManyBuckets declare_bucket_method)) st
  end.
Proof.
  intros Hok Hbelow Hl HP.
  pose proof (repo_ok_rank _ _ _ Hok Hl) as Hrank.
  assert (Hin : ∀ k, k ∈ l → is_Some (heap st !! k)).
  { intros k Hk. destruct (repo_ok_bucket _ _ _ _ Hok Hl Hk) as (b & -> & _). eauto. }
  unfold declare_bucket.
  rewrite (run_bind_ok _ _ _ _ _ (run_assert_entity_rank _ _ _ (rank_lt_length _ _ _ Hl))).
  rewrite (run_bind_ok _ _ _ _ _ (run_get_bucket_set _ _ _ Hl)).
  rewrite decide_True by done. cbv zeta.
  rewrite (run_bind_ok _ _ _ _ _ (run_bucket_keys _ _ Hin)).
  rewrite (found_last_bucket _ _ _ _ _ Hrank
             (below_max_counters _ _ _ Hbelow Hl Hin) HP).
  rewrite search_key_index. unfold family_end.
  destruct (last (family (skel <$> heap st) P l)) as [p|].
  - rewrite !run_bind. destruct (get_bucket p st) as [[e|lb] st']; [done|].
    by rewrite search_key_set_count.
  - by rewrite search_key_set_count.
Qed.

Lemma run_allocate_first st rank key fm l ik :
  allocate_bucket rank key fm None l ik st =
  if malloc_succeeds st then
    let h' := <[next_address st :=
                  new_bucket rank key (m_bucket_capacity st) fm
                    (Some (next_address st)) (Some (next_address st))]>
                (heap st) in
    if malloc_succeeds (after_malloc st) then
      (inr (next_address st),
       with_new_bucket rank (take ik l ++ next_address st :: drop ik l) h'
         (after_malloc (after_malloc st)))
    else (inl BadAlloc, bucket_built h' (after_malloc (after_malloc st)))
  else (inl MallocFailed, after_malloc st).
Proof.
  unfold allocate_bucket. rewrite run_bind, run_local_malloc.
  destruct (malloc_succeeds st) eqn:Hm1; [|done].
  unfold set_first_bucket_in_family, set_last_bucket_in_family, get_bucket.
  unfold_monad. cbn. rewrite lookup_insert_eq.
  cbn. rewrite lookup_insert_eq. cbn.
  rewrite !insert_insert_eq. rewrite run_vector_allocate.
  unfold malloc_succeeds, after_malloc. cbn.
  destruct (tail (malloc_supply st)) as [|[] ?]; done.
Qed.

Lemma run_allocate_next st rank key fm l ik p pb f fb :
  heap st !! p = Some pb → b_first pb = Some f → heap st !! f = Some fb →
  heap st !! next_address st = None →
  allocate_bucket rank key fm (Some p) l ik st =
  if malloc_succeeds st then
    let h' := <[f := with_family (Some (next_address st)) fb]>
                (<[next_address st :=
                     new_bucket rank key (m_bucket_capacity st) fm (Some f)
                       None]> (heap st)) in
    if malloc_succeeds (after_malloc st) then
      (inr (next_address st),
       with_new_bucket rank (take ik l ++ next_address st :: drop ik l) h'
         (after_malloc (after_malloc st)))
    else (inl BadAlloc, bucket_built h' (after_malloc (after_malloc st)))
  else (inl MallocFailed, after_malloc st).
Proof.
  intros Hp Hf Hfb Hn.
  assert (Hpn : next_address st ≠ p) by (intros E; rewrite E in Hn; congruence).
  assert (Hfn : next_address st ≠ f) by (intros E; rewrite E in Hn; congruence).
  unfold allocate_bucket. rewrite run_bind, run_local_malloc.
  destruct (malloc_succeeds st) eqn:Hm1; [|done].
  unfold first_bucket_in_family, set_first_bucket_in_family,
    set_last_bucket_in_family, get_bucket.
  unfold_monad. cbn.
  rewrite lookup_insert_ne by done. cbn. rewrite Hp.
  cbn. rewrite Hf. cbn.
  rewrite lookup_insert_eq. cbn.
  rewrite lookup_insert_ne by done. rewrite lookup_insert_ne by done.
  cbn. rewrite Hfb. cbn.
  rewrite !insert_insert_eq. rewrite run_vector_allocate.
  unfold malloc_succeeds, after_malloc. cbn.
  destruct (tail (malloc_supply st)) as [|[] ?]; done.
Qed.

Lemma repo_ok_fresh st : repo_ok st → heap st !! next_address st = None.
Proof.
  intros (_ & _ & Hb). destruct (heap st !! next_address st) eqn:E; [|done].
  assert (next_address st < next_address st) by (apply Hb; eauto). lia.
Qed.

Lemma family_ok_pointers st rank l k :
  repo_ok st → m_buckets st !! rank = Some l → k ∈ l →
  ∃ b f fb lst,
    heap st !! k = Some b ∧ b_first b = Some f ∧ heap st !! f = Some fb
    ∧ b_family fb = Some lst
    ∧ head (family (skel <$> heap st) (key_part_ord (b_key b)) l) = Some f
    ∧ last (family (skel <$> heap st) (key_part_ord (b_key b)) l) = Some lst
    ∧ (k ≠ lst → b_size b = m_bucket_capacity st ∧ b_size b ≠ 0).
Proof.
  intros Hok Hl Hk.
  destruct (proj2 (repo_ok_rank _ _ _ Hok Hl) k Hk) as [_ Hf].
  destruct Hf as (s & f & sf & lst & Hs & Hfi & Hsf & Hfam & Hhd & Hlst & Hp).
  apply skel_lookup_inv in Hs as (b & Hb & <-).
  apply skel_lookup_inv in Hsf as (fb & Hfb & <-).
  exists b, f, fb, lst. done.
Qed.

(** The complete behaviour of [declare_bucket] on a repository that
    satisfies the invariant. *)
Lemma declare_bucket_spec st rank P field_set l :
  repo_ok st → below_max st →
  m_buckets st !! rank = Some l →
  (Z.of_nat (length P) + 2 ≤ UINT_MAX)%Z →
  match last (family (skel <$> heap st) P l) with
  | Some p =>
      ∃ pb f fb,
        p ∈ l ∧ heap st !! p = Some pb ∧ b_first pb = Some f
        ∧ heap st !! f = Some fb ∧ b_family fb = Some p
        ∧ key_part_ord (b_key pb) = P
        ∧ declare_bucket rank P field_set st =
          if b_size pb =? 0 then (inl (LogicError declare_bucket_method), st)
          else if b_size pb <? b_capacity pb then (inr p, st)
          else if malloc_succeeds st then
            if malloc_succeeds (after_malloc st) then
              (inr (next_address st),
               family_extended rank l (family_end st l P) p f pb fb
                 (after_malloc (after_malloc st)))
            else
              (inl BadAlloc,
               family_linked rank f pb fb (after_malloc (after_malloc st)))
          else (inl MallocFailed, after_malloc st)
  | None =>
      declare_bucket rank P field_set st =
      if malloc_succeeds st then
        match new_field_map (Z.of_nat rank) P
                (Z.of_nat (m_bucket_capacity st)) declare_bucket_method
                field_set with
        | inl e => (inl e, after_malloc st)
        | inr fm =>
            if malloc_succeeds (after_malloc st) then
              if malloc_succeeds (after_malloc (after_malloc st)) then
                (inr (next_address st),
                 family_created rank l (family_end st l P) P fm
                   (after_malloc (after_malloc (after_malloc st))))
              else
                (inl BadAlloc,
                 family_unlisted rank P fm
                   (after_malloc (after_malloc (after_malloc st))))
            else (inl MallocFailed, after_malloc (after_malloc st))
        end
      else (inl MallocFailed, after_malloc st)
  end.
Proof.
  intros Hok Hbelow Hl HP.
  rewrite (declare_bucket_search _ _ _ _ _ Hok Hbelow Hl HP).
  destruct (last (family (skel <$> heap st) P l)) as [p|] eqn:Hlast.
  - destruct (last_family_elem _ _ _ _ Hlast) as [Hpl HpP].
    destruct (family_ok_pointers _ _ _ _ Hok Hl Hpl)
      as (pb & f & fb & lst & Hpb & Hfi & Hfb & Hfam & Hhd & Hlst & _).
    assert (Hkp : key_at (skel <$> heap st) p = b_key pb).
    { unfold key_at. by rewrite (skel_lookup _ _ _ Hpb). }
    rewrite Hkp in HpP. rewrite HpP, Hlast in Hlst. injection Hlst as <-.
    exists pb, f, fb. split_and!; try done.
    rewrite (run_bind_ok _ _ _ _ _ (run_get_bucket _ _ _ Hpb)).
    destruct (b_size pb =? 0); [done|].
    destruct (b_size pb <? b_capacity pb); [done|].
    destruct (repo_ok_bucket _ _ _ _ Hok Hl Hpl) as (pb' & Hpb' & _ & Hwf & _).
    rewrite Hpb in Hpb'. injection Hpb' as <-.
    assert (Hcount : nth (S (length P)) (b_key pb) 0%Z = key_family_count (b_key pb)).
    { rewrite (wf_key_search _ Hwf) at 1. rewrite HpP.
      rewrite <- (search_key_index P 0). by rewrite search_key_count_at. }
    rewrite Hcount.
    assert (Hlt : (key_family_count (b_key pb) <? UINT_MAX)%Z = true).
    { apply Z.ltb_lt. by eapply Hbelow. }
    rewrite Hlt.
    rewrite (run_allocate_next _ _ _ _ _ _ _ _ _ _ Hpb Hfi Hfb (repo_ok_fresh _ Hok)).
    destruct (malloc_succeeds st); [|done]. cbn zeta.
    unfold family_extended, family_linked, extended_heap. rewrite HpP.
    by destruct (malloc_succeeds (after_malloc st)).
  - rewrite run_bind, run_gets, run_bind, run_local_malloc.
    destruct (malloc_succeeds st); [|done].
    cbn [m_bucket_capacity after_malloc with_malloc_supply].
    rewrite run_bind.
    destruct (new_field_map _ _ _ _ _) as [e|fm]; [done|].
    cbn [lift]. rewrite run_ret.
    rewrite run_allocate_first.
    destruct (malloc_succeeds (after_malloc st)); [|done]. cbn zeta.
    by destruct (malloc_succeeds (after_malloc (after_malloc st))).
Qed.

End DeclareRun.

Section DeclareOk.

Lemma repo_ok_after_malloc st : repo_ok st ↔ repo_ok (after_malloc st).
Proof. done. Qed.

Lemma bucket_slots_ok_new es k rank key cap fm fi fa :
  bucket_slots_ok es k (new_bucket rank key cap fm fi fa).
Proof.
  unfold bucket_slots_ok, new_bucket. simpl.
  rewrite !length_replicate. split_and!; try done.
  - intros i Hi. lia.
  - intros i _ Hi. by apply lookup_replicate_2.
Qed.

Lemma bucket_slots_ok_same es k b b' :
  b_entities b' = b_entities b → b_field_data b' = b_field_data b →
  b_capacity b' = b_capacity b → b_size b' = b_size b →
  bucket_slots_ok es k b → bucket_slots_ok es k b'.
Proof. unfold bucket_slots_ok. by intros -> -> -> ->. Qed.

Lemma rank_ok_rank cap sk rank l k s :
  rank_ok cap sk rank l → k ∈ l → sk !! k = Some s → s_rank s = rank.
Proof.
  intros Hok Hk Hs. destruct (proj2 Hok k Hk) as [(s' & Hs' & Hr & _) _].
  congruence.
Qed.

Lemma other_rank_not_in st rank rank' l l' k :
  repo_ok st → m_buckets st !! rank = Some l → m_buckets st !! rank' = Some l' →
  rank ≠ rank' → k ∈ l → k ∉ l'.
Proof.
  intros Hok Hl Hl' Hne Hk Hk'.
  destruct (repo_ok_bucket _ _ _ _ Hok Hl Hk) as (b & Hb & Hr & _).
  destruct (repo_ok_bucket _ _ _ _ Hok Hl' Hk') as (b' & Hb' & Hr' & _).
  congruence.
Qed.

Lemma fresh_not_in st rank l :
  repo_ok st → m_buckets st !! rank = Some l → next_address st ∉ l.
Proof.
  intros Hok Hl Hk.
  destruct (repo_ok_bucket _ _ _ _ Hok Hl Hk) as (b & Hb & _).
  rewrite (repo_ok_fresh _ Hok) in Hb. done.
Qed.

(** The invariant after [declare_bucket] created a family. *)
Lemma repo_ok_family_created st rank l P fm :
  repo_ok st → m_buckets st !! rank = Some l →
  family (skel <$> heap st) P l = [] →
  (Z.of_nat (length P) + 2 ≤ UINT_MAX)%Z →
  repo_ok (family_created rank l (family_end st l P) P fm st).
Proof.
  intros Hok Hl Hfam HP.
  pose proof (repo_ok_fresh _ Hok) as Hfresh.
  set (n := next_address st) in *.
  unfold family_created, with_new_bucket, bucket_built, created_heap, repo_ok. cbn. fold n.
  split_and!.
  - intros rank' l' Hl'. rewrite fmap_insert.
    destruct (decide (rank = rank')) as [<-|Hne].
    + rewrite list_lookup_insert_eq in Hl' by (by eapply rank_lt_length).
      injection Hl' as <-. unfold family_end. simpl.
      apply rank_ok_create; try done.
      * by apply repo_ok_rank.
      * by rewrite lookup_fmap, Hfresh.
    + rewrite list_lookup_insert_ne in Hl' by done.
      apply (rank_ok_frame _ (skel <$> heap st)); [|by apply repo_ok_rank].
      intros k Hk. rewrite lookup_insert_ne; [done|].
      intros <-. by eapply (fresh_not_in st rank').
  - intros rank' l' k b Hl' Hk Hb. cbn in *.
    destruct (decide (k = n)) as [->|Hkn].
    + rewrite lookup_insert_eq in Hb. injection Hb as <-.
      apply bucket_slots_ok_new.
    + rewrite lookup_insert_ne in Hb by done.
      destruct Hok as (_ & Hslots & _).
      destruct (decide (rank = rank')) as [<-|Hne].
      * rewrite list_lookup_insert_eq in Hl' by (by eapply rank_lt_length).
        injection Hl' as <-. apply (Hslots rank l); try done.
        apply elem_of_inserted in Hk as [?|?]; done.
      * rewrite list_lookup_insert_ne in Hl' by done. by eapply Hslots.
  - intros k [b Hb]. destruct (decide (k = n)) as [->|Hkn]; [lia|].
    rewrite lookup_insert_ne in Hb by done.
    destruct Hok as (_ & _ & Hbound). assert (k < n) by (apply Hbound; eauto). lia.
Qed.

(** The invariant after [declare_bucket] appended a bucket to a family. *)
Lemma repo_ok_family_extended st rank l P p pb f fb :
  repo_ok st → below_max st → m_buckets st !! rank = Some l →
  last (family (skel <$> heap st) P l) = Some p →
  heap st !! p = Some pb → key_part_ord (b_key pb) = P →
  b_size pb ≠ 0 → ¬ b_size pb < b_capacity pb →
  b_first pb = Some f → heap st !! f = Some fb →
  repo_ok (family_extended rank l (family_end st l P) p f pb fb st).
Proof.
  intros Hok Hbelow Hl Hlast Hpb HpP Hne0 Hfull Hfi Hfb.
  pose proof (repo_ok_fresh _ Hok) as Hfresh.
  pose proof (repo_ok_rank _ _ _ Hok Hl) as Hrank.
  destruct (last_family_elem _ _ _ _ Hlast) as [Hpl _].
  destruct (repo_ok_bucket _ _ _ _ Hok Hl Hpl) as (pb' & Hpb' & _ & _ & Hcap & Hsz & _).
  rewrite Hpb in Hpb'. injection Hpb' as <-.
  destruct (family_ok_pointers _ _ _ _ Hok Hl Hpl)
    as (pb' & f' & fb' & lst & Hpb' & Hfi' & Hfb' & _ & Hhd & _).
  rewrite Hpb in Hpb'. injection Hpb' as <-.
  rewrite Hfi in Hfi'. injection Hfi' as <-.
  destruct (head_family_elem _ _ _ _ Hhd) as [Hfl _].
  set (n := next_address st) in *.
  assert (Hfn : f ≠ n) by (intros E; rewrite E in Hfb; congruence).
  unfold family_extended, with_new_bucket, bucket_built, extended_heap, repo_ok. cbn. fold n.
  split_and!.
  - intros rank' l' Hl'. rewrite !fmap_insert.
    destruct (decide (rank = rank')) as [<-|Hne].
    + rewrite list_lookup_insert_eq in Hl' by (by eapply rank_lt_length).
      injection Hl' as <-. unfold family_end. rewrite HpP.
      apply (rank_ok_extend _ _ _ _ _ p (skel pb) f (skel fb)); try done.
      * eapply below_max_counters; [done..|].
        intros k Hk. destruct (repo_ok_bucket _ _ _ _ Hok Hl Hk) as (b & -> & _).
        eauto.
      * by apply skel_lookup.
      * simpl. lia.
      * by apply skel_lookup.
      * by rewrite lookup_fmap, Hfresh.
    + rewrite list_lookup_insert_ne in Hl' by done.
      apply (rank_ok_frame _ (skel <$> heap st)); [|by apply repo_ok_rank].
      intros k Hk. rewrite lookup_insert_ne.
      * rewrite lookup_insert_ne; [done|].
        intros <-. by eapply (fresh_not_in st rank').
      * intros <-. by eapply (other_rank_not_in st rank rank').
  - intros rank' l' k b Hl' Hk Hb. cbn in *.
    assert (Hkl : k = n ∨ ∃ r lk, m_buckets st !! r = Some lk ∧ k ∈ lk).
    { destruct (decide (rank = rank')) as [<-|Hne].
      - rewrite list_lookup_insert_eq in Hl' by (by eapply rank_lt_length).
        injection Hl' as <-.
        apply elem_of_inserted in Hk as [?|?]; [by left|right; eauto].
      - rewrite list_lookup_insert_ne in Hl' by done. right. eauto. }
    destruct (decide (k = n)) as [->|Hkn].
    + rewrite lookup_insert_ne in Hb by done.
      rewrite lookup_insert_eq in Hb. injection Hb as <-.
      apply bucket_slots_ok_new.
    + destruct Hkl as [?|(r & lk & Hlk & Hklk)]; [done|].
      destruct Hok as (_ & Hslots & _).
      destruct (decide (k = f)) as [->|Hkf].
      * rewrite lookup_insert_eq in Hb. injection Hb as <-.
        apply (bucket_slots_ok_same _ _ fb); try done. by eapply Hslots.
      * rewrite !lookup_insert_ne in Hb by done. by eapply Hslots.
  - intros k [b Hb]. destruct (decide (k = n)) as [->|Hkn]; [lia|].
    destruct Hok as (_ & _ & Hbound).
    destruct (decide (k = f)) as [->|Hkf].
    + assert (f < n) by (apply Hbound; eauto). lia.
    + rewrite !lookup_insert_ne in Hb by done.
      assert (k < n) by (apply Hbound; eauto). lia.
Qed.

End DeclareOk.

Section Destroy.

(** [destroy_bucket] refuses a bucket that is not empty or not the last of
    its family, and leaves the repository as it was. *)
Lemma destroy_bucket_refuses st rank l d db f fb lst :
  m_buckets st !! rank = Some l →
  heap st !! d = Some db → b_first db = Some f →
  heap st !! f = Some fb → b_family fb = Some lst →
  b_size db ≠ 0 ∨ d ≠ lst →
  destroy_bucket rank d st = (inl (LogicError destroy_bucket_method), st).
Proof.
  intros Hl Hdb Hfi Hfb Hfam Hcase. unfold destroy_bucket.
  rewrite (run_bind_ok _ _ _ _ _ (run_assert_entity_rank _ _ _ (rank_lt_length _ _ _ Hl))).
  rewrite (run_bind_ok _ _ _ _ _ (run_get_bucket_set _ _ _ Hl)).
  rewrite (run_bind_ok _ _ _ _ _ (run_first_bucket_in_family _ _ _ _ Hdb Hfi)).
  rewrite (run_bind_ok _ _ _ _ _ (run_get_bucket _ _ _ Hdb)).
  destruct (b_size db =? 0) eqn:Hsz; simpl.
  - rewrite run_bind.
    rewrite (run_bind_ok _ _ _ _ _ (run_get_bucket_family_pointer _ _ _ _ Hfb Hfam)).
    rewrite run_ret.
    destruct Hcase as [Hne|Hne]; [apply Nat.eqb_eq in Hsz; done|].
    apply Nat.eqb_neq in Hne. by rewrite Hne.
  - by rewrite run_bind, run_ret.
Qed.

(** [destroy_bucket] on the empty last bucket of a family: it erases the
    bucket, repoints the family to the bucket before it, and frees it. *)
Lemma destroy_bucket_last st rank l d db f fb :
  repo_ok st → m_buckets st !! rank = Some l → d ∈ l →
  heap st !! d = Some db → b_first db = Some f →
  heap st !! f = Some fb → b_family fb = Some d → b_size db = 0 →
  ∃ l1 l2 h',
    l = l1 ++ d :: l2
    ∧ destroy_bucket rank d st
      = (inr tt, bucket_destroyed rank (l1 ++ l2) h' d st)
    ∧ repo_ok (bucket_destroyed rank (l1 ++ l2) h' d st)
    ∧ ((f = d ∧ h' = delete d (heap st))
       ∨ (f ≠ d ∧ ∃ l1' prev,
            l1 = l1' ++ [prev]
            ∧ h' = delete d (<[f := with_family (Some prev) fb]> (heap st)))).
Proof.
  intros Hok Hl Hdl Hdb Hfi Hfb Hfam Hsz.
  pose proof (repo_ok_rank _ _ _ Hok Hl) as Hrank.
  destruct (erase_position _ _ _ _ _ Hrank Hdl) as (l1 & l2 & Hl12 & Hik).
  assert (Hkd : key_at (skel <$> heap st) d = b_key db).
  { unfold key_at. by rewrite (skel_lookup _ _ _ Hdb). }
  rewrite Hkd in Hik.
  assert (Hin : ∀ k, k ∈ l → is_Some (heap st !! k)).
  { intros k Hk. destruct (repo_ok_bucket _ _ _ _ Hok Hl Hk) as (b & -> & _). eauto. }
  assert (Hrun : ∀ (k : unit → M unit),
    destroy_bucket rank d st =
    ((let bucket_set' := l1 ++ l2 in
      put_bucket_set rank bucket_set';;
      (if negb (f =? d) then
         match length l1 with
         | O => throw (LogicError destroy_bucket_method)
         | S ik' =>
             prev ← deref (bucket_set' !! ik');
             set_last_bucket_in_family f prev;;
             last' ← get_bucket_family_pointer f;
             lb ← get_bucket last';
             if b_size lb =? 0 then throw (LogicError destroy_bucket_method)
             else mret tt
         end
       else mret tt);;
      destroy_bucket_raw d) : M unit) st).
  { intros _. unfold destroy_bucket.
    rewrite (run_bind_ok _ _ _ _ _ (run_assert_entity_rank _ _ _ (rank_lt_length _ _ _ Hl))).
    rewrite (run_bind_ok _ _ _ _ _ (run_get_bucket_set _ _ _ Hl)).
    rewrite (run_bind_ok _ _ _ _ _ (run_first_bucket_in_family _ _ _ _ Hdb Hfi)).
    rewrite (run_bind_ok _ _ _ _ _ (run_get_bucket _ _ _ Hdb)).
    rewrite Hsz. cbn [negb Nat.eqb].
    rewrite run_bind.
    rewrite (run_bind_ok _ _ _ _ _ (run_get_bucket_family_pointer _ _ _ _ Hfb Hfam)).
    rewrite run_ret, Nat.eqb_refl. cbn [negb].
    rewrite (run_bind_ok _ _ _ _ _ (run_bucket_keys _ _ Hin)).
    cbv zeta. rewrite Hik.
    assert (length l1 =? length l = false) as ->.
    { apply Nat.eqb_neq. subst l. rewrite length_app. simpl. lia. }
    assert (bool_decide (l !! length l1 = Some d) = true) as ->.
    { apply bool_decide_eq_true. subst l. by apply list_lookup_middle. }
    cbn [negb].
    subst l. by rewrite delete_middle. }
  rewrite (Hrun (λ _, mret tt)). clear Hrun. cbv zeta.
  rewrite run_bind, run_put_bucket_set.
  destruct (decide (f = d)) as [->|Hfd].
  - rewrite Nat.eqb_refl. cbn [negb].
    rewrite run_bind, run_ret.
    exists l1, l2, (delete d (heap st)). split; [done|]. split; [done|].
    split; [|by left].
    rewrite Hdb in Hfb. injection Hfb as <-.
    unfold bucket_destroyed, repo_ok. cbn. split_and!.
    + intros rank' l' Hl'. rewrite fmap_delete.
      destruct (decide (rank = rank')) as [<-|Hne].
      * rewrite list_lookup_insert_eq in Hl' by (by eapply rank_lt_length).
        injection Hl' as <-.
        apply (rank_ok_erase_family _ _ _ l l1 l2 d (skel db)); try done.
        by apply skel_lookup.
      * rewrite list_lookup_insert_ne in Hl' by done.
        apply (rank_ok_frame _ (skel <$> heap st)); [|by apply repo_ok_rank].
        intros k Hk. rewrite lookup_delete_ne; [done|].
        intros <-. by eapply (other_rank_not_in st rank rank').
    + intros rank' l' k b Hl' Hk Hb. cbn in *.
      destruct (decide (k = d)) as [->|Hkd'];
        [by rewrite lookup_delete_eq in Hb|].
      rewrite lookup_delete_ne in Hb by done.
      destruct Hok as (_ & Hslots & _).
      destruct (decide (rank = rank')) as [<-|Hne].
      * rewrite list_lookup_insert_eq in Hl' by (by eapply rank_lt_length).
        injection Hl' as <-. apply (Hslots rank l); try done.
        subst l. set_solver.
      * rewrite list_lookup_insert_ne in Hl' by done. by eapply Hslots.
    + intros k [b Hb]. destruct (decide (k = d)) as [->|Hkd'];
        [by rewrite lookup_delete_eq in Hb|].
      rewrite lookup_delete_ne in Hb by done.
      destruct Hok as (_ & _ & Hbound). apply Hbound. eauto.
  - assert (f =? d = false) as -> by (by apply Nat.eqb_neq).
    cbn [negb].
    destruct (rank_ok_erase_last _ _ _ l l1 l2 d (skel db) f (skel fb) Hrank Hl12)
      as (l1' & prev & sprev & Hl1 & Hsprev & Hprev0 & Hnew);
      [by apply skel_lookup|done|by apply skel_lookup|done|done|].
    apply skel_lookup_inv in Hsprev as (pvb & Hpvb & <-).
    assert (Hpf : ∀ st', heap st' = heap st →
      (set_last_bucket_in_family f prev;;
       last' ← get_bucket_family_pointer f;
       lb ← get_bucket last';
       if b_size lb =? 0 then throw (LogicError destroy_bucket_method)
       else mret tt) st'
      = (inr tt, with_heap (<[f := with_family (Some prev) fb]> (heap st)) st')).
    { intros st' Hh. unfold set_last_bucket_in_family, get_bucket_family_pointer,
        get_bucket. unfold_monad. cbn. rewrite Hh, Hfb. cbn.
      rewrite lookup_insert_eq. cbn.
      destruct (decide (prev = f)) as [->|Hpf].
      - rewrite lookup_insert_eq. cbn.
        rewrite Hfb in Hpvb. injection Hpvb as <-. cbn in Hprev0.
        apply Nat.eqb_neq in Hprev0. by rewrite ?Hh, Hprev0.
      - rewrite lookup_insert_ne by done. rewrite ?Hh, Hpvb. cbn.
        cbn in Hprev0. apply Nat.eqb_neq in Hprev0. by rewrite ?Hh, Hprev0. }
    rewrite Hl1. rewrite length_app. simpl. rewrite Nat.add_1_r.
    rewrite run_bind.
    assert (Hlook : ((l1' ++ [prev]) ++ l2) !! length l1' = Some prev).
    { rewrite <- app_assoc. by apply list_lookup_middle. }
    rewrite Hlook. cbn [deref]. rewrite run_bind, run_ret.
    rewrite Hpf by done. cbn.
    exists (l1' ++ [prev]), l2,
      (delete d (<[f := with_family (Some prev) fb]> (heap st))).
    split; [by subst l1|]. split; [done|]. split; [|right; eauto].
    unfold bucket_destroyed, repo_ok. cbn. split_and!.
    + intros rank' l' Hl'. rewrite fmap_delete, fmap_insert.
      destruct (decide (rank = rank')) as [<-|Hne].
      * rewrite list_lookup_insert_eq in Hl' by (by eapply rank_lt_length).
        injection Hl' as <-. rewrite <- Hl1. by apply Hnew.
      * rewrite list_lookup_insert_ne in Hl' by done.
        apply (rank_ok_frame _ (skel <$> heap st)); [|by apply repo_ok_rank].
        destruct (family_ok_pointers _ _ _ _ Hok Hl Hdl)
          as (db' & f' & fb' & lst & Hdb' & Hfi' & _ & _ & Hhd & _).
        rewrite Hdb in Hdb'. injection Hdb' as <-.
        rewrite Hfi in Hfi'. injection Hfi' as <-.
        destruct (head_family_elem _ _ _ _ Hhd) as [Hfl _].
        intros k Hk. rewrite lookup_delete_ne.
        -- rewrite lookup_insert_ne; [done|].
           intros <-. by apply (other_rank_not_in st rank rank' l l' f).
        -- intros <-. by apply (other_rank_not_in st rank rank' l l' d).
    + intros rank' l' k b Hl' Hk Hb. cbn in *.
      destruct (decide (k = d)) as [->|Hkd'];
        [by rewrite lookup_delete_eq in Hb|].
      rewrite lookup_delete_ne in Hb by done.
      assert (Hkl : ∃ r lk, m_buckets st !! r = Some lk ∧ k ∈ lk).
      { destruct (decide (rank = rank')) as [<-|Hne].
        - rewrite list_lookup_insert_eq in Hl' by (by eapply rank_lt_length).
          injection Hl' as <-. exists rank, l. split; [done|].
          subst l l1. set_solver.
        - rewrite list_lookup_insert_ne in Hl' by done. eauto. }
      destruct Hkl as (r & lk & Hlk & Hklk).
      destruct Hok as (_ & Hslots & _).
      destruct (decide (k = f)) as [->|Hkf].
      * rewrite lookup_insert_eq in Hb. injection Hb as <-.
        apply (bucket_slots_ok_same _ _ fb); try done. by eapply Hslots.
      * rewrite lookup_insert_ne in Hb by done. by eapply Hslots.
    + intros k [b Hb]. destruct (decide (k = d)) as [->|Hkd'];
        [by rewrite lookup_delete_eq in Hb|].
      rewrite lookup_delete_ne in Hb by done.
      destruct Hok as (_ & _ & Hbound).
      destruct (decide (k = f)) as [->|Hkf]; [apply Hbound; eauto|].
      rewrite lookup_insert_ne in Hb by done. apply Hbound. eauto.
Qed.

End Destroy.


(** * [remove_entity] on a repository *)

Section RemoveRun.

Lemma run_decrement_size st k b n :
  heap st !! k = Some b → b_size b = S n →
  decrement_size k st
  = (inr tt,
     with_trace (trace st ++ [EvDecrementSize k])
       (with_heap (<[k := with_size n b]> (heap st)) st)).
Proof.
  intros Hk Hn. unfold decrement_size.
  rewrite (run_bind_ok _ _ _ _ _ (run_get_bucket _ _ _ Hk)). by rewrite Hn.
Qed.

(** The steps of [remove_entity] before it looks whether the last bucket
    became empty, when the slot to remove is not the last live slot of the
    family and lies in another bucket than that. *)
Lemma remove_entity_fill_other st k i kb lst lb n e d :
  heap st !! k = Some kb → last_of (heap st) k = Some lst →
  heap st !! lst = Some lb → k ≠ lst →
  b_size lb = S n → b_entities lb !! n = Some (Some e) →
  b_field_data lb !! n = Some d →
  i < length (b_field_data kb) → i < length (b_entities kb) →
  remove_entity k i st =
  (if n =? 0 then destroy_bucket (b_entity_rank kb) lst else mret tt)
    (slot_filled k i lst n e d kb lb st).
Proof.
  intros Hkb Hlast Hlb Hne Hsz He Hd Hi1 Hi2.
  unfold remove_entity.
  mrun run_get_bucket. mrun run_last_bucket_in_family. mrun run_get_bucket.
  assert (lst =? k = false) as -> by (apply Nat.eqb_neq; congruence).
  cbn [negb orb]. rewrite Hsz, He. cbn [deref].
  mnorm.
  assert (Hn : n < length (b_entities lb)) by (by eapply lookup_lt_Some).
  mrun run_copy_fields.
  mrun run_replace_entity.
  mrun run_change_entity_bucket.
  mrun run_propagate.
  mrun run_decrement_size.
  mrun run_get_bucket.
  mrun run_replace_entity.
  cbn. rewrite !insert_insert_eq.
  unfold slot_filled. rewrite decide_False by done.
  unfold move_events, shrink_events. rewrite <- !app_assoc. cbn.
  destruct (n =? 0); done.
Qed.

(** The same when the slot to remove lies in the last bucket itself, below
    its last live slot. *)
Lemma remove_entity_fill_same st k i kb n e d :
  heap st !! k = Some kb → last_of (heap st) k = Some k →
  b_size kb = S n → i ≠ n →
  b_entities kb !! n = Some (Some e) → b_field_data kb !! n = Some d →
  i < length (b_field_data kb) → i < length (b_entities kb) →
  remove_entity k i st =
  (if n =? 0 then destroy_bucket (b_entity_rank kb) k else mret tt)
    (slot_filled k i k n e d kb kb st).
Proof.
  intros Hkb Hlast Hsz Hne He Hd Hi1 Hi2.
  unfold remove_entity.
  mrun run_get_bucket. mrun run_last_bucket_in_family. mrun run_get_bucket.
  rewrite Nat.eqb_refl, Hsz.
  assert (S n =? i + 1 = false) as -> by (apply Nat.eqb_neq; lia).
  cbn [negb orb]. rewrite He.
  assert (Hn : n < length (b_entities kb)) by (by eapply lookup_lt_Some).
  mrun run_copy_fields.
  mrun run_replace_entity.
  mrun run_change_entity_bucket.
  mrun run_propagate.
  mrun run_decrement_size.
  mrun run_get_bucket.
  mrun run_replace_entity; [|cbn; by rewrite length_insert].
  cbn. rewrite !insert_insert_eq.
  unfold slot_filled. rewrite decide_True by done.
  unfold move_events, shrink_events. rewrite <- !app_assoc. cbn.
  destruct (n =? 0); done.
Qed.

(** The steps of [remove_entity] when the slot to remove is the last live
    slot of the family: nothing is moved. *)
Lemma remove_entity_drop_last st k kb n :
  heap st !! k = Some kb → last_of (heap st) k = Some k →
  b_size kb = S n → n < length (b_entities kb) →
  remove_entity k n st =
  (if n =? 0 then destroy_bucket (b_entity_rank kb) k else mret tt)
    (last_slot_dropped k n kb st).
Proof.
  intros Hkb Hlast Hsz Hn.
  unfold remove_entity.
  mrun run_get_bucket. mrun run_last_bucket_in_family. mrun run_get_bucket.
  rewrite Nat.eqb_refl, Hsz.
  assert (S n =? n + 1 = true) as -> by (apply Nat.eqb_eq; lia).
  cbn [negb orb].
  mrun run_decrement_size.
  mrun run_get_bucket.
  mrun run_replace_entity.
  cbn. rewrite !insert_insert_eq.
  unfold last_slot_dropped, shrink_events. rewrite <- !app_assoc. cbn.
  destruct (n =? 0); done.
Qed.

End RemoveRun.

Section RemoveOk.

Implicit Types sk : gmap nat Skel.

(** The invariant of a list survives a change of the size of the last
    bucket of a family. *)
Lemma rank_ok_resize cap sk sk' rank l x :
  rank_ok cap sk rank l →
  (∀ k, k ∈ l → ∃ s s',
     sk !! k = Some s ∧ sk' !! k = Some s'
     ∧ s_rank s' = s_rank s ∧ s_key s' = s_key s
     ∧ s_capacity s' = s_capacity s ∧ s_first s' = s_first s
     ∧ s_family s' = s_family s
     ∧ (k ≠ x → s_size s' = s_size s) ∧ s_size s' ≤ cap) →
  (∀ sx, x ∈ l → sk !! x = Some sx →
         last (family sk (key_part_ord (s_key sx)) l) = Some x) →
  rank_ok cap sk' rank l.
Proof.
  intros Hok Hrel Hx.
  assert (Hext : ∀ k, k ∈ l → key_at sk' k = key_at sk k).
  { intros k Hk. destruct (Hrel k Hk) as (s & s' & Hs & Hs' & _ & Ek & _).
    unfold key_at. by rewrite Hs, Hs'. }
  split; [by eapply keys_sorted_ext, Hok|].
  intros k Hk. destruct (proj2 Hok k Hk) as [Hb Hf].
  destruct (Hrel k Hk) as (s & s' & Hs & Hs' & Er & Ek & Ec & Efi & Efa & Esz & Hle).
  split.
  - destruct Hb as (s0 & Hs0 & Hr0 & Hwf0 & Hc0 & _).
    rewrite Hs in Hs0. injection Hs0 as <-.
    exists s'. by rewrite Er, Ek, Ec.
  - destruct Hf as (s0 & f & sf & lst & Hs0 & Hfi & Hsf & Hfam & Hhd & Hlst & Hpack).
    rewrite Hs in Hs0. injection Hs0 as <-.
    destruct (head_family_elem _ _ _ _ Hhd) as [Hfl _].
    destruct (Hrel f Hfl) as (sf0 & sf' & Hsf0 & Hsf' & _ & _ & _ & _ & Efa' & _).
    rewrite Hsf in Hsf0. injection Hsf0 as <-.
    exists s', f, sf', lst.
    rewrite Ek, Efi, Efa', (family_ext sk sk') by done.
    split_and!; try done.
    intros Hkl. destruct (decide (k = x)) as [->|Hkx].
    + specialize (Hx _ Hk Hs). rewrite Hlst in Hx. by injection Hx as ->.
    + rewrite Esz by done. by apply Hpack.
Qed.

Lemma last_of_family st rank l k kb :
  repo_ok st → m_buckets st !! rank = Some l → k ∈ l →
  heap st !! k = Some kb →
  ∃ lst, last_of (heap st) k = Some lst
         ∧ last (family (skel <$> heap st) (key_part_ord (b_key kb)) l)
           = Some lst.
Proof.
  intros Hok Hl Hk Hkb.
  destruct (family_ok_pointers _ _ _ _ Hok Hl Hk)
    as (b & f & fb & lst & Hb & Hfi & Hfb & Hfam & _ & Hlst & _).
  rewrite Hkb in Hb. injection Hb as <-.
  exists lst. split; [|done].
  unfold last_of. rewrite Hkb. simpl. rewrite Hfi. simpl. rewrite Hfb. done.
Qed.

Lemma last_of_listed st rank l k lst :
  repo_ok st → m_buckets st !! rank = Some l → k ∈ l →
  last_of (heap st) k = Some lst →
  lst ∈ l ∧ last_of (heap st) lst = Some lst
  ∧ ∃ kb lb, heap st !! k = Some kb ∧ heap st !! lst = Some lb
             ∧ key_part_ord (b_key lb) = key_part_ord (b_key kb)
             ∧ last (family (skel <$> heap st) (key_part_ord (b_key kb)) l)
               = Some lst.
Proof.
  intros Hok Hl Hk Hlast.
  destruct (repo_ok_bucket _ _ _ _ Hok Hl Hk) as (kb & Hkb & _).
  destruct (last_of_family _ _ _ _ _ Hok Hl Hk Hkb) as (lst' & Hlast' & Hfam).
  rewrite Hlast in Hlast'. injection Hlast' as <-.
  destruct (last_family_elem _ _ _ _ Hfam) as [Hlstl HlstP].
  destruct (repo_ok_bucket _ _ _ _ Hok Hl Hlstl) as (lb & Hlb & _).
  unfold key_at in HlstP. rewrite (skel_lookup _ _ _ Hlb) in HlstP. simpl in HlstP.
  split; [done|]. split.
  - destruct (last_of_family _ _ _ _ _ Hok Hl Hlstl Hlb) as (lst2 & Hlast2 & Hfam2).
    rewrite HlstP, Hfam in Hfam2. by injection Hfam2 as <-.
  - exists kb, lb. done.
Qed.

(** An entity whose back-reference is not a live slot of a bucket may be
    relocated without touching the bucket. *)
Lemma slots_keep es e q k0 n0 k b :
  bucket_slots_ok es k b → es !! e = Some (k0, n0) →
  k0 ≠ k ∨ b_size b ≤ n0 →
  bucket_slots_ok (<[e := q]> es) k b.
Proof.
  intros (Hl1 & Hl2 & Hlive & Hfree) He Hout. split_and!; try done.
  intros i Hi. destruct (Hlive i Hi) as (e' & He' & Hloc).
  exists e'. split; [done|]. rewrite lookup_insert_ne; [done|].
  intros <-. rewrite He in Hloc. injection Hloc as -> ->. lia.
Qed.

Lemma slots_shrunk es k b n :
  bucket_slots_ok es k b → b_size b = S n →
  bucket_slots_ok es k (shrunk_bucket n b).
Proof.
  intros (Hl1 & Hl2 & Hlive & Hfree) Hsz. unfold bucket_slots_ok. cbn.
  rewrite length_insert.
  assert (Hn : n < length (b_entities b)).
  { destruct (Hlive n) as (e & He & _); [lia|]. by eapply lookup_lt_Some. }
  split_and!; try done.
  - intros i Hi. rewrite list_lookup_insert_ne by lia. apply Hlive. lia.
  - intros i Hi Hcap. destruct (decide (i = n)) as [->|Hne].
    + by rewrite list_lookup_insert_eq.
    + rewrite list_lookup_insert_ne by done. apply Hfree; lia.
Qed.

Lemma slots_moved es e k0 n0 k b i d :
  bucket_slots_ok es k b → es !! e = Some (k0, n0) →
  k0 ≠ k ∨ b_size b ≤ n0 → i < b_size b →
  bucket_slots_ok (<[e := (k, i)]> es) k (moved_bucket i e d b).
Proof.
  intros (Hl1 & Hl2 & Hlive & Hfree) He Hout Hi. unfold bucket_slots_ok. cbn.
  rewrite !length_insert.
  assert (Hil : i < length (b_entities b)).
  { destruct (Hlive i Hi) as (e' & He' & _). by eapply lookup_lt_Some. }
  split_and!; try done.
  - intros j Hj. destruct (decide (j = i)) as [->|Hne].
    + exists e. rewrite list_lookup_insert_eq by done.
      by rewrite lookup_insert_eq.
    + rewrite list_lookup_insert_ne by done.
      destruct (Hlive j Hj) as (e' & He' & Hloc).
      exists e'. split; [done|]. rewrite lookup_insert_ne; [done|].
      intros <-. rewrite He in Hloc. injection Hloc as -> ->. lia.
  - intros j Hj Hcap. rewrite list_lookup_insert_ne by lia. by apply Hfree.
Qed.

Lemma shrunk_moved_commute i n e d b :
  i ≠ n →
  shrunk_bucket n (moved_bucket i e d b) = moved_bucket i e d (shrunk_bucket n b).
Proof.
  intros Hne. unfold shrunk_bucket, moved_bucket, with_entities, with_size,
    with_field_data. cbn. f_equal. by apply list_insert_insert_ne.
Qed.

(** The invariant after the slots of listed buckets were rewritten and the
    last bucket [lst] of a family possibly shrank. *)
Lemma repo_ok_reslot st h' es' T lst :
  repo_ok st →
  (∀ k, option_Forall2 (same_links lst k) (heap st !! k) (h' !! k)) →
  (∀ rank l, m_buckets st !! rank = Some l → lst ∈ l →
             last_of (heap st) lst = Some lst) →
  (∀ rank l k b', m_buckets st !! rank = Some l → k ∈ l → h' !! k = Some b' →
                  bucket_slots_ok es' k b') →
  repo_ok (with_trace T (with_entity_repo es' (with_heap h' st))).
Proof.
  intros Hok Hshape Hlst Hslots. unfold repo_ok. cbn. split_and!.
  - intros rank l Hl.
    apply (rank_ok_resize _ (skel <$> heap st) _ _ _ lst);
      [by apply repo_ok_rank| |].
    + intros k Hk.
      destruct (repo_ok_bucket _ _ _ _ Hok Hl Hk) as (b & Hb & _ & _ & _ & Hsz & _).
      specialize (Hshape k). rewrite Hb in Hshape.
      inversion Hshape as [b0 b' (Er & Ek & Ec & Efi & Efa & Esz & Hle) E1 E2|];
        subst.
      exists (skel b), (skel b'). rewrite (skel_lookup _ _ _ Hb).
      rewrite lookup_fmap, <- E2. cbn. split_and!; try done. lia.
    + intros sx Hx Hsx. apply skel_lookup_inv in Hsx as (xb & Hxb & <-). cbn.
      destruct (last_of_family _ _ _ _ _ Hok Hl Hx Hxb) as (lst' & Hlast' & Hfam).
      rewrite (Hlst _ _ Hl Hx) in Hlast'. by injection Hlast' as <-.
  - intros rank l k b' Hl Hk Hb'. cbn in *. by eapply Hslots.
  - intros k [b' Hb']. specialize (Hshape k). rewrite Hb' in Hshape.
    inversion Hshape; subst. destruct Hok as (_ & _ & Hbound).
    apply Hbound. eauto.
Qed.

Lemma repo_ok_slot st rank l k i :
  repo_ok st → m_buckets st !! rank = Some l → k ∈ l →
  ∀ b, heap st !! k = Some b → i < b_size b →
  ∃ e d, b_entities b !! i = Some (Some e) ∧ b_field_data b !! i = Some d
         ∧ entities st !! e = Some (k, i)
         ∧ i < length (b_entities b) ∧ i < length (b_field_data b).
Proof.
  intros Hok Hl Hk b Hb Hi.
  destruct (repo_ok_bucket _ _ _ _ Hok Hl Hk)
    as (b' & Hb' & _ & _ & Hcap & Hsz & Hl1 & Hl2 & Hlive & _).
  rewrite Hb in Hb'. injection Hb' as <-.
  destruct (Hlive i Hi) as (e & He & Hloc).
  assert (Hil : i < length (b_field_data b)) by lia.
  destruct (lookup_lt_is_Some_2 _ _ Hil) as [d Hd].
  exists e, d. split_and!; try done. lia.
Qed.

Lemma slot_filled_shape st k i kb lst lb n e d k' :
  heap st !! k = Some kb → heap st !! lst = Some lb → b_size lb = S n →
  option_Forall2 (same_links lst k') (heap st !! k')
    (heap (slot_filled k i lst n e d kb lb st) !! k').
Proof.
  intros Hkb Hlb Hsz. unfold slot_filled, same_links. cbn.
  destruct (decide (k = lst)) as [->|Hne].
  - destruct (decide (k' = lst)) as [->|Hk'].
    + rewrite lookup_insert_eq, Hkb. constructor. cbn.
      rewrite Hlb in Hkb. injection Hkb as <-. split_and!; try done. lia.
    + rewrite lookup_insert_ne by done.
      destruct (heap st !! k'); constructor. split_and!; done.
  - destruct (decide (k' = lst)) as [->|Hk'].
    + rewrite lookup_insert_eq, Hlb. constructor. cbn. split_and!; try done. lia.
    + rewrite lookup_insert_ne by done.
      destruct (decide (k' = k)) as [->|Hk''].
      * rewrite lookup_insert_eq, Hkb. constructor. cbn. split_and!; done.
      * rewrite lookup_insert_ne by done.
        destruct (heap st !! k'); constructor. split_and!; done.
Qed.

Lemma last_slot_dropped_shape st lst lb n k' :
  heap st !! lst = Some lb → b_size lb = S n →
  option_Forall2 (same_links lst k') (heap st !! k')
    (heap (last_slot_dropped lst n lb st) !! k').
Proof.
  intros Hlb Hsz. unfold last_slot_dropped, same_links. cbn.
  destruct (decide (k' = lst)) as [->|Hk'].
  - rewrite lookup_insert_eq, Hlb. constructor. cbn. split_and!; try done. lia.
  - rewrite lookup_insert_ne by done.
    destruct (heap st !! k'); constructor. split_and!; done.
Qed.

(** The invariant after [remove_entity] filled the slot and dropped the
    last live slot of the family. *)
Lemma repo_ok_slot_filled st rank l k i kb lst lb n e d :
  repo_ok st → m_buckets st !! rank = Some l → k ∈ l →
  heap st !! k = Some kb → i < b_size kb →
  last_of (heap st) k = Some lst → heap st !! lst = Some lb →
  b_size lb = S n → b_entities lb !! n = Some (Some e) →
  (k = lst → i ≠ n) →
  repo_ok (slot_filled k i lst n e d kb lb st).
Proof.
  intros Hok Hl Hk Hkb Hi Hlast Hlb Hsz He Hin.
  destruct (last_of_listed _ _ _ _ _ Hok Hl Hk Hlast) as (Hlstl & Hlstlast & _).
  assert (Hloc : entities st !! e = Some (lst, n)).
  { destruct (repo_ok_slot st rank l lst n Hok Hl Hlstl lb Hlb) as (e' & d' & He' & _ & Hloc & _);
      [lia|]. congruence. }
  assert (Hslots : ∀ r lk k' b', m_buckets st !! r = Some lk → k' ∈ lk →
                     heap st !! k' = Some b' → bucket_slots_ok (entities st) k' b').
  { intros. destruct Hok as (_ & Hs & _). by eapply Hs. }
  pose proof (λ k', slot_filled_shape st k i kb lst lb n e d k' Hkb Hlb Hsz) as Hshape.
  unfold slot_filled in *. apply (repo_ok_reslot _ _ _ _ lst); try done.
  - intros r lk k' b' Hlk Hk' Hb'.
    destruct (decide (k = lst)) as [->|Hne].
    + rewrite Hlb in Hkb. injection Hkb as <-.
      destruct (decide (k' = lst)) as [->|Hk''].
      * rewrite lookup_insert_eq in Hb'. injection Hb' as <-.
        rewrite shrunk_moved_commute by auto.
        apply (slots_moved _ _ lst n); [|done|right; cbn; lia|cbn; lia].
        apply slots_shrunk; [|done]. by eapply Hslots.
      * rewrite lookup_insert_ne in Hb' by done.
        apply (slots_keep _ _ _ lst n); [by eapply Hslots|done|by left].
    + destruct (decide (k' = lst)) as [->|Hk''].
      * rewrite lookup_insert_eq in Hb'. injection Hb' as <-.
        apply (slots_keep _ _ _ lst n); [|done|right; cbn; lia].
        apply slots_shrunk; [|done]. by eapply Hslots.
      * rewrite lookup_insert_ne in Hb' by done.
        destruct (decide (k' = k)) as [->|Hk3].
        -- rewrite lookup_insert_eq in Hb'. injection Hb' as <-.
           apply (slots_moved _ _ lst n); [|done|by left|done].
           by eapply Hslots.
        -- rewrite lookup_insert_ne in Hb' by done.
           apply (slots_keep _ _ _ lst n); [by eapply Hslots|done|by left].
Qed.

Lemma repo_ok_last_slot_dropped st rank l lst lb n :
  repo_ok st → m_buckets st !! rank = Some l → lst ∈ l →
  heap st !! lst = Some lb → last_of (heap st) lst = Some lst →
  b_size lb = S n →
  repo_ok (last_slot_dropped lst n lb st).
Proof.
  intros Hok Hl Hk Hlb Hlast Hsz.
  assert (Hslots : ∀ r lk k' b', m_buckets st !! r = Some lk → k' ∈ lk →
                     heap st !! k' = Some b' → bucket_slots_ok (entities st) k' b').
  { intros. destruct Hok as (_ & Hs & _). by eapply Hs. }
  unfold last_slot_dropped.
  change (with_heap (<[lst:=shrunk_bucket n lb]> (heap st)) st)
    with (with_entity_repo (entities st)
            (with_heap (<[lst:=shrunk_bucket n lb]> (heap st)) st)).
  apply (repo_ok_reslot _ _ _ _ lst); try done.
  - intros k'. apply (last_slot_dropped_shape st lst lb n k' Hlb Hsz).
  - intros r lk k' b' Hlk Hk' Hb'.
    destruct (decide (k' = lst)) as [->|Hk''].
    + rewrite lookup_insert_eq in Hb'. injection Hb' as <-.
      apply slots_shrunk; [|done]. by eapply Hslots.
    + rewrite lookup_insert_ne in Hb' by done. by eapply Hslots.
Qed.

End RemoveOk.

Section RemoveSpec.

Lemma same_links_lookup (h h' : gmap nat Bucket) lst k b :
  option_Forall2 (same_links lst k) (h !! k) (h' !! k) → h !! k = Some b →
  ∃ b', h' !! k = Some b' ∧ same_links lst k b b'.
Proof.
  intros H Hb. rewrite Hb in H. inversion H; subst. eauto.
Qed.

(** The complete behaviour of [remove_entity] on a live slot of a repository
    that satisfies the invariant and whose family has a last bucket that is
    not empty. *)
Lemma remove_entity_spec st rank l k i kb lst lb :
  repo_ok st → m_buckets st !! rank = Some l → k ∈ l →
  heap st !! k = Some kb → i < b_size kb →
  last_of (heap st) k = Some lst → heap st !! lst = Some lb →
  b_size lb ≠ 0 →
  ∃ n e d,
    b_size lb = S n ∧ b_entities lb !! n = Some (Some e)
    ∧ b_field_data lb !! n = Some d
    ∧ entities st !! e = Some (lst, n)
    ∧ let st1 := if decide (k = lst ∧ i = n)
                 then last_slot_dropped lst n lb st
                 else slot_filled k i lst n e d kb lb st in
      repo_ok st1
      ∧ (n ≠ 0 → remove_entity k i st = (inr tt, st1))
      ∧ (n = 0 →
         ∃ l1 l2 h' db f fb,
           l = l1 ++ lst :: l2
           ∧ remove_entity k i st
             = (inr tt, bucket_destroyed rank (l1 ++ l2) h' lst st1)
           ∧ repo_ok (bucket_destroyed rank (l1 ++ l2) h' lst st1)
           ∧ heap st1 !! lst = Some db ∧ b_first db = Some f
           ∧ heap st1 !! f = Some fb
           ∧ ((f = lst ∧ h' = delete lst (heap st1))
              ∨ (f ≠ lst ∧ ∃ l1' prev,
                   l1 = l1' ++ [prev]
                   ∧ h' = delete lst
                            (<[f := with_family (Some prev) fb]> (heap st1))))).
Proof.
  intros Hok Hl Hk Hkb Hi Hlast Hlb Hne0.
  destruct (last_of_listed _ _ _ _ _ Hok Hl Hk Hlast) as (Hlstl & Hlstlast & _).
  destruct (b_size lb) as [|n] eqn:Hsz; [done|]. clear Hne0.
  destruct (repo_ok_slot st rank l lst n Hok Hl Hlstl lb Hlb)
    as (e & d & He & Hd & Hloc & Hn1 & Hn2); [lia|].
  destruct (repo_ok_slot st rank l k i Hok Hl Hk kb Hkb Hi)
    as (ei & di & Hei & Hdi & _ & Hi1 & Hi2).
  destruct (repo_ok_bucket _ _ _ _ Hok Hl Hk) as (kb' & Hkb' & Hrk & _).
  rewrite Hkb in Hkb'. injection Hkb' as <-.
  exists n, e, d. split_and!; try done.
  set (st1 := if decide (k = lst ∧ i = n) then last_slot_dropped lst n lb st
              else slot_filled k i lst n e d kb lb st).
  (* what the first half of [remove_entity] leaves *)
  assert (Hrun : remove_entity k i st
                 = (if n =? 0 then destroy_bucket rank lst else mret tt) st1).
  { unfold st1. destruct (decide (k = lst ∧ i = n)) as [[-> ->]|Hnot].
    - rewrite Hlb in Hkb. injection Hkb as <-.
      rewrite <- Hrk. by apply remove_entity_drop_last.
    - destruct (decide (k = lst)) as [->|Hklst].
      + rewrite Hlb in Hkb. injection Hkb as <-.
        rewrite <- Hrk. apply remove_entity_fill_same; try done.
        intros ->. by apply Hnot.
      + rewrite <- Hrk. by apply remove_entity_fill_other. }
  assert (Hok1 : repo_ok st1).
  { unfold st1. destruct (decide (k = lst ∧ i = n)) as [[-> ->]|Hnot].
    - by eapply repo_ok_last_slot_dropped.
    - eapply repo_ok_slot_filled; try done. intros -> ->. by apply Hnot. }
  assert (Hshape : ∀ k', option_Forall2 (same_links lst k') (heap st !! k')
                           (heap st1 !! k')).
  { intros k'. unfold st1. destruct (decide (k = lst ∧ i = n)).
    - by apply last_slot_dropped_shape.
    - by apply slot_filled_shape. }
  assert (Hl1 : m_buckets st1 !! rank = Some l).
  { unfold st1. by destruct (decide (k = lst ∧ i = n)). }
  split; [done|]. split.
  - intros Hn. rewrite Hrun. apply Nat.eqb_neq in Hn. by rewrite Hn.
  - intros ->. rewrite Hrun. cbn [Nat.eqb].
    destruct (family_ok_pointers _ _ _ _ Hok Hl Hlstl)
      as (lb' & f & fb & lst' & Hlb' & Hfi & Hfb & Hfam & _ & _ & _).
    rewrite Hlb in Hlb'. injection Hlb' as <-.
    assert (lst' = lst) as ->.
    { unfold last_of in Hlstlast. rewrite Hlb in Hlstlast. simpl in Hlstlast.
      rewrite Hfi in Hlstlast. simpl in Hlstlast. rewrite Hfb in Hlstlast.
      simpl in Hlstlast. congruence. }
    destruct (same_links_lookup _ _ _ _ _ (Hshape lst) Hlb)
      as (db & Hdb & _ & _ & _ & Hdfi & _ & _ & Hdsz).
    destruct (same_links_lookup _ _ _ _ _ (Hshape f) Hfb)
      as (fb1 & Hfb1 & _ & _ & _ & _ & Hffam & _).
    assert (Hdsz0 : b_size db = 0).
    { assert (b_size db = 0 ∨ b_size db = 1) as [?|Hone] by lia; [done|].
      exfalso. revert Hdb Hone. unfold st1.
      destruct (decide (k = lst ∧ i = 0)) as [[-> ->]|Hnot]; cbn.
      - rewrite lookup_insert_eq. by intros [= <-].
      - destruct (decide (k = lst)) as [->|Hklst].
        + exfalso. apply Hnot. split; [done|].
          rewrite Hlb in Hkb. injection Hkb as <-. lia.
        + rewrite lookup_insert_eq. by intros [= <-]. }
    destruct (destroy_bucket_last st1 rank l lst db f fb1 Hok1 Hl1 Hlstl Hdb)
      as (l1 & l2 & h' & Hl12 & Hdestroy & Hok' & Hh'); try congruence.
    exists l1, l2, h', db, f, fb1. split_and!; try done. congruence.
Qed.

End RemoveSpec.


(** * [internal_sort_bucket_entities]: the slots *)

Section Lists.

Lemma Forall2_elem_of_l {A B} (P : A → B → Prop) l k x :
  Forall2 P l k → x ∈ l → ∃ y, y ∈ k ∧ P x y.
Proof.
  induction 1 as [|x' y l k Hxy Hlk IH]; intros Hx.
  - by apply elem_of_nil in Hx.
  - apply elem_of_cons in Hx as [->|Hx].
    + exists y. split; [by left|done].
    + destruct (IH Hx) as (y' & ? & ?). exists y'. split; [by right|done].
Qed.

Lemma Forall2_elem_of_r {A B} (P : A → B → Prop) l k y :
  Forall2 P l k → y ∈ k → ∃ x, x ∈ l ∧ P x y.
Proof.
  induction 1 as [|x y' l k Hxy Hlk IH]; intros Hy.
  - by apply elem_of_nil in Hy.
  - apply elem_of_cons in Hy as [->|Hy].
    + exists x. split; [by left|done].
    + destruct (IH Hy) as (x' & ? & ?). exists x'. split; [by right|done].
Qed.

End Lists.

Section SlotView.

Lemma same_shape_refl st : same_shape st st.
Proof.
  unfold same_shape. split_and!; try done.
  intros k. destruct (heap st !! k); constructor. done.
Qed.

Lemma same_shape_trans st1 st2 st3 :
  same_shape st1 st2 → same_shape st2 st3 → same_shape st1 st3.
Proof.
  intros (? & ? & ? & ? & ? & H12) (? & ? & ? & ? & ? & H23).
  unfold same_shape. split_and!; try congruence.
  intros k. specialize (H12 k). specialize (H23 k).
  destruct H12 as [b1 b2 (? & ? & ? & ?)|]; inversion H23 as [? b3 (? & ? & ? & ?)|];
    subst; constructor.
  split_and!; congruence.
Qed.

Lemma same_shape_trace st T : same_shape st (with_trace T st).
Proof.
  unfold same_shape. cbn. split_and!; try done.
  intros k. destruct (heap st !! k); constructor. done.
Qed.

Lemma same_shape_entity_repo st es : same_shape st (with_entity_repo es st).
Proof.
  unfold same_shape. cbn. split_and!; try done.
  intros k. destruct (heap st !! k); constructor. done.
Qed.

Lemma same_shape_lookup st st' k b :
  same_shape st st' → heap st !! k = Some b →
  ∃ b', heap st' !! k = Some b' ∧ skel b' = skel b
        ∧ b_field_map b' = b_field_map b
        ∧ length (b_entities b') = length (b_entities b)
        ∧ length (b_field_data b') = length (b_field_data b).
Proof.
  intros (_ & _ & _ & _ & _ & H) Hb. specialize (H k). rewrite Hb in H.
  inversion H; subst. eauto.
Qed.

Lemma same_shape_lookup_inv st st' k b' :
  same_shape st st' → heap st' !! k = Some b' →
  ∃ b, heap st !! k = Some b ∧ skel b' = skel b
       ∧ b_field_map b' = b_field_map b
       ∧ length (b_entities b') = length (b_entities b)
       ∧ length (b_field_data b') = length (b_field_data b).
Proof.
  intros (_ & _ & _ & _ & _ & H) Hb. specialize (H k). rewrite Hb in H.
  inversion H; subst. eauto.
Qed.

Lemma same_shape_skel st st' :
  same_shape st st' → skel <$> heap st' = skel <$> heap st.
Proof.
  intros (_ & _ & _ & _ & _ & H). apply map_eq. intros k.
  rewrite !lookup_fmap. specialize (H k).
  destruct H as [b b' (Hs & _)|]; [|done]. cbn. by rewrite Hs.
Qed.

Lemma same_shape_size st st' k :
  same_shape st st' → size_at st' k = size_at st k.
Proof.
  intros (_ & _ & _ & _ & _ & H). unfold size_at. specialize (H k).
  destruct H as [b b' (Hs & _)|]; [|done]. cbn.
  by injection Hs.
Qed.

Lemma same_shape_eta st st' :
  same_shape st st' →
  st' = with_trace (trace st')
          (with_entity_repo (entities st') (with_heap (heap st') st)).
Proof.
  intros (? & ? & ? & ? & ? & _). destruct st, st'. cbn in *. by subst.
Qed.

Lemma ent_is_Some st k i :
  is_Some (ent st (k, i)) ↔
  ∃ b, heap st !! k = Some b ∧ i < length (b_entities b).
Proof.
  unfold ent. cbn. split.
  - intros [x Hx]. destruct (heap st !! k) as [b|]; [|done]. cbn in Hx.
    exists b. split; [done|]. by eapply lookup_lt_Some.
  - intros (b & -> & Hi). cbn. by apply lookup_lt_is_Some.
Qed.

Lemma dat_is_Some st k i :
  is_Some (dat st (k, i)) ↔
  ∃ b, heap st !! k = Some b ∧ i < length (b_field_data b).
Proof.
  unfold dat. cbn. split.
  - intros [x Hx]. destruct (heap st !! k) as [b|]; [|done]. cbn in Hx.
    exists b. split; [done|]. by eapply lookup_lt_Some.
  - intros (b & -> & Hi). cbn. by apply lookup_lt_is_Some.
Qed.

Lemma same_shape_ent_is_Some st st' q :
  same_shape st st' → is_Some (ent st q) → is_Some (ent st' q).
Proof.
  destruct q as [k i]. intros Hsh (b & Hb & Hi)%ent_is_Some.
  destruct (same_shape_lookup _ _ _ _ Hsh Hb) as (b' & Hb' & _ & _ & Hl & _).
  apply ent_is_Some. exists b'. split; [done|lia].
Qed.

Lemma same_shape_dat_is_Some st st' q :
  same_shape st st' → is_Some (dat st q) → is_Some (dat st' q).
Proof.
  destruct q as [k i]. intros Hsh (b & Hb & Hi)%dat_is_Some.
  destruct (same_shape_lookup _ _ _ _ Hsh Hb) as (b' & Hb' & _ & _ & _ & Hl).
  apply dat_is_Some. exists b'. split; [done|lia].
Qed.

(** [replace_entity] seen from the slots. *)
Lemma replace_entity_view st k i e :
  is_Some (ent st (k, i)) →
  ∃ st', replace_entity k i e st = (inr tt, st')
    ∧ same_shape st st'
    ∧ (∀ q, ent st' q = if decide (q = (k, i)) then Some e else ent st q)
    ∧ (∀ q, dat st' q = dat st q)
    ∧ entities st' = entities st
    ∧ trace st' = trace st ++ [EvReplaceEntity k i e].
Proof.
  intros (b & Hb & Hi)%ent_is_Some.
  eexists. split; [by apply run_replace_entity|]. cbn. split_and!; try done.
  - unfold same_shape. cbn. split_and!; try done. intros k'.
    destruct (decide (k' = k)) as [->|Hne].
    + rewrite lookup_insert_eq, Hb. constructor. cbn.
      by rewrite length_insert.
    + rewrite lookup_insert_ne by done.
      destruct (heap st !! k'); constructor. done.
  - intros [k' i']. unfold ent. cbn.
    destruct (decide (k' = k)) as [->|Hne].
    + rewrite lookup_insert_eq, Hb. cbn.
      destruct (decide (i' = i)) as [->|Hi'].
      * rewrite decide_True by done. by apply list_lookup_insert_eq.
      * rewrite decide_False by congruence.
        by apply list_lookup_insert_ne.
    + rewrite lookup_insert_ne by done. rewrite decide_False by congruence.
      done.
  - intros [k' i']. unfold dat. cbn.
    destruct (decide (k' = k)) as [->|Hne].
    + by rewrite lookup_insert_eq, Hb.
    + by rewrite lookup_insert_ne by done.
Qed.

(** [copy_fields] seen from the slots. *)
Lemma copy_fields_view st k_dst i_dst k_src i_src d :
  dat st (k_src, i_src) = Some d → is_Some (dat st (k_dst, i_dst)) →
  ∃ st', copy_fields k_dst i_dst k_src i_src st = (inr tt, st')
    ∧ same_shape st st'
    ∧ (∀ q, ent st' q = ent st q)
    ∧ (∀ q, dat st' q = if decide (q = (k_dst, i_dst)) then Some d else dat st q)
    ∧ entities st' = entities st
    ∧ trace st' = trace st ++ [EvCopyFields k_dst i_dst k_src i_src].
Proof.
  intros Hs (b & Hb & Hi)%dat_is_Some.
  unfold dat in Hs. cbn in Hs.
  destruct (heap st !! k_src) as [sb|] eqn:Hsb; [|done]. cbn in Hs.
  eexists. split; [by eapply run_copy_fields|]. cbn. split_and!; try done.
  - unfold same_shape. cbn. split_and!; try done. intros k'.
    destruct (decide (k' = k_dst)) as [->|Hne].
    + rewrite lookup_insert_eq, Hb. constructor. cbn.
      by rewrite length_insert.
    + rewrite lookup_insert_ne by done.
      destruct (heap st !! k'); constructor. done.
  - intros [k' i']. unfold ent. cbn.
    destruct (decide (k' = k_dst)) as [->|Hne].
    + by rewrite lookup_insert_eq, Hb.
    + by rewrite lookup_insert_ne by done.
  - intros [k' i']. unfold dat. cbn.
    destruct (decide (k' = k_dst)) as [->|Hne].
    + rewrite lookup_insert_eq, Hb. cbn.
      destruct (decide (i' = i_dst)) as [->|Hi'].
      * rewrite decide_True by done. by apply list_lookup_insert_eq.
      * rewrite decide_False by congruence.
        by apply list_lookup_insert_ne.
    + rewrite lookup_insert_ne by done. rewrite decide_False by congruence.
      done.
Qed.

End SlotView.

Section SortSlot.

Lemma ent_lookup st k i x :
  ent st (k, i) = Some x →
  ∃ b, heap st !! k = Some b ∧ b_entities b !! i = Some x.
Proof.
  unfold ent. cbn. destruct (heap st !! k) as [b|]; [|done]. cbn. eauto.
Qed.

(** A turn of the slot loop at a slot that holds its target. *)
Lemma run_sort_slot_same st b i t v chg :
  ent st (b, i) = Some (Some t) →
  sort_slot b i t v chg st
  = (inr (v, chg),
     if chg then with_trace (trace st ++ [EvPropagateRelocation t]) st
     else st).
Proof.
  intros (bb & Hbb & Hi)%ent_lookup. unfold sort_slot.
  mrun run_get_bucket. rewrite Hi. mnorm.
  rewrite bool_decide_eq_true_2 by done. mnorm.
  destruct chg; [|done].
  by rewrite (run_bind_ok _ _ _ _ _ (run_propagate _ _)).
Qed.

(** The second half of a turn that found a mismatch: [target] moves from
    [loc] into slot [(b, i)]. *)
Lemma run_sort_slot_fetch st b i t loc :
  entities st !! t = Some loc →
  is_Some (ent st loc) → is_Some (dat st loc) →
  is_Some (ent st (b, i)) → is_Some (dat st (b, i)) →
  ∃ st',
    (es ← gets entities;
     loc ← deref (es !! t);
     replace_entity loc.1 loc.2 None;;
     copy_fields b i loc.1 loc.2;;
     change_entity_bucket b t i;;
     replace_entity b i (Some t);;
     mret (loc, true)) st = (inr (loc, true), st')
    ∧ same_shape st st'
    ∧ (∀ q, ent st' q = if decide (q = (b, i)) then Some (Some t)
                        else if decide (q = loc) then Some None
                        else ent st q)
    ∧ entities st' = <[t := (b, i)]> (entities st)
    ∧ (∀ q, dat st' q = if decide (q = (b, i)) then dat st loc else dat st q)
    ∧ trace st' = trace st
        ++ [EvReplaceEntity loc.1 loc.2 None; EvCopyFields b i loc.1 loc.2;
            EvChangeEntityBucket b t i; EvReplaceEntity b i (Some t)].
Proof.
  intros Hloc Hel Hdl Hep Hdp. destruct loc as [lk li].
  rewrite run_bind, run_gets. rewrite Hloc. mnorm. cbn [fst snd].
  destruct (replace_entity_view st lk li None Hel)
    as (st1 & Hr1 & Hs1 & He1 & Hd1 & Hes1 & Ht1).
  rewrite (run_bind_ok _ _ _ _ _ Hr1).
  destruct Hdl as [d Hd].
  destruct (copy_fields_view st1 b i lk li d) as
    (st2 & Hr2 & Hs2 & He2 & Hd2 & Hes2 & Ht2).
  { by rewrite Hd1. }
  { rewrite Hd1. done. }
  rewrite (run_bind_ok _ _ _ _ _ Hr2).
  rewrite (run_bind_ok _ _ _ _ _ (run_change_entity_bucket _ _ _ _)).
  set (st3 := with_trace _ _).
  destruct (replace_entity_view st3 b i (Some t)) as
    (st4 & Hr4 & Hs4 & He4 & Hd4 & Hes4 & Ht4).
  { apply (same_shape_ent_is_Some st); [|done].
    eapply same_shape_trans; [exact Hs1|].
    eapply same_shape_trans; [exact Hs2|].
    subst st3. eapply same_shape_trans; [apply same_shape_entity_repo|].
    apply same_shape_trace. }
  rewrite (run_bind_ok _ _ _ _ _ Hr4). rewrite run_ret.
  exists st4. split_and!; try done.
  - eapply same_shape_trans; [exact Hs1|].
    eapply same_shape_trans; [exact Hs2|].
    eapply same_shape_trans; [|exact Hs4].
    subst st3. eapply same_shape_trans; [apply same_shape_entity_repo|].
    apply same_shape_trace.
  - intros q. rewrite He4. destruct (decide (q = (b, i))); [done|].
    change (ent st3 q) with (ent st2 q). rewrite He2, He1. done.
  - rewrite Hes4. subst st3. cbn. by rewrite Hes2, Hes1.
  - intros q. rewrite Hd4. change (dat st3 q) with (dat st2 q).
    rewrite Hd2. destruct (decide (q = (b, i))); [done|]. by rewrite Hd1.
  - rewrite Ht4. subst st3. cbn. rewrite Ht2, Ht1.
    by rewrite <- !app_assoc.
Qed.

(** A turn of the slot loop at a slot that does not hold its target. *)
Lemma run_sort_slot_move st b i t v chg cur loc :
  ent st (b, i) = Some cur → cur ≠ Some t →
  entities st !! t = Some loc →
  is_Some (dat st (b, i)) → is_Some (ent st v) → is_Some (dat st v) →
  is_Some (ent st loc) → is_Some (dat st loc) →
  ∃ st',
    sort_slot b i t v chg st = (inr (loc, true), st')
    ∧ same_shape st st'
    ∧ (∀ q, ent st' q =
            if decide (q = (b, i)) then Some (Some t)
            else if decide (q = loc) then Some None
            else match cur with
                 | Some c => if decide (q = v) then Some (Some c) else ent st q
                 | None => ent st q
                 end)
    ∧ entities st'
      = <[t := (b, i)]> (match cur with
                         | Some c => <[c := v]> (entities st)
                         | None => entities st
                         end)
    ∧ (loc ≠ v →
       ∀ q, dat st' q =
            if decide (q = (b, i)) then dat st loc
            else match cur with
                 | Some _ => if decide (q = v) then dat st (b, i)
                             else dat st q
                 | None => dat st q
                 end)
    ∧ trace st' = trace st ++ slot_events b i t v cur loc.
Proof.
  intros Hcur Hne Hloc Hdp Hev Hdv Hel Hdl.
  destruct (ent_lookup _ _ _ _ Hcur) as (bb & Hbb & Hi).
  unfold sort_slot. mrun run_get_bucket. rewrite Hi. mnorm.
  rewrite bool_decide_eq_false_2 by done.
  destruct cur as [c|].
  - destruct v as [vk vi]. cbn [fst snd]. destruct Hdp as [d Hd].
    destruct (copy_fields_view st vk vi b i d Hd Hdv)
      as (st1 & Hr1 & Hs1 & He1 & Hd1 & Hes1 & Ht1).
    mnorm. rewrite (run_bind_ok _ _ _ _ _ Hr1). rewrite run_bind_assoc.
    rewrite (run_bind_ok _ _ _ _ _ (run_change_entity_bucket _ _ _ _)).
    set (st2 := with_trace _ _).
    assert (Hs2 : same_shape st st2).
    { eapply same_shape_trans; [exact Hs1|]. subst st2.
      eapply same_shape_trans; [apply same_shape_entity_repo|].
      apply same_shape_trace. }
    destruct (replace_entity_view st2 vk vi (Some c))
      as (st3 & Hr3 & Hs3 & He3 & Hd3 & Hes3 & Ht3).
    { by apply (same_shape_ent_is_Some st). }
    rewrite (run_bind_ok _ _ _ _ _ Hr3).
    assert (Hs03 : same_shape st st3) by by eapply same_shape_trans.
    assert (Hc : c ≠ t) by congruence.
    destruct (run_sort_slot_fetch st3 b i t loc)
      as (st4 & Hr4 & Hs4 & He4 & Hes4 & Hd4 & Ht4).
    { rewrite Hes3. subst st2. cbn. rewrite lookup_insert_ne by done.
      by rewrite Hes1. }
    { by apply (same_shape_ent_is_Some st). }
    { by apply (same_shape_dat_is_Some st). }
    { apply (same_shape_ent_is_Some st); [done|]. by rewrite Hcur. }
    { apply (same_shape_dat_is_Some st); [done|]. by rewrite Hd. }
    rewrite (run_bind_ok _ _ _ _ _ Hr4).
    rewrite (run_bind_ok _ _ _ _ _ (run_propagate _ _)). rewrite run_ret.
    eexists. split; [done|]. cbn. split_and!.
    + eapply same_shape_trans; [|apply same_shape_trace].
      by eapply same_shape_trans.
    + intros q. change (ent (with_trace _ st4) q) with (ent st4 q).
      rewrite He4. repeat case_decide; try done.
      * rewrite He3. by rewrite decide_True.
      * rewrite He3. rewrite decide_False by done.
        change (ent st2 q) with (ent st1 q). by rewrite He1.
    + rewrite Hes4, Hes3. subst st2. cbn. by rewrite Hes1.
    + intros Hlv q. change (dat (with_trace _ st4) q) with (dat st4 q).
      rewrite Hd4, !Hd3. change (dat st2) with (dat st1). rewrite !Hd1.
      rewrite (decide_False (P := loc = (vk, vi))) by done.
      destruct (decide (q = (b, i))); [done|].
      destruct (decide (q = (vk, vi))); [by rewrite Hd|done].
    + rewrite Ht4, Ht3. subst st2. cbn. rewrite Ht1.
      unfold slot_events. cbn [fst snd]. by rewrite <- !app_assoc.
  - rewrite run_bind_assoc, run_bind_ret.
    destruct (run_sort_slot_fetch st b i t loc)
      as (st4 & Hr4 & Hs4 & He4 & Hes4 & Hd4 & Ht4);
      [done|done|done|by rewrite Hcur|done|].
    rewrite (run_bind_ok _ _ _ _ _ Hr4).
    rewrite (run_bind_ok _ _ _ _ _ (run_propagate _ _)). rewrite run_ret.
    eexists. split; [done|]. cbn. split_and!.
    + eapply same_shape_trans; [|apply same_shape_trace]. done.
    + intros q. change (ent (with_trace _ st4) q) with (ent st4 q).
      by rewrite He4.
    + done.
    + intros _ q. change (dat (with_trace _ st4) q) with (dat st4 q).
      by rewrite Hd4.
    + rewrite Ht4. unfold slot_events. by rewrite <- !app_assoc.
Qed.

End SortSlot.

(** ** The invariant of the slot loop *)

Section SortInv.

Lemma nodup_slots {A} (v0 : A) done p todo :
  NoDup (v0 :: done ++ p :: todo) →
  p ≠ v0 ∧ p ∉ todo ∧ p ∉ done
  ∧ (∀ q, q ∈ done → q ≠ v0 ∧ q ∉ todo ∧ q ≠ p)
  ∧ (∀ q, q ∈ todo → q ≠ v0).
Proof.
  rewrite NoDup_cons, NoDup_app, NoDup_cons.
  intros (Hv0 & _ & Hdis & Hp & _).
  rewrite elem_of_app, elem_of_cons in Hv0.
  split_and!.
  - intros ->. apply Hv0. right. by left.
  - done.
  - intros Hin. apply (Hdis _ Hin). by left.
  - intros q Hq. split_and!.
    + intros ->. apply Hv0. by left.
    + intros Hin. apply (Hdis _ Hq). by right.
    + intros ->. apply (Hdis _ Hq). by left.
  - intros q Hq ->. apply Hv0. right. by right.
Qed.

Lemma nodup_targets {A} (tdone : list A) t ttodo :
  NoDup (tdone ++ t :: ttodo) →
  t ∉ ttodo ∧ t ∉ tdone ∧ (∀ x, x ∈ tdone → x ∉ ttodo ∧ x ≠ t).
Proof.
  rewrite NoDup_app, NoDup_cons. intros (_ & Hdis & Ht & _).
  split_and!.
  - done.
  - intros Hin. apply (Hdis _ Hin). by left.
  - intros x Hx. split.
    + intros Hin. apply (Hdis _ Hx). by right.
    + intros ->. apply (Hdis _ Hx). by left.
Qed.

(** The slot in turn holds its target already. *)
Lemma sort_inv_keep st0 st slots v0 targets done p todo tdone t ttodo v :
  sort_inv st0 st slots v0 targets done (p :: todo) tdone (t :: ttodo) v →
  ent st p = Some (Some t) →
  sort_inv st0 st slots v0 targets (done ++ [p]) todo (tdone ++ [t]) ttodo v.
Proof.
  intros [Hsh Hsl Htg Hlen Hnd Hndt Hdone [Hv Hvin] Hocc Hloc Hfs Hfe Hdat] Hp.
  pose proof Hnd as Hnd'. rewrite Hsl in Hnd'.
  apply nodup_slots in Hnd' as (Hpv0 & Hptodo & Hpdone & Hdn & Htd).
  pose proof Hndt as Hndt'. rewrite Htg in Hndt'.
  apply nodup_targets in Hndt' as (Httodo & Htdone & Htd').
  assert (Hpv : p ≠ v) by (intros ->; congruence).
  assert (Htp : entities st !! t = Some p).
  { destruct (Hocc p) as (e & He & Hes & _); [left; by left|done|].
    congruence. }
  constructor; try done.
  - by rewrite <- app_assoc.
  - by rewrite <- app_assoc.
  - cbn in Hlen. lia.
  - apply Forall2_app; [done|]. by constructor.
  - split; [done|]. destruct Hvin as [Hvin|Hvin]; [|by right].
    apply elem_of_cons in Hvin as [->|Hvin]; [done|by left].
  - intros q Hq Hqv. destruct (Hocc q) as (e & He & Hes & Hin); [|done|].
    { destruct Hq as [Hq| ->]; [left; by right|by right]. }
    exists e. split_and!; try done.
    apply elem_of_cons in Hin as [->|Hin]; [|done].
    assert (q = p) as -> by congruence.
    destruct Hq as [Hq|Hq]; done.
  - intros t' Ht'. destruct (Hloc t') as (q & Hq & Hqv & Hes & He);
      [by right|].
    exists q. split_and!; try done.
    destruct Hq as [Hq|Hq]; [|by right].
    apply elem_of_cons in Hq as [->|Hq]; [|by left].
    assert (t' = t) as -> by congruence. done.
Qed.

(** The invariant only depends on what the slots and the entities hold. *)
Lemma sort_inv_ext st0 st st' slots v0 targets done todo tdone ttodo v :
  sort_inv st0 st slots v0 targets done todo tdone ttodo v →
  same_shape st st' → (∀ q, ent st' q = ent st q) →
  entities st' = entities st →
  sort_inv st0 st' slots v0 targets done todo tdone ttodo v.
Proof.
  intros [Hsh Hsl Htg Hlen Hnd Hndt Hdone [Hv Hvin] Hocc Hloc Hfs Hfe Hdat]
    Hsh' Hent Hes.
  constructor; try done.
  - by eapply same_shape_trans.
  - eapply Forall2_impl; [exact Hdone|]. intros q e. cbn.
    by rewrite Hent, Hes.
  - by rewrite Hent.
  - intros q Hq Hqv. destruct (Hocc q Hq Hqv) as (e & ? & ? & ?).
    exists e. by rewrite Hent, Hes.
  - intros t Ht. destruct (Hloc t Ht) as (q & ? & ? & ? & ?).
    exists q. by rewrite Hent, Hes.
  - intros q Hq. rewrite Hent. auto.
  - intros e He. rewrite Hes. auto.
  - intros q Hq. apply (same_shape_dat_is_Some st); auto.
Qed.

(** The slot in turn holds [cur], not its target [t], which is at [loc]. *)
Lemma sort_inv_move st0 st st' slots v0 targets done p todo tdone t ttodo v
    cur loc :
  sort_inv st0 st slots v0 targets done (p :: todo) tdone (t :: ttodo) v →
  ent st p = Some cur → cur ≠ Some t → entities st !! t = Some loc →
  same_shape st st' →
  (∀ q, ent st' q =
        if decide (q = p) then Some (Some t)
        else if decide (q = loc) then Some None
        else match cur with
             | Some c => if decide (q = v) then Some (Some c) else ent st q
             | None => ent st q
             end) →
  entities st'
  = <[t := p]> (match cur with
                | Some c => <[c := v]> (entities st)
                | None => entities st
                end) →
  sort_inv st0 st' slots v0 targets (done ++ [p]) todo (tdone ++ [t]) ttodo
    loc.
Proof.
  intros [Hsh Hsl Htg Hlen Hnd Hndt Hdone [Hv Hvin] Hocc Hloc Hfs Hfe Hdat]
    Hp Hne Ht Hsh' Hent Hes.
  pose proof Hnd as Hnd'. rewrite Hsl in Hnd'.
  apply nodup_slots in Hnd' as (Hpv0 & Hptodo & Hpdone & Hdn & Htd).
  pose proof Hndt as Hndt'. rewrite Htg in Hndt'.
  apply nodup_targets in Hndt' as (Httodo & Htdone & Htd').
  (* where the target is *)
  destruct (Hloc t) as (loc' & Hlocin & Hlocv & Hloces & Hlocent); [by left|].
  assert (loc' = loc) as -> by congruence.
  assert (Hlocp : loc ≠ p) by (intros ->; congruence).
  assert (Hlocin' : loc ∈ todo ∨ loc = v0).
  { destruct Hlocin as [Hin|]; [|by right].
    apply elem_of_cons in Hin as [|]; [done|by left]. }
  assert (Hlocdone : loc ∉ done).
  { intros Hin. destruct (Hdn _ Hin) as (? & ? & ?).
    destruct Hlocin' as [|]; done. }
  assert (Hvdone : v ∉ done).
  { intros Hin. destruct (Hdn _ Hin) as (? & ? & ?).
    destruct Hvin as [Hin'|]; [|done].
    apply elem_of_cons in Hin' as [|]; done. }
  (* what the slot in turn holds *)
  assert (Hcur : match cur with
                 | Some c => p ≠ v ∧ entities st !! c = Some p ∧ c ∈ ttodo
                             ∧ c ≠ t
                 | None => p = v
                 end).
  { destruct cur as [c|].
    - assert (p ≠ v) by (intros ->; congruence).
      destruct (Hocc p) as (e & He & Hese & Hein); [left; by left|done|].
      assert (e = c) as -> by congruence.
      assert (c ≠ t) by congruence.
      apply elem_of_cons in Hein as [|]; done.
    - destruct (decide (p = v)) as [|Hpv]; [done|].
      destruct (Hocc p) as (e & He & _); [left; by left|done|]. congruence. }
  constructor; try done.
  - by eapply same_shape_trans.
  - by rewrite <- app_assoc.
  - by rewrite <- app_assoc.
  - cbn in Hlen. lia.
  - apply Forall2_app.
    + apply Forall2_same_length_lookup.
      apply Forall2_same_length_lookup in Hdone as [Hl Hdone].
      split; [done|]. intros j q e Hq He.
      destruct (Hdone j q e Hq He) as [Hqe Hqes].
      apply list_elem_of_lookup_2 in Hq, He.
      destruct (Hdn _ Hq) as (? & ? & ?). destruct (Htd' _ He) as [? ?].
      rewrite Hent, Hes.
      rewrite decide_False by done.
      rewrite decide_False by (intros ->; done).
      rewrite lookup_insert_ne by done.
      destruct cur as [c|]; [|done].
      destruct Hcur as (? & ? & ? & ?).
      rewrite decide_False by (intros ->; done).
      rewrite lookup_insert_ne by (intros ->; done). done.
    + constructor; [|constructor]. rewrite Hent, Hes.
      rewrite decide_True by done. by rewrite lookup_insert_eq.
  - split; [|done]. rewrite Hent. rewrite decide_False by done.
    by rewrite decide_True.
  - intros q Hq Hql. rewrite Hent, Hes.
    assert (q ≠ p) by (intros ->; destruct Hq; done).
    rewrite decide_False by done. rewrite decide_False by done.
    destruct cur as [c|].
    + destruct Hcur as (Hpv & Hces & Hcin & Hct).
      destruct (decide (q = v)) as [->|Hqv].
      * exists c. rewrite lookup_insert_ne by done.
        by rewrite lookup_insert_eq.
      * destruct (Hocc q) as (e & He & Hese & Hein); [|done|].
        { destruct Hq as [|]; [left; by right|by right]. }
        assert (e ≠ t) by congruence. assert (e ≠ c) by congruence.
        exists e. rewrite !lookup_insert_ne by done. split_and!; try done.
        apply elem_of_cons in Hein as [|]; done.
    + subst v. destruct (Hocc q) as (e & He & Hese & Hein); [|done|].
      { destruct Hq as [|]; [left; by right|by right]. }
      assert (e ≠ t) by congruence.
      exists e. rewrite !lookup_insert_ne by done. split_and!; try done.
      apply elem_of_cons in Hein as [|]; done.
  - intros t' Ht'. assert (t' ≠ t) by (intros ->; done).
    destruct cur as [c|].
    + destruct Hcur as (Hpv & Hces & Hcin & Hct).
      destruct (decide (t' = c)) as [->|Htc].
      * exists v. rewrite Hent, Hes.
        rewrite decide_False by done. rewrite decide_False by done.
        rewrite decide_True by done.
        rewrite lookup_insert_ne by done. rewrite lookup_insert_eq.
        split_and!; try done.
        destruct Hvin as [Hin|]; [|by right].
        apply elem_of_cons in Hin as [|]; [done|by left].
      * destruct (Hloc t') as (q & Hq & Hqv & Hqes & Hqent); [by right|].
        assert (q ≠ p) by congruence. assert (q ≠ loc) by congruence.
        exists q. rewrite Hent, Hes.
        rewrite !decide_False by done. rewrite !lookup_insert_ne by done.
        split_and!; try done.
        destruct Hq as [Hin|]; [|by right].
        apply elem_of_cons in Hin as [|]; [done|by left].
    + subst v.
      destruct (Hloc t') as (q & Hq & Hqv & Hqes & Hqent); [by right|].
      assert (q ≠ loc) by congruence.
      exists q. rewrite Hent, Hes.
      rewrite !decide_False by done. rewrite !lookup_insert_ne by done.
      split_and!; try done.
      destruct Hq as [Hin|]; [|by right].
      apply elem_of_cons in Hin as [|]; [done|by left].
  - intros q Hq. rewrite Hent, <- Hfs by done.
    assert (p ∈ v0 :: slots).
    { rewrite Hsl. right. apply elem_of_app. right. by left. }
    assert (loc ∈ v0 :: slots).
    { rewrite Hsl. destruct Hlocin' as [?| ->]; [|by left].
      right. apply elem_of_app. right. by right. }
    assert (v ∈ v0 :: slots).
    { rewrite Hsl. destruct Hvin as [?| ->]; [|by left].
      right. apply elem_of_app. by right. }
    rewrite decide_False by (intros ->; done).
    rewrite decide_False by (intros ->; done).
    destruct cur; [|done]. rewrite decide_False by (intros ->; done). done.
  - intros e He. rewrite Hes, <- Hfe by done.
    assert (t ∈ targets).
    { rewrite Htg. apply elem_of_app. right. by left. }
    rewrite lookup_insert_ne by (intros ->; done).
    destruct cur as [c|]; [|done].
    destruct Hcur as (Hpv & Hces & Hcin & Hct).
    assert (c ∈ targets).
    { rewrite Htg. apply elem_of_app. right. by right. }
    rewrite lookup_insert_ne by (intros ->; done). done.
  - intros q Hq. apply (same_shape_dat_is_Some st); auto.
Qed.

End SortInv.

(** ** The hook calls and the field data in the slot loop *)

Section Hooks.

Lemma hook_calls_app e T1 T2 :
  hook_calls e (T1 ++ T2) = hook_calls e T1 + hook_calls e T2.
Proof. unfold hook_calls. by rewrite filter_app, length_app. Qed.

Lemma hook_calls_hook e t :
  hook_calls e [EvPropagateRelocation t] = if decide (t = e) then 1 else 0.
Proof.
  unfold hook_calls. rewrite filter_cons. cbn [is_hook_for].
  destruct (Nat.eqb_spec t e) as [->|Hne].
  - by rewrite !decide_True.
  - rewrite (decide_False (P := t = e)) by done. by rewrite decide_False.
Qed.

Lemma hook_calls_slot_events e b i t v cur loc :
  hook_calls e (slot_events b i t v cur loc)
  = if decide (t = e) then 1 else 0.
Proof.
  unfold slot_events. rewrite hook_calls_app.
  replace (hook_calls e match cur with
                        | Some c =>
                            [EvCopyFields v.1 v.2 b i;
                             EvChangeEntityBucket v.1 c v.2;
                             EvReplaceEntity v.1 v.2 (Some c)]
                        | None => []
                        end) with 0 by by destruct cur.
  change [EvReplaceEntity loc.1 loc.2 None; EvCopyFields b i loc.1 loc.2;
          EvChangeEntityBucket b t i; EvReplaceEntity b i (Some t);
          EvPropagateRelocation t]
    with ([EvReplaceEntity loc.1 loc.2 None; EvCopyFields b i loc.1 loc.2;
           EvChangeEntityBucket b t i; EvReplaceEntity b i (Some t)]
          ++ [EvPropagateRelocation t]).
  rewrite hook_calls_app, hook_calls_hook. done.
Qed.

Lemma hook_calls_elem_of e T :
  hook_calls e T ≠ 0 → EvPropagateRelocation e ∈ T.
Proof.
  unfold hook_calls. induction T as [|ev T IH]; [done|].
  rewrite filter_cons. destruct (is_hook_for e ev) eqn:Hev.
  - intros _. destruct ev; try done. cbn in Hev.
    apply Nat.eqb_eq in Hev as ->. by left.
  - rewrite decide_False by done. intros H. right. auto.
Qed.

Lemma trace_within_nil E : trace_within [] E.
Proof. intros ev e Hev. by apply elem_of_nil in Hev. Qed.

Lemma trace_within_app T1 T2 E :
  trace_within T1 E → trace_within T2 E → trace_within (T1 ++ T2) E.
Proof.
  intros H1 H2 ev e [Hev|Hev]%elem_of_app; [by apply (H1 ev)|by apply (H2 ev)].
Qed.

Lemma trace_within_mono T (E E' : nat → Prop) :
  (∀ e, E e → E' e) → trace_within T E → trace_within T E'.
Proof. intros HE HT ev e Hev He. apply HE. by apply (HT ev). Qed.

Lemma trace_within_slot_events (E : nat → Prop) b i t v cur loc :
  E t → (∀ c, cur = Some c → E c) →
  trace_within (slot_events b i t v cur loc) E.
Proof.
  intros Ht Hc ev e Hev He. unfold slot_events in Hev.
  apply elem_of_app in Hev as [Hev|Hev].
  - destruct cur as [c|]; [|by apply elem_of_nil in Hev].
    specialize (Hc c eq_refl).
    repeat (apply elem_of_cons in Hev as [->|Hev]); cbn in He; try done;
      try (by injection He as <-).
    by apply elem_of_nil in Hev.
  - repeat (apply elem_of_cons in Hev as [->|Hev]); cbn in He; try done;
      try (by injection He as <-).
    by apply elem_of_nil in Hev.
Qed.

(** A trace that is about no entity. *)
Lemma hooks_settle_quiet T : trace_within T (λ _, False) → hooks_settle T.
Proof.
  intros HT. split.
  - intros e. destruct (decide (hook_calls e T = 0)) as [->|Hne]; [lia|].
    apply hook_calls_elem_of in Hne. by destruct (HT _ e Hne).
  - intros i k e j Hi. apply list_elem_of_lookup_2 in Hi.
    by destruct (HT _ e Hi).
Qed.

(** Two traces about different entities, one after the other. *)
Lemma hooks_settle_app T1 T2 (E1 E2 : nat → Prop) :
  hooks_settle T1 → hooks_settle T2 →
  trace_within T1 E1 → trace_within T2 E2 →
  (∀ e, E1 e → E2 e → False) →
  hooks_settle (T1 ++ T2).
Proof.
  intros [Hc1 Hm1] [Hc2 Hm2] Hw1 Hw2 Hdis. split.
  - intros e. rewrite hook_calls_app.
    destruct (decide (hook_calls e T1 = 0)) as [->|Hne1]; [apply Hc2|].
    destruct (decide (hook_calls e T2 = 0)) as [->|Hne2].
    { rewrite Nat.add_0_r. apply Hc1. }
    apply hook_calls_elem_of in Hne1, Hne2.
    destruct (Hdis e); [by apply (Hw1 _ e Hne1)|by apply (Hw2 _ e Hne2)].
  - intros i k e j Hi. destruct (decide (i < length T1)) as [Hlt|Hge].
    + rewrite lookup_app_l in Hi by done.
      destruct (Hm1 i k e j Hi) as (m & Hm & Hhook). exists m.
      split; [done|]. rewrite lookup_app_l; [done|].
      by eapply lookup_lt_Some.
    + rewrite lookup_app_r in Hi by lia.
      destruct (Hm2 _ k e j Hi) as (m & Hm & Hhook).
      exists (length T1 + m). split; [lia|].
      rewrite lookup_app_r by lia.
      by replace (length T1 + m - length T1) with m by lia.
Qed.

Lemma hooks_in_refl st E : hooks_in st st E.
Proof.
  exists []. split_and!; [by rewrite app_nil_r| |apply trace_within_nil].
  apply hooks_settle_quiet, trace_within_nil.
Qed.

Lemma hooks_in_mono st st' (E E' : nat → Prop) :
  (∀ e, E e → E' e) → hooks_in st st' E → hooks_in st st' E'.
Proof.
  intros HE (T & Ht & Hs & Hw). exists T. split_and!; try done.
  by eapply trace_within_mono.
Qed.

Lemma hooks_in_trans st1 st2 st3 (E1 E2 : nat → Prop) :
  hooks_in st1 st2 E1 → hooks_in st2 st3 E2 →
  (∀ e, E1 e → E2 e → False) →
  hooks_in st1 st3 (λ e, E1 e ∨ E2 e).
Proof.
  intros (T1 & Ht1 & Hs1 & Hw1) (T2 & Ht2 & Hs2 & Hw2) Hdis.
  exists (T1 ++ T2). split_and!.
  - by rewrite Ht2, Ht1, app_assoc.
  - by eapply hooks_settle_app.
  - apply trace_within_app; eapply trace_within_mono; try done; tauto.
Qed.

(** Events that are about no entity. *)
Lemma hooks_in_quiet st st' T :
  trace st' = trace st ++ T → Forall (λ ev, event_entity ev = None) T →
  hooks_in st st' (λ _, False).
Proof.
  intros Ht HT. exists T.
  assert (trace_within T (λ _, False)) as Hw.
  { intros ev e Hev He. rewrite Forall_forall in HT.
    rewrite (HT _ Hev) in He. done. }
  split_and!; [done|by apply hooks_settle_quiet|done].
Qed.

Lemma data_of_with_trace st T e : data_of (with_trace T st) e = data_of st e.
Proof. done. Qed.

Lemma move_inv_init st slots v0 targets :
  move_inv st st slots v0 targets [] targets false.
Proof.
  constructor; [done|done|]. exists [].
  split_and!; [by rewrite app_nil_r|done|intros; cbn; lia| |].
  - intros i k e j Hi. done.
  - apply trace_within_nil.
Qed.

(** The slot in turn holds its target already: with [chg] set the hook is
    called for it. *)
Lemma move_inv_keep st0 st slots v0 targets done p todo tdone t ttodo v chg :
  sort_inv st0 st slots v0 targets done (p :: todo) tdone (t :: ttodo) v →
  move_inv st0 st slots v0 targets tdone (t :: ttodo) chg →
  move_inv st0
    (if chg then with_trace (trace st ++ [EvPropagateRelocation t]) st
     else st)
    slots v0 targets (tdone ++ [t]) ttodo chg.
Proof.
  intros [Hsh Hsl Htg Hlen Hnd Hndt Hdone [Hv Hvin] Hocc Hloc Hfs Hfe Hdat]
    [Hdata Hframe (T & Htr & Hzero & Hone & Hpend & Hwithin)].
  pose proof Hndt as Hndt'. rewrite Htg in Hndt'.
  apply nodup_targets in Hndt' as (Httodo & Htdone & Htd').
  assert (Htin : t ∈ targets).
  { rewrite Htg. apply elem_of_app. right. by left. }
  destruct chg.
  - constructor.
    + intros t' Ht'. rewrite data_of_with_trace. by apply Hdata.
    + intros q Hq. by apply Hframe.
    + exists (T ++ [EvPropagateRelocation t]). split_and!.
      * cbn. by rewrite Htr, app_assoc.
      * intros e He. rewrite not_elem_of_app, list_elem_of_singleton in He.
        destruct He as [He Het]. rewrite hook_calls_app, hook_calls_hook.
        rewrite (Hzero _ He). rewrite decide_False by done. done.
      * intros e. rewrite hook_calls_app, hook_calls_hook.
        destruct (decide (t = e)) as [<-|Hne].
        -- by rewrite (Hzero _ Htdone).
        -- specialize (Hone e). lia.
      * intros i k e j Hi.
        assert (Hlt : i < length T).
        { destruct (decide (i < length T)) as [|Hge]; [done|].
          rewrite lookup_app_r in Hi by lia.
          destruct (i - length T) as [|[|?]]; done. }
        rewrite lookup_app_l in Hi by done.
        destruct (Hpend i k e j Hi) as [[Hin _]|(m & Hm & Hhook)].
        -- apply elem_of_cons in Hin as [->|Hin]; [|by left].
           right. exists (length T). split; [done|].
           rewrite lookup_app_r by lia. by rewrite Nat.sub_diag.
        -- right. exists m. split; [done|]. rewrite lookup_app_l; [done|].
           by eapply lookup_lt_Some.
      * apply trace_within_app; [done|].
        intros ev e ->%list_elem_of_singleton [= <-]. done.
  - constructor; [done|done|]. exists T. split_and!; try done.
    + intros e He. apply Hzero. intros Hin. apply He.
      apply elem_of_app. by left.
    + intros i k e j Hi.
      destruct (Hpend i k e j Hi) as [[_ ?]|?]; [done|by right].
Qed.

(** The slot in turn holds [cur], not its target [t], which is at [loc]. *)
Lemma move_inv_move st0 st st' slots v0 targets done p todo tdone t ttodo v
    chg cur loc :
  sort_inv st0 st slots v0 targets done (p :: todo) tdone (t :: ttodo) v →
  move_inv st0 st slots v0 targets tdone (t :: ttodo) chg →
  ent st p = Some cur → cur ≠ Some t → entities st !! t = Some loc →
  entities st'
  = <[t := p]> (match cur with
                | Some c => <[c := v]> (entities st)
                | None => entities st
                end) →
  (loc ≠ v →
   ∀ q, dat st' q =
        if decide (q = p) then dat st loc
        else match cur with
             | Some _ => if decide (q = v) then dat st p else dat st q
             | None => dat st q
             end) →
  trace st' = trace st ++ slot_events p.1 p.2 t v cur loc →
  move_inv st0 st' slots v0 targets (tdone ++ [t]) ttodo true.
Proof.
  intros [Hsh Hsl Htg Hlen Hnd Hndt Hdone [Hv Hvin] Hocc Hloc Hfs Hfe Hdat]
    [Hdata Hframe (T & Htr & Hzero & Hone & Hpend & Hwithin)]
    Hp Hne Ht Hes Hdat' Htr'.
  pose proof Hnd as Hnd'. rewrite Hsl in Hnd'.
  apply nodup_slots in Hnd' as (Hpv0 & Hptodo & Hpdone & Hdn & Htd).
  pose proof Hndt as Hndt'. rewrite Htg in Hndt'.
  apply nodup_targets in Hndt' as (Httodo & Htdone & Htd').
  assert (Htin : t ∈ targets).
  { rewrite Htg. apply elem_of_app. right. by left. }
  destruct (Hloc t) as (loc' & Hlocin & Hlocv & Hloces & Hlocent); [by left|].
  assert (loc' = loc) as -> by congruence.
  assert (Hlocp : loc ≠ p) by (intros ->; congruence).
  specialize (Hdat' Hlocv).
  assert (Hvdone : v ∉ done).
  { intros Hin. destruct (Hdn _ Hin) as (? & ? & ?).
    destruct Hvin as [Hin'|]; [|done].
    apply elem_of_cons in Hin' as [|]; done. }
  assert (Hcur : match cur with
                 | Some c => p ≠ v ∧ entities st !! c = Some p ∧ c ∈ ttodo
                             ∧ c ≠ t
                 | None => p = v
                 end).
  { destruct cur as [c|].
    - assert (p ≠ v) by (intros ->; congruence).
      destruct (Hocc p) as (e & He & Hese & Hein); [left; by left|done|].
      assert (e = c) as -> by congruence.
      assert (c ≠ t) by congruence.
      apply elem_of_cons in Hein as [|]; done.
    - destruct (decide (p = v)) as [|Hpv]; [done|].
      destruct (Hocc p) as (e & He & _); [left; by left|done|]. congruence. }
  assert (Hpin : p ∈ v0 :: slots).
  { rewrite Hsl. right. apply elem_of_app. right. by left. }
  assert (Hvin' : v ∈ v0 :: slots).
  { rewrite Hsl. destruct Hvin as [?| ->]; [|by left].
    right. apply elem_of_app. by right. }
  (* where the other targets are *)
  assert (Hpos : ∀ t', t' ∈ targets → t' ≠ t → cur ≠ Some t' →
                   ∃ q, entities st !! t' = Some q ∧ q ≠ p ∧ q ≠ v).
  { intros t' Ht' Htt' Hct'. rewrite Htg in Ht'.
    apply elem_of_app in Ht' as [Ht'|Ht'].
    - destruct (Forall2_elem_of_r _ _ _ _ Hdone Ht') as (q & Hq & _ & Hqes).
      exists q. split_and!; [done|by intros ->|by intros ->].
    - apply elem_of_cons in Ht' as [|Ht']; [done|].
      destruct (Hloc t') as (q & Hq & Hqv & Hqes & Hqent); [by right|].
      exists q. split_and!; [done| |done]. intros ->. congruence. }
  constructor.
  - intros t' Ht'. rewrite <- (Hdata t' Ht'). unfold data_of. rewrite Hes.
    destruct (decide (t' = t)) as [->|Htt'].
    { rewrite lookup_insert_eq, Ht. cbn. rewrite Hdat'.
      by rewrite decide_True. }
    rewrite lookup_insert_ne by done.
    destruct cur as [c|].
    + destruct Hcur as (Hpv & Hces & Hcin & Hct).
      destruct (decide (t' = c)) as [->|Htc].
      * rewrite lookup_insert_eq, Hces. cbn. rewrite Hdat'.
        rewrite decide_False by (intros ->; done).
        by rewrite decide_True.
      * rewrite lookup_insert_ne by done.
        destruct (Hpos t' Ht' Htt') as (q & Hq & Hqp & Hqv); [congruence|].
        rewrite Hq. cbn. rewrite Hdat'. by rewrite !decide_False.
    + destruct (Hpos t' Ht' Htt') as (q & Hq & Hqp & Hqv); [done|].
      rewrite Hq. cbn. rewrite Hdat'. by rewrite decide_False.
  - intros q Hq. rewrite <- (Hframe q Hq), Hdat'.
    rewrite decide_False by (intros ->; done).
    destruct cur; [|done]. by rewrite decide_False by (intros ->; done).
  - exists (T ++ slot_events p.1 p.2 t v cur loc). split_and!.
    + by rewrite Htr', Htr, app_assoc.
    + intros e He. rewrite not_elem_of_app, list_elem_of_singleton in He.
      destruct He as [He Het]. rewrite hook_calls_app, hook_calls_slot_events.
      rewrite (Hzero _ He). by rewrite decide_False.
    + intros e. rewrite hook_calls_app, hook_calls_slot_events.
      destruct (decide (t = e)) as [<-|Hne'].
      * by rewrite (Hzero _ Htdone).
      * specialize (Hone e). lia.
    + set (pre := match cur with
                  | Some c =>
                      [EvCopyFields v.1 v.2 p.1 p.2;
                       EvChangeEntityBucket v.1 c v.2;
                       EvReplaceEntity v.1 v.2 (Some c)]
                  | None => []
                  end
                  ++ [EvReplaceEntity loc.1 loc.2 None;
                      EvCopyFields p.1 p.2 loc.1 loc.2;
                      EvChangeEntityBucket p.1 t p.2;
                      EvReplaceEntity p.1 p.2 (Some t)]).
      assert (Hse : slot_events p.1 p.2 t v cur loc
                    = pre ++ [EvPropagateRelocation t]).
      { unfold slot_events, pre. by rewrite <- app_assoc. }
      rewrite Hse.
      assert (Hhook : ∀ i, i < length T + length pre →
                ∃ m, i < m
                     ∧ (T ++ pre ++ [EvPropagateRelocation t]) !! m
                       = Some (EvPropagateRelocation t)).
      { intros i Hi. exists (length T + length pre). split; [done|].
        rewrite lookup_app_r by lia.
        replace (length T + length pre - length T) with (length pre) by lia.
        rewrite lookup_app_r by lia. by rewrite Nat.sub_diag. }
      intros i k e j Hi. destruct (decide (i < length T)) as [Hlt|Hge].
      * rewrite lookup_app_l in Hi by done.
        destruct (Hpend i k e j Hi) as [[Hin _]|(m & Hm & Hhook')].
        -- apply elem_of_cons in Hin as [->|Hin]; [|by left].
           right. apply Hhook. lia.
        -- right. exists m. split; [done|]. rewrite lookup_app_l; [done|].
           by eapply lookup_lt_Some.
      * rewrite lookup_app_r in Hi by lia.
        assert (Hi' : i = length T + (i - length T)) by lia.
        revert Hi Hi'. generalize (i - length T). intros n Hi ->.
        subst pre. destruct cur as [c|].
        -- destruct Hcur as (Hpv & Hces & Hcin & Hct).
           destruct n as [|[|[|[|[|[|[|[|?]]]]]]]]; cbn in Hi; try done.
           ++ injection Hi as <- <- <-. by left.
           ++ injection Hi as <- <- <-. right. apply Hhook. cbn. lia.
        -- destruct n as [|[|[|[|[|?]]]]]; cbn in Hi; try done.
           injection Hi as <- <- <-. right. apply Hhook. cbn. lia.
    + apply trace_within_app; [done|].
      apply trace_within_slot_events; [done|].
      intros c ->. destruct Hcur as (_ & _ & Hcin & _).
      rewrite Htg. apply elem_of_app. right. by right.
Qed.

End Hooks.

(** ** The slot loop *)

Section SlotLoop.

Lemma sort_inv_in_slots st0 st slots v0 targets done todo tdone ttodo v :
  sort_inv st0 st slots v0 targets done todo tdone ttodo v →
  (∀ q, q ∈ todo → q ∈ v0 :: slots) ∧ v ∈ v0 :: slots.
Proof.
  intros [Hsh Hsl Htg Hlen Hnd Hndt Hdone [Hv Hvin] Hocc Hloc Hfs Hfe Hdat].
  assert (∀ q, q ∈ todo → q ∈ v0 :: slots) as Hin.
  { intros q Hq. right. rewrite Hsl. apply elem_of_app. by right. }
  split; [done|]. destruct Hvin as [?| ->]; [auto|by left].
Qed.

(** One turn of the slot loop keeps the invariant. *)
Lemma sort_slot_step st0 st slots v0 targets done b i todo tdone t ttodo v
    chg :
  sort_inv st0 st slots v0 targets done ((b, i) :: todo) tdone (t :: ttodo)
    v →
  move_inv st0 st slots v0 targets tdone (t :: ttodo) chg →
  ∃ st' v' chg',
    sort_slot b i t v chg st = (inr (v', chg'), st')
    ∧ sort_inv st0 st' slots v0 targets (done ++ [(b, i)]) todo
        (tdone ++ [t]) ttodo v'
    ∧ move_inv st0 st' slots v0 targets (tdone ++ [t]) ttodo chg'.
Proof.
  intros Hinv Hmv. pose proof Hinv as
    [Hsh Hsl Htg Hlen Hnd Hndt Hdone [Hv Hvin] Hocc Hloc Hfs Hfe Hdat].
  destruct (sort_inv_in_slots _ _ _ _ _ _ _ _ _ _ Hinv) as [Hin Hvs].
  assert (∃ cur, ent st (b, i) = Some cur) as [cur Hcur].
  { destruct (decide ((b, i) = v)) as [->|Hne]; [eauto|].
    destruct (Hocc (b, i)) as (e & He & _); [left; by left|done|eauto]. }
  destruct (decide (cur = Some t)) as [->|Hne].
  - exists (if chg then with_trace (trace st ++ [EvPropagateRelocation t]) st
            else st), v, chg.
    split; [by apply run_sort_slot_same|].
    split; [|by eapply move_inv_keep].
    pose proof (sort_inv_keep _ _ _ _ _ _ _ _ _ _ _ _ Hinv Hcur) as Hinv'.
    destruct chg; [|done].
    eapply sort_inv_ext; [exact Hinv'|apply same_shape_trace|done|done].
  - destruct (Hloc t) as (loc & Hlocin & Hlocv & Hloces & Hlocent);
      [by left|].
    assert (H1 : is_Some (dat st (b, i))) by (apply Hdat, Hin; by left).
    assert (H2 : is_Some (ent st v)) by by rewrite Hv.
    assert (H3 : is_Some (dat st v)) by by apply Hdat.
    assert (H4 : is_Some (ent st loc)) by by rewrite Hlocent.
    assert (H5 : is_Some (dat st loc)).
    { apply Hdat. destruct Hlocin as [?| ->]; [auto|by left]. }
    destruct (run_sort_slot_move st b i t v chg cur loc Hcur Hne Hloces
                H1 H2 H3 H4 H5)
      as (st' & Hrun & Hsh' & Hent' & Hes' & Hdat' & Htr').
    exists st', loc, true. split; [done|].
    split; [by eapply sort_inv_move|].
    by eapply (move_inv_move _ _ _ _ _ _ _ (b, i)).
Qed.

Lemma sort_bucket_slots_inv st0 slots v0 targets b slots_b :
  ∀ st done todo tdone ttodo v chg,
    sort_inv st0 st slots v0 targets done
      (((λ i, (b, i)) <$> slots_b) ++ todo) tdone ttodo v →
    move_inv st0 st slots v0 targets tdone ttodo chg →
    ∃ st' tnow ttodo' v' chg',
      sort_bucket_slots b slots_b ttodo v chg st
      = (inr (ttodo', v', chg'), st')
      ∧ ttodo = tnow ++ ttodo'
      ∧ sort_inv st0 st' slots v0 targets
          (done ++ ((λ i, (b, i)) <$> slots_b)) todo (tdone ++ tnow) ttodo'
          v'
      ∧ move_inv st0 st' slots v0 targets (tdone ++ tnow) ttodo' chg'.
Proof.
  induction slots_b as [|i slots_b IH]; intros st done todo tdone ttodo v chg
    Hinv Hmv.
  - exists st, [], ttodo, v, chg. cbn. by rewrite !app_nil_r.
  - cbn [fmap list_fmap app] in Hinv.
    change (list_fmap _ _ ?f ?l) with (f <$> l) in Hinv.
    destruct ttodo as [|t ttodo].
    { pose proof (inv_length _ _ _ _ _ _ _ _ _ _ Hinv) as Hlen. done. }
    destruct (sort_slot_step _ _ _ _ _ _ _ _ _ _ _ _ _ chg Hinv Hmv)
      as (st1 & v1 & chg1 & Hrun1 & Hinv1 & Hmv1).
    destruct (IH _ _ _ _ _ _ chg1 Hinv1 Hmv1)
      as (st' & tnow & ttodo' & v' & chg' & Hrun & -> & Hinv' & Hmv').
    exists st', (t :: tnow), ttodo', v', chg'. split_and!.
    + cbn [sort_bucket_slots]. by rewrite (run_bind_ok _ _ _ _ _ Hrun1).
    + done.
    + cbn [fmap list_fmap].
      change (list_fmap _ _ ?f ?l) with (f <$> l).
      by rewrite <- !app_assoc in Hinv'.
    + by rewrite <- !app_assoc in Hmv'.
Qed.

Lemma sort_family_buckets_inv st0 slots v0 targets fam :
  ∀ st done tdone ttodo v chg,
    sort_inv st0 st slots v0 targets done (family_positions st0 fam)
      tdone ttodo v →
    move_inv st0 st slots v0 targets tdone ttodo chg →
    (∀ k, k ∈ fam → is_Some (heap st0 !! k)) →
    ∃ st' v' chg',
      sort_family_buckets fam ttodo v chg st = (inr (v', chg'), st')
      ∧ sort_inv st0 st' slots v0 targets
          (done ++ family_positions st0 fam) [] (tdone ++ ttodo) [] v'
      ∧ move_inv st0 st' slots v0 targets (tdone ++ ttodo) [] chg'.
Proof.
  induction fam as [|k fam IH]; intros st done tdone ttodo v chg Hinv Hmv
    Hfam.
  - exists st, v, chg. cbn.
    pose proof (inv_length _ _ _ _ _ _ _ _ _ _ Hinv) as Hlen.
    destruct ttodo; [|done]. by rewrite !app_nil_r.
  - destruct (Hfam k) as [b0 Hb0]; [by left|].
    pose proof (inv_shape _ _ _ _ _ _ _ _ _ _ Hinv) as Hsh.
    destruct (same_shape_lookup _ _ _ _ Hsh Hb0) as (b & Hb & Hskel & _).
    assert (Hsz : b_size b = size_at st0 k).
    { unfold size_at. rewrite Hb0. cbn. by injection Hskel. }
    unfold family_positions in Hinv. cbn [mbind list_bind] in Hinv.
    change (list_bind _ _ ?f ?l) with (l ≫= f) in Hinv.
    unfold slot_positions at 1 in Hinv.
    destruct (sort_bucket_slots_inv _ _ _ _ _ _ _ _ _ _ _ _ chg Hinv Hmv)
      as (st1 & tnow & ttodo' & v1 & chg1 & Hrun1 & -> & Hinv1 & Hmv1).
    destruct (IH _ _ _ _ _ chg1 Hinv1 Hmv1)
      as (st' & v' & chg' & Hrun & Hinv' & Hmv');
      [by (intros; apply Hfam; right)|].
    exists st', v', chg'. split_and!.
    + cbn [sort_family_buckets]. mrun run_get_bucket. rewrite Hsz.
      by rewrite (run_bind_ok _ _ _ _ _ Hrun1).
    + unfold family_positions. cbn [mbind list_bind].
      change (list_bind _ _ ?f ?l) with (l ≫= f).
      by rewrite <- !app_assoc in Hinv'.
    + by rewrite <- !app_assoc in Hmv'.
Qed.

(** *** Slots that hold their targets already *)

Lemma sort_bucket_slots_noop st b v slots_b :
  ∀ ts rest,
    Forall2 (λ i t, ent st (b, i) = Some (Some t)) slots_b ts →
    sort_bucket_slots b slots_b (ts ++ rest) v false st
    = (inr (rest, v, false), st).
Proof.
  induction slots_b as [|i slots_b IH]; intros ts rest Hall.
  - apply Forall2_nil_inv_l in Hall as ->. done.
  - apply Forall2_cons_inv_l in Hall as (t & ts' & Ht & Hall & ->).
    cbn [sort_bucket_slots app].
    rewrite (run_bind_ok _ _ _ _ _ (run_sort_slot_same _ _ _ _ _ false Ht)).
    by apply IH.
Qed.

End SlotLoop.

(** ** Reading a family in storage order *)

Section Storage.

Lemma elem_of_slot_positions k n q :
  q ∈ slot_positions k n ↔ q.1 = k ∧ q.2 < n.
Proof.
  unfold slot_positions. rewrite list_elem_of_fmap. split.
  - intros (i & -> & Hi). apply elem_of_seq in Hi. cbn. split; [done|lia].
  - intros [<- Hi]. exists q.2. split; [by destruct q|].
    apply elem_of_seq. lia.
Qed.

Lemma elem_of_family_positions st fam q :
  q ∈ family_positions st fam ↔ q.1 ∈ fam ∧ q.2 < size_at st q.1.
Proof.
  unfold family_positions. rewrite list_elem_of_bind. split.
  - intros (k & Hq & Hk). apply elem_of_slot_positions in Hq as [<- Hi].
    done.
  - intros [Hk Hi]. exists q.1. split; [|done].
    by apply elem_of_slot_positions.
Qed.

Lemma NoDup_slot_positions k n : NoDup (slot_positions k n).
Proof.
  unfold slot_positions. apply NoDup_fmap_2; [|apply NoDup_seq].
  intros i j. congruence.
Qed.

Lemma NoDup_family_positions st fam :
  NoDup fam → NoDup (family_positions st fam).
Proof.
  induction 1 as [|k fam Hk Hnd IH]; [constructor|].
  unfold family_positions. cbn [mbind list_bind].
  change (list_bind _ _ ?f ?l) with (l ≫= f).
  apply NoDup_app. split_and!.
  - apply NoDup_slot_positions.
  - intros q [Hq1 _]%elem_of_slot_positions
      [Hq2 _]%elem_of_family_positions. congruence.
  - done.
Qed.

Lemma family_positions_shape st st' fam :
  same_shape st st' → family_positions st' fam = family_positions st fam.
Proof.
  intros Hsh. unfold family_positions. induction fam as [|k fam IH]; [done|].
  cbn. rewrite (same_shape_size _ _ _ Hsh). by f_equal.
Qed.

Lemma live_entities_reads st k b :
  heap st !! k = Some b → b_size b ≤ length (b_entities b) →
  Forall2 (λ p x, ent st p = Some x) (slot_positions k (b_size b))
    (live_entities st k).
Proof.
  intros Hb Hsz. unfold live_entities, slot_positions. rewrite Hb. cbn.
  apply Forall2_same_length_lookup. split.
  - rewrite length_fmap, length_seq, length_take. lia.
  - intros j p x Hp Hx. rewrite list_lookup_fmap in Hp.
    destruct (seq 0 (b_size b) !! j) as [i|] eqn:Hi; [|done].
    apply lookup_seq in Hi as [-> Hj]. cbn in Hp. injection Hp as <-.
    unfold ent. cbn. rewrite Hb. cbn.
    by rewrite lookup_take_lt in Hx by done.
Qed.

Lemma storage_reads st fam :
  (∀ k, k ∈ fam →
        ∃ b, heap st !! k = Some b ∧ b_size b ≤ length (b_entities b)) →
  Forall2 (λ p x, ent st p = Some x) (family_positions st fam)
    (storage st fam).
Proof.
  induction fam as [|k fam IH]; intros Hfam; [constructor|].
  unfold family_positions, storage. cbn [mbind list_bind].
  change (list_bind _ _ ?f ?l) with (l ≫= f).
  apply Forall2_app.
  - destruct (Hfam k) as (b & Hb & Hsz); [by left|].
    unfold size_at. rewrite Hb. cbn. by apply live_entities_reads.
  - apply IH. intros k' Hk'. apply Hfam. by right.
Qed.

Lemma reads_inj st ps xs ys :
  Forall2 (λ p x, ent st p = Some x) ps xs →
  Forall2 (λ p x, ent st p = Some x) ps ys → xs = ys.
Proof.
  intros Hx. revert ys. induction Hx as [|p x ps xs Hp Hx IH]; intros ys Hy.
  - by apply Forall2_nil_inv_l in Hy.
  - apply Forall2_cons_inv_l in Hy as (y & ys' & Hpy & Hy & ->).
    f_equal; [congruence|auto].
Qed.

Lemma run_collect_entities st fam es :
  (∀ k, k ∈ fam →
        ∃ b, heap st !! k = Some b ∧ b_size b ≤ length (b_entities b)) →
  storage st fam = Some <$> es →
  collect_entities fam st = (inr es, st).
Proof.
  revert es. induction fam as [|k fam IH]; intros es Hfam Hst.
  - cbn in Hst. symmetry in Hst. apply fmap_nil_inv in Hst as ->. done.
  - destruct (Hfam k) as (b & Hb & Hsz); [by left|].
    unfold storage in Hst. cbn [mbind list_bind] in Hst.
    change (list_bind _ _ ?f ?l) with (l ≫= f) in Hst.
    symmetry in Hst. apply fmap_app_inv in Hst as (es1 & es2 & H1 & H2 & ->).
    cbn [collect_entities]. mrun run_get_bucket.
    unfold live_entities in H1. rewrite Hb in H1. cbn in H1.
    rewrite H1.
    rewrite (mapM_fmap_Some (λ oe : option nat, oe) Some) by done.
    mnorm. rewrite decide_True by done.
    erewrite run_bind_ok; [|apply IH; [|done]].
    + done.
    + intros k' Hk'. apply Hfam. by right.
Qed.

Lemma Forall2_fmap_both {A B C D} (P : C → D → Prop) (f : A → C)
    (g : B → D) l k :
  Forall2 P (f <$> l) (g <$> k) → Forall2 (λ x y, P (f x) (g y)) l k.
Proof.
  revert k. induction l as [|x l IH]; intros [|y k] H; inversion H; subst;
    constructor; auto.
Qed.

Lemma sort_family_buckets_noop st v fam :
  ∀ ts,
    (∀ k, k ∈ fam → is_Some (heap st !! k)) →
    Forall2 (λ p x, ent st p = Some x) (family_positions st fam)
      (Some <$> ts) →
    sort_family_buckets fam ts v false st = (inr (v, false), st).
Proof.
  induction fam as [|k fam IH]; intros ts Hfam Hall.
  - done.
  - destruct (Hfam k) as [b Hb]; [by left|].
    unfold family_positions in Hall. cbn [mbind list_bind] in Hall.
    change (list_bind _ _ ?f ?l) with (l ≫= f) in Hall.
    apply Forall2_app_inv_l in Hall as (xs1 & xs2 & H1 & H2 & Heq).
    apply fmap_app_inv in Heq as (ts1 & ts2 & -> & -> & ->).
    cbn [sort_family_buckets]. mrun run_get_bucket.
    unfold size_at in H1. rewrite Hb in H1. cbn in H1.
    unfold slot_positions in H1.
    apply Forall2_fmap_both in H1.
    rewrite (run_bind_ok _ _ _ _ _
               (sort_bucket_slots_noop st k v _ ts1 ts2 H1)).
    apply IH; [|done]. intros k' Hk'. apply Hfam. by right.
Qed.

End Storage.


(** * [internal_sort_bucket_entities]: one family *)

Section FamilyLoop.

Lemma Forall2_refine {A B C} (P : A → B → Prop) (Q : A → C → Prop)
    (f : C → B) l k :
  Forall2 P l k →
  (∀ x y, x ∈ l → P x y → ∃ z, y = f z ∧ Q x z) →
  ∃ k', k = f <$> k' ∧ Forall2 Q l k'.
Proof.
  induction 1 as [|x y l k Hxy Hlk IH]; intros Href.
  - by exists [].
  - destruct (Href x y) as (z & -> & Hq); [by left|done|].
    destruct IH as (k' & -> & Hall).
    { intros x' y' Hx'. apply Href. by right. }
    exists (z :: k'). split; [done|]. by constructor.
Qed.

Lemma Forall2_NoDup_r {A B} (P : A → B → Prop) l k :
  (∀ x x' y, P x y → P x' y → x = x') →
  Forall2 P l k → NoDup l → NoDup k.
Proof.
  intros Hfun. induction 1 as [|x y l k Hxy Hlk IH]; intros Hnd.
  - constructor.
  - apply NoDup_cons in Hnd as [Hx Hnd]. constructor; [|auto].
    intros Hy. destruct (Forall2_elem_of_r _ _ _ _ Hlk Hy) as (x' & Hx' & Hp).
    by rewrite (Hfun _ _ _ Hxy Hp) in Hx.
Qed.

(** Every live slot of a listed bucket holds an entity that refers back to
    the slot. *)
Lemma storage_located st rank l fam :
  repo_ok st → m_buckets st !! rank = Some l → (∀ k, k ∈ fam → k ∈ l) →
  ∃ es,
    storage st fam = Some <$> es
    ∧ Forall2 (λ p e, ent st p = Some (Some e) ∧ entities st !! e = Some p)
        (family_positions st fam) es.
Proof.
  intros Hok Hl Hfam.
  apply (Forall2_refine (λ p x, ent st p = Some x)).
  - apply storage_reads. intros k Hk.
    destruct (repo_ok_bucket _ _ _ _ Hok Hl (Hfam _ Hk))
      as (b & Hb & _ & _ & Hcap & Hsz & Hlen & _).
    exists b. split; [done|]. lia.
  - intros [k i] x [Hk Hi]%elem_of_family_positions Hx. cbn in Hk, Hi.
    destruct (repo_ok_bucket _ _ _ _ Hok Hl (Hfam _ Hk))
      as (b & Hb & _).
    unfold size_at in Hi. rewrite Hb in Hi. cbn in Hi.
    destruct (repo_ok_slot _ _ _ _ _ Hok Hl (Hfam _ Hk) b Hb Hi)
      as (e & d & He & _ & Hes & _).
    assert (ent st (k, i) = Some (Some e)) as Hent.
    { unfold ent. cbn. by rewrite Hb. }
    exists e. split_and!; [congruence|done|done].
Qed.

(** An entity in a live slot of a listed bucket. *)
Lemma live_located st rank l k e :
  repo_ok st → m_buckets st !! rank = Some l → k ∈ l →
  Some e ∈ live_entities st k →
  ∃ i b, heap st !! k = Some b ∧ i < b_size b
         ∧ entities st !! e = Some (k, i)
         ∧ ent st (k, i) = Some (Some e) ∧ is_Some (dat st (k, i)).
Proof.
  intros Hok Hl Hk He.
  destruct (repo_ok_bucket _ _ _ _ Hok Hl Hk)
    as (b & Hb & _ & _ & Hcap & Hsz & Hl1 & Hl2 & Hlive & _).
  unfold live_entities in He. rewrite Hb in He. cbn in He.
  apply list_elem_of_lookup_1 in He as [i Hi].
  apply lookup_take_Some in Hi as [Hi Hlt].
  destruct (Hlive i Hlt) as (e' & He' & Hes).
  assert (e' = e) as -> by congruence.
  exists i, b. split_and!; try done.
  - unfold ent. cbn. by rewrite Hb.
  - apply dat_is_Some. exists b. split; [done|]. lia.
Qed.

Lemma elem_of_storage st fam x :
  x ∈ storage st fam ↔ ∃ k, k ∈ fam ∧ x ∈ live_entities st k.
Proof.
  unfold storage. rewrite list_elem_of_bind. split.
  - intros (k & ? & ?). eauto.
  - intros (k & ? & ?). eauto.
Qed.

(** The invariant holds when the slot loop starts. *)
Lemma sort_inv_init st rank l fam vk vb es targets :
  repo_ok st → m_buckets st !! rank = Some l → (∀ k, k ∈ fam → k ∈ l) →
  NoDup fam → vk ∈ fam → heap st !! vk = Some vb →
  b_size vb < b_capacity vb →
  storage st fam = Some <$> es → targets ≡ₚ es →
  sort_inv st st (family_positions st fam) (vk, b_size vb) targets
    [] (family_positions st fam) [] targets (vk, b_size vb)
  ∧ Forall2 (λ p e, ent st p = Some (Some e) ∧ entities st !! e = Some p)
      (family_positions st fam) es.
Proof.
  intros Hok Hl Hfam Hnd Hvk Hvb Hvsz Hst Hperm.
  destruct (storage_located _ _ _ _ Hok Hl Hfam) as (es' & Hst' & Hloc).
  assert (es' = es) as ->.
  { rewrite Hst in Hst'. by apply (inj (fmap Some)) in Hst'. }
  split; [|done].
  assert (Hv0 : (vk, b_size vb) ∉ family_positions st fam).
  { intros [_ Hi]%elem_of_family_positions. cbn in Hi.
    unfold size_at in Hi. rewrite Hvb in Hi. cbn in Hi. lia. }
  destruct (repo_ok_bucket _ _ _ _ Hok Hl (Hfam _ Hvk))
    as (vb' & Hvb' & _ & _ & Hvcap & _ & Hvl1 & Hvl2 & _ & Hvfree).
  assert (vb' = vb) as -> by congruence.
  constructor.
  - apply same_shape_refl.
  - done.
  - done.
  - rewrite (Forall2_length _ _ _ Hloc). by rewrite Hperm.
  - constructor; [done|]. by apply NoDup_family_positions.
  - rewrite Hperm.
    eapply (Forall2_NoDup_r _ _ _ _ Hloc), NoDup_family_positions, Hnd.
    Unshelve. cbn. intros p p' e [_ H1] [_ H2]. congruence.
  - constructor.
  - split; [|by right]. unfold ent. cbn. rewrite Hvb. cbn.
    apply Hvfree; lia.
  - intros q [Hq| ->] Hqv; [|done].
    destruct (Forall2_elem_of_l _ _ _ _ Hloc Hq) as (e & He & Hent & Hes).
    exists e. split_and!; try done. by rewrite Hperm.
  - intros t Ht. rewrite Hperm in Ht.
    destruct (Forall2_elem_of_r _ _ _ _ Hloc Ht) as (q & Hq & Hent & Hes).
    exists q. split_and!; try done; [by left|]. intros ->. done.
  - done.
  - done.
  - intros [k i] Hq. apply dat_is_Some.
    apply elem_of_cons in Hq as [Hq|Hq].
    + injection Hq as -> ->. exists vb. split; [done|]. lia.
    + apply elem_of_family_positions in Hq as [Hk Hi]. cbn in Hk, Hi.
      destruct (repo_ok_bucket _ _ _ _ Hok Hl (Hfam _ Hk))
        as (b & Hb & _ & _ & Hcap & Hsz & _ & Hl2 & _).
      exists b. split; [done|].
      unfold size_at in Hi. rewrite Hb in Hi. cbn in Hi. lia.
Qed.

(** The slot loop over a family: it leaves the targets in storage order,
    the invariant of the repository, and every other bucket as it was. *)
Lemma sort_family_buckets_spec st rank l fam vk vb es targets :
  repo_ok st → m_buckets st !! rank = Some l → (∀ k, k ∈ fam → k ∈ l) →
  NoDup fam → vk ∈ fam → heap st !! vk = Some vb →
  b_size vb < b_capacity vb →
  storage st fam = Some <$> es → targets ≡ₚ es →
  ∃ st' chg,
    sort_family_buckets fam targets (vk, b_size vb) false st
    = (inr ((vk, b_size vb), chg), st')
    ∧ same_shape st st' ∧ repo_ok st'
    ∧ storage st' fam = Some <$> targets
    ∧ (∀ k, k ∉ fam → live_entities st' k = live_entities st k)
    ∧ (targets = es → st' = st)
    ∧ data_kept st st'
    ∧ hooks_in st st' (λ e, e ∈ targets)
    ∧ Forall2 (λ p t, entities st' !! t = Some p) (family_positions st fam)
        targets
    ∧ (∀ q, q.1 ∉ fam → dat st' q = dat st q)
    ∧ (∀ e, e ∉ targets → entities st' !! e = entities st !! e).
Proof.
  intros Hok Hl Hfam Hnd Hvk Hvb Hvsz Hst Hperm.
  destruct (sort_inv_init _ _ _ _ _ _ _ _ Hok Hl Hfam Hnd Hvk Hvb Hvsz Hst
              Hperm) as [Hinit Hloc].
  assert (Hheap : ∀ k, k ∈ fam → is_Some (heap st !! k)).
  { intros k Hk.
    destruct (repo_ok_bucket _ _ _ _ Hok Hl (Hfam _ Hk)) as (b & Hb & _).
    eauto. }
  destruct (sort_family_buckets_inv _ _ _ _ _ _ _ _ _ _ false Hinit
              (move_inv_init _ _ _ _) Hheap)
    as (st' & v' & chg & Hrun & Hinv & Hmv).
  cbn [app] in Hinv, Hmv.
  destruct Hmv as [Hdata Hframe (T & Htr & _ & Hone & Hpend & Hwithin)].
  pose proof Hinv as
    [Hsh _ _ _ Hndp Hndt Hdone [Hv Hvin] _ _ Hfs Hfe _].
  assert (v' = (vk, b_size vb)) as ->.
  { destruct Hvin as [Hin|]; [|done]. by apply elem_of_nil in Hin. }
  (* the slots of the buckets outside the family *)
  assert (Hout : ∀ k i, k ∉ fam → ent st' (k, i) = ent st (k, i)).
  { intros k i Hk. apply Hfs. intros Hin.
    apply elem_of_cons in Hin as [Hin|Hin].
    - injection Hin as -> _. done.
    - by apply elem_of_family_positions in Hin as [Hin _]. }
  assert (Hslots : ∀ r lk k b', m_buckets st !! r = Some lk → k ∈ lk →
                     heap st' !! k = Some b' →
                     bucket_slots_ok (entities st') k b').
  { intros r lk k b' Hlk Hk Hb'.
    destruct (same_shape_lookup_inv _ _ _ _ Hsh Hb')
      as (b & Hb & Hskel & _ & Hle & Hld).
    destruct (repo_ok_bucket _ _ _ _ Hok Hlk Hk)
      as (b0 & Hb0 & _ & _ & Hcap & Hsz & Hl1 & Hl2 & Hlive & Hfree).
    assert (b0 = b) as -> by congruence.
    assert (Hcap' : b_capacity b' = b_capacity b) by by injection Hskel.
    assert (Hsz' : b_size b' = b_size b) by by injection Hskel.
    assert (Hent : ∀ i, ent st' (k, i) = b_entities b' !! i).
    { intros i. unfold ent. cbn. by rewrite Hb'. }
    assert (Hent0 : ∀ i, ent st (k, i) = b_entities b !! i).
    { intros i. unfold ent. cbn. by rewrite Hb. }
    unfold bucket_slots_ok. split_and!; [congruence|congruence| |].
    - intros i Hi. rewrite <- Hent.
      destruct (decide (k ∈ fam)) as [Hkf|Hkf].
      + assert (Hq : (k, i) ∈ family_positions st fam).
        { apply elem_of_family_positions. cbn. split; [done|].
          unfold size_at. rewrite Hb. cbn. lia. }
        destruct (Forall2_elem_of_l _ _ _ _ Hdone Hq) as (t & _ & ? & ?).
        eauto.
      + rewrite (Hout _ _ Hkf), Hent0.
        destruct (Hlive i) as (e & He & Hes); [lia|].
        exists e. split; [done|]. rewrite Hfe; [done|].
        intros Het. rewrite Hperm in Het.
        destruct (Forall2_elem_of_r _ _ _ _ Hloc Het) as (q & Hq & _ & Hqe).
        apply elem_of_family_positions in Hq as [Hq _].
        assert (q = (k, i)) as -> by congruence. done.
    - intros i Hi Hic. rewrite <- Hent.
      destruct (decide ((k, i) = (vk, b_size vb))) as [Heq|Hne].
      + by rewrite Heq.
      + rewrite Hfs, Hent0; [apply Hfree; lia|].
        intros Hin. apply elem_of_cons in Hin as [Hin|Hin]; [done|].
        apply elem_of_family_positions in Hin as [_ Hin]. cbn in Hin.
        unfold size_at in Hin. rewrite Hb in Hin. cbn in Hin. lia. }
  exists st', chg. split_and!; try done.
  - rewrite (same_shape_eta _ _ Hsh).
    apply (repo_ok_reslot st _ _ _ (next_address st)); [done| | |].
    + intros k. destruct Hsh as (_ & _ & _ & _ & _ & Hh). specialize (Hh k).
      destruct Hh as [b b' (Hskel & _)|]; constructor.
      unfold same_links. injection Hskel as -> -> -> -> -> ->.
      split_and!; try done.
    + intros r lk Hlk Hin. by apply fresh_not_in in Hlk.
    + done.
  - eapply reads_inj.
    + apply storage_reads. intros k Hk.
      destruct (repo_ok_bucket _ _ _ _ Hok Hl (Hfam _ Hk))
        as (b & Hb & _ & _ & Hcap & Hsz & Hl1 & _).
      destruct (same_shape_lookup _ _ _ _ Hsh Hb)
        as (b' & Hb' & Hskel & _ & Hle & _).
      exists b'. split; [done|]. injection Hskel as _ _ _ -> _ _. lia.
    + rewrite (family_positions_shape _ _ _ Hsh).
      apply Forall2_fmap_r.
      eapply Forall2_impl; [exact Hdone|]. by intros q t [? _].
  - intros k Hk. unfold live_entities.
    destruct (heap st !! k) as [b|] eqn:Hb.
    + destruct (same_shape_lookup _ _ _ _ Hsh Hb)
        as (b' & Hb' & Hskel & _ & Hle & _).
      rewrite Hb'. cbn. injection Hskel as _ _ _ -> _ _. f_equal.
      apply list_eq. intros i.
      pose proof (Hout k i Hk) as Hi. unfold ent in Hi. cbn in Hi.
      by rewrite Hb, Hb' in Hi.
    + destruct (heap st' !! k) as [b'|] eqn:Hb'; [|done].
      destruct (same_shape_lookup_inv _ _ _ _ Hsh Hb') as (b & ? & _).
      congruence.
  - intros ->.
    rewrite (sort_family_buckets_noop st (vk, b_size vb) fam es) in Hrun.
    + by injection Hrun.
    + done.
    + apply Forall2_fmap_r. eapply Forall2_impl; [exact Hloc|].
      by intros q t [? _].
  - intros r lk k e Hlk Hk He.
    destruct (live_located _ _ _ _ _ Hok Hlk Hk He)
      as (i & b & Hb & Hi & Hes & Hent & Hd).
    destruct (decide (e ∈ targets)) as [Hin|Hout']; [by apply Hdata|].
    unfold data_of. rewrite (Hfe _ Hout'), Hes. cbn.
    apply Hframe. intros Hin. apply elem_of_cons in Hin as [Hin|Hin].
    + injection Hin as -> ->. assert (b = vb) as -> by congruence. lia.
    + destruct (Forall2_elem_of_l _ _ _ _ Hloc Hin) as (e' & He' & Hent' & _).
      apply Hout'. rewrite Hperm. congruence.
  - exists T. split_and!; try done. split; [done|].
    intros i k e j Hi. destruct (Hpend i k e j Hi) as [[Hin _]|?]; [|done].
    by apply elem_of_nil in Hin.
  - eapply Forall2_impl; [exact Hdone|]. by intros q t [_ ?].
  - intros q Hq. apply Hframe. intros Hin.
    apply elem_of_cons in Hin as [->|Hin]; [done|].
    by apply elem_of_family_positions in Hin as [? _].
Qed.

End FamilyLoop.

(** ** The families of a list *)

Section Boundary.

Lemma family_empty_inv sk P l k :
  family sk P l = [] → k ∈ l → key_part_ord (key_at sk k) ≠ P.
Proof.
  intros Hnil Hk HP. assert (k ∈ family sk P l) as Hin.
  { by apply elem_of_family. }
  rewrite Hnil in Hin. by apply elem_of_nil in Hin.
Qed.

(** A family is a segment of its list. *)
Lemma family_segment sk P l :
  keys_sorted sk l → (∀ k, k ∈ l → wf_key (key_at sk k)) →
  ∃ l1 l2, l = l1 ++ family sk P l ++ l2
           ∧ family sk P l1 = [] ∧ family sk P l2 = [].
Proof.
  induction l as [|x l IH]; intros Hsorted Hwf.
  - by exists [], [].
  - apply StronglySorted_inv in Hsorted as [Hsorted Hx].
    destruct IH as (l1 & l2 & Hl & H1 & H2); [done| |].
    { intros k Hk. apply Hwf. by right. }
    destruct (decide (key_part_ord (key_at sk x) = P)) as [HP|HP].
    + rewrite (family_cons_in _ _ _ _ HP).
      destruct l1 as [|y l1].
      { exists [], l2. cbn in Hl. cbn. split_and!; [by f_equal|done|done]. }
      destruct (family sk P l) as [|z F] eqn:HF.
      { exists [], l. by split_and!. }
      exfalso.
      assert (Hz : z ∈ family sk P l) by (rewrite HF; by left).
      apply elem_of_family in Hz as [HzP Hzl].
      assert (Hxy : bucket_key_less (key_at sk x) (key_at sk y) = true).
      { rewrite Forall_forall in Hx. apply Hx. rewrite Hl. by left. }
      assert (Hyz : bucket_key_less (key_at sk y) (key_at sk z) = true).
      { rewrite Hl in Hsorted. cbn in Hsorted.
        apply StronglySorted_inv in Hsorted as [_ Hy].
        rewrite Forall_forall in Hy. apply Hy.
        apply elem_of_app. right. by left. }
      apply (family_empty_inv sk P (y :: l1) y H1); [by left|].
      rewrite <- HP.
      apply (family_convex _ _ (key_at sk z)).
      * apply Hwf. by left.
      * apply Hwf. right. rewrite Hl. by left.
      * apply Hwf. by right.
      * congruence.
      * by apply bucket_key_less_asym.
      * by apply bucket_key_less_asym.
    + rewrite (family_cons_out _ _ _ _ HP).
      exists (x :: l1), l2. split_and!; [cbn; by f_equal| |done].
      by rewrite (family_cons_out _ _ _ _ HP).
Qed.

(** The family that starts at a boundary. *)
Lemma family_at_boundary cap sk rank l bk first :
  rank_ok cap sk rank l → boundary sk l bk → l !! bk = Some first →
  ∃ fam l2,
    fam = family sk (key_part_ord (key_at sk first)) l
    ∧ l = take bk l ++ fam ++ l2
    ∧ head fam = Some first
    ∧ family sk (key_part_ord (key_at sk first)) l2 = []
    ∧ boundary sk l (bk + length fam).
Proof.
  intros Hok Hbd Hfirst. set (P := key_part_ord (key_at sk first)).
  destruct (family_segment sk P l (proj1 Hok))
    as (l1 & l2 & Hl & H1 & H2).
  { intros k Hk. by eapply rank_ok_wf_key. }
  assert (Hfl : first ∈ l) by by eapply list_elem_of_lookup_2.
  assert (HfF : first ∈ family sk P l) by by apply elem_of_family.
  assert (Hlen : length l1 = bk).
  { destruct (Nat.lt_trichotomy bk (length l1)) as [Hlt|[Heq|Hgt]];
      [exfalso|done|exfalso].
    - rewrite Hl in Hfirst. rewrite lookup_app_l in Hfirst by done.
      apply list_elem_of_lookup_2 in Hfirst.
      by apply (family_empty_inv sk P l1 first H1).
    - destruct (family sk P l) as [|z F] eqn:HF;
        [by apply elem_of_nil in HfF|].
      assert (HzP : key_part_ord (key_at sk z) = P).
      { assert (z ∈ family sk P l) as Hz by (rewrite HF; by left).
        by apply elem_of_family in Hz as [? _]. }
      apply (Hbd z first); [| |done].
      + apply (list_elem_of_lookup_2 _ (length l1)).
        rewrite lookup_take_lt by done. rewrite Hl.
        rewrite lookup_app_r by done. by rewrite Nat.sub_diag.
      + apply (list_elem_of_lookup_2 _ 0). rewrite lookup_drop.
        by rewrite Nat.add_0_r. }
  assert (Htake : take bk l = l1).
  { rewrite Hl at 1. rewrite <- Hlen. by rewrite take_app_length. }
  exists (family sk P l), l2. split_and!.
  - done.
  - by rewrite Htake.
  - rewrite Hl in Hfirst. rewrite lookup_app_r in Hfirst by lia.
    rewrite Hlen, Nat.sub_diag in Hfirst.
    destruct (family sk P l); [by apply elem_of_nil in HfF|]. done.
  - done.
  - assert (HF : ∀ k, k ∈ family sk P l → key_part_ord (key_at sk k) = P).
    { intros k Hk. by apply elem_of_family in Hk as [? _]. }
    revert HF Hl. generalize (family sk P l). intros F HF Hl.
    assert (Hl' : l = (l1 ++ F) ++ l2) by by rewrite <- app_assoc.
    assert (Htake' : take (bk + length F) l = l1 ++ F).
    { rewrite Hl' at 1. rewrite <- Hlen, <- length_app.
      by rewrite take_app_length. }
    assert (Hdrop' : drop (bk + length F) l = l2).
    { rewrite Hl' at 1. rewrite <- Hlen, <- length_app.
      by rewrite drop_app_length. }
    assert (Hdrop : drop bk l = F ++ l2).
    { rewrite Hl at 1. rewrite <- Hlen. by rewrite drop_app_length. }
    intros k k'. rewrite Htake', Hdrop'. intros Hk Hk'.
    pose proof (family_empty_inv sk P l2 k' H2 Hk') as HP'.
    apply elem_of_app in Hk as [Hk|Hk].
    + apply Hbd.
      * by rewrite Htake.
      * rewrite Hdrop. apply elem_of_app. by right.
    + rewrite (HF _ Hk). done.
Qed.

Lemma boundary_0 sk l : boundary sk l 0.
Proof. intros k k' Hk. rewrite take_0 in Hk. by apply elem_of_nil in Hk. Qed.


Lemma repo_ok_with_trace st T : repo_ok (with_trace T st) ↔ repo_ok st.
Proof. done. Qed.

Lemma with_entities_id b : with_entities (b_entities b) b = b.
Proof. by destruct b. Qed.

Lemma with_heap_id st : with_heap (heap st) st = st.
Proof. by destruct st. Qed.

(** Nulling a slot that is null already. *)
Lemma run_replace_entity_null st k i b :
  heap st !! k = Some b → b_entities b !! i = Some None →
  replace_entity k i None st
  = (inr tt, with_trace (trace st ++ [EvReplaceEntity k i None]) st).
Proof.
  intros Hb Hi. rewrite (run_replace_entity _ _ _ _ _ Hb).
  - rewrite (list_insert_id _ _ _ Hi), with_entities_id.
    by rewrite (insert_id _ _ _ Hb), with_heap_id.
  - by eapply lookup_lt_Some.
Qed.

Lemma find_bucket_app_r k l1 l2 :
  k ∉ l1 → find_bucket k (l1 ++ k :: l2) = Some (length l1).
Proof.
  induction l1 as [|x l1 IH]; intros Hk; cbn.
  - by rewrite Nat.eqb_refl.
  - apply not_elem_of_cons in Hk as [Hne Hk].
    destruct (Nat.eqb_spec x k) as [->|_]; [done|].
    by rewrite IH.
Qed.

Lemma last_split {A} (l : list A) x :
  last l = Some x → ∃ l', l = l' ++ [x].
Proof.
  destruct l as [|y l _] using rev_ind; [done|].
  rewrite last_snoc. intros [= ->]. eauto.
Qed.

(** [bucket_key[0] - 1] and [bucket_key + 1] are the parts of the key. *)
Lemma part_ord_of_key key :
  wf_key key →
  take (Z.to_nat (wrap_unsigned (hd 0%Z key - 1))) (drop 1 key)
  = key_part_ord key.
Proof.
  intros Hwf. destruct (wf_key_inv _ Hwf) as (P & c & ->).
  destruct Hwf as [_ HP]. rewrite search_key_part_ord in HP.
  rewrite search_key_part_ord. unfold search_key. cbn [hd drop].
  unfold wrap_unsigned. rewrite Z.mod_small by (unfold UINT_MAX in *; lia).
  replace (Z.to_nat (Z.of_nat (length P) + 1 - 1)) with (length P) by lia.
  by rewrite drop_0, take_app_length.
Qed.

End Boundary.

(** ** [std::sort] *)

Section SortEntities.

Variable EntityLess : nat → nat → bool.

Lemma sort_insert_perm e l : sort_insert EntityLess e l ≡ₚ e :: l.
Proof.
  induction l as [|x l IH]; cbn; [done|].
  destruct (EntityLess x e); [|done].
  rewrite IH. apply Permutation_swap.
Qed.

Lemma sort_entities_perm es : sort_entities EntityLess es ≡ₚ es.
Proof.
  induction es as [|e es IH]; cbn; [done|].
  fold (sort_entities EntityLess es).
  by rewrite sort_insert_perm, IH.
Qed.

End SortEntities.


(** * [internal_sort_bucket_entities]: the family loop *)

Section SortFamily.

Variable EntityLess : nat → nat → bool.

(** The family the loop finds at a boundary [bk]. *)
Lemma sort_family_setup st rank l bk first :
  repo_ok st → m_buckets st !! rank = Some l →
  boundary (skel <$> heap st) l bk → l !! bk = Some first →
  ∃ fam l2 lst fb vb,
    fam = family (skel <$> heap st)
            (key_part_ord (key_at (skel <$> heap st) first)) l
    ∧ l = take bk l ++ fam ++ l2
    ∧ head fam = Some first ∧ last fam = Some lst
    ∧ boundary (skel <$> heap st) l (bk + length fam)
    ∧ heap st !! first = Some fb ∧ b_first fb = Some first
    ∧ b_family fb = Some lst ∧ wf_key (b_key fb)
    ∧ key_at (skel <$> heap st) first = b_key fb
    ∧ heap st !! lst = Some vb ∧ b_first vb = Some first
    ∧ key_part_ord (b_key vb) = key_part_ord (b_key fb)
    ∧ b_capacity vb = m_bucket_capacity st
    ∧ b_size vb ≤ m_bucket_capacity st
    ∧ last_of (heap st) first = Some lst
    ∧ NoDup l.
Proof.
  intros Hok Hl Hbd Hfirst.
  pose proof (repo_ok_rank _ _ _ Hok Hl) as Hrk.
  destruct (family_at_boundary _ _ _ _ _ _ Hrk Hbd Hfirst)
    as (fam & l2 & Hfam & Hleq & Hhd & _ & Hbd').
  assert (Hfl : first ∈ l) by by eapply list_elem_of_lookup_2.
  destruct (family_ok_pointers _ _ _ _ Hok Hl Hfl)
    as (fb & f & ffb & lst & Hfb & Hfbf & Hffb & Hfbl & Hhd' & Hlst & _).
  assert (Hkey : key_at (skel <$> heap st) first = b_key fb).
  { unfold key_at. by rewrite (skel_lookup _ _ _ Hfb). }
  rewrite <- Hkey, <- Hfam in Hhd', Hlst.
  assert (f = first) as -> by congruence.
  assert (ffb = fb) as -> by congruence.
  assert (Hll : lst ∈ l).
  { rewrite Hfam in Hlst. by apply last_family_elem in Hlst as [? _]. }
  destruct (family_ok_pointers _ _ _ _ Hok Hl Hll)
    as (vb & f' & ffb' & lst' & Hvb & Hvbf & _ & _ & Hhd'' & _).
  assert (HvP : key_part_ord (b_key vb) = key_part_ord (b_key fb)).
  { rewrite Hfam in Hlst. apply last_family_elem in Hlst as [_ HP].
    rewrite Hkey in HP. unfold key_at in HP.
    by rewrite (skel_lookup _ _ _ Hvb) in HP. }
  rewrite HvP, <- Hkey, <- Hfam in Hhd''.
  assert (f' = first) as -> by congruence.
  destruct (repo_ok_bucket _ _ _ _ Hok Hl Hll)
    as (vb' & Hvb' & _ & _ & Hcap & Hsz & _).
  assert (vb' = vb) as -> by congruence.
  destruct (repo_ok_bucket _ _ _ _ Hok Hl Hfl)
    as (fb' & Hfb' & _ & Hwf & _).
  assert (fb' = fb) as -> by congruence.
  exists fam, l2, lst, fb, vb. split_and!; try done.
  - unfold last_of. rewrite Hfb. cbn. rewrite Hfbf. cbn. rewrite Hfb. done.
  - eapply keys_sorted_NoDup, Hrk.
Qed.

Lemma run_count_entities st fam :
  (∀ k, k ∈ fam → is_Some (heap st !! k)) →
  ∃ c, count_entities fam st = (inr c, st).
Proof.
  induction fam as [|k fam IH]; intros Hfam; [by exists 0|].
  destruct (Hfam k) as [b Hb]; [by left|].
  destruct IH as [c Hc]; [intros k' Hk'; apply Hfam; by right|].
  exists (b_size b + c). cbn [count_entities]. mrun run_get_bucket.
  by rewrite (run_bind_ok _ _ _ _ _ Hc), run_ret.
Qed.

(** The entities of a family are the entities of its sorted sequence. *)
Lemma storage_sorted st fam es e :
  storage st fam = Some <$> es →
  e ∈ sort_entities EntityLess es → Some e ∈ storage st fam.
Proof.
  intros -> He. rewrite sort_entities_perm in He.
  by apply list_elem_of_fmap_2.
Qed.

Lemma supply_ok_malloc st : supply_ok st → malloc_succeeds st = true.
Proof.
  unfold supply_ok, malloc_succeeds. intros Hs.
  destruct (malloc_supply st) as [|[] ?]; try done.
  by apply Forall_cons in Hs as [? _].
Qed.

Lemma supply_ok_after_malloc st : supply_ok st → supply_ok (after_malloc st).
Proof.
  unfold supply_ok, after_malloc. cbn. intros Hs.
  destruct (malloc_supply st); [done|]. by apply Forall_cons in Hs as [_ ?].
Qed.

Lemma tail_drop {A} (l : list A) : tail l = drop 1 l.
Proof. by destruct l. Qed.

Lemma sort_frame_step st st0 st' n :
  m_buckets st0 = m_buckets st → skel <$> heap st0 = skel <$> heap st →
  m_bucket_capacity st0 = m_bucket_capacity st →
  malloc_supply st0 = drop n (malloc_supply st) →
  same_shape st0 st' → repo_ok st' → sort_frame st st'.
Proof.
  intros Hbs Hsk Hc Hm Hsh Hok'.
  pose proof (same_shape_skel _ _ Hsh) as Hskel.
  destruct Hsh as (? & ? & ? & ? & Hms & _).
  unfold sort_frame. split_and!; try congruence. exists n. congruence.
Qed.

(** The turn of a family whose last bucket has a free slot. *)
Lemma sort_family_in_place st rank l bk first fam l2 lst vb :
  repo_ok st → m_buckets st !! rank = Some l → l !! bk = Some first →
  l = take bk l ++ fam ++ l2 → last fam = Some lst → NoDup l →
  heap st !! lst = Some vb → last_of (heap st) first = Some lst →
  b_capacity vb = m_bucket_capacity st →
  b_size vb < b_capacity vb →
  ∃ st',
    (if malloc_succeeds st then
       sort_family EntityLess rank bk st = (inr (bk + length fam), st')
       ∧ family_sorted EntityLess st st' fam
     else
       sort_family EntityLess rank bk st = (inl BadAlloc, st')
       ∧ sort_frame st st').
Proof.
  intros Hok Hl Hfirst Hleq Hlst Hnd Hvb Hlast Hcap Hsz.
  assert (Hbk : length (take bk l) = bk).
  { apply length_take_le. apply lookup_lt_Some in Hfirst. lia. }
  assert (Hdrop : drop bk l = fam ++ l2).
  { rewrite Hleq at 1. rewrite <- Hbk at 1. by rewrite drop_app_length. }
  destruct (last_split _ _ Hlst) as (fam' & Hfam').
  assert (Hfaml : ∀ k, k ∈ fam → k ∈ l).
  { intros k Hk. rewrite Hleq. apply elem_of_app. right.
    apply elem_of_app. by left. }
  assert (Hlstf : lst ∈ fam).
  { rewrite Hfam'. apply elem_of_app. right. by left. }
  assert (Hndf : NoDup fam).
  { rewrite Hleq in Hnd. apply NoDup_app in Hnd as (_ & _ & Hnd).
    by apply NoDup_app in Hnd as (Hnd & _ & _). }
  destruct (repo_ok_bucket _ _ _ _ Hok Hl (Hfaml _ Hlstf))
    as (vb' & Hvb' & _ & _ & _ & _ & Hvl1 & _ & _ & Hvfree).
  assert (vb' = vb) as -> by congruence.
  destruct (storage_located _ _ _ _ Hok Hl Hfaml) as (es & Hes & Hloc).
  set (T := trace st ++ [EvReplaceEntity lst (b_size vb) None]).
  set (st_t := with_trace T st).
  set (st_a := after_malloc st_t).
  assert (Hheap : ∀ k, k ∈ fam → is_Some (heap st !! k)).
  { intros k Hk.
    destruct (repo_ok_bucket _ _ _ _ Hok Hl (Hfaml _ Hk)) as (b & -> & _).
    eauto. }
  destruct (run_count_entities st_t fam Hheap) as [count Hcount].
  (* the turn up to the allocation of the scratch sequence *)
  assert (Hprefix :
    sort_family EntityLess rank bk st
    = (if malloc_succeeds st then
         (es ← collect_entities fam;
          sort_family_buckets fam (sort_entities EntityLess es)
            (lst, b_size vb) false;;
          mret (bk + length fam)) st_a
       else (inl BadAlloc, st_a))).
  { unfold sort_family.
    mrun run_get_bucket_set. rewrite Hfirst. mnorm.
    mrun run_last_bucket_in_family. mrun run_get_bucket.
    destruct (Nat.leb_spec (b_capacity vb) (b_size vb)) as [?|_]; [lia|].
    mnorm.
    erewrite run_bind_ok;
      [|apply (run_replace_entity_null _ _ _ _ Hvb); apply Hvfree; lia].
    fold T. fold st_t.
    erewrite run_bind_ok; [|by apply (run_get_bucket_set st_t)].
    rewrite Hdrop. rewrite Hfam' at 1. rewrite <- app_assoc. cbn [app].
    rewrite find_bucket_app_r.
    2:{ rewrite Hfam' in Hndf. apply NoDup_app in Hndf as (_ & Hdis & _).
        intros Hin. apply (Hdis _ Hin). by left. }
    mnorm.
    replace (bk + length fam' + 1 - bk) with (length fam)
      by (rewrite Hfam' at 1; rewrite length_app; cbn; lia).
    rewrite take_app_length.
    rewrite (run_bind_ok _ _ _ _ _ Hcount).
    rewrite run_bind, run_vector_allocate.
    change (malloc_succeeds st_t) with (malloc_succeeds st).
    destruct (malloc_succeeds st); [|done].
    fold st_a.
    replace (bk + length fam' + 1) with (bk + length fam); [done|].
    rewrite Hfam' at 1. rewrite length_app. cbn. lia. }
  rewrite Hprefix. clear Hprefix.
  assert (Hfr_a : sort_frame st st_a).
  { apply (sort_frame_step st st_a st_a 1);
      [done|done|done|apply tail_drop|apply same_shape_refl|done]. }
  destruct (malloc_succeeds st); [|by exists st_a].
  destruct (sort_family_buckets_spec st_a rank l fam lst vb es
              (sort_entities EntityLess es))
    as (st' & chg & Hrun & Hsh & Hok' & Hst' & Hframe & Hnoop & Hdk & Hhk
        & _);
    try done.
  { apply sort_entities_perm. }
  exists st'. split.
  - erewrite run_bind_ok.
    2:{ apply (run_collect_entities st_a fam es); [|done].
        intros k Hk.
        destruct (repo_ok_bucket _ _ _ _ Hok Hl (Hfaml _ Hk))
          as (b & Hb & _ & _ & Hc & Hs & Hl1 & _).
        exists b. split; [done|]. lia. }
    by rewrite (run_bind_ok _ _ _ _ _ Hrun), run_ret.
  - unfold family_sorted. split_and!.
    + by apply (sort_frame_step st st_a st' 1);
        [done|done|done|apply tail_drop|done|done].
    + exists es. done.
    + done.
    + intros es' Hes' Hsorted.
      assert (es' = es) as ->.
      { rewrite Hes in Hes'. by apply (inj (fmap Some)) in Hes'. }
      rewrite (Hnoop Hsorted). unfold no_moves. split_and!; try done.
      exists [EvReplaceEntity lst (b_size vb) None]. split; [done|].
      by repeat constructor.
    + done.
    + apply (hooks_in_mono _ _
               (λ e, False ∨ e ∈ sort_entities EntityLess es)).
      { intros e [[]|He]. by eapply storage_sorted. }
      apply (hooks_in_trans st st_a st'); [|done|tauto].
      apply (hooks_in_quiet _ _ [EvReplaceEntity lst (b_size vb) None]);
        [done|by repeat constructor].
Qed.

Lemma NoDup_split_inj {A} (a b a' b' : list A) x :
  NoDup (a ++ x :: b) → a ++ x :: b = a' ++ x :: b' → a = a' ∧ b = b'.
Proof.
  revert a'. induction a as [|y a IH]; intros [|y' a'] Hnd Heq; cbn in *.
  - by injection Heq.
  - injection Heq as <- ->. apply NoDup_cons in Hnd as [Hx _].
    exfalso. apply Hx. apply elem_of_app. right. by left.
  - injection Heq as -> <-. apply NoDup_cons in Hnd as [Hx _].
    exfalso. apply Hx. apply elem_of_app. right. by left.
  - injection Heq as -> Heq. apply NoDup_cons in Hnd as [_ Hnd].
    destruct (IH _ Hnd Heq) as [-> ->]. done.
Qed.

Lemma live_entities_ext st st' k :
  option_Forall2 (λ b b', b_size b' = b_size b
                          ∧ b_entities b' = b_entities b)
    (heap st !! k) (heap st' !! k) →
  live_entities st' k = live_entities st k.
Proof.
  unfold live_entities. intros [b b' [Hs He]|]; [|done]. cbn.
  by rewrite Hs, He.
Qed.

Lemma storage_ext st st' fam :
  (∀ k, k ∈ fam → live_entities st' k = live_entities st k) →
  storage st' fam = storage st fam.
Proof.
  induction fam as [|k fam IH]; intros Hfam; [done|].
  unfold storage. cbn [mbind list_bind]. f_equal.
  - apply Hfam. by left.
  - apply IH. intros k' Hk'. apply Hfam. by right.
Qed.

Lemma storage_app st fam1 fam2 :
  storage st (fam1 ++ fam2) = storage st fam1 ++ storage st fam2.
Proof. unfold storage. apply bind_app. Qed.

(** [declare_bucket] inserts behind the last bucket of the family. *)
Lemma family_end_position st rank l l1 l2 P lst :
  repo_ok st → below_max st → m_buckets st !! rank = Some l →
  (Z.of_nat (length P) + 2 ≤ UINT_MAX)%Z →
  l = l1 ++ family (skel <$> heap st) P l ++ l2 →
  last (family (skel <$> heap st) P l) = Some lst →
  family_end st l P = length l1 + length (family (skel <$> heap st) P l).
Proof.
  intros Hok Hbelow Hl HP Hleq Hlst.
  pose proof (repo_ok_rank _ _ _ Hok Hl) as Hrk.
  assert (Hcnt : counters_below_max (skel <$> heap st) l).
  { apply (below_max_counters _ rank); [done|done|].
    intros k Hk. destruct (repo_ok_bucket _ _ _ _ Hok Hl Hk) as (b & ? & _).
    eauto. }
  pose proof (found_last_bucket _ _ _ _ P Hrk Hcnt HP) as Hfound.
  rewrite Hlst in Hfound. unfold family_end.
  destruct (lower_bound _ _) as [|ik'] eqn:Hlb; [done|].
  destruct (l !! ik') as [p|] eqn:Hp; [|done].
  destruct ((key_at (skel <$> heap st) <$> l) !! ik') as [kp|]; [|done].
  destruct (bucket_part_equal _ _); [|done]. injection Hfound as ->.
  destruct (last_split _ _ Hlst) as (fam' & Hfam').
  revert Hleq. rewrite Hfam'. intros Hleq.
  assert (Hp' : l !! (length l1 + length fam') = Some lst).
  { rewrite Hleq. rewrite lookup_app_r by lia.
    replace (length l1 + length fam' - length l1) with (length fam') by lia.
    rewrite <- app_assoc. rewrite lookup_app_r by lia.
    by rewrite Nat.sub_diag. }
  pose proof (keys_sorted_NoDup _ _ (proj1 Hrk)) as Hnd.
  rewrite (NoDup_lookup _ _ _ _ Hnd Hp Hp').
  rewrite length_app. cbn. lia.
Qed.

Lemma option_Forall2_impl {A B} (P Q : A → B → Prop) o1 o2 :
  option_Forall2 P o1 o2 → (∀ x y, P x y → Q x y) → option_Forall2 Q o1 o2.
Proof. intros [x y H|] HPQ; constructor. auto. Qed.

Lemma dat_ext st st' k i :
  option_Forall2 (λ b b', b_field_data b' = b_field_data b)
    (heap st !! k) (heap st' !! k) →
  dat st' (k, i) = dat st (k, i).
Proof. unfold dat. cbn. intros [b b' Hd|]; [|done]. cbn. by rewrite Hd. Qed.

(** The turn of a family whose last bucket is full: a scratch bucket is
    declared, takes the vacant slot, and is destroyed again.  The turn
    fails when the scratch bucket cannot be allocated, when its insertion
    into the list fails, which leaves the family half updated, or when the
    scratch sequence cannot be allocated, which leaves the scratch bucket
    behind. *)
Lemma sort_family_scratch st rank l bk first fam l2 lst fb vb :
  repo_ok st → below_max st → m_buckets st !! rank = Some l →
  l !! bk = Some first →
  fam = family (skel <$> heap st) (key_part_ord (b_key fb)) l →
  l = take bk l ++ fam ++ l2 → last fam = Some lst → NoDup l →
  heap st !! first = Some fb → b_first fb = Some first →
  b_family fb = Some lst → wf_key (b_key fb) →
  heap st !! lst = Some vb → b_first vb = Some first →
  key_part_ord (b_key vb) = key_part_ord (b_key fb) →
  last_of (heap st) first = Some lst →
  b_capacity vb = m_bucket_capacity st → b_size vb = b_capacity vb →
  if decide (m_bucket_capacity st = 0) then
    sort_family EntityLess rank bk st
    = (inl (LogicError declare_bucket_method), st)
  else if malloc_succeeds st then
    ∃ st',
      if malloc_succeeds (after_malloc st) then
        if malloc_succeeds (after_malloc (after_malloc st)) then
          sort_family EntityLess rank bk st = (inr (bk + length fam), st')
          ∧ family_sorted EntityLess st st' fam
        else
          sort_family EntityLess rank bk st = (inl BadAlloc, st')
          ∧ repo_ok st'
      else
        sort_family EntityLess rank bk st = (inl BadAlloc, st')
        ∧ insert_failed st'
  else
    sort_family EntityLess rank bk st = (inl MallocFailed, after_malloc st).
Proof.
  intros Hok Hbelow Hl Hfirst Hfam Hleq Hlst Hnd Hfb Hfbf Hfbl Hwf Hvb Hvbf
    HvP Hlast Hcap Hsz.
  set (P := key_part_ord (b_key fb)) in *.
  assert (HP : (Z.of_nat (length P) + 2 ≤ UINT_MAX)%Z) by by destruct Hwf.
  assert (Hprefix : ∀ A (k : option nat * nat * nat → M A),
    (buckets ← get_bucket_set rank;
     first ← deref (buckets !! bk);
     ik_vacant ← last_bucket_in_family first;
     vb ← get_bucket ik_vacant;
     let ie_vacant := b_size vb in
     r ← (if b_capacity vb <=? ie_vacant then
            fb ← get_bucket first;
            let bucket_key := b_key fb in
            let part_count :=
              Z.to_nat (wrap_unsigned (hd 0%Z bucket_key - 1)) in
            let part_ord := take part_count (drop 1 bucket_key) in
            fields ← gets m_fields;
            b_scratch ← declare_bucket rank part_ord fields;
            mret (Some b_scratch, b_scratch, 0)
          else mret (None, ik_vacant, ie_vacant));
     k r) st
    = (b_scratch ← declare_bucket rank P (m_fields st);
       k (Some b_scratch, b_scratch, 0)) st).
  { intros A k. mrun run_get_bucket_set. rewrite Hfirst. mnorm.
    mrun run_last_bucket_in_family. mrun run_get_bucket.
    destruct (Nat.leb_spec (b_capacity vb) (b_size vb)) as [_|?]; [|lia].
    mnorm. mrun run_get_bucket. rewrite (part_ord_of_key _ Hwf).
    rewrite run_bind_assoc, run_bind, run_gets. rewrite run_bind_assoc.
    rewrite (run_bind (declare_bucket _ _ _)).
    rewrite (run_bind (declare_bucket _ _ _)). fold P.
    destruct (declare_bucket rank P (m_fields st) st) as [[e|n] st1];
      [done|]. by rewrite run_bind_ret. }
  unfold sort_family. rewrite Hprefix. clear Hprefix.
  rewrite run_bind.
  pose proof (declare_bucket_spec st rank P (m_fields st) l Hok Hbelow Hl HP)
    as Hdecl.
  rewrite <- Hfam, Hlst in Hdecl.
  destruct Hdecl as (pb & f & ffb & Hlstl & Hpb & Hpbf & Hffb & Hffbl & _
                     & Hdecl).
  assert (pb = vb) as -> by congruence.
  assert (f = first) as -> by congruence.
  assert (ffb = fb) as -> by congruence.
  rewrite Hdecl. clear Hdecl.
  destruct (decide (m_bucket_capacity st = 0)) as [Hc0|Hc0].
  { replace (b_size vb) with 0 by lia. done. }
  destruct (Nat.eqb_spec (b_size vb) 0) as [?|Hsz0]; [lia|].
  destruct (Nat.ltb_spec (b_size vb) (b_capacity vb)) as [?|_]; [lia|].
  destruct (malloc_succeeds st) eqn:Hmalloc; [|done].
  set (st_m := after_malloc (after_malloc st)).
  assert (Hok_m : repo_ok st_m) by done.
  destruct (malloc_succeeds (after_malloc st)) eqn:Hmalloc2.
  2:{ eexists. split; [done|].
      exists st_m, rank, l, lst, first, vb, fb. by split_and!. }
  (* the list and the heap with the scratch bucket *)
  set (n := next_address st).
  assert (Hbk : length (take bk l) = bk).
  { apply length_take_le. apply lookup_lt_Some in Hfirst. lia. }
  assert (Hik : family_end st l P = bk + length fam).
  { rewrite Hfam. rewrite <- Hbk at 1.
    apply (family_end_position st rank l _ l2 P lst); try done.
    - by rewrite <- Hfam.
    - by rewrite <- Hfam. }
  assert (Hok0 : repo_ok (family_extended rank l (family_end st l P) lst
                            first vb fb st_m)).
  { apply (repo_ok_family_extended st_m rank l P lst vb first fb);
      [done|done|done|cbn; by rewrite <- Hfam|done|done|done|lia|done
      |done]. }
  rewrite Hik in *.
  set (st0 := family_extended rank l (bk + length fam) lst first vb fb st_m)
    in *.
  assert (Hl' : l = (take bk l ++ fam) ++ l2) by by rewrite <- app_assoc.
  assert (Htake : take (bk + length fam) l = take bk l ++ fam).
  { rewrite Hl' at 1. rewrite <- Hbk at 1. rewrite <- length_app.
    by rewrite take_app_length. }
  assert (Hdrop : drop (bk + length fam) l = l2).
  { rewrite Hl' at 1. rewrite <- Hbk at 1. rewrite <- length_app.
    by rewrite drop_app_length. }
  set (l_a := (take bk l ++ fam) ++ n :: l2).
  assert (Hla : m_buckets st0 !! rank = Some l_a).
  { subst st0. unfold family_extended, with_new_bucket. cbn.
    rewrite list_lookup_insert_eq by by eapply rank_lt_length.
    by rewrite Htake, Hdrop. }
  assert (Hfresh : heap st !! n = None) by by apply repo_ok_fresh.
  assert (Hfn : first ≠ n) by (intros ->; congruence).
  set (nb := new_bucket rank
               (search_key (key_part_ord (b_key vb))
                  (1 + key_family_count (b_key vb)))
               (m_bucket_capacity st) (b_field_map vb) (Some first) None).
  assert (Hn : heap st0 !! n = Some nb).
  { subst st0. unfold family_extended, extended_heap. cbn.
    rewrite lookup_insert_ne by done. by rewrite lookup_insert_eq. }
  assert (Hf0 : heap st0 !! first = Some (with_family (Some n) fb)).
  { subst st0. unfold family_extended, extended_heap. cbn.
    by rewrite lookup_insert_eq. }
  assert (Hother : ∀ k, k ≠ n → k ≠ first → heap st0 !! k = heap st !! k).
  { intros k ? ?. subst st0. unfold family_extended, extended_heap. cbn.
    by rewrite !lookup_insert_ne by done. }
  assert (Hnl : n ∉ l) by by eapply fresh_not_in.
  assert (Hfaml : ∀ k, k ∈ fam → k ∈ l).
  { intros k Hk. rewrite Hleq. apply elem_of_app. right.
    apply elem_of_app. by left. }
  assert (Hnfam : n ∉ fam) by (intros Hin; by apply Hnl, Hfaml).
  assert (Hsame0 : ∀ k, k ≠ n →
            option_Forall2 (λ b b', b_size b' = b_size b
                                    ∧ b_entities b' = b_entities b
                                    ∧ b_field_data b' = b_field_data b)
              (heap st !! k) (heap st0 !! k)).
  { intros k Hkn. destruct (decide (k = first)) as [->|Hkf].
    - rewrite Hf0, Hfb. by constructor.
    - rewrite (Hother _ Hkn Hkf). destruct (heap st !! k); by constructor. }
  assert (Hlive0 : ∀ k, k ≠ n → live_entities st0 k = live_entities st k).
  { intros k Hkn. apply live_entities_ext.
    eapply option_Forall2_impl; [apply (Hsame0 k Hkn)|]. by intros ? ? (? & ? & ?). }
  assert (Hdat0 : ∀ k i, k ≠ n → dat st0 (k, i) = dat st (k, i)).
  { intros k i Hkn. apply dat_ext.
    eapply option_Forall2_impl; [apply (Hsame0 k Hkn)|]. by intros ? ? (? & ? & ?). }
  assert (Hliven : live_entities st0 n = []).
  { unfold live_entities. by rewrite Hn. }
  (* the vacant slot *)
  erewrite run_bind_ok.
  2:{ apply (run_replace_entity_null _ _ _ nb Hn). cbn.
      apply lookup_replicate_2. lia. }
  set (T := trace st0 ++ [EvReplaceEntity n 0 None]).
  set (st_t := with_trace T st0).
  set (st_a := after_malloc st_t).
  erewrite run_bind_ok; [|by apply (run_get_bucket_set st_t)].
  assert (Hdropa : drop bk l_a = fam ++ n :: l2).
  { subst l_a. rewrite <- app_assoc. rewrite <- Hbk at 1.
    by rewrite drop_app_length. }
  rewrite Hdropa, (find_bucket_app_r _ _ _ Hnfam). mnorm.
  replace (bk + length fam + 1 - bk) with (length (fam ++ [n]))
    by (rewrite length_app; cbn; lia).
  replace (fam ++ n :: l2) with ((fam ++ [n]) ++ l2)
    by by rewrite <- app_assoc.
  rewrite take_app_length.
  (* the entities of the family *)
  assert (Hfama : ∀ k, k ∈ fam ++ [n] → k ∈ l_a).
  { intros k Hk. subst l_a. apply elem_of_app in Hk as [Hk|Hk].
    - apply elem_of_app. left. apply elem_of_app. by right.
    - apply elem_of_app. right. apply list_elem_of_singleton in Hk as ->.
      by left. }
  assert (Hnda : NoDup l_a).
  { eapply keys_sorted_NoDup, (repo_ok_rank st0 rank l_a Hok0 Hla). }
  assert (Hndfa : NoDup (fam ++ [n])).
  { subst l_a. apply NoDup_app in Hnda as (Hnd1 & _ & _).
    apply NoDup_app in Hnd1 as (_ & _ & Hndf).
    apply NoDup_app. split_and!; [done| |apply NoDup_singleton].
    intros k Hk ->%list_elem_of_singleton. done. }
  destruct (run_count_entities st_t (fam ++ [n])) as [count Hcount].
  { intros k Hk.
    destruct (repo_ok_bucket st0 _ _ _ Hok0 Hla (Hfama _ Hk)) as (b & Hb & _).
    by exists b. }
  rewrite (run_bind_ok _ _ _ _ _ Hcount).
  rewrite run_bind, run_vector_allocate.
  change (malloc_succeeds st_t) with (malloc_succeeds st_m).
  fold st_a. subst st_m.
  destruct (malloc_succeeds (after_malloc (after_malloc st))) eqn:Hmalloc3.
  2:{ exists st_a. split; [done|]. done. }
  destruct (storage_located st_a rank l_a (fam ++ [n]) Hok0 Hla Hfama)
    as (es & Hes & Hloc).
  assert (Hes0 : storage st fam = Some <$> es).
  { rewrite <- Hes. rewrite storage_app.
    change (storage st_a) with (storage st0).
    assert (storage st0 [n] = []) as ->.
    { unfold storage. cbn. by rewrite Hliven. }
    rewrite app_nil_r. symmetry. apply storage_ext.
    intros k Hk. apply Hlive0. intros ->. done. }
  erewrite run_bind_ok.
  2:{ apply (run_collect_entities st_a _ es); [|done].
      intros k Hk.
      destruct (repo_ok_bucket st_a _ _ _ Hok0 Hla (Hfama _ Hk))
        as (b & Hb & _ & _ & Hc & Hs & Hl1 & _).
      exists b. split; [done|]. lia. }
  (* the slot loop *)
  destruct (sort_family_buckets_spec st_a rank l_a (fam ++ [n]) n nb es
              (sort_entities EntityLess es))
    as (st_b & chg & Hrun & Hsh & Hokb & Hstb & Hframe & Hnoop & Hdk & Hhk
        & Hplaced & Hdframe & Heframe);
    try done.
  { apply elem_of_app. right. by left. }
  { cbn. lia. }
  { apply sort_entities_perm. }
  change (b_size nb) with 0 in Hrun.
  rewrite (run_bind_ok _ _ _ _ _ Hrun).
  (* the scratch bucket goes *)
  assert (Hna : heap st_a !! n = Some nb) by done.
  assert (Hfa : heap st_a !! first = Some (with_family (Some n) fb)) by done.
  destruct (same_shape_lookup _ _ _ _ Hsh Hna)
    as (db & Hdb & Hdskel & _ & Hdle & _).
  destruct (same_shape_lookup _ _ _ _ Hsh Hfa)
    as (fb' & Hfb' & Hfskel & _ & Hfle & _).
  assert (Hlab : m_buckets st_b !! rank = Some l_a).
  { destruct Hsh as (_ & _ & -> & _). done. }
  assert (Hdsz : b_size db = 0) by by injection Hdskel.
  destruct (destroy_bucket_last st_b rank l_a n db first fb' Hokb Hlab)
    as (l1 & l2' & h' & Hsplit & Hdestroy & Hok' & Hh');
    [subst l_a; apply elem_of_app; right; by left|done|by injection Hdskel
    |done|by injection Hfskel|done|].
  destruct Hh' as [[? _]|(_ & l1' & prev & Hl1 & Hh')]; [done|].
  destruct (NoDup_split_inj (take bk l ++ fam) l2 l1 l2' n Hnda Hsplit)
    as [<- <-].
  destruct (last_split _ _ Hlst) as (fam' & Hfam').
  assert (prev = lst) as ->.
  { rewrite Hfam' in Hl1. rewrite app_assoc in Hl1.
    by apply app_inj_tail in Hl1 as [_ ->]. }
  rewrite <- Hl' in Hdestroy, Hok'.
  rewrite (run_bind_ok _ _ _ _ _ Hdestroy), run_ret.
  eexists. split; [do 2 f_equal; lia|].
  set (st' := bucket_destroyed rank l h' n st_b) in *.
  assert (Hsame' : ∀ k, k ≠ n →
            option_Forall2 (λ b b', b_size b' = b_size b
                                    ∧ b_entities b' = b_entities b
                                    ∧ b_field_data b' = b_field_data b)
              (heap st_b !! k) (heap st' !! k)).
  { intros k Hkn. subst st'. cbn. rewrite Hh'.
    rewrite lookup_delete_ne by done.
    destruct (decide (k = first)) as [->|Hkf].
    - rewrite lookup_insert_eq, Hfb'. by constructor.
    - rewrite lookup_insert_ne by done.
      destruct (heap st_b !! k); by constructor. }
  assert (Hlive' : ∀ k, k ≠ n → live_entities st' k = live_entities st_b k).
  { intros k Hkn. apply live_entities_ext.
    eapply option_Forall2_impl; [apply (Hsame' k Hkn)|]. by intros ? ? (? & ? & ?). }
  assert (Hdat' : ∀ k i, k ≠ n → dat st' (k, i) = dat st_b (k, i)).
  { intros k i Hkn. apply dat_ext.
    eapply option_Forall2_impl; [apply (Hsame' k Hkn)|]. by intros ? ? (? & ? & ?). }
  assert (Hlivea : ∀ k, live_entities st_a k = live_entities st0 k) by done.
  unfold family_sorted. split_and!.
  - unfold sort_frame. split_and!.
    + done.
    + subst st'. cbn. destruct Hsh as (_ & _ & -> & _). subst st_a st_t st0.
      unfold family_extended, with_new_bucket. cbn.
      rewrite list_insert_insert_eq. by apply list_insert_id.
    + subst st'. cbn. rewrite Hh'. apply map_eq. intros k.
      rewrite !lookup_fmap.
      destruct (decide (k = n)) as [->|Hkn].
      { by rewrite lookup_delete_eq, Hfresh. }
      rewrite lookup_delete_ne by done.
      destruct (decide (k = first)) as [->|Hkf].
      { rewrite lookup_insert_eq, Hfb. cbn. f_equal.
        unfold skel in *. cbn in *. injection Hfskel as -> -> -> -> -> _.
        by rewrite Hfbl. }
      rewrite lookup_insert_ne by done.
      pose proof (same_shape_skel _ _ Hsh) as Hskel.
      apply (f_equal (λ m, m !! k)) in Hskel. rewrite !lookup_fmap in Hskel.
      rewrite Hskel. change (heap st_a) with (heap st0).
      by rewrite (Hother _ Hkn Hkf).
    + subst st'. cbn. by destruct Hsh as (_ & -> & _).
    + exists 3. subst st'. cbn. destruct Hsh as (_ & _ & _ & _ & -> & _).
      subst st_a st_t st0. cbn. by destruct (malloc_supply st) as [|? [|? [|? ?]]].
  - exists es. split; [done|].
    rewrite <- Hstb, storage_app.
    assert (storage st_b [n] = []) as ->.
    { unfold storage, live_entities. cbn. rewrite Hdb. cbn.
      by rewrite Hdsz. }
    rewrite app_nil_r. apply storage_ext.
    intros k Hk. apply Hlive'. intros ->. done.
  - intros k Hk. destruct (decide (k = n)) as [->|Hkn].
    + unfold live_entities. rewrite Hfresh. subst st'. cbn.
      by rewrite Hh', lookup_delete_eq.
    + rewrite (Hlive' _ Hkn), Hframe, Hlivea; [by apply Hlive0|].
      intros [?|?%list_elem_of_singleton]%elem_of_app; done.
  - intros es' Hes' Hsorted.
    assert (es' = es) as ->.
    { rewrite Hes0 in Hes'. by apply (inj (fmap Some)) in Hes'. }
    specialize (Hnoop Hsorted). subst st_b.
    assert (fb' = with_family (Some n) fb) as -> by congruence.
    unfold no_moves. split_and!.
    + subst st'. cbn. rewrite Hh'. apply map_eq. intros k.
      destruct (decide (k = n)) as [->|Hkn].
      { by rewrite lookup_delete_eq, Hfresh. }
      rewrite lookup_delete_ne by done.
      destruct (decide (k = first)) as [->|Hkf].
      { rewrite lookup_insert_eq, Hfb. f_equal.
        destruct fb. cbn in *. by rewrite Hfbl. }
      rewrite lookup_insert_ne by done.
      change (heap st_a) with (heap st0). by apply Hother.
    + done.
    + exists [EvAllocate n; EvReplaceEntity n 0 None; EvFree n].
      split; [|by repeat constructor].
      subst st' st_a st_t T st0. cbn. by rewrite <- !app_assoc.
  - (* the field data follows the entities *)
    intros r lk k e Hlk Hk He.
    destruct (live_located _ _ _ _ _ Hok Hlk Hk He)
      as (i & b & Hb & Hi & Hese & Hent & Hd).
    assert (Hkn : k ≠ n) by (intros ->; congruence).
    assert (Hka : ∃ lk', m_buckets st_a !! r = Some lk' ∧ k ∈ lk').
    { destruct (decide (r = rank)) as [->|Hr].
      - exists l_a. split; [done|]. assert (lk = l) as -> by congruence.
        subst l_a. rewrite Hl' in Hk.
        apply elem_of_app in Hk as [Hk|Hk].
        + apply elem_of_app. by left.
        + apply elem_of_app. right. by right.
      - exists lk. split; [|done]. subst st_a st_t st0.
        unfold family_extended, with_new_bucket. cbn.
        by rewrite list_lookup_insert_ne. }
    destruct Hka as (lk' & Hlk' & Hk').
    assert (Hea : data_of st_a e = data_of st e).
    { unfold data_of. change (entities st_a) with (entities st).
      rewrite Hese. cbn. change (dat st_a) with (dat st0). by apply Hdat0. }
    assert (Heb : data_of st_b e = data_of st_a e).
    { apply (Hdk r lk' k e Hlk' Hk'). rewrite Hlivea, Hlive0; done. }
    rewrite <- Hea, <- Heb. unfold data_of.
    change (entities st') with (entities st_b).
    assert (Hq : ∃ q, entities st_b !! e = Some q ∧ q.1 ≠ n).
    { destruct (decide (e ∈ sort_entities EntityLess es)) as [Hin|Hout].
      - destruct (Forall2_elem_of_r _ _ _ _ Hplaced Hin) as (q & Hq & Hqe).
        exists q. split; [done|].
        apply elem_of_family_positions in Hq as [Hq1 Hq2]. intros Hqn.
        rewrite Hqn in Hq2. unfold size_at in Hq2.
        rewrite Hna in Hq2. cbn in Hq2. lia.
      - exists (k, i). split; [|done]. rewrite (Heframe _ Hout).
        by change (entities st_a) with (entities st). }
    destruct Hq as ([qk qi] & -> & Hqn). cbn. by apply Hdat'.
  - (* the hooks *)
    apply (hooks_in_mono _ _
             (λ e, (False ∨ e ∈ sort_entities EntityLess es) ∨ False)).
    { intros e [[[]|He]|[]]. by eapply storage_sorted. }
    apply (hooks_in_trans st st_b st').
    + apply (hooks_in_trans st st_a st_b); [|done|tauto].
      apply (hooks_in_quiet _ _ [EvAllocate n; EvReplaceEntity n 0 None]);
        [|by repeat constructor].
      subst st_a st_t T st0. cbn. by rewrite <- !app_assoc.
    + apply (hooks_in_quiet _ _ [EvFree n]); [done|by repeat constructor].
    + tauto.
Qed.

(** One turn of the family loop, at a boundary [bk] of the list. *)
Lemma sort_family_spec st rank l bk first :
  repo_ok st → below_max st → m_buckets st !! rank = Some l →
  boundary (skel <$> heap st) l bk → l !! bk = Some first →
  first ∈ family_of st l first
  ∧ drop bk l = family_of st l first
                ++ drop (bk + length (family_of st l first)) l
  ∧ boundary (skel <$> heap st) l (bk + length (family_of st l first))
  ∧ match sort_family EntityLess rank bk st with
    | (inr ek, st') =>
        ek = bk + length (family_of st l first)
        ∧ family_sorted EntityLess st st' (family_of st l first)
    | (inl e, st') =>
        (repo_ok st' ∨ (e = BadAlloc ∧ insert_failed st'))
        ∧ (m_bucket_capacity st = 0 ∨ ¬ supply_ok st)
    end.
Proof.
  intros Hok Hbelow Hl Hbd Hfirst.
  destruct (sort_family_setup _ _ _ _ _ Hok Hl Hbd Hfirst)
    as (fam & l2 & lst & fb & vb & Hfam & Hleq & Hhd & Hlst & Hbd' & Hfb
        & Hfbf & Hfbl & Hwf & Hkey & Hvb & Hvbf & HvP & Hcap & Hsz & Hlast
        & Hnd).
  unfold family_of. rewrite <- Hfam.
  assert (Hbk : length (take bk l) = bk).
  { apply length_take_le. apply lookup_lt_Some in Hfirst. lia. }
  split_and!.
  - destruct fam; [done|]. injection Hhd as ->. by left.
  - assert (Hl' : l = (take bk l ++ fam) ++ l2) by by rewrite <- app_assoc.
    assert (drop (bk + length fam) l = l2) as ->.
    { rewrite Hl' at 1. rewrite <- Hbk at 1. rewrite <- length_app.
      by rewrite drop_app_length. }
    rewrite Hleq at 1. rewrite <- Hbk at 1. by rewrite drop_app_length.
  - done.
  - assert (Hno1 : malloc_succeeds st = false → ¬ supply_ok st).
    { intros Hm Hs. apply supply_ok_malloc in Hs. congruence. }
    assert (Hno2 : malloc_succeeds (after_malloc st) = false →
                   ¬ supply_ok st).
    { intros Hm Hs. apply supply_ok_after_malloc, supply_ok_malloc in Hs.
      congruence. }
    assert (Hno3 : malloc_succeeds (after_malloc (after_malloc st)) = false →
                   ¬ supply_ok st).
    { intros Hm Hs.
      do 2 apply supply_ok_after_malloc in Hs. apply supply_ok_malloc in Hs.
      congruence. }
    destruct (decide (b_size vb < b_capacity vb)) as [Hlt|Hge].
    + destruct (sort_family_in_place st rank l bk first fam l2 lst vb)
        as (st' & Hcase); try done.
      destruct (malloc_succeeds st) eqn:Hmalloc.
      * by destruct Hcase as [-> Hsorted].
      * destruct Hcase as [-> Hfr]. split; [left; by destruct Hfr|].
        right. by apply Hno1.
    + rewrite Hkey in Hfam.
      pose proof (sort_family_scratch st rank l bk first fam l2 lst fb vb
                    Hok Hbelow Hl Hfirst Hfam Hleq Hlst Hnd Hfb Hfbf Hfbl
                    Hwf Hvb Hvbf HvP Hlast Hcap) as Hscratch.
      destruct (decide (m_bucket_capacity st = 0)) as [Hc0|Hc0].
      { rewrite Hscratch by lia. split; by left. }
      destruct (malloc_succeeds st) eqn:Hmalloc.
      * destruct Hscratch as [st' Hcase]; [lia|].
        destruct (malloc_succeeds (after_malloc st)) eqn:Hmalloc2;
          [destruct (malloc_succeeds (after_malloc (after_malloc st)))
             eqn:Hmalloc3|].
        -- by destruct Hcase as [-> Hsorted].
        -- destruct Hcase as [-> Hok']. split; [by left|].
           right. by apply Hno3.
        -- destruct Hcase as [-> Hif]. split; [by right|].
           right. by apply Hno2.
      * rewrite Hscratch by lia. split; [by left|]. right. by apply Hno1.
Qed.

End SortFamily.


(** * [internal_sort_bucket_entities]: all families *)

Section SortFrame.

Lemma sort_frame_refl st : repo_ok st → sort_frame st st.
Proof.
  intros Hok. unfold sort_frame. split_and!; try done.
  exists 0. by rewrite drop_0.
Qed.

Lemma sort_frame_trans st1 st2 st3 :
  sort_frame st1 st2 → sort_frame st2 st3 → sort_frame st1 st3.
Proof.
  intros (_ & Hb1 & Hs1 & Hc1 & n1 & Hm1) (Hok & Hb2 & Hs2 & Hc2 & n2 & Hm2).
  unfold sort_frame. split_and!; try congruence.
  exists (n1 + n2). by rewrite Hm2, Hm1, drop_drop.
Qed.

Lemma sort_frame_after_malloc st :
  repo_ok st → sort_frame st (after_malloc st).
Proof.
  intros Hok. unfold sort_frame.
  split_and!; [by apply repo_ok_after_malloc|done|done|done|].
  exists 1. cbn. by destruct (malloc_supply st).
Qed.

Lemma sort_frame_lookup st st' k b' :
  sort_frame st st' → heap st' !! k = Some b' →
  ∃ b, heap st !! k = Some b ∧ skel b = skel b'.
Proof.
  intros (_ & _ & Hs & _) Hb'.
  apply (f_equal (λ m, m !! k)) in Hs. rewrite !lookup_fmap, Hb' in Hs.
  destruct (heap st !! k) as [b|]; [|done]. exists b. split; [done|].
  cbn in Hs. congruence.
Qed.

Lemma sort_frame_below_max st st' :
  sort_frame st st' → below_max st → below_max st'.
Proof.
  intros Hfr Hbelow rank l k b' Hl Hk Hb'.
  destruct (sort_frame_lookup _ _ _ _ Hfr Hb') as (b & Hb & Hskel).
  destruct Hfr as (_ & Hbs & _). rewrite Hbs in Hl.
  assert (b_key b' = b_key b) as -> by by injection Hskel.
  by eapply Hbelow.
Qed.

Lemma sort_frame_supply st st' :
  sort_frame st st' → supply_ok st → supply_ok st'.
Proof.
  intros (_ & _ & _ & _ & n & Hm) Hs. unfold supply_ok in *. rewrite Hm.
  by apply Forall_drop.
Qed.

Lemma family_of_frame st st' l k :
  sort_frame st st' → family_of st' l k = family_of st l k.
Proof. intros (_ & _ & Hs & _). unfold family_of. by rewrite Hs. Qed.

Lemma family_of_elem st l k k' :
  k' ∈ family_of st l k → k' ∈ l ∧ family_of st l k' = family_of st l k.
Proof.
  unfold family_of. intros [HP Hk']%elem_of_family. by rewrite HP.
Qed.

Lemma no_moves_refl st : no_moves st st.
Proof.
  unfold no_moves. split_and!; try done. exists []. by rewrite app_nil_r.
Qed.

Lemma no_moves_trans st1 st2 st3 :
  no_moves st1 st2 → no_moves st2 st3 → no_moves st1 st3.
Proof.
  intros (Hh1 & He1 & T1 & Ht1 & Hq1) (Hh2 & He2 & T2 & Ht2 & Hq2).
  unfold no_moves. split_and!; try congruence.
  exists (T1 ++ T2). split; [|by apply Forall_app].
  by rewrite Ht2, Ht1, app_assoc.
Qed.

Lemma storage_heap st st' fam :
  heap st' = heap st → storage st' fam = storage st fam.
Proof.
  intros Hh. apply storage_ext. intros k _. unfold live_entities.
  by rewrite Hh.
Qed.

End SortFrame.

Section SortedIn.

Variable EntityLess : nat → nat → bool.

Lemma sorted_in_refl st : repo_ok st → sorted_in EntityLess st st (λ _, False).
Proof.
  intros Hok. unfold sorted_in. split_and!; try done.
  - by apply sort_frame_refl.
  - intros _. apply no_moves_refl.
  - apply hooks_in_refl.
Qed.

Lemma lives_in_ext st (K K' : nat → Prop) e :
  (∀ k, K k → K' k) → lives_in st K e → lives_in st K' e.
Proof. intros HK (r & l & k & ? & ? & ? & ?). exists r, l, k. auto. Qed.

Lemma elem_of_family_of st l k : k ∈ l → k ∈ family_of st l k.
Proof. intros Hk. unfold family_of. by apply elem_of_family. Qed.

Lemma sorted_in_ext st st' (K K' : nat → Prop) :
  (∀ k, K k ↔ K' k) →
  sorted_in EntityLess st st' K → sorted_in EntityLess st st' K'.
Proof.
  intros HK (Hfr & Hlive & Hsort & Hquiet & Hdata & Hhooks).
  unfold sorted_in. split_and!.
  - done.
  - intros k Hk. apply Hlive. by rewrite HK.
  - intros rank l k Hl Hk HK'. apply (Hsort rank l k Hl Hk). by apply HK.
  - intros Hal. apply Hquiet. intros rank l k Hl Hk HKk.
    apply (Hal rank l k Hl Hk). by apply HK.
  - done.
  - eapply hooks_in_mono; [|exact Hhooks].
    intros e. apply lives_in_ext. intros k. by apply HK.
Qed.

Lemma sorted_in_trans st st1 st2 (K1 K2 : nat → Prop) :
  repo_ok st → (∀ k, K1 k ∨ ¬ K1 k) →
  sorted_in EntityLess st st1 K1 → sorted_in EntityLess st1 st2 K2 →
  family_closed st K1 → family_closed st K2 →
  (∀ k, K1 k → K2 k → False) →
  sorted_in EntityLess st st2 (λ k, K1 k ∨ K2 k).
Proof.
  intros Hok Hdec (Hfr1 & Hlive1 & Hsort1 & Hquiet1 & Hdata1 & Hhooks1)
    (Hfr2 & Hlive2 & Hsort2 & Hquiet2 & Hdata2 & Hhooks2) Hcl1 Hcl2 Hdis.
  pose proof Hfr1 as (_ & Hbs1 & _).
  unfold sorted_in. split_and!.
  - by eapply sort_frame_trans.
  - intros k Hk. rewrite Hlive2, Hlive1; [done|tauto|tauto].
  - intros rank l k Hl Hk [HK|HK].
    + destruct (Hsort1 rank l k Hl Hk HK) as (es & Hes & Hes1).
      exists es. split; [done|]. rewrite <- Hes1. apply storage_ext.
      intros k' Hk'. apply Hlive2. intros HK2.
      apply (Hdis k'); [|done]. by eapply Hcl1.
    + destruct (Hsort2 rank l k) as (es & Hes & Hes2); [congruence|done|done|].
      rewrite (family_of_frame _ _ _ _ Hfr1) in Hes, Hes2.
      exists es. split; [|done]. rewrite <- Hes. symmetry.
      apply storage_ext. intros k' Hk'. apply Hlive1. intros HK1.
      apply (Hdis k'); [done|]. by eapply Hcl2.
  - intros Hal.
    assert (Hq1 : no_moves st st1).
    { apply Hquiet1. intros rank l k Hl Hk HK. apply (Hal rank l k Hl Hk).
      by left. }
    eapply no_moves_trans; [exact Hq1|]. apply Hquiet2.
    intros rank l k Hl Hk HK. rewrite Hbs1 in Hl.
    destruct (Hal rank l k Hl Hk) as (es & Hes & Hsorted); [by right|].
    exists es. split; [|done].
    rewrite (family_of_frame _ _ _ _ Hfr1).
    rewrite <- Hes. apply storage_heap. by destruct Hq1 as (-> & _).
  - intros rank l k e Hl Hk He. rewrite <- (Hdata1 rank l k e Hl Hk He).
    assert (∃ k', k' ∈ l ∧ Some e ∈ live_entities st1 k') as (k' & Hk' & He').
    { destruct (Hdec k) as [HK|HK].
      - destruct (Hsort1 rank l k Hl Hk HK) as (es & Hes & Hes1).
        assert (Some e ∈ storage st (family_of st l k)) as Hin.
        { apply elem_of_storage. exists k. split; [|done].
          by apply elem_of_family_of. }
        rewrite Hes in Hin. apply list_elem_of_fmap in Hin as (e' & [= <-] & Hin).
        assert (Some e ∈ storage st1 (family_of st l k)) as Hin1.
        { rewrite Hes1. apply list_elem_of_fmap_2.
          by rewrite sort_entities_perm. }
        apply elem_of_storage in Hin1 as (k' & Hk' & He').
        exists k'. split; [|done]. by apply family_of_elem in Hk' as [? _].
      - exists k. split; [done|]. by rewrite Hlive1. }
    apply (Hdata2 rank l k' e); [congruence|done|done].
  - assert (Hback : ∀ e, lives_in st1 K2 e → lives_in st K2 e).
    { intros e (r & l & k & Hl & Hk & HK & He). exists r, l, k.
      split_and!; [congruence|done|done|].
      rewrite <- Hlive1; [done|]. intros HK1. by apply (Hdis k). }
    eapply hooks_in_mono; [|eapply hooks_in_trans; [exact Hhooks1
                                                   |exact Hhooks2|]].
    + intros e [He|He].
      * eapply lives_in_ext; [|exact He]. tauto.
      * eapply lives_in_ext; [|exact (Hback e He)]. tauto.
    + intros e (r1 & l1 & k1 & Hl1 & Hk1 & HK1 & He1) He2.
      destruct (Hback e He2) as (r2 & l2 & k2 & Hl2 & Hk2 & HK2 & He2').
      destruct (live_located _ _ _ _ _ Hok Hl1 Hk1 He1)
        as (i1 & b1 & _ & _ & Hes1 & _).
      destruct (live_located _ _ _ _ _ Hok Hl2 Hk2 He2')
        as (i2 & b2 & _ & _ & Hes2 & _).
      assert (k1 = k2) as -> by congruence. by apply (Hdis k2).
Qed.

Lemma listed_unique st r r' l l' k :
  repo_ok st → m_buckets st !! r = Some l → m_buckets st !! r' = Some l' →
  k ∈ l → k ∈ l' → r = r' ∧ l = l'.
Proof.
  intros Hok Hl Hl' Hk Hk'. destruct (decide (r = r')) as [->|Hne].
  - split; [done|congruence].
  - by destruct (other_rank_not_in _ _ _ _ _ _ Hok Hl Hl' Hne Hk).
Qed.

Lemma sorted_in_family st st' rank l first :
  repo_ok st → m_buckets st !! rank = Some l →
  family_sorted EntityLess st st' (family_of st l first) →
  sorted_in EntityLess st st' (λ k, k ∈ family_of st l first).
Proof.
  intros Hok Hl (Hfr & (es & Hes & Hes') & Hlive & Hquiet & Hdata & Hhooks).
  unfold sorted_in. split_and!; try done.
  - intros r' l' k Hl' Hk' Hk.
    destruct (family_of_elem _ _ _ _ Hk) as [Hkl Hfam].
    destruct (listed_unique _ _ _ _ _ _ Hok Hl Hl' Hkl Hk') as [<- <-].
    rewrite Hfam. eauto.
  - intros Hal. apply (Hquiet es); [done|].
    destruct (decide (family_of st l first = [])) as [Hnil|Hne].
    { rewrite Hnil in Hes. cbn in Hes. symmetry in Hes.
      by apply fmap_nil_inv in Hes as ->. }
    destruct (family_of st l first) as [|k fam] eqn:Hfam; [done|].
    assert (Hk : k ∈ family_of st l first) by (rewrite Hfam; by left).
    destruct (family_of_elem _ _ _ _ Hk) as [Hkl Hfam'].
    destruct (Hal rank l k Hl Hkl) as (es' & Hes'' & Hsorted).
    { by left. }
    rewrite Hfam', Hfam, Hes in Hes''.
    apply (inj (fmap Some)) in Hes'' as ->. done.
  - eapply hooks_in_mono; [|exact Hhooks].
    intros e (k & Hk & He)%elem_of_storage. exists rank, l, k.
    split_and!; try done. by apply family_of_elem in Hk as [? _].
Qed.

Lemma family_closed_family st rank l first :
  repo_ok st → m_buckets st !! rank = Some l →
  family_closed st (λ k, k ∈ family_of st l first).
Proof.
  intros Hok Hl r' l' k k' Hl' Hk' Hk Hkk.
  destruct (family_of_elem _ _ _ _ Hk) as [Hkl Hfam].
  destruct (listed_unique _ _ _ _ _ _ Hok Hl Hl' Hkl Hk') as [<- <-].
  by rewrite Hfam in Hkk.
Qed.

Lemma family_closed_drop st rank l bk :
  repo_ok st → m_buckets st !! rank = Some l →
  boundary (skel <$> heap st) l bk →
  family_closed st (λ k, k ∈ drop bk l).
Proof.
  intros Hok Hl Hbd r' l' k k' Hl' Hk' Hk Hkk.
  assert (Hkl : k ∈ l).
  { rewrite <- (take_drop bk l). apply elem_of_app. by right. }
  destruct (listed_unique _ _ _ _ _ _ Hok Hl Hl' Hkl Hk') as [<- <-].
  unfold family_of in Hkk. apply elem_of_family in Hkk as [HP Hk'l].
  rewrite <- (take_drop bk l) in Hk'l.
  apply elem_of_app in Hk'l as [Hin|Hin]; [|done].
  by destruct (Hbd k' k Hin Hk).
Qed.

(** The family loop from a boundary [bk] on. *)
Lemma sort_families_spec rank l :
  ∀ fuel st bk,
    repo_ok st → below_max st → m_buckets st !! rank = Some l →
    boundary (skel <$> heap st) l bk → length l - bk ≤ fuel →
    match sort_families EntityLess fuel rank bk st with
    | (inr _, st') => sorted_in EntityLess st st' (λ k, k ∈ drop bk l)
    | (inl e, st') => sort_failed e st st'
    end.
Proof.
  assert (Hend : ∀ st bk, repo_ok st → length l ≤ bk →
            sorted_in EntityLess st st (λ k, k ∈ drop bk l)).
  { intros st bk Hok Hbk.
    apply (sorted_in_ext _ _ (λ _, False)); [|by apply sorted_in_refl].
    intros k. rewrite drop_ge by done. by rewrite elem_of_nil. }
  induction fuel as [|fuel IH]; intros st bk Hok Hbelow Hl Hbd Hfuel.
  - cbn [sort_families]. mrun run_get_bucket_set.
    destruct (Nat.ltb_spec bk (length l)) as [?|Hge]; [lia|].
    rewrite run_ret. by apply Hend.
  - cbn [sort_families]. mrun run_get_bucket_set.
    destruct (Nat.ltb_spec bk (length l)) as [Hlt|Hge];
      [|rewrite run_ret; by apply Hend].
    destruct (lookup_lt_is_Some_2 l bk Hlt) as [first Hfirst].
    destruct (sort_family_spec EntityLess st rank l bk first Hok Hbelow Hl
                Hbd Hfirst) as (Hff & Hdrop & Hbd' & Hrun).
    rewrite run_bind.
    destruct (sort_family EntityLess rank bk st) as [[e|ek] st1].
    + exact Hrun.
    + destruct Hrun as [-> Hsorted].
      pose proof Hsorted as (Hfr & _).
      pose proof Hfr as (Hok1 & Hbs1 & Hsk1 & Hc1 & _).
      assert (Hlen : 0 < length (family_of st l first)).
      { destruct (family_of st l first); [by apply elem_of_nil in Hff|].
        cbn. lia. }
      specialize (IH st1 (bk + length (family_of st l first)) Hok1
                    (sort_frame_below_max _ _ Hfr Hbelow)).
      rewrite Hbs1, Hsk1 in IH. specialize (IH Hl Hbd').
      destruct (sort_families EntityLess fuel rank _ st1) as [[e|[]] st2].
      * destruct IH as [Hst2 Hfail]; [lia|]. split; [done|].
        rewrite Hc1 in Hfail. destruct Hfail as [?|Hs]; [by left|].
        right. intros Hs'. apply Hs. by eapply sort_frame_supply.
      * apply (sorted_in_ext _ _
                 (λ k, k ∈ family_of st l first
                       ∨ k ∈ drop (bk + length (family_of st l first)) l)).
        { intros k. rewrite <- elem_of_app. by rewrite <- Hdrop. }
        eapply sorted_in_trans.
        -- done.
        -- intros k. destruct (decide (k ∈ family_of st l first)); tauto.
        -- by eapply sorted_in_family.
        -- apply IH. lia.
        -- by eapply family_closed_family.
        -- by eapply family_closed_drop.
        -- intros k Hk1 Hk2.
           pose proof (keys_sorted_NoDup _ _
                         (proj1 (repo_ok_rank _ _ _ Hok Hl))) as Hnd.
           rewrite <- (take_drop bk l), Hdrop in Hnd.
           apply NoDup_app in Hnd as (_ & _ & Hnd).
           apply NoDup_app in Hnd as (_ & Hdis & _). by apply (Hdis k).
Qed.

(** The rank loop. *)
Lemma sort_ranks_spec :
  ∀ ranks st,
    repo_ok st → below_max st → NoDup ranks →
    (∀ r, r ∈ ranks → r < length (m_buckets st)) →
    match sort_ranks EntityLess ranks st with
    | (inr _, st') =>
        sorted_in EntityLess st st'
          (λ k, ∃ r l, r ∈ ranks ∧ m_buckets st !! r = Some l ∧ k ∈ l)
    | (inl e, st') => sort_failed e st st'
    end.
Proof.
  induction ranks as [|r ranks IH]; intros st Hok Hbelow Hnd Hlt.
  - cbn. apply (sorted_in_ext _ _ (λ _, False)); [|by apply sorted_in_refl].
    intros k. split; [done|]. intros (r & l & Hr & _).
    by apply elem_of_nil in Hr.
  - apply NoDup_cons in Hnd as [Hr Hnd].
    destruct (lookup_lt_is_Some_2 (m_buckets st) r) as [l Hl].
    { apply Hlt. by left. }
    cbn [sort_ranks]. mrun run_get_bucket_set. rewrite run_bind.
    pose proof (sort_families_spec r l (length l) st 0 Hok Hbelow Hl
                  (boundary_0 _ _)) as Hfam.
    destruct (sort_families EntityLess (length l) r 0 st) as [[e|[]] st1].
    { apply Hfam. lia. }
    assert (Hs1 : sorted_in EntityLess st st1 (λ k, k ∈ drop 0 l))
      by (apply Hfam; lia).
    clear Hfam. pose proof Hs1 as (Hfr & _).
    pose proof Hfr as (Hok1 & Hbs1 & Hsk1 & Hc1 & _).
    specialize (IH st1 Hok1 (sort_frame_below_max _ _ Hfr Hbelow) Hnd).
    rewrite Hbs1 in IH.
    destruct (sort_ranks EntityLess ranks st1) as [[e|[]] st2].
    + destruct IH as [Hst2 Hfail]; [intros; apply Hlt; by right|].
      split; [done|].
      rewrite Hc1 in Hfail. destruct Hfail as [?|Hs]; [by left|].
      right. intros Hs'. apply Hs. by eapply sort_frame_supply.
    + apply (sorted_in_ext _ _
               (λ k, k ∈ drop 0 l
                     ∨ ∃ r' l', r' ∈ ranks ∧ m_buckets st !! r' = Some l'
                                ∧ k ∈ l')); [|eapply sorted_in_trans].
      * intros k. cbn beta. split.
        -- intros [Hk|(r' & l' & Hr' & Hl' & Hk)].
           ++ exists r, l. rewrite drop_0 in Hk. split_and!; [by left|done..].
           ++ exists r', l'. split_and!; [by right|done..].
        -- intros (r' & l' & Hr' & Hl' & Hk).
           apply elem_of_cons in Hr' as [->|Hr'].
           ++ left. rewrite drop_0. congruence.
           ++ right. eauto.
      * done.
      * intros k. destruct (decide (k ∈ drop 0 l)); tauto.
      * exact Hs1.
      * apply IH. intros; apply Hlt; by right.
      * eapply family_closed_drop; [done..|apply boundary_0].
      * intros r0 l0 k k' Hl0 Hk (r' & l' & Hr' & Hl' & Hk') Hkk.
        destruct (listed_unique _ _ _ _ _ _ Hok Hl0 Hl' Hk Hk') as [<- <-].
        exists r0, l0. split_and!; try done.
        by apply family_of_elem in Hkk as [? _].
      * intros k Hk (r' & l' & Hr' & Hl' & Hk'). rewrite drop_0 in Hk.
        destruct (listed_unique _ _ _ _ _ _ Hok Hl Hl' Hk Hk') as [<- _].
        done.
Qed.

(** [internal_sort_bucket_entities] sorts every family, or fails in a
    repository that still has the invariant. *)
Lemma internal_sort_bucket_entities_spec st :
  repo_ok st → below_max st →
  match internal_sort_bucket_entities EntityLess st with
  | (inr _, st') =>
      sorted_in EntityLess st st'
        (λ k, ∃ r l, m_buckets st !! r = Some l ∧ k ∈ l)
  | (inl e, st') => sort_failed e st st'
  end.
Proof.
  intros Hok Hbelow. unfold internal_sort_bucket_entities.
  rewrite run_bind, run_gets.
  pose proof (sort_ranks_spec (seq 0 (length (m_buckets st))) st Hok Hbelow
                (NoDup_seq _ _)) as Hranks.
  destruct (sort_ranks EntityLess _ st) as [[e|[]] st'].
  - apply Hranks. intros r Hr. apply elem_of_seq in Hr. lia.
  - eapply sorted_in_ext; [|apply Hranks].
    + intros k. split.
      * intros (r & l & _ & Hl & Hk). eauto.
      * intros (r & l & Hl & Hk). exists r, l. split_and!; try done.
        apply elem_of_seq. apply lookup_lt_Some in Hl. lia.
    + intros r Hr. apply elem_of_seq in Hr. lia.
Qed.

End SortedIn.


(** * The example repositories *)

Section Examples.

Ltac listed_cases H :=
  repeat (apply elem_of_cons in H as [->|H]); [..|by apply elem_of_nil in H].

Ltac bucket_ok_solve :=
  eexists; split; [vm_compute; reflexivity|];
  split_and!; [reflexivity|split; vm_compute; [reflexivity|discriminate]
              |reflexivity|cbn; lia].

Ltac family_ok_solve :=
  eexists _, _, _, _; split_and!;
  [vm_compute; reflexivity|reflexivity|vm_compute; reflexivity|reflexivity
  |vm_compute; reflexivity|vm_compute; reflexivity
  |first [by intros [] | intros _; cbn; lia]].

Ltac slots_ok_solve :=
  split_and!; [reflexivity|reflexivity| |];
  [intros i Hi; cbn in Hi;
   destruct i as [|[|[|i]]];
   first [lia | eexists; split; vm_compute; reflexivity]
  |intros i Hi Hc; cbn in Hi, Hc;
   destruct i as [|[|[|i]]]; first [lia | reflexivity]].

Lemma example_repo_ok : repo_ok example_repo.
Proof.
  split_and!.
  - intros [|rank] l Hl; [|by destruct rank]. injection Hl as <-. split.
    + repeat constructor.
    + intros k Hk. listed_cases Hk; (split; [bucket_ok_solve|family_ok_solve]).
  - intros [|rank] l k b Hl Hk Hb; [|by destruct rank]. injection Hl as <-.
    listed_cases Hk; vm_compute in Hb; injection Hb as <-; slots_ok_solve.
  - intros k [b Hb]. cbn in Hb |- *.
    destruct (decide (k < 2)); [done|].
    rewrite !lookup_insert_ne in Hb by lia. done.
Qed.

Lemma two_family_repo_ok : repo_ok two_family_repo.
Proof.
  split_and!.
  - intros [|rank] l Hl; [|by destruct rank]. injection Hl as <-. split.
    + repeat constructor.
    + intros k Hk. listed_cases Hk; (split; [bucket_ok_solve|family_ok_solve]).
  - intros [|rank] l k b Hl Hk Hb; [|by destruct rank]. injection Hl as <-.
    listed_cases Hk; vm_compute in Hb; injection Hb as <-; slots_ok_solve.
  - intros k [b Hb]. cbn in Hb |- *.
    destruct (decide (k < 3)); [done|].
    rewrite !lookup_insert_ne in Hb by lia. done.
Qed.

Lemma full_counter_repo_ok : repo_ok full_counter_repo.
Proof.
  split_and!.
  - intros [|rank] l Hl; [|by destruct rank]. injection Hl as <-. split.
    + repeat constructor.
    + intros k Hk. listed_cases Hk; (split; [bucket_ok_solve|family_ok_solve]).
  - intros [|rank] l k b Hl Hk Hb; [|by destruct rank]. injection Hl as <-.
    listed_cases Hk; vm_compute in Hb; injection Hb as <-; slots_ok_solve.
  - intros k [b Hb]. cbn in Hb |- *.
    destruct (decide (k < 2)); [done|].
    rewrite !lookup_insert_ne in Hb by lia. done.
Qed.

Lemma near_full_counter_repo_ok : repo_ok near_full_counter_repo.
Proof.
  split_and!.
  - intros [|rank] l Hl; [|by destruct rank]. injection Hl as <-. split.
    + repeat constructor.
    + intros k Hk. listed_cases Hk; (split; [bucket_ok_solve|family_ok_solve]).
  - intros [|rank] l k b Hl Hk Hb; [|by destruct rank]. injection Hl as <-.
    listed_cases Hk; vm_compute in Hb; injection Hb as <-; slots_ok_solve.
  - intros k [b Hb]. cbn in Hb |- *.
    destruct (decide (k < 2)); [done|].
    rewrite !lookup_insert_ne in Hb by lia. done.
Qed.

Lemma unsorted_counter_repo_ok : repo_ok unsorted_counter_repo.
Proof.
  split_and!.
  - intros [|rank] l Hl; [|by destruct rank]. injection Hl as <-. split.
    + repeat constructor.
    + intros k Hk. listed_cases Hk; (split; [bucket_ok_solve|family_ok_solve]).
  - intros [|rank] l k b Hl Hk Hb; [|by destruct rank]. injection Hl as <-.
    listed_cases Hk; vm_compute in Hb; injection Hb as <-; slots_ok_solve.
  - intros k [b Hb]. cbn in Hb |- *.
    destruct (decide (k < 2)); [done|].
    rewrite !lookup_insert_ne in Hb by lia. done.
Qed.

Lemma tagged_repo_ok : repo_ok tagged_repo.
Proof.
  split_and!.
  - intros [|rank] l Hl; [|by destruct rank]. injection Hl as <-. split.
    + repeat constructor.
    + intros k Hk. listed_cases Hk; (split; [bucket_ok_solve|family_ok_solve]).
  - intros [|rank] l k b Hl Hk Hb; [|by destruct rank]. injection Hl as <-.
    listed_cases Hk; vm_compute in Hb; injection Hb as <-; slots_ok_solve.
  - intros k [b Hb]. cbn in Hb |- *.
    destruct (decide (k < 2)); [done|].
    rewrite !lookup_insert_ne in Hb by lia. done.
Qed.

Lemma appended_repo_ok : repo_ok appended_repo.
Proof.
  split_and!.
  - intros [|rank] l Hl; [|by destruct rank]. injection Hl as <-. split.
    + repeat constructor.
    + intros k Hk. listed_cases Hk; (split; [bucket_ok_solve|family_ok_solve]).
  - intros [|rank] l k b Hl Hk Hb; [|by destruct rank]. injection Hl as <-.
    listed_cases Hk; vm_compute in Hb; injection Hb as <-; slots_ok_solve.
  - intros k [b Hb]. cbn in Hb |- *.
    destruct (decide (k < 2)); [done|].
    rewrite !lookup_insert_ne in Hb by lia. done.
Qed.

Lemma tagged_repo_below_max : below_max tagged_repo.
Proof.
  intros [|rank] l k b Hl Hk Hb; [|by destruct rank]. injection Hl as <-.
  listed_cases Hk; vm_compute in Hb; injection Hb as <-; done.
Qed.

Lemma empty_repo_ok cap : repo_ok (empty_repo cap).
Proof.
  split_and!.
  - intros [|rank] l Hl; [|by destruct rank]. injection Hl as <-. split.
    + constructor.
    + intros k Hk. by apply elem_of_nil in Hk.
  - intros [|rank] l k b Hl Hk Hb; [|by destruct rank]. injection Hl as <-.
    by apply elem_of_nil in Hk.
  - intros k [b Hb]. done.
Qed.

Lemma example_repo_below_max : below_max example_repo.
Proof.
  intros [|rank] l k b Hl Hk Hb; [|by destruct rank]. injection Hl as <-.
  listed_cases Hk; vm_compute in Hb; injection Hb as <-; done.
Qed.

Lemma two_family_repo_below_max : below_max two_family_repo.
Proof.
  intros [|rank] l k b Hl Hk Hb; [|by destruct rank]. injection Hl as <-.
  listed_cases Hk; vm_compute in Hb; injection Hb as <-; done.
Qed.

Lemma empty_repo_below_max cap : below_max (empty_repo cap).
Proof.
  intros [|rank] l k b Hl Hk Hb; [|by destruct rank]. injection Hl as <-.
  by apply elem_of_nil in Hk.
Qed.

End Examples.

(** * The invariants of the spec follow from the repository invariant *)

Section Invariants.

Lemma last_of_pointers st rank l k :
  repo_ok st → m_buckets st !! rank = Some l → k ∈ l →
  ∃ b lst,
    heap st !! k = Some b ∧ last_of (heap st) k = Some lst
    ∧ last (family (skel <$> heap st) (key_part_ord (b_key b)) l) = Some lst
    ∧ b_capacity b = m_bucket_capacity st ∧ wf_key (b_key b)
    ∧ (k ≠ lst → b_size b = m_bucket_capacity st).
Proof.
  intros Hok Hl Hk.
  destruct (family_ok_pointers _ _ _ _ Hok Hl Hk)
    as (b & f & fb & lst & Hb & Hf & Hfb & Hfam & _ & Hlst & Hfull).
  destruct (repo_ok_bucket _ _ _ _ Hok Hl Hk) as (b' & Hb' & _ & Hwf & Hcap & _).
  assert (b' = b) as -> by congruence.
  exists b, lst. split_and!; try done.
  - unfold last_of. rewrite Hb. cbn. rewrite Hf. cbn. by rewrite Hfb.
  - intros Hne. by apply Hfull.
Qed.

Lemma repo_ok_packing st : repo_ok st → packing st.
Proof.
  intros Hok rank l k b Hl Hk Hb Hlast.
  destruct (last_of_pointers _ _ _ _ Hok Hl Hk)
    as (b' & lst & Hb' & Hlst & _ & Hcap & _ & Hfull).
  assert (b' = b) as -> by congruence.
  rewrite Hcap. apply Hfull. intros ->. congruence.
Qed.

Lemma repo_ok_one_partial st : repo_ok st → one_partial_bucket st.
Proof.
  intros Hok rank l k1 k2 b1 b2 Hl Hk1 Hk2 Hb1 Hb2 Heq Hs1 Hs2.
  destruct (last_of_pointers _ _ _ _ Hok Hl Hk1)
    as (b1' & lst1 & Hb1' & _ & Hlst1 & Hcap1 & Hwf1 & Hfull1).
  destruct (last_of_pointers _ _ _ _ Hok Hl Hk2)
    as (b2' & lst2 & Hb2' & _ & Hlst2 & Hcap2 & Hwf2 & Hfull2).
  assert (b1' = b1) as -> by congruence.
  assert (b2' = b2) as -> by congruence.
  apply (bucket_part_equal_wf _ _ Hwf1 Hwf2) in Heq.
  rewrite Heq in Hlst1.
  assert (k1 = lst1).
  { destruct (decide (k1 = lst1)) as [|Hne]; [done|].
    specialize (Hfull1 Hne). lia. }
  assert (k2 = lst2).
  { destruct (decide (k2 = lst2)) as [|Hne]; [done|].
    specialize (Hfull2 Hne). lia. }
  congruence.
Qed.

Lemma repo_ok_packed st : repo_ok st → packed st.
Proof.
  intros Hok. split; [by apply repo_ok_packing|by apply repo_ok_one_partial].
Qed.

Lemma repo_ok_keys st rank l :
  repo_ok st → m_buckets st !! rank = Some l →
  mapM (λ k, b_key <$> heap st !! k) l
  = Some (key_at (skel <$> heap st) <$> l).
Proof.
  intros Hok Hl.
  apply mapM_Some. apply Forall2_fmap_r, Forall_Forall2_diag, Forall_forall.
  intros k Hk. destruct (repo_ok_bucket _ _ _ _ Hok Hl Hk) as (b & Hb & _).
  unfold key_at, compose. by rewrite lookup_fmap, Hb.
Qed.

Lemma repo_ok_ordering st : repo_ok st → ordering st.
Proof.
  intros Hok rank l Hl. exists (key_at (skel <$> heap st) <$> l).
  split; [by eapply repo_ok_keys|].
  pose proof (proj1 (repo_ok_rank _ _ _ Hok Hl)) as Hsorted.
  unfold keys_sorted in Hsorted.
  eapply StronglySorted_fmap; [|exact Hsorted]. done.
Qed.

End Invariants.

(** * What a failing insertion leaves *)

Section InsertFailed.

(** A bucket of the repository after the insertion failed: it is the
    bucket it was, but for the pointer of the first bucket of the family. *)
Lemma family_linked_lookup st rank f pb fb k b' :
  heap st !! f = Some fb → k ≠ next_address st →
  heap (family_linked rank f pb fb st) !! k = Some b' →
  ∃ b, heap st !! k = Some b ∧ b_key b' = b_key b ∧ b_size b' = b_size b
       ∧ b_capacity b' = b_capacity b ∧ b_first b' = b_first b
       ∧ (k ≠ f → b' = b).
Proof.
  intros Hfb Hkn. unfold family_linked, bucket_built, extended_heap. cbn.
  destruct (decide (k = f)) as [->|Hkf].
  - rewrite lookup_insert_eq. intros [= <-]. exists fb. by split_and!.
  - rewrite !lookup_insert_ne by done. intros Hb. exists b'. by split_and!.
Qed.

Lemma insert_failed_packed st' : insert_failed st' → packed st'.
Proof.
  intros (st & rank & l & p & f & pb & fb & Hok & Hl & Hp & Hpb & Hpf & Hfb
          & Hfam & Hfull & ->).
  pose proof (repo_ok_fresh _ Hok) as Hfresh.
  assert (Hlisted : ∀ r lk k, m_buckets st !! r = Some lk → k ∈ lk →
                      k ≠ next_address st).
  { intros r lk k Hlk Hk ->. by eapply (fresh_not_in st r lk). }
  split.
  - intros r lk k b' Hlk Hk Hb' Hlast.
    change (m_buckets st !! r = Some lk) in Hlk.
    destruct (family_linked_lookup _ _ _ _ _ _ _ Hfb (Hlisted _ _ _ Hlk Hk)
                Hb') as (b & Hb & _ & Hs & Hc & Hfi & _).
    rewrite Hs, Hc.
    destruct (last_of_pointers _ _ _ _ Hok Hlk Hk)
      as (b0 & lst & Hb0 & Hlst & _ & Hcap & _ & Hfullk).
    assert (b0 = b) as -> by congruence.
    destruct (decide (k = lst)) as [<-|Hne]; [|rewrite Hcap; by apply Hfullk].
    destruct (decide (k = p)) as [->|Hkp]; [congruence|].
    exfalso. apply Hlast. unfold last_of in Hlst |- *.
    rewrite Hb'. cbn. rewrite Hfi. rewrite Hb in Hlst. cbn in Hlst.
    destruct (b_first b) as [fk|]; [|done]. cbn in *.
    destruct (heap st !! fk) as [fkb|] eqn:Hfkb; [|done]. cbn in Hlst.
    destruct (decide (fk = f)) as [->|Hfk]; [congruence|].
    unfold extended_heap. rewrite lookup_insert_ne by done.
    rewrite lookup_insert_ne by (intros <-; congruence).
    by rewrite Hfkb.
  - intros r lk k1 k2 b1' b2' Hlk Hk1 Hk2 Hb1' Hb2' Heq Hs1 Hs2.
    change (m_buckets st !! r = Some lk) in Hlk.
    destruct (family_linked_lookup _ _ _ _ _ _ _ Hfb (Hlisted _ _ _ Hlk Hk1)
                Hb1') as (b1 & Hb1 & Hk1' & Hsz1 & Hc1 & _).
    destruct (family_linked_lookup _ _ _ _ _ _ _ Hfb (Hlisted _ _ _ Hlk Hk2)
                Hb2') as (b2 & Hb2 & Hk2' & Hsz2 & Hc2 & _).
    apply (repo_ok_one_partial st Hok r lk k1 k2 b1 b2); try done;
      congruence.
Qed.

Lemma insert_failed_ordering st' : insert_failed st' → ordering st'.
Proof.
  intros (st & rank & l & p & f & pb & fb & Hok & Hl & Hp & Hpb & Hpf & Hfb
          & Hfam & Hfull & ->).
  intros r lk Hlk. change (m_buckets st !! r = Some lk) in Hlk.
  destruct (repo_ok_ordering _ Hok r lk Hlk) as (keys & Hkeys & Hsorted).
  exists keys. split; [|done].
  apply mapM_Some. apply mapM_Some in Hkeys.
  apply Forall2_same_length_lookup.
  apply Forall2_same_length_lookup in Hkeys as [Hlen Hkeys].
  split; [done|]. intros j k key Hk Hkey.
  specialize (Hkeys j k key Hk Hkey).
  apply list_elem_of_lookup_2 in Hk.
  destruct (heap st !! k) as [b|] eqn:Hb; [|done].
  assert (Hkn : k ≠ next_address st).
  { intros ->. by eapply (fresh_not_in st r lk). }
  unfold family_linked, bucket_built, extended_heap. cbn.
  destruct (decide (k = f)) as [->|Hkf].
  - rewrite lookup_insert_eq. cbn. cbn in Hkeys. congruence.
  - rewrite !lookup_insert_ne by done. by rewrite Hb.
Qed.

Lemma insert_failed_half st' : insert_failed st' → half_updated st'.
Proof.
  intros (st & rank & l & p & f & pb & fb & Hok & Hl & Hp & Hpb & Hpf & Hfb
          & Hfam & Hfull & ->).
  pose proof (repo_ok_fresh _ Hok) as Hfresh.
  destruct (family_ok_pointers _ _ _ _ Hok Hl Hp)
    as (pb' & f' & fb' & lst & Hpb' & Hpf' & Hfb' & _ & Hhd & _).
  assert (pb' = pb) as -> by congruence.
  assert (f' = f) as -> by congruence.
  destruct (head_family_elem _ _ _ _ Hhd) as [Hfl HfP].
  destruct (family_ok_pointers _ _ _ _ Hok Hl Hfl)
    as (fb0 & f2 & fb2 & lst2 & Hfb0 & Hff & _ & _ & Hhd2 & _).
  assert (fb0 = fb) as -> by congruence.
  assert (Hkey : key_at (skel <$> heap st) f = b_key fb).
  { unfold key_at. by rewrite (skel_lookup _ _ _ Hfb). }
  rewrite Hkey in HfP. rewrite HfP, Hhd in Hhd2.
  assert (f2 = f) as -> by congruence.
  assert (Hfn : f ≠ next_address st) by (intros ->; congruence).
  exists rank, l, f, (with_family (Some (next_address st)) fb),
    (next_address st).
  unfold family_linked, bucket_built, extended_heap. cbn. split_and!.
  - done.
  - done.
  - by rewrite lookup_insert_eq.
  - done.
  - done.
  - rewrite lookup_insert_ne by done. rewrite lookup_insert_eq. eauto.
  - intros r lk Hlk. by eapply fresh_not_in.
Qed.

(** A half-updated family breaks the invariant of the repository. *)
Lemma half_updated_broken st : half_updated st → ¬ repo_ok st.
Proof.
  intros (rank & l & f & fb & n & Hl & Hf & Hfb & Hff & Hfn & _ & Hout) Hok.
  destruct (family_ok_pointers _ _ _ _ Hok Hl Hf)
    as (fb0 & f2 & fb2 & lst & Hfb0 & Hff0 & Hfb2 & Hfam & _ & Hlst & _).
  assert (fb0 = fb) as -> by congruence.
  assert (f2 = f) as -> by congruence.
  assert (fb2 = fb) as -> by congruence.
  assert (lst = n) as -> by congruence.
  apply last_family_elem in Hlst as [Hnl _]. by apply (Hout rank l).
Qed.

(** [declare_bucket] failed at the insertion of the first bucket of a new
    family: the bucket is lost, the repository is as it was. *)
Lemma repo_ok_family_unlisted st rank P fm :
  repo_ok st →
  repo_ok (family_unlisted rank P fm st)
  ∧ kept st (family_unlisted rank P fm st).
Proof.
  intros Hok. pose proof (repo_ok_fresh _ Hok) as Hfresh.
  set (n := next_address st) in *.
  split.
  - unfold family_unlisted, bucket_built, created_heap, repo_ok. cbn. fold n.
    split_and!.
    + intros r lk Hlk. rewrite fmap_insert.
      apply (rank_ok_frame _ (skel <$> heap st)); [|by apply repo_ok_rank].
      intros k Hk. rewrite lookup_insert_ne; [done|].
      intros <-. by eapply (fresh_not_in st r).
    + intros r lk k b Hlk Hk Hb. cbn in *.
      rewrite lookup_insert_ne in Hb.
      * destruct Hok as (_ & Hslots & _). by eapply Hslots.
      * intros <-. by eapply (fresh_not_in st r).
    + intros k [b Hb]. destruct (decide (k = n)) as [->|Hkn]; [lia|].
      rewrite lookup_insert_ne in Hb by done.
      destruct Hok as (_ & _ & Hbound).
      assert (k < n) by (apply Hbound; eauto). lia.
  - unfold kept, family_unlisted, bucket_built, created_heap. cbn.
    split_and!; try done. by apply insert_subseteq.
Qed.

Lemma kept_refl st : kept st st.
Proof. by unfold kept. Qed.

End InsertFailed.

(** * What the operations leave *)

Section Outcomes.

Lemma repo_ok_after_malloc2 st :
  repo_ok st → repo_ok (after_malloc (after_malloc st)).
Proof. intros Hok. by do 2 apply repo_ok_after_malloc. Qed.

(** [declare_bucket] returns in a repository that has the invariant, or
    fails with every bucket list, bucket and back-reference as it was, or
    fails at the insertion with a family half updated. *)
Lemma declare_bucket_outcome st rank P fields :
  repo_ok st → below_max st → (Z.of_nat (length P) + 2 ≤ UINT_MAX)%Z →
  match declare_bucket rank P fields st with
  | (inr n, st') => repo_ok st'
  | (inl e, st') =>
      (repo_ok st' ∧ kept st st') ∨ (e = BadAlloc ∧ insert_failed st')
  end.
Proof.
  intros Hok Hbelow HP.
  assert (Hkept : ∀ st', st' = st ∨ st' = after_malloc st
                         ∨ st' = after_malloc (after_malloc st) →
                         repo_ok st' ∧ kept st st').
  { intros st' [->|[->| ->]]; done. }
  destruct (m_buckets st !! rank) as [l|] eqn:Hl.
  - pose proof (declare_bucket_spec st rank P fields l Hok Hbelow Hl HP)
      as Hspec.
    destruct (last (family (skel <$> heap st) P l)) as [p|] eqn:Hlast.
    + destruct Hspec as (pb & f & fb & Hpl & Hpb & Hpf & Hfb & Hfam & HpP
                         & ->).
      destruct (Nat.eqb_spec (b_size pb) 0) as [|Hsz]; [left; auto|].
      destruct (Nat.ltb_spec (b_size pb) (b_capacity pb)) as [|Hfull];
        [done|].
      destruct (malloc_succeeds st); [|left; auto].
      destruct (malloc_succeeds (after_malloc st)).
      * apply (repo_ok_family_extended (after_malloc (after_malloc st)) rank
                 l P p pb f fb);
          [by apply repo_ok_after_malloc2|done|done|done|done|done|done|lia
          |done|done].
      * right. split; [done|].
        exists (after_malloc (after_malloc st)), rank, l, p, f, pb, fb.
        destruct (repo_ok_bucket _ _ _ _ Hok Hl Hpl)
          as (pb' & Hpb' & _ & _ & Hcap & Hsz' & _).
        assert (pb' = pb) as -> by congruence.
        split_and!; try done. lia.
    + rewrite Hspec. destruct (malloc_succeeds st); [|left; auto].
      destruct (new_field_map _ _ _ _ _) as [e|fm]; [left; auto|].
      destruct (malloc_succeeds (after_malloc st)); [|left; auto].
      destruct (malloc_succeeds (after_malloc (after_malloc st))).
      * apply (repo_ok_family_created
                 (after_malloc (after_malloc (after_malloc st))) rank l P
                 fm); [done|done| |done].
        apply last_None in Hlast. done.
      * left.
        by apply (repo_ok_family_unlisted
                    (after_malloc (after_malloc (after_malloc st)))).
  - unfold declare_bucket, assert_entity_rank.
    rewrite run_bind_assoc, run_bind, run_gets.
    apply lookup_ge_None in Hl. rewrite decide_False by lia. left. auto.
Qed.

(** [destroy_bucket] returns in a repository that has the invariant, or
    fails before it changes anything. *)
Lemma destroy_bucket_outcome st rank l d :
  repo_ok st → m_buckets st !! rank = Some l → d ∈ l →
  match destroy_bucket rank d st with
  | (inr _, st') => repo_ok st'
  | (inl e, st') => st' = st
  end.
Proof.
  intros Hok Hl Hd.
  destruct (family_ok_pointers _ _ _ _ Hok Hl Hd)
    as (db & f & fb & lst & Hdb & Hf & Hfb & Hfam & _).
  destruct (decide (b_size db ≠ 0 ∨ d ≠ lst)) as [Hcase|Hcase].
  - by rewrite (destroy_bucket_refuses _ _ _ _ _ _ _ _ Hl Hdb Hf Hfb Hfam
                  Hcase).
  - assert (b_size db = 0 ∧ d = lst) as [Hsz <-].
    { split; [lia|]. destruct (decide (d = lst)); [done|]. tauto. }
    destruct (destroy_bucket_last _ _ _ _ _ _ _ Hok Hl Hd Hdb Hf Hfb Hfam
                Hsz) as (l1 & l2 & h' & _ & -> & Hok' & _).
    done.
Qed.

(** [remove_entity] of a live slot returns in a repository that has the
    invariant. *)
Lemma remove_entity_outcome st rank l k i kb lst lb :
  repo_ok st → m_buckets st !! rank = Some l → k ∈ l →
  heap st !! k = Some kb → i < b_size kb →
  last_of (heap st) k = Some lst → heap st !! lst = Some lb →
  b_size lb ≠ 0 →
  ∃ st', remove_entity k i st = (inr tt, st') ∧ repo_ok st'.
Proof.
  intros Hok Hl Hk Hkb Hi Hlast Hlb Hsz.
  destruct (remove_entity_spec _ _ _ _ _ _ _ _ Hok Hl Hk Hkb Hi Hlast Hlb
              Hsz) as (n & e & d & _ & _ & _ & _ & Hok1 & Hrun & Hdestroy).
  destruct (decide (n = 0)) as [Hn|Hn].
  - destruct (Hdestroy Hn) as (l1 & l2 & h' & db & f & fb & _ & -> & Hok'
                               & _).
    eauto.
  - rewrite (Hrun Hn). eauto.
Qed.

(** [internal_sort_bucket_entities] returns in a repository that has the
    invariant, or fails in one, or fails at the insertion of a scratch
    bucket with a family half updated. *)
Lemma sort_outcome EntityLess st :
  repo_ok st → below_max st →
  match internal_sort_bucket_entities EntityLess st with
  | (inr _, st') => repo_ok st'
  | (inl e, st') => repo_ok st' ∨ (e = BadAlloc ∧ insert_failed st')
  end.
Proof.
  intros Hok Hbelow.
  pose proof (internal_sort_bucket_entities_spec EntityLess st Hok Hbelow)
    as Hspec.
  destruct (internal_sort_bucket_entities EntityLess st) as [[e|[]] st'].
  - by destruct Hspec.
  - by destruct Hspec as ((? & _) & _).
Qed.

End Outcomes.

(** * The packing and the ordering invariant *)

Section InvariantClaims.

(** Packing and ordering hold in a repository that has the invariant and in
    one that a failing insertion left. *)
Lemma packed_ordering st :
  repo_ok st ∨ insert_failed st → packed st ∧ ordering st.
Proof.
  intros [Hok|Hif].
  - split; [by apply repo_ok_packed|by apply repo_ok_ordering].
  - split; [by apply insert_failed_packed|by apply insert_failed_ordering].
Qed.

Lemma declare_bucket_keeps st rank P fields :
  repo_ok st → below_max st → (Z.of_nat (length P) + 2 ≤ UINT_MAX)%Z →
  (packed (declare_bucket rank P fields st).2
   ∧ ordering (declare_bucket rank P fields st).2)
  ∧ ∀ n st', declare_bucket rank P fields st = (inr n, st') → repo_ok st'.
Proof.
  intros Hok Hbelow HP.
  pose proof (declare_bucket_outcome st rank P fields Hok Hbelow HP) as Hout.
  destruct (declare_bucket rank P fields st) as [[e|n] st']; cbn.
  - split; [|done]. apply packed_ordering.
    destruct Hout as [[? _]|[_ ?]]; auto.
  - split; [apply packed_ordering; by left|]. by intros ? ? [= <- <-].
Qed.

Lemma destroy_bucket_keeps st rank l d :
  repo_ok st → m_buckets st !! rank = Some l → d ∈ l →
  repo_ok (destroy_bucket rank d st).2.
Proof.
  intros Hok Hl Hd.
  pose proof (destroy_bucket_outcome st rank l d Hok Hl Hd) as Hout.
  destruct (destroy_bucket rank d st) as [[e|[]] st']; cbn; [by subst|done].
Qed.

Lemma remove_entity_keeps st rank l k i kb lst lb :
  repo_ok st → m_buckets st !! rank = Some l → k ∈ l →
  heap st !! k = Some kb → i < b_size kb →
  last_of (heap st) k = Some lst → heap st !! lst = Some lb →
  b_size lb ≠ 0 →
  repo_ok (remove_entity k i st).2.
Proof.
  intros Hok Hl Hk Hkb Hi Hlast Hlb Hsz.
  destruct (remove_entity_outcome _ _ _ _ _ _ _ _ Hok Hl Hk Hkb Hi Hlast Hlb
              Hsz) as (st' & -> & Hok').
  done.
Qed.

Lemma sort_keeps EntityLess st :
  repo_ok st → below_max st →
  (packed (internal_sort_bucket_entities EntityLess st).2
   ∧ ordering (internal_sort_bucket_entities EntityLess st).2)
  ∧ ∀ st', internal_sort_bucket_entities EntityLess st = (inr tt, st') →
           repo_ok st'.
Proof.
  intros Hok Hbelow. pose proof (sort_outcome EntityLess st Hok Hbelow) as Hout.
  destruct (internal_sort_bucket_entities EntityLess st) as [[e|[]] st']; cbn.
  - split; [|done]. apply packed_ordering. destruct Hout as [?|[_ ?]]; auto.
  - split; [apply packed_ordering; by left|]. by intros ? [= <-].
Qed.







End InvariantClaims.


(** * [declare_bucket] *)

Section DeclareClaims.

(** The bucket [declare_bucket] appended is the last of its family. *)
Lemma family_extended_last st rank l ik p f pb fb :
  heap st !! p = Some pb → b_first pb = Some f → heap st !! f = Some fb →
  heap st !! next_address st = None →
  let st' := family_extended rank l ik p f pb fb st in
  last_of (heap st') p = Some (next_address st)
  ∧ last_of (heap st') (next_address st) = Some (next_address st).
Proof.
  intros Hpb Hpf Hfb Hfresh. cbn zeta.
  set (n := next_address st) in *.
  assert (Hfn : f ≠ n) by (intros ->; congruence).
  assert (Hpn : p ≠ n) by (intros ->; congruence).
  unfold last_of, family_extended, with_new_bucket, bucket_built, extended_heap. cbn. fold n. split.
  - destruct (decide (p = f)) as [->|Hne].
    + rewrite lookup_insert_eq. cbn.
      assert (pb = fb) as -> by congruence. rewrite Hpf. cbn.
      by rewrite lookup_insert_eq.
    + rewrite lookup_insert_ne by done. rewrite lookup_insert_ne by done.
      rewrite Hpb. cbn. rewrite Hpf. cbn. by rewrite lookup_insert_eq.
  - rewrite lookup_insert_ne by done. rewrite lookup_insert_eq. cbn.
    by rewrite lookup_insert_eq.
Qed.

Lemma dimension_loop_error field etype method part_ord :
  ∀ ibeg dim e,
    dimension_loop field etype part_ord ibeg dim method = inl e →
    ∃ o1 o2, e = IncompatibleDimensions method (f_name field) o1 o2.
Proof.
  induction part_ord as [|p part_ord IH]; intros ibeg dim e; cbn; [done|].
  destruct ibeg as [|r0 ibeg]; [done|].
  destruct (restriction_lower_bound _ _) as [|r rest]; [apply IH|].
  destruct (entity_key_eqb _ _); [|apply IH].
  destruct (stride_not_equal _ _); [|apply IH].
  intros [= <-]. eauto.
Qed.

(** The field layout fails with a schema conflict only. *)
Lemma new_field_map_error etype part_ord capacity method fields e :
  new_field_map etype part_ord capacity method fields = inl e →
  ∃ f o1 o2, e = IncompatibleDimensions method f o1 o2.
Proof.
  unfold new_field_map. generalize (align (wrap_size_t (sizeof_Entity_ptr * capacity))).
  induction fields as [|field fields IH]; intros off; cbn; [done|].
  destruct (dimension field etype part_ord method) as [e'|dim] eqn:Hdim.
  - intros [= <-]. apply dimension_loop_error in Hdim as (o1 & o2 & ->).
    eauto.
  - destruct (field_map_loop _ _ _ _ fields _) as [e'|fm] eqn:Hrest; [|done].
    intros [= <-]. by eapply IH.
Qed.

(** C7 (find-or-create contract of [declare_bucket], as the code has it).
    The family of parts [P] is looked up in the list of the rank; its last
    bucket [p] is the last listed bucket with these parts.  If [p] is
    empty the call fails with a logic error and changes nothing; if [p] is
    not empty and not full, [p] is returned and nothing is allocated; if
    [p] is full a bucket is allocated whose key has the counter of [p] plus
    one, it becomes the last bucket of the family and is inserted at the
    offset the search found.  If the family does not exist, its field map
    is resolved and its first bucket is created with counter 0, first and
    last of its family.  A failing allocation or field-map resolution
    fails the call; the insertion into the list comes last, so that when it
    fails the bucket is constructed already, and for an existing family
    linked as its last bucket.  With the counters below the greatest
    [unsigned] value the call never fails for too many buckets. *)
Theorem declare_bucket_contract st rank l P fields :
  repo_ok st → below_max st → m_buckets st !! rank = Some l →
  (Z.of_nat (length P) + 2 ≤ UINT_MAX)%Z →
  match last (family (skel <$> heap st) P l) with
  | Some p =>
      ∃ pb,
        heap st !! p = Some pb ∧ key_part_ord (b_key pb) = P
        ∧ if b_size pb =? 0 then
            declare_bucket rank P fields st
            = (inl (LogicError declare_bucket_method), st)
          else if b_size pb <? b_capacity pb then
            declare_bucket rank P fields st = (inr p, st)
          else if malloc_succeeds st then
            if malloc_succeeds (after_malloc st) then
              ∃ st' nb,
                declare_bucket rank P fields st
                = (inr (next_address st), st')
                ∧ heap st !! next_address st = None
                ∧ heap st' !! next_address st = Some nb
                ∧ b_key nb = search_key P (1 + key_family_count (b_key pb))
                ∧ b_size nb = 0 ∧ b_capacity nb = m_bucket_capacity st
                ∧ b_field_map nb = b_field_map pb
                ∧ last_of (heap st') p = Some (next_address st)
                ∧ last_of (heap st') (next_address st)
                  = Some (next_address st)
                ∧ m_buckets st' !! rank
                  = Some (take (family_end st l P) l
                          ++ next_address st :: drop (family_end st l P) l)
                ∧ repo_ok st'
            else
              ∃ st',
                declare_bucket rank P fields st = (inl BadAlloc, st')
                ∧ heap st !! next_address st = None
                ∧ is_Some (heap st' !! next_address st)
                ∧ last_of (heap st') p = Some (next_address st)
                ∧ m_buckets st' = m_buckets st
          else
            declare_bucket rank P fields st
            = (inl MallocFailed, after_malloc st)
  | None =>
      if malloc_succeeds st then
        match new_field_map (Z.of_nat rank) P
                (Z.of_nat (m_bucket_capacity st)) declare_bucket_method
                fields with
        | inl e => declare_bucket rank P fields st = (inl e, after_malloc st)
        | inr fm =>
            if malloc_succeeds (after_malloc st) then
              if malloc_succeeds (after_malloc (after_malloc st)) then
                ∃ st' nb,
                  declare_bucket rank P fields st
                  = (inr (next_address st), st')
                  ∧ heap st !! next_address st = None
                  ∧ heap st' !! next_address st = Some nb
                  ∧ b_key nb = search_key P 0
                  ∧ b_size nb = 0 ∧ b_capacity nb = m_bucket_capacity st
                  ∧ b_field_map nb = fm
                  ∧ b_first nb = Some (next_address st)
                  ∧ last_of (heap st') (next_address st)
                    = Some (next_address st)
                  ∧ m_buckets st' !! rank
                    = Some (take (family_end st l P) l
                            ++ next_address st
                               :: drop (family_end st l P) l)
                  ∧ repo_ok st'
              else
                ∃ st',
                  declare_bucket rank P fields st = (inl BadAlloc, st')
                  ∧ heap st !! next_address st = None
                  ∧ is_Some (heap st' !! next_address st)
                  ∧ m_buckets st' = m_buckets st
                  ∧ repo_ok st'
            else
              declare_bucket rank P fields st
              = (inl MallocFailed, after_malloc (after_malloc st))
        end
      else
        declare_bucket rank P fields st = (inl MallocFailed, after_malloc st)
  end
  ∧ (declare_bucket rank P fields st).1
    ≠ inl (TooManyBuckets declare_bucket_method).
Proof.
  intros Hok Hbelow Hl HP.
  pose proof (declare_bucket_spec st rank P fields l Hok Hbelow Hl HP)
    as Hspec.
  pose proof (repo_ok_fresh _ Hok) as Hfresh.
  assert (Hlt : rank < length (m_buckets st)) by by eapply rank_lt_length.
  destruct (last (family (skel <$> heap st) P l)) as [p|] eqn:Hlast.
  - destruct Hspec as (pb & f & fb & Hpl & Hpb & Hpf & Hfb & Hfam & HpP
                       & Hspec).
    rewrite Hspec. split.
    + exists pb. split_and!; [done|done|].
      destruct (Nat.eqb_spec (b_size pb) 0) as [|Hsz]; [done|].
      destruct (Nat.ltb_spec (b_size pb) (b_capacity pb)) as [|Hfull];
        [done|].
      destruct (malloc_succeeds st); [|done].
      destruct (family_extended_last (after_malloc (after_malloc st)) rank l
                  (family_end st l P) p f pb fb Hpb Hpf Hfb Hfresh)
        as [Hlast1 Hlast2].
      assert (Hfn : f ≠ next_address st) by (intros ->; congruence).
      destruct (malloc_succeeds (after_malloc st)).
      2:{ eexists. split; [reflexivity|]. split_and!; try done.
          unfold family_linked, bucket_built, extended_heap. cbn.
          rewrite lookup_insert_ne by done. rewrite lookup_insert_eq.
          eauto. }
      exists (family_extended rank l (family_end st l P) p f pb fb
                (after_malloc (after_malloc st))),
        (new_bucket rank
           (search_key (key_part_ord (b_key pb))
              (1 + key_family_count (b_key pb)))
           (m_bucket_capacity st) (b_field_map pb) (Some f) None).
      split; [reflexivity|].
      split_and!; try done.
      * unfold family_extended, with_new_bucket, bucket_built, extended_heap. cbn.
        rewrite lookup_insert_ne by done. by rewrite lookup_insert_eq.
      * cbn. by rewrite HpP.
      * unfold family_extended, with_new_bucket, bucket_built, extended_heap. cbn.
        by rewrite list_lookup_insert_eq.
      * apply (repo_ok_family_extended (after_malloc (after_malloc st)) rank
                 l P p pb f fb);
          [by apply repo_ok_after_malloc2|done|done|done|done|done|done|lia
          |done|done].
    + destruct (b_size pb =? 0); [done|].
      destruct (b_size pb <? b_capacity pb); [done|].
      destruct (malloc_succeeds st); [|done].
      destruct (malloc_succeeds (after_malloc st)); done.
  - rewrite Hspec. split.
    + destruct (malloc_succeeds st); [|done].
      destruct (new_field_map _ _ _ _ _) as [e|fm]; [done|].
      destruct (malloc_succeeds (after_malloc st)); [|done].
      destruct (malloc_succeeds (after_malloc (after_malloc st))).
      2:{ eexists. split; [reflexivity|]. split_and!; try done.
          - unfold family_unlisted, bucket_built, created_heap. cbn.
            rewrite lookup_insert_eq. eauto.
          - by apply (repo_ok_family_unlisted
                        (after_malloc (after_malloc (after_malloc st)))). }
      exists (family_created rank l (family_end st l P) P fm
                (after_malloc (after_malloc (after_malloc st)))),
        (new_bucket rank (search_key P 0) (m_bucket_capacity st) fm
           (Some (next_address st)) (Some (next_address st))).
      split; [reflexivity|].
      split_and!; try done.
      * unfold family_created, with_new_bucket, bucket_built, created_heap. cbn.
        by rewrite lookup_insert_eq.
      * unfold last_of, family_created, with_new_bucket, bucket_built, created_heap. cbn.
        rewrite lookup_insert_eq. cbn. by rewrite lookup_insert_eq.
      * unfold family_created, with_new_bucket, bucket_built, created_heap. cbn.
        by rewrite list_lookup_insert_eq.
      * apply (repo_ok_family_created
                 (after_malloc (after_malloc (after_malloc st))) rank l P
                 fm); [done|done| |done].
        by apply last_None in Hlast.
    + destruct (malloc_succeeds st); [|done].
      destruct (new_field_map _ _ _ _ _) as [e|fm] eqn:Hfm.
      * cbn. intros [= ->].
        by apply new_field_map_error in Hfm as (? & ? & ? & ?).
      * destruct (malloc_succeeds (after_malloc st)); [|done].
        destruct (malloc_succeeds (after_malloc (after_malloc st))); done.
Qed.

Lemma declare_bucket_contract_witness :
  repo_ok example_repo ∧ below_max example_repo
  ∧ declare_bucket 0 [1%Z] [] example_repo = (inr 1, example_repo).
Proof.
  split_and!; [exact example_repo_ok|exact example_repo_below_max|].
  assert (HP : (Z.of_nat (length [1%Z]) + 2 ≤ UINT_MAX)%Z)
    by (unfold UINT_MAX; cbn; lia).
  destruct (declare_bucket_contract example_repo 0 [0; 1] [1%Z] []
              example_repo_ok example_repo_below_max eq_refl HP)
    as [(pb & Hpb & _ & Hrun) _].
  vm_compute in Hpb. injection Hpb as <-. exact Hrun.
Defined.

(** C7, the claim as stated fails: a second [declare_bucket] for a family
    whose only bucket was just created, and is still empty, does not
    return that bucket but fails; and when the last bucket of a family has
    the greatest counter the call does not fail but returns a new bucket
    with that same counter. *)
Lemma declare_bucket_contract_fails :
  (declare_bucket 0 [1%Z] [] (empty_repo 2)).1 = inr 0
  ∧ b_size <$> heap (declare_bucket 0 [1%Z] [] (empty_repo 2)).2 !! 0
    = Some 0
  ∧ b_capacity <$> heap (declare_bucket 0 [1%Z] [] (empty_repo 2)).2 !! 0
    = Some 2
  ∧ (declare_bucket 0 [1%Z] []
       (declare_bucket 0 [1%Z] [] (empty_repo 2)).2).1
    = inl (LogicError declare_bucket_method)
  ∧ b_key <$> heap full_counter_repo !! 1 = Some [2; 1; UINT_MAX]%Z
  ∧ last_of (heap full_counter_repo) 0 = Some 1
  ∧ (declare_bucket 0 [1%Z] [] full_counter_repo).1 = inr 2
  ∧ b_key <$> heap (declare_bucket 0 [1%Z] [] full_counter_repo).2 !! 2
    = Some [2; 1; UINT_MAX]%Z.
Proof. split_and!; by vm_compute. Qed.

(** C10 (spare capacity), as the code has it: in a repository of positive
    bucket capacity, every bucket [declare_bucket] returns has size less
    than its capacity; a bucket it allocated is empty, and the first bucket
    of a new family is the first of its family. *)
Theorem declare_bucket_spare_capacity st rank l P fields n st' :
  repo_ok st → below_max st → m_buckets st !! rank = Some l →
  (Z.of_nat (length P) + 2 ≤ UINT_MAX)%Z →
  0 < m_bucket_capacity st →
  declare_bucket rank P fields st = (inr n, st') →
  ∃ b, heap st' !! n = Some b ∧ b_size b < b_capacity b
       ∧ (heap st !! n = None → b_size b = 0)
       ∧ (family (skel <$> heap st) P l = [] →
          b_size b = 0 ∧ b_first b = Some n).
Proof.
  intros Hok Hbelow Hl HP Hcap Hrun.
  pose proof (declare_bucket_spec st rank P fields l Hok Hbelow Hl HP)
    as Hspec.
  pose proof (repo_ok_fresh _ Hok) as Hfresh.
  destruct (last (family (skel <$> heap st) P l)) as [p|] eqn:Hlast.
  - destruct Hspec as (pb & f & fb & Hpl & Hpb & Hpf & Hfb & Hfam & HpP
                       & Hspec).
    rewrite Hspec in Hrun.
    destruct (Nat.eqb_spec (b_size pb) 0) as [|Hsz]; [done|].
    destruct (Nat.ltb_spec (b_size pb) (b_capacity pb)) as [Hlt|Hfull].
    + injection Hrun as <- <-. exists pb. split_and!; [done|done| |].
      * congruence.
      * intros Hnil. by rewrite Hnil in Hlast.
    + destruct (malloc_succeeds st); [|done].
      destruct (malloc_succeeds (after_malloc st)); [|done].
      injection Hrun as <- <-.
      assert (Hfn : f ≠ next_address st) by (intros ->; congruence).
      eexists. split.
      { unfold family_extended, with_new_bucket, bucket_built, extended_heap. cbn.
        rewrite lookup_insert_ne by done. by rewrite lookup_insert_eq. }
      cbn. split_and!; [done|done|].
      intros Hnil. by rewrite Hnil in Hlast.
  - rewrite Hspec in Hrun. destruct (malloc_succeeds st); [|done].
    destruct (new_field_map _ _ _ _ _) as [e|fm]; [done|].
    destruct (malloc_succeeds (after_malloc st)); [|done].
    destruct (malloc_succeeds (after_malloc (after_malloc st))); [|done].
    injection Hrun as <- <-. eexists. split.
    { unfold family_created, with_new_bucket, bucket_built, created_heap. cbn.
      by rewrite lookup_insert_eq. }
    cbn. done.
Qed.

Lemma declare_bucket_spare_capacity_witness :
  repo_ok (empty_repo 2) ∧ below_max (empty_repo 2)
  ∧ ∃ b, heap (declare_bucket 0 [1%Z] [] (empty_repo 2)).2 !! 0 = Some b
         ∧ b_size b < b_capacity b.
Proof.
  split_and!; [apply empty_repo_ok|apply empty_repo_below_max|].
  assert (HP : (Z.of_nat (length [1%Z]) + 2 ≤ UINT_MAX)%Z)
    by (unfold UINT_MAX; cbn; lia).
  assert (Hcap : 0 < m_bucket_capacity (empty_repo 2)) by (cbn; lia).
  destruct (declare_bucket_spare_capacity (empty_repo 2) 0 [] [1%Z] [] 0
              (declare_bucket 0 [1%Z] [] (empty_repo 2)).2
              (empty_repo_ok 2) (empty_repo_below_max 2) eq_refl HP Hcap
              eq_refl) as (b & Hb & Hlt & _).
  exists b. split; [exact Hb|exact Hlt].
Defined.

(** C10, the claim as stated fails: in a repository of bucket capacity 0
    [declare_bucket] succeeds and returns a bucket of size 0 and capacity
    0, which has no room for an entity. *)
Lemma declare_bucket_spare_capacity_fails :
  (declare_bucket 0 [1%Z] [] (empty_repo 0)).1 = inr 0
  ∧ b_size <$> heap (declare_bucket 0 [1%Z] [] (empty_repo 0)).2 !! 0
    = Some 0
  ∧ b_capacity <$> heap (declare_bucket 0 [1%Z] [] (empty_repo 0)).2 !! 0
    = Some 0.
Proof. split_and!; by vm_compute. Qed.

End DeclareClaims.


(** * [remove_entity] *)

Section RemoveClaims.

Lemma sum_list_decrement (f g : nat → nat) fam x :
  NoDup fam → x ∈ fam → (∀ y, y ∈ fam → y ≠ x → g y = f y) →
  f x = S (g x) →
  sum_list (g <$> fam) + 1 = sum_list (f <$> fam).
Proof.
  intros Hnd Hx Hsame Hfx. induction Hnd as [|y fam Hy Hnd IH].
  - by apply elem_of_nil in Hx.
  - cbn. apply elem_of_cons in Hx as [->|Hx].
    + rewrite Hfx.
      assert (g <$> fam = f <$> fam) as ->; [|lia].
      apply list_fmap_ext. intros j z Hz. apply list_elem_of_lookup_2 in Hz.
      apply Hsame; [by right|]. intros ->. done.
    + rewrite (Hsame y); [|by left|by intros ->].
      rewrite <- IH; [lia|done|]. intros z Hz. apply Hsame. by right.
Qed.

Lemma sum_list_same (f g : nat → nat) fam :
  (∀ y, y ∈ fam → g y = f y) → sum_list (g <$> fam) = sum_list (f <$> fam).
Proof.
  intros Hsame. f_equal. apply list_fmap_ext. intros j z Hz.
  apply list_elem_of_lookup_2 in Hz. auto.
Qed.

(** The shape of the heap after the first half of [remove_entity]. *)
Lemma removed_shape st k i kb lst lb n e d k' :
  heap st !! k = Some kb → heap st !! lst = Some lb → b_size lb = S n →
  option_Forall2 (same_links lst k') (heap st !! k')
    (heap (if decide (k = lst ∧ i = n) then last_slot_dropped lst n lb st
           else slot_filled k i lst n e d kb lb st) !! k').
Proof.
  intros Hkb Hlb Hsz. destruct (decide (k = lst ∧ i = n)).
  - by apply last_slot_dropped_shape.
  - by apply slot_filled_shape.
Qed.

Lemma removed_size st k i kb lst lb n e d :
  heap st !! k = Some kb → heap st !! lst = Some lb → b_size lb = S n →
  size_at (if decide (k = lst ∧ i = n) then last_slot_dropped lst n lb st
           else slot_filled k i lst n e d kb lb st) lst = n.
Proof.
  intros Hkb Hlb Hsz. unfold size_at.
  destruct (decide (k = lst ∧ i = n)) as [_|_].
  - unfold last_slot_dropped. cbn. by rewrite lookup_insert_eq.
  - unfold slot_filled. cbn. destruct (decide (k = lst)) as [->|Hne].
    + by rewrite lookup_insert_eq.
    + by rewrite lookup_insert_eq.
Qed.

Lemma same_links_size_at st st' lst k' :
  option_Forall2 (same_links lst k') (heap st !! k') (heap st' !! k') →
  k' ≠ lst → size_at st' k' = size_at st k'.
Proof.
  intros H Hne. unfold size_at.
  destruct H as [b b' (_ & _ & _ & _ & _ & Hsz & _)|]; [|done]. cbn. auto.
Qed.

Lemma same_links_key_at (h h' : gmap nat Bucket) lst k' :
  option_Forall2 (same_links lst k') (h !! k') (h' !! k') →
  key_at (skel <$> h') k' = key_at (skel <$> h) k'.
Proof.
  intros H. unfold key_at. rewrite !lookup_fmap.
  destruct H as [b b' (_ & Hkey & _)|]; [|done]. done.
Qed.

Lemma new_events_app st st' T :
  trace st' = trace st ++ T → new_events st st' = T.
Proof. intros Ht. unfold new_events. by rewrite Ht, drop_app_length. Qed.

Lemma hook_calls_move_events k i lst n e T :
  Forall (λ ev, is_hook_for e ev = false) T →
  hook_calls e (move_events k i lst n e ++ shrink_events lst n ++ T) = 1.
Proof.
  intros HT. unfold hook_calls, move_events, shrink_events.
  cbn [app].
  assert (filter (λ ev, is_hook_for e ev = true) T = []) as HT'.
  { induction HT as [|ev T Hev HT IH]; [done|].
    rewrite filter_cons_False by (rewrite Hev; done). done. }
  rewrite !filter_cons, HT'. cbn [is_hook_for]. rewrite Nat.eqb_refl.
  reflexivity.
Qed.

(** The live objects of a family after the last live slot of its last
    bucket was dropped. *)
Lemma live_objects_dropped st st1 rank l P lst n :
  m_buckets st !! rank = Some l → NoDup l →
  (∀ k', option_Forall2 (same_links lst k') (heap st !! k')
           (heap st1 !! k')) →
  lst ∈ family (skel <$> heap st) P l →
  size_at st lst = S n → size_at st1 lst = n →
  live_objects st1 P l + 1 = live_objects st P l.
Proof.
  intros Hl Hnd Hshape Hlst Hsz Hsz1. unfold live_objects.
  rewrite (family_ext (skel <$> heap st) (skel <$> heap st1) P l).
  2:{ intros k' _. by eapply same_links_key_at. }
  apply (sum_list_decrement (size_at st) (size_at st1) _ lst).
  - by apply NoDup_family.
  - done.
  - intros y _ Hne. by eapply same_links_size_at.
  - by rewrite Hsz, Hsz1.
Qed.

(** The live objects of a family after its last bucket, which held one
    object, was destroyed. *)
Lemma live_objects_destroyed st (h' : gmap nat Bucket) st' l1 l2 P lst :
  NoDup (l1 ++ lst :: l2) →
  heap st' = h' →
  (∀ k', k' ≠ lst →
         option_Forall2 (λ b b', b_key b' = b_key b ∧ b_size b' = b_size b)
           (heap st !! k') (h' !! k')) →
  key_part_ord (key_at (skel <$> heap st) lst) = P →
  size_at st lst = 1 →
  live_objects st' P (l1 ++ l2) + 1
  = live_objects st P (l1 ++ lst :: l2).
Proof.
  intros Hnd Hh' Hsame HP Hsz. unfold live_objects. rewrite Hh'.
  assert (Hne : ∀ k', k' ∈ l1 ++ l2 → k' ≠ lst).
  { intros k' Hk' ->. apply NoDup_app in Hnd as (_ & Hdis & Hnd).
    apply NoDup_cons in Hnd as [Hn2 _].
    apply elem_of_app in Hk' as [Hk'|Hk']; [|done].
    apply (Hdis _ Hk'). by left. }
  rewrite (family_ext (skel <$> heap st) (skel <$> h') P (l1 ++ l2)).
  2:{ intros k' Hk'. unfold key_at. rewrite !lookup_fmap.
      destruct (Hsame k' (Hne _ Hk')) as [b b' [Hkey _]|]; [|done]. done. }
  rewrite (sum_list_same (size_at st)).
  2:{ intros k' [_ Hk']%elem_of_family. unfold size_at.
      destruct (Hsame k' (Hne _ Hk')) as [b b' [_ Hs]|]; [|done]. done. }
  rewrite !family_app, (family_cons_in _ _ _ _ HP).
  rewrite !fmap_app, fmap_cons, !sum_list_with_app. cbn.
  change (λ k, from_option b_size 0 (heap st !! k)) with (size_at st).
  change (from_option b_size 0 (heap st !! lst)) with (size_at st lst).
  rewrite Hsz. lia.
Qed.

Lemma option_Forall2_compose {A} (R1 R2 R3 : A → A → Prop) x y z :
  (∀ a b c, R1 a b → R2 b c → R3 a c) →
  option_Forall2 R1 x y → option_Forall2 R2 y z → option_Forall2 R3 x z.
Proof.
  intros H [a b Hab|] H2; inversion H2; subst; constructor; eauto.
Qed.

(** What [remove_entity] wrote into slot [(k, i)]. *)
Lemma slot_filled_view st k i kb lst lb n e d :
  heap st !! k = Some kb → heap st !! lst = Some lb →
  i < length (b_entities kb) → i < length (b_field_data kb) →
  (k = lst → i ≠ n) →
  ent (slot_filled k i lst n e d kb lb st) (k, i) = Some (Some e)
  ∧ dat (slot_filled k i lst n e d kb lb st) (k, i) = Some d
  ∧ entities (slot_filled k i lst n e d kb lb st) !! e = Some (k, i).
Proof.
  intros Hkb Hlb Hi1 Hi2 Hne. unfold ent, dat, slot_filled. cbn.
  split_and!.
  - destruct (decide (k = lst)) as [->|Hkl].
    + rewrite lookup_insert_eq. cbn.
      rewrite list_lookup_insert_ne by (intros ->; by apply Hne).
      by apply list_lookup_insert_eq.
    + rewrite lookup_insert_ne by done. rewrite lookup_insert_eq. cbn.
      by apply list_lookup_insert_eq.
  - destruct (decide (k = lst)) as [->|Hkl].
    + rewrite lookup_insert_eq. cbn. by apply list_lookup_insert_eq.
    + rewrite lookup_insert_ne by done. rewrite lookup_insert_eq. cbn.
      by apply list_lookup_insert_eq.
  - by rewrite lookup_insert_eq.
Qed.

(** The last bucket after [remove_entity] dropped its last live slot. *)
Lemma removed_last st k i kb lst lb n e d :
  heap st !! k = Some kb → heap st !! lst = Some lb →
  n < length (b_entities lb) →
  ∃ lb',
    heap (if decide (k = lst ∧ i = n) then last_slot_dropped lst n lb st
          else slot_filled k i lst n e d kb lb st) !! lst = Some lb'
    ∧ b_size lb' = n ∧ b_entities lb' !! n = Some None.
Proof.
  intros Hkb Hlb Hn. destruct (decide (k = lst ∧ i = n)) as [_|_].
  - unfold last_slot_dropped. cbn. rewrite lookup_insert_eq.
    eexists. split; [done|]. cbn. split; [done|].
    by apply list_lookup_insert_eq.
  - unfold slot_filled. cbn. destruct (decide (k = lst)) as [->|Hkl].
    + rewrite lookup_insert_eq. eexists. split; [done|]. cbn.
      split; [done|]. apply list_lookup_insert_eq.
      rewrite length_insert. congruence.
    + rewrite lookup_insert_eq. eexists. split; [done|]. cbn.
      split; [done|]. by apply list_lookup_insert_eq.
Qed.

(** C2 (swap-remove), as the code has it.  [remove_entity] of a live slot
    [(k, i)] of a listed bucket, whose family has a last bucket [lst] that
    is not empty, with [n + 1] live slots, returns and leaves the invariant
    (live slots hold entities, the others are null) and one live object
    less in the family.  Unless [(k, i)] is the last live slot [(lst, n)]
    itself, the entity [e] and the data [d] of slot [(lst, n)] are now in
    slot [(k, i)], the back-reference of [e] is [(k, i)], and the hook was
    called for [e] once, right after the back-reference was updated.  Then
    the size of [lst] was decremented and its slot [n] nulled; if [lst]
    became empty it was erased from the list and freed, and if it also was
    the first bucket of the family, the list has no bucket of the family
    any more. *)
Theorem remove_entity_swap_remove st rank l k i kb lst lb :
  repo_ok st → m_buckets st !! rank = Some l → k ∈ l →
  heap st !! k = Some kb → i < b_size kb →
  last_of (heap st) k = Some lst → heap st !! lst = Some lb →
  b_size lb ≠ 0 →
  ∃ n e d st' l',
    b_size lb = S n
    ∧ ent st (lst, n) = Some (Some e) ∧ dat st (lst, n) = Some d
    ∧ remove_entity k i st = (inr tt, st')
    ∧ repo_ok st'
    ∧ m_buckets st' !! rank = Some l'
    ∧ live_objects st' (key_part_ord (b_key kb)) l' + 1
      = live_objects st (key_part_ord (b_key kb)) l
    ∧ (if decide (k = lst ∧ i = n) then
         entities st' = entities st
         ∧ new_events st st'
           = shrink_events lst n
             ++ (if decide (n = 0) then [EvFree lst] else [])
       else
         ent st' (k, i) = Some (Some e) ∧ dat st' (k, i) = Some d
         ∧ entities st' !! e = Some (k, i)
         ∧ new_events st st'
           = move_events k i lst n e ++ shrink_events lst n
             ++ (if decide (n = 0) then [EvFree lst] else [])
         ∧ hook_calls e (new_events st st') = 1)
    ∧ (if decide (n = 0) then
         heap st' !! lst = None
         ∧ (∃ l1 l2, l = l1 ++ lst :: l2 ∧ l' = l1 ++ l2)
         ∧ (b_first lb = Some lst →
            family (skel <$> heap st') (key_part_ord (b_key kb)) l' = [])
       else
         l' = l
         ∧ ∃ lb', heap st' !! lst = Some lb' ∧ b_size lb' = n
                  ∧ b_entities lb' !! n = Some None).
Proof.
  intros Hok Hl Hk Hkb Hi Hlast Hlb Hne0.
  destruct (remove_entity_spec _ _ _ _ _ _ _ _ Hok Hl Hk Hkb Hi Hlast Hlb
              Hne0) as (n & e & d & Hsz & He & Hd & Hloc & Hok1 & Hrun
                        & Hdestroy).
  destruct (last_of_listed _ _ _ _ _ Hok Hl Hk Hlast)
    as (Hlstl & Hlstlast & kb' & lb' & Hkb' & Hlb' & HP & Hfamlast).
  assert (kb' = kb) as -> by congruence.
  assert (lb' = lb) as -> by congruence.
  set (P := key_part_ord (b_key kb)) in *.
  pose proof (keys_sorted_NoDup _ _ (proj1 (repo_ok_rank _ _ _ Hok Hl)))
    as Hnd.
  destruct (repo_ok_bucket _ _ _ _ Hok Hl Hk)
    as (kb' & Hkb'' & _ & _ & Hkcap & Hksz & Hkl1 & Hkl2 & _).
  assert (kb' = kb) as -> by congruence.
  destruct (repo_ok_bucket _ _ _ _ Hok Hl Hlstl)
    as (lb' & Hlb'' & _ & _ & Hlcap & Hlsz & Hll1 & Hll2 & _).
  assert (lb' = lb) as -> by congruence.
  assert (Hkeyl : key_at (skel <$> heap st) lst = b_key lb).
  { unfold key_at. by rewrite (skel_lookup _ _ _ Hlb). }
  assert (HlstF : lst ∈ family (skel <$> heap st) P l).
  { apply elem_of_family. by rewrite Hkeyl. }
  set (st1 := if decide (k = lst ∧ i = n) then last_slot_dropped lst n lb st
              else slot_filled k i lst n e d kb lb st) in *.
  assert (Hshape : ∀ k', option_Forall2 (same_links lst k') (heap st !! k')
                           (heap st1 !! k')).
  { intros k'. by apply removed_shape. }
  assert (Hsz1 : size_at st1 lst = n) by by apply removed_size.
  assert (Hsz0 : size_at st lst = S n).
  { unfold size_at. by rewrite Hlb. }
  assert (Hbs1 : m_buckets st1 = m_buckets st).
  { subst st1. by destruct (decide (k = lst ∧ i = n)). }
  (* the slot and the events of the first half *)
  assert (Hmove :
    if decide (k = lst ∧ i = n) then
      entities st1 = entities st
      ∧ trace st1 = trace st ++ shrink_events lst n
    else
      ent st1 (k, i) = Some (Some e) ∧ dat st1 (k, i) = Some d
      ∧ entities st1 !! e = Some (k, i)
      ∧ trace st1
        = trace st ++ move_events k i lst n e ++ shrink_events lst n).
  { subst st1. destruct (decide (k = lst ∧ i = n)) as [Hlast'|Hnl].
    - done.
    - destruct (slot_filled_view st k i kb lst lb n e d Hkb Hlb)
        as (H1 & H2 & H3); [lia|lia| |done].
      intros -> ->. by apply Hnl. }
  exists n, e, d.
  destruct (decide (n = 0)) as [Hn|Hn].
  - (* the last bucket is destroyed *)
    destruct (Hdestroy Hn) as (l1 & l2 & h' & db & f & fb & Hleq & Hrun'
                               & Hok' & Hdb & Hdbf & Hfb & Hh').
    exists (bucket_destroyed rank (l1 ++ l2) h' lst st1), (l1 ++ l2).
    assert (Hagree : ∀ k', k' ≠ lst →
              option_Forall2
                (λ b b', b_key b' = b_key b ∧ b_size b' = b_size b
                         ∧ b_entities b' = b_entities b
                         ∧ b_field_data b' = b_field_data b)
                (heap st1 !! k') (h' !! k')).
    { intros k' Hk'. destruct Hh' as [[_ ->]|(Hfl & l1' & prev & _ & ->)].
      - rewrite lookup_delete_ne by done.
        destruct (heap st1 !! k'); by constructor.
      - rewrite lookup_delete_ne by done.
        destruct (decide (k' = f)) as [->|Hkf].
        + rewrite lookup_insert_eq, Hfb. by constructor.
        + rewrite lookup_insert_ne by done.
          destruct (heap st1 !! k'); by constructor. }
    assert (Hh'lst : h' !! lst = None).
    { destruct Hh' as [[_ ->]|(Hfl & l1' & prev & _ & ->)];
        by rewrite lookup_delete_eq. }
    assert (Hview : ∀ q, q.1 ≠ lst →
              ent (bucket_destroyed rank (l1 ++ l2) h' lst st1) q = ent st1 q
              ∧ dat (bucket_destroyed rank (l1 ++ l2) h' lst st1) q
                = dat st1 q).
    { intros [k' i'] Hk'. cbn in Hk'. unfold ent, dat. cbn.
      destruct (Hagree k' Hk') as [b b' (_ & _ & He' & Hd')|]; [|done].
      cbn. by rewrite He', Hd'. }
    split_and!; try done.
    + unfold ent. cbn. by rewrite Hlb.
    + unfold dat. cbn. by rewrite Hlb.
    + cbn. rewrite Hbs1. apply list_lookup_insert_eq.
      by eapply rank_lt_length.
    + rewrite Hleq. rewrite Hleq in Hnd.
      apply (live_objects_destroyed st h'); [done|done| |by rewrite Hkeyl
                                            |lia].
      intros k' Hk'.
      eapply option_Forall2_compose; [|apply Hshape|by apply Hagree].
      intros a b c (_ & Hkey & _ & _ & _ & Hs & _) (Hkey' & Hs' & _).
      split; [congruence|]. rewrite Hs'. by apply Hs.
    + destruct (decide (k = lst ∧ i = n)) as [Hlast'|Hnl].
      * destruct Hmove as [Hes Htr]. split; [done|].
        apply new_events_app. unfold bucket_destroyed.
        cbn [trace with_trace]. rewrite Htr. by rewrite <- app_assoc.
      * destruct Hmove as (H1 & H2 & H3 & Htr).
        assert (Hkl : k ≠ lst).
        { intros ->. apply Hnl. split; [done|].
          assert (kb = lb) as -> by congruence. lia. }
        destruct (Hview (k, i) Hkl) as [-> ->].
        assert (Hnew : new_events st
                         (bucket_destroyed rank (l1 ++ l2) h' lst st1)
                       = move_events k i lst n e ++ shrink_events lst n
                         ++ [EvFree lst]).
        { apply new_events_app. unfold bucket_destroyed.
          cbn [trace with_trace]. rewrite Htr. by rewrite <- !app_assoc. }
        split_and!; try done.
        rewrite Hnew. apply hook_calls_move_events. by repeat constructor.
    + eauto.
    + intros Hfirst.
      destruct (family_ok_pointers _ _ _ _ Hok Hl Hlstl)
        as (lb' & f0 & fb0 & lst0 & Hlb0 & Hf0 & _ & _ & Hhd & Hlst0 & _).
      assert (lb' = lb) as -> by congruence.
      assert (f0 = lst) as -> by congruence.
      rewrite HP in Hhd. fold P in Hhd.
      assert (Hne : ∀ k', k' ∈ l1 ++ l2 → k' ≠ lst).
      { intros k' Hk' ->. rewrite Hleq in Hnd.
        apply NoDup_app in Hnd as (_ & Hdis & Hnd).
        apply NoDup_cons in Hnd as [Hn2 _].
        apply elem_of_app in Hk' as [Hk'|Hk']; [|done].
        apply (Hdis _ Hk'). by left. }
      cbn.
      rewrite (family_ext (skel <$> heap st) (skel <$> h') P (l1 ++ l2)).
      2:{ intros k' Hk'. unfold key_at. rewrite !lookup_fmap.
          assert (option_Forall2 (λ b b', b_key b' = b_key b)
                    (heap st !! k') (h' !! k')) as Hkeys.
          { eapply option_Forall2_compose;
              [|apply Hshape|by apply Hagree, Hne].
            intros a b c (_ & Hkey & _) (Hkey' & _). congruence. }
          destruct Hkeys as [b b' Hkey|]; [|done]. done. }
      rewrite Hleq in Hhd, Hfamlast, Hnd.
      rewrite family_app, (family_cons_in _ _ _ _ (eq_trans (f_equal _ Hkeyl) HP))
        in Hhd, Hfamlast.
      pose proof (NoDup_family (skel <$> heap st) P _ Hnd) as HndF.
      rewrite family_app, (family_cons_in _ _ _ _ (eq_trans (f_equal _ Hkeyl) HP))
        in HndF.
      rewrite family_app.
      rewrite (head_middle_NoDup _ _ _ HndF Hhd).
      by rewrite (last_middle_NoDup _ _ _ HndF Hfamlast).
  - (* the last bucket stays *)
    exists st1, l. rewrite (Hrun Hn).
    split_and!; try done.
    + unfold ent. cbn. by rewrite Hlb.
    + unfold dat. cbn. by rewrite Hlb.
    + by rewrite Hbs1.
    + by apply (live_objects_dropped st st1 rank l P lst n).
    + destruct (decide (k = lst ∧ i = n)) as [Hlast'|Hnl].
      * destruct Hmove as [Hes Htr]. split; [done|].
        apply new_events_app. by rewrite Htr, app_nil_r.
      * destruct Hmove as (H1 & H2 & H3 & Htr).
        assert (Hnew : new_events st st1
                       = move_events k i lst n e ++ shrink_events lst n
                         ++ []).
        { apply new_events_app. by rewrite app_nil_r. }
        split_and!; try done.
        rewrite Hnew. apply hook_calls_move_events. constructor.
    + apply removed_last; [done|done|lia].
Qed.

Lemma remove_entity_swap_remove_witness :
  repo_ok example_repo
  ∧ ∃ st', remove_entity 0 0 example_repo = (inr tt, st')
           ∧ repo_ok st' ∧ m_buckets st' !! 0 = Some [0]
           ∧ entities st' !! 11 = Some (0, 0).
Proof.
  split; [exact example_repo_ok|].
  destruct (remove_entity_swap_remove example_repo 0 [0; 1] 0 0
              (example_bucket [2; 1; 0]%Z 2 2 [Some 12; Some 10] (Some 0)
                 (Some 1))
              1
              (example_bucket [2; 1; 1]%Z 2 1 [Some 11; None] (Some 0) None)
              example_repo_ok eq_refl)
    as (n & e & d & st' & l' & Hsz & He & Hd & Hrun & Hok' & Hl' & _);
    [by left|reflexivity|cbn; lia|reflexivity|reflexivity|cbn; lia|].
  exists st'. split; [exact Hrun|]. split; [exact Hok'|].
  injection Hrun as <-. split; reflexivity.
Defined.

(** C2, the claim as stated fails: after [declare_bucket] appended a bucket
    to a full family, the last bucket of the family is empty until the
    caller has placed an entity in it.  [remove_entity] of a live slot of
    the family then reads slot [size - 1] of that empty bucket, which is
    undefined behaviour. *)
Lemma remove_entity_swap_remove_fails :
  repo_ok empty_last_repo
  ∧ m_buckets empty_last_repo = [[0; 1; 2; 3]]
  ∧ last_of (heap empty_last_repo) 2 = Some 3
  ∧ b_size <$> heap empty_last_repo !! 3 = Some 0
  ∧ b_size <$> heap empty_last_repo !! 2 = Some 2
  ∧ ent empty_last_repo (2, 0) = Some (Some 20)
  ∧ (remove_entity 2 0 empty_last_repo).1 = inl Undefined.
Proof.
  split_and!; [|by vm_compute..].
  assert (HP : (Z.of_nat (length [2%Z]) + 2 ≤ UINT_MAX)%Z)
    by (unfold UINT_MAX; cbn; lia).
  destruct (declare_bucket_keeps (with_malloc_supply [] two_family_repo) 0
              [2%Z] [] two_family_repo_ok two_family_repo_below_max HP)
    as [_ Hok].
  by apply (Hok 3).
Qed.

End RemoveClaims.


(** * The relocation hook and the failures *)

Section HookClaims.

(** The events of [remove_entity]. *)
Lemma remove_entity_events st rank l k i kb lst lb :
  repo_ok st → m_buckets st !! rank = Some l → k ∈ l →
  heap st !! k = Some kb → i < b_size kb →
  last_of (heap st) k = Some lst → heap st !! lst = Some lb →
  b_size lb ≠ 0 →
  ∃ n e st',
    b_size lb = S n ∧ ent st (lst, n) = Some (Some e)
    ∧ remove_entity k i st = (inr tt, st')
    ∧ new_events st st'
      = (if decide (k = lst ∧ i = n) then [] else move_events k i lst n e)
        ++ shrink_events lst n
        ++ (if decide (n = 0) then [EvFree lst] else []).
Proof.
  intros Hok Hl Hk Hkb Hi Hlast Hlb Hne0.
  destruct (remove_entity_spec _ _ _ _ _ _ _ _ Hok Hl Hk Hkb Hi Hlast Hlb
              Hne0) as (n & e & d & Hsz & He & Hd & Hloc & Hok1 & Hrun
                        & Hdestroy).
  exists n, e.
  assert (Hent : ent st (lst, n) = Some (Some e)).
  { unfold ent. cbn. by rewrite Hlb. }
  assert (Htr : trace (if decide (k = lst ∧ i = n)
                       then last_slot_dropped lst n lb st
                       else slot_filled k i lst n e d kb lb st)
                = trace st
                  ++ (if decide (k = lst ∧ i = n) then []
                      else move_events k i lst n e)
                  ++ shrink_events lst n).
  { by destruct (decide (k = lst ∧ i = n)). }
  destruct (decide (n = 0)) as [Hn|Hn].
  - destruct (Hdestroy Hn) as (l1 & l2 & h' & db & f & fb & _ & Hrun' & _).
    eexists. split_and!; [done|done|exact Hrun'|].
    apply new_events_app. unfold bucket_destroyed. cbn [trace with_trace].
    rewrite Htr. by rewrite <- !app_assoc.
  - eexists. split_and!; [done|done|exact (Hrun Hn)|].
    apply new_events_app. rewrite Htr. by rewrite app_nil_r.
Qed.

Lemma hooks_prompt_slot b i t v cur loc :
  cur ≠ Some t →
  hooks_prompt (slot_events b i t v cur loc) = bool_decide (cur = None)
  ∧ last (slot_events b i t v cur loc) = Some (EvPropagateRelocation t)
  ∧ ∀ c, cur = Some c → hook_calls c (slot_events b i t v cur loc) = 0.
Proof.
  intros Hne. destruct cur as [c|].
  - split_and!; [by cbn|done|].
    intros c' [= <-]. unfold hook_calls, slot_events. cbn [app].
    rewrite !filter_cons. cbn [is_hook_for].
    destruct (Nat.eqb_spec t c) as [->|_]; [done|]. reflexivity.
  - split_and!; [|done|done]. cbn. by rewrite Nat.eqb_refl.
Qed.




End HookClaims.

Section FailureClaims.




End FailureClaims.


(** * [internal_sort_bucket_entities]: the sorted order *)

Section Sorted.

Variable EntityLess : nat → nat → bool.
Hypothesis Hord : strict_total_order EntityLess.

Notation less := (λ a b, EntityLess a b = true).

Lemma EntityLess_asym a b :
  EntityLess a b = true → EntityLess b a = false.
Proof using Hord.
  destruct Hord as (Hirr & Htrans & _). intros Hab.
  destruct (EntityLess b a) eqn:Hba; [|done].
  by rewrite <- (Hirr a), (Htrans a b a Hab Hba).
Qed.

Lemma sort_insert_sorted e l :
  StronglySorted less l → e ∉ l →
  StronglySorted less (sort_insert EntityLess e l).
Proof using Hord.
  destruct Hord as (Hirr & Htrans & Htotal).
  induction 1 as [|x l Hsorted IH Hx]; intros He; cbn.
  - by repeat constructor.
  - apply not_elem_of_cons in He as [Hne He].
    destruct (EntityLess x e) eqn:Hxe.
    + constructor; [by apply IH|].
      apply Forall_forall. intros y Hy.
      rewrite sort_insert_perm in Hy.
      apply elem_of_cons in Hy as [->|Hy]; [done|].
      rewrite Forall_forall in Hx. by apply Hx.
    + assert (Hex : EntityLess e x = true).
      { destruct (Htotal e x Hne) as [|Hc]; [done|congruence]. }
      constructor; [by constructor|].
      constructor; [done|].
      eapply Forall_impl; [exact Hx|]. intros y Hy. cbn in *.
      by eapply Htrans.
Qed.

Lemma sort_entities_sorted es :
  NoDup es → StronglySorted less (sort_entities EntityLess es).
Proof using Hord.
  induction 1 as [|e es He Hnd IH]; cbn; [constructor|].
  fold (sort_entities EntityLess es).
  apply sort_insert_sorted; [done|]. by rewrite sort_entities_perm.
Qed.

Lemma sort_entities_fixed es :
  StronglySorted less es → sort_entities EntityLess es = es.
Proof using Hord.
  induction 1 as [|e es Hsorted IH He]; [done|]. cbn.
  fold (sort_entities EntityLess es). rewrite IH.
  destruct es as [|x es]; [done|]. cbn.
  apply Forall_cons in He as [Hex _].
  by rewrite (EntityLess_asym _ _ Hex).
Qed.

End Sorted.

Section ResortClaim.

Lemma family_storage_nodup st rank l fam es :
  repo_ok st → m_buckets st !! rank = Some l → (∀ k, k ∈ fam → k ∈ l) →
  NoDup fam → storage st fam = Some <$> es → NoDup es.
Proof.
  intros Hok Hl Hfam Hnd Hes.
  destruct (storage_located _ _ _ _ Hok Hl Hfam) as (es' & Hes' & Hloc).
  assert (es' = es) as ->.
  { rewrite Hes in Hes'. by apply (inj (fmap Some)) in Hes'. }
  eapply (Forall2_NoDup_r _ _ _ _ Hloc), NoDup_family_positions, Hnd.
  Unshelve. cbn. intros p p' e [_ H1] [_ H2]. congruence.
Qed.


Lemma ltb_strict_total_order : strict_total_order Nat.ltb.
Proof.
  split_and!.
  - intros a. apply Nat.ltb_irrefl.
  - intros a b c ?%Nat.ltb_lt ?%Nat.ltb_lt. apply Nat.ltb_lt. lia.
  - intros a b Hne. rewrite !Nat.ltb_lt. lia.
Qed.



End ResortClaim.


(** * What the operations do to the buckets *)

Section Buckets.

(** [destroy_bucket] of a listed bucket [d], in a repository that has the
    invariant; [f] is the first bucket of the family of [d] and [lst] the
    bucket [f] names as the last one.  When [d] is empty and is that last
    bucket, the call returns: [d] is erased from its list and freed, no
    other bucket but [f] is touched, and unless [d] was the first bucket of
    the family, [f] names the bucket that stood before [d] in the list as
    the last bucket.  Otherwise the call fails with a logic error and the
    repository is as it was. *)
Theorem destroy_bucket_contract st rank l d db f fb lst :
  repo_ok st → m_buckets st !! rank = Some l → d ∈ l →
  heap st !! d = Some db → b_first db = Some f →
  heap st !! f = Some fb → b_family fb = Some lst →
  if decide (b_size db = 0 ∧ d = lst) then
    ∃ st' l1 l2,
      l = l1 ++ d :: l2
      ∧ destroy_bucket rank d st = (inr tt, st')
      ∧ m_buckets st' = <[rank := l1 ++ l2]> (m_buckets st)
      ∧ heap st' !! d = None
      ∧ (∀ k, k ≠ d → k ≠ f → heap st' !! k = heap st !! k)
      ∧ (f ≠ d →
         ∃ prev, last l1 = Some prev
                 ∧ heap st' !! f = Some (with_family (Some prev) fb))
      ∧ entities st' = entities st
      ∧ new_events st st' = [EvFree d]
      ∧ repo_ok st'
  else
    destroy_bucket rank d st = (inl (LogicError destroy_bucket_method), st).
Proof.
  intros Hok Hl Hd Hdb Hfi Hfb Hfam.
  destruct (decide (b_size db = 0 ∧ d = lst)) as [[Hsz <-]|Hno].
  - destruct (destroy_bucket_last _ _ _ _ _ _ _ Hok Hl Hd Hdb Hfi Hfb Hfam
                Hsz) as (l1 & l2 & h' & Hsplit & Hrun & Hok' & Hh').
    eexists _, l1, l2. split; [done|]. split; [exact Hrun|].
    split_and!; cbn; try done.
    + destruct Hh' as [[_ ->]|(_ & l1' & prev & _ & ->)];
        by rewrite lookup_delete_eq.
    + intros k Hkd Hkf.
      destruct Hh' as [[_ ->]|(_ & l1' & prev & _ & ->)];
        rewrite lookup_delete_ne by done; [done|].
      by rewrite lookup_insert_ne.
    + intros Hfd.
      destruct Hh' as [[? _]|(_ & l1' & prev & -> & ->)]; [done|].
      exists prev. split; [by rewrite last_snoc|].
      rewrite lookup_delete_ne by done. by rewrite lookup_insert_eq.
    + by apply new_events_app.
  - apply (destroy_bucket_refuses _ _ _ _ _ _ _ _ Hl Hdb Hfi Hfb Hfam).
    destruct (decide (b_size db = 0)); [|by left].
    right. intros ->. by apply Hno.
Qed.

Lemma destroy_bucket_contract_witness :
  repo_ok appended_repo
  ∧ (∃ st', destroy_bucket 0 1 appended_repo = (inr tt, st')
            ∧ m_buckets st' = [[0]]
            ∧ last_of (heap st') 0 = Some 0)
  ∧ destroy_bucket 0 0 appended_repo
    = (inl (LogicError destroy_bucket_method), appended_repo).
Proof.
  split; [exact appended_repo_ok|].
  assert (H0 : 0 ∈ [0; 1]) by (by left).
  assert (H1 : 1 ∈ [0; 1]) by (right; by left).
  split.
  - pose proof (destroy_bucket_contract appended_repo 0 [0; 1] 1
                  (example_bucket [2; 1; 1]%Z 2 0 [None; None] (Some 0) None)
                  0
                  (example_bucket [2; 1; 0]%Z 2 2 [Some 12; Some 10]
                     (Some 0) (Some 1))
                  1 appended_repo_ok eq_refl H1 eq_refl eq_refl eq_refl
                  eq_refl) as H.
    cbn in H. destruct H as (st' & l1 & l2 & _ & Hrun & _).
    exists st'. split; [exact Hrun|].
    injection Hrun as <-. split; reflexivity.
  - exact (destroy_bucket_contract appended_repo 0 [0; 1] 0
             (example_bucket [2; 1; 0]%Z 2 2 [Some 12; Some 10] (Some 0)
                (Some 1))
             0
             (example_bucket [2; 1; 0]%Z 2 2 [Some 12; Some 10] (Some 0)
                (Some 1))
             1 appended_repo_ok eq_refl H0 eq_refl eq_refl eq_refl eq_refl).
Defined.

(** A bucket that [declare_bucket] allocated and that [destroy_bucket]
    destroys before anything was placed in it leaves no trace: in a
    repository that has the invariant, with the family counters below the
    greatest [unsigned] value, [destroy_bucket] of the new bucket returns,
    and the heap, with the family pointers, the bucket lists and the
    back-references are what they were before [declare_bucket]. *)
Theorem declare_destroy_round_trip st rank l P fields n st1 :
  repo_ok st → below_max st → m_buckets st !! rank = Some l →
  (Z.of_nat (length P) + 2 ≤ UINT_MAX)%Z →
  declare_bucket rank P fields st = (inr n, st1) →
  heap st !! n = None →
  ∃ st2,
    destroy_bucket rank n st1 = (inr tt, st2)
    ∧ heap st2 = heap st ∧ m_buckets st2 = m_buckets st
    ∧ entities st2 = entities st
    ∧ new_events st st2 = [EvAllocate n; EvFree n]
    ∧ repo_ok st2.
Proof.
  intros Hok Hbelow Hl HP Hrun Hnew.
  pose proof (repo_ok_fresh _ Hok) as Hfresh.
  pose proof (repo_ok_rank _ _ _ Hok Hl) as Hrk.
  pose proof (declare_bucket_spec st rank P fields l Hok Hbelow Hl HP)
    as Hspec.
  assert (Hins : ∀ ik x, <[rank := take ik l ++ drop ik l]>
                   (<[rank := take ik l ++ x :: drop ik l]> (m_buckets st))
                 = m_buckets st).
  { intros ik x. rewrite list_insert_insert_eq, take_drop.
    by apply list_insert_id. }
  destruct (last (family (skel <$> heap st) P l)) as [p|] eqn:Hlast.
  - destruct Hspec as (pb & f & fb & Hpl & Hpb & Hfi & Hfb & Hfam & HpP
                       & Hdecl).
    rewrite Hrun in Hdecl.
    destruct (b_size pb =? 0) eqn:Hsz; [done|].
    destruct (b_size pb <? b_capacity pb) eqn:Hfull.
    { injection Hdecl as -> _. by rewrite Hpb in Hnew. }
    destruct (malloc_succeeds st); [|done].
    destruct (malloc_succeeds (after_malloc st)); [|done].
    injection Hdecl as -> ->.
    set (st0 := after_malloc (after_malloc st)) in *.
    set (n := next_address st) in *.
    set (ik := family_end st l P) in *.
    apply Nat.eqb_neq in Hsz. apply Nat.ltb_ge in Hfull.
    assert (Hok1 : repo_ok (family_extended rank l ik p f pb fb st0)).
    { pose proof (repo_ok_family_extended st0 rank l P p pb f fb) as H.
      apply H; try done. lia. }
    assert (Hfn : f ≠ n) by (intros ->; by rewrite Hfresh in Hfb).
    assert (Hnd : NoDup (take ik l ++ n :: drop ik l)).
    { eapply keys_sorted_NoDup, (repo_ok_rank _ rank _ Hok1). cbn.
      apply list_lookup_insert_eq. by eapply lookup_lt_Some. }
    destruct (destroy_bucket_last (family_extended rank l ik p f pb fb st0)
                rank (take ik l ++ n :: drop ik l) n
                (new_bucket rank
                   (search_key (key_part_ord (b_key pb))
                      (1 + key_family_count (b_key pb)))
                   (m_bucket_capacity st) (b_field_map pb) (Some f) None)
                f (with_family (Some n) fb) Hok1)
      as (l1 & l2 & h' & Hsplit & Hdestroy & Hok2 & Hh').
    { cbn. apply list_lookup_insert_eq. by eapply lookup_lt_Some. }
    { apply elem_of_app. right. by left. }
    { cbn. unfold extended_heap. cbn. fold n.
      rewrite lookup_insert_ne by done. by rewrite lookup_insert_eq. }
    { done. }
    { cbn. unfold extended_heap. by rewrite lookup_insert_eq. }
    { done. }
    { done. }
    destruct (NoDup_split_inj _ _ _ _ _ Hnd Hsplit) as [<- <-].
    destruct Hh' as [[? _]|(_ & l1' & prev & Hl1 & Hh')]; [done|].
    assert (prev = p) as ->.
    { assert (Hcnt : counters_below_max (skel <$> heap st) l).
      { apply (below_max_counters _ rank); [done|done|].
        intros k Hk.
        destruct (repo_ok_bucket _ _ _ _ Hok Hl Hk) as (b & ? & _). eauto. }
      pose proof (found_last_bucket _ _ _ _ P Hrk Hcnt HP) as Hfound.
      rewrite Hlast in Hfound. fold (family_end st l P) in Hfound.
      fold ik in Hfound.
      destruct ik as [|ik']; [done|].
      destruct (l !! ik') as [q|] eqn:Hq; [|done].
      destruct ((key_at (skel <$> heap st) <$> l) !! ik'); [|done].
      destruct (bucket_part_equal _ _); [|done]. injection Hfound as ->.
      rewrite (take_S_r _ _ _ Hq) in Hl1.
      by apply app_inj_tail in Hl1 as [_ ->]. }
    eexists. split; [exact Hdestroy|].
    split; [|split; [apply Hins|split; [done|split; [|done]]]].
    + cbn. rewrite Hh'. cbn. unfold extended_heap. cbn. fold n.
      apply map_eq. intros k.
      destruct (decide (k = n)) as [->|Hkn].
      { by rewrite lookup_delete_eq, Hfresh. }
      rewrite lookup_delete_ne by done.
      destruct (decide (k = f)) as [->|Hkf].
      { rewrite lookup_insert_eq, Hfb. f_equal.
        destruct fb. cbn in *. by rewrite Hfam. }
      by rewrite !lookup_insert_ne.
    + apply new_events_app. cbn. by rewrite <- app_assoc.
  - rewrite Hrun in Hspec.
    destruct (malloc_succeeds st); [|done].
    destruct (new_field_map _ _ _ _ _) as [e|fm]; [done|].
    destruct (malloc_succeeds (after_malloc st)); [|done].
    destruct (malloc_succeeds (after_malloc (after_malloc st))); [|done].
    injection Hspec as -> ->.
    set (st0 := after_malloc (after_malloc (after_malloc st))) in *.
    set (n := next_address st) in *.
    set (ik := family_end st l P) in *.
    assert (Hfamily : family (skel <$> heap st) P l = []).
    { destruct (family (skel <$> heap st) P l) as [|x fam _] using rev_ind;
        [done|]. by rewrite last_snoc in Hlast. }
    assert (Hok1 : repo_ok (family_created rank l ik P fm st0)).
    { by apply (repo_ok_family_created st0 rank l P fm). }
    assert (Hnd : NoDup (take ik l ++ n :: drop ik l)).
    { eapply keys_sorted_NoDup, (repo_ok_rank _ rank _ Hok1). cbn.
      apply list_lookup_insert_eq. by eapply lookup_lt_Some. }
    destruct (destroy_bucket_last (family_created rank l ik P fm st0)
                rank (take ik l ++ n :: drop ik l) n
                (new_bucket rank (search_key P 0) (m_bucket_capacity st) fm
                   (Some n) (Some n))
                n
                (new_bucket rank (search_key P 0) (m_bucket_capacity st) fm
                   (Some n) (Some n)) Hok1)
      as (l1 & l2 & h' & Hsplit & Hdestroy & Hok2 & Hh').
    { cbn. apply list_lookup_insert_eq. by eapply lookup_lt_Some. }
    { apply elem_of_app. right. by left. }
    { cbn. unfold created_heap. by rewrite lookup_insert_eq. }
    { done. }
    { cbn. unfold created_heap. by rewrite lookup_insert_eq. }
    { done. }
    { done. }
    destruct (NoDup_split_inj _ _ _ _ _ Hnd Hsplit) as [<- <-].
    destruct Hh' as [[_ Hh']|(? & _)]; [|done].
    eexists. split; [exact Hdestroy|].
    split; [|split; [apply Hins|split; [done|split; [|done]]]].
    + cbn. rewrite Hh'. cbn. unfold created_heap. cbn. fold n.
      rewrite delete_insert_eq. by apply delete_id.
    + apply new_events_app. cbn. by rewrite <- app_assoc.
Qed.

Lemma declare_destroy_round_trip_witness :
  repo_ok two_family_repo ∧ below_max two_family_repo
  ∧ (declare_bucket 0 [2%Z] [] (with_malloc_supply [] two_family_repo)).1
    = inr 3
  ∧ ∃ st2,
      destroy_bucket 0 3
        (declare_bucket 0 [2%Z] [] (with_malloc_supply [] two_family_repo)).2
      = (inr tt, st2)
      ∧ heap st2 = heap two_family_repo
      ∧ m_buckets st2 = m_buckets two_family_repo.
Proof.
  split; [exact two_family_repo_ok|].
  split; [exact two_family_repo_below_max|].
  split; [vm_compute; reflexivity|].
  assert (HP : (Z.of_nat (length [2%Z]) + 2 ≤ UINT_MAX)%Z)
    by (unfold UINT_MAX; cbn; lia).
  assert (Hrun : declare_bucket 0 [2%Z] []
                   (with_malloc_supply [] two_family_repo)
                 = (inr 3,
                    (declare_bucket 0 [2%Z] []
                       (with_malloc_supply [] two_family_repo)).2))
    by (vm_compute; reflexivity).
  destruct (declare_destroy_round_trip
              (with_malloc_supply [] two_family_repo) 0 [0; 1; 2] [2%Z] [] 3
              _ two_family_repo_ok two_family_repo_below_max eq_refl HP
              Hrun eq_refl)
    as (st2 & Hd & Hh & Hb & _).
  exists st2. split; [exact Hd|]. split; [exact Hh|exact Hb].
Defined.

(** [internal_sort_bucket_entities] moves entities between the slots that
    are there: when it returns, in a repository that has the invariant and
    family counters below the greatest [unsigned] value, the bucket lists
    are what they were, the same buckets are allocated (a scratch bucket is
    gone again), and every bucket has the rank, key, capacity, size and
    family pointers it had. *)
Theorem sort_keeps_buckets EntityLess st st' :
  repo_ok st → below_max st →
  internal_sort_bucket_entities EntityLess st = (inr tt, st') →
  m_buckets st' = m_buckets st
  ∧ m_bucket_capacity st' = m_bucket_capacity st
  ∧ ∀ k, skel <$> heap st' !! k = skel <$> heap st !! k.
Proof.
  intros Hok Hbelow Hrun.
  pose proof (internal_sort_bucket_entities_spec EntityLess st Hok Hbelow)
    as Hspec.
  rewrite Hrun in Hspec.
  destruct Hspec as ((_ & Hb & Hsk & Hc & _) & _).
  split_and!; [done|done|].
  intros k. apply (f_equal (λ m, m !! k)) in Hsk.
  by rewrite !lookup_fmap in Hsk.
Qed.

Lemma sort_keeps_buckets_witness :
  repo_ok example_repo ∧ below_max example_repo
  ∧ (internal_sort_bucket_entities Nat.ltb example_repo).1 = inr tt
  ∧ m_buckets (internal_sort_bucket_entities Nat.ltb example_repo).2
    = [[0; 1]]
  ∧ b_size <$> heap (internal_sort_bucket_entities Nat.ltb example_repo).2
               !! 1
    = Some 1.
Proof.
  split; [exact example_repo_ok|]. split; [exact example_repo_below_max|].
  split; [vm_compute; reflexivity|].
  assert (Hrun : internal_sort_bucket_entities Nat.ltb example_repo
                 = (inr tt,
                    (internal_sort_bucket_entities Nat.ltb example_repo).2))
    by (vm_compute; reflexivity).
  destruct (sort_keeps_buckets Nat.ltb example_repo _ example_repo_ok
              example_repo_below_max Hrun) as (Hb & _ & Hsk).
  split; [exact Hb|].
  specialize (Hsk 1).
  destruct (heap (internal_sort_bucket_entities Nat.ltb example_repo).2 !! 1)
    as [b|]; [|discriminate Hsk].
  cbn in Hsk. injection Hsk as _ _ _ Hs _ _. cbn. by rewrite Hs.
Defined.

End Buckets.

